(** * Leaf game-server framework: a shallow embedding and its properties

    The development follows the Go packages of the repository:
    - [network]: the length-prefixed frame codec ([MsgParser]) and the two
      connection types with their bounded write queue ([TCPConn], [WSConn]);
    - [chanrpc]: the channel RPC server and client;
    - [module]: the ordered module registry and its teardown;
    - [timer]: the cron expression parser and the next-fire computation.

    Integers of a fixed width are integers of [Z] with the wrap-around written
    out; byte slices are lists of [Byte.byte]; a Go channel is a record with
    its buffer, capacity and closed flag; a panic is an explicit outcome. *)

From Stdlib Require Import ZArith List String Ascii Bool Lia.
From Stdlib.Strings Require Import Byte.
From stdpp Require Import base gmap strings.
Import ListNotations.
Local Open Scope Z_scope.

(* ===================================================================== *)
(** * Go runtime: outcomes, errors, fixed-width integers, channels        *)
(* ===================================================================== *)

(** A call either returns a value, or panics with a value (rendered as text),
    or parks the calling task on a channel operation that cannot proceed in
    the current state. *)
Inductive outcome (A : Type) : Type :=
| Returns (a : A)
| Panics (r : string)
| Blocks.
Arguments Returns {A} a.
Arguments Panics {A} r.
Arguments Blocks {A}.

Definition obind {A B : Type} (m : outcome A) (k : A -> outcome B) : outcome B :=
  match m with
  | Returns a => k a
  | Panics r => Panics r
  | Blocks => Blocks
  end.

Notation "'do!' x <- m ; k" := (obind m (fun x => k))
  (at level 10, x name, m at level 100, k at level 200).

(** Go's [error]: [None] is [nil], [Some s] carries the message. *)
Definition error : Type := option string.

(** Conversions [uint32(x)], [uint16(x)] and [byte(x)] keep the low bits. *)
Definition uint32 (z : Z) : Z := z mod 4294967296.
Definition uint16 (z : Z) : Z := z mod 65536.

Definition byte_of_Z (z : Z) : byte :=
  match Byte.of_N (Z.to_N (z mod 256)) with
  | Some b => b
  | None => x00
  end.

Definition Z_of_byte (b : byte) : Z := Z.of_N (Byte.to_N b).

Definition len {A : Type} (l : list A) : Z := Z.of_nat (length l).

Definition MaxUint8 : Z := 255.
Definition MaxUint16 : Z := 65535.
Definition MaxUint32 : Z := 4294967295.

(** A buffered channel: the queued elements (head is the next one received),
    the capacity fixed by [make], and whether [close] was called. *)
Record chan (A : Type) : Type := mkChan {
  ch_buf : list A;
  ch_cap : Z;
  ch_closed : bool
}.
Arguments mkChan {A} _ _ _.
Arguments ch_buf {A} _.
Arguments ch_cap {A} _.
Arguments ch_closed {A} _.

(** [make(chan A, n)] panics on a negative size. *)
Definition make_chan {A : Type} (n : Z) : outcome (chan A) :=
  if n <? 0 then Panics "makechan: size out of range"
  else Returns (mkChan [] n false).

(** [close(ch)] panics on a channel that is already closed. *)
Definition close_chan {A : Type} (ch : chan A) : outcome (chan A) :=
  if ch_closed ch then Panics "close of closed channel"
  else Returns (mkChan (ch_buf ch) (ch_cap ch) true).

(** The result of offering a value to a channel when no receiver is parked:
    it is queued, or the sender would block (buffer full), or the channel is
    closed and the send panics. *)
Inductive send_result (A : Type) : Type :=
| Sent (ch : chan A)
| WouldBlock
| SendPanics.
Arguments Sent {A} ch.
Arguments WouldBlock {A}.
Arguments SendPanics {A}.

Definition chan_send {A : Type} (ch : chan A) (x : A) : send_result A :=
  if ch_closed ch then SendPanics
  else if len (ch_buf ch) <? ch_cap ch
       then Sent (mkChan (ch_buf ch ++ [x]) (ch_cap ch) false)
       else WouldBlock.

(* ===================================================================== *)
(** * Package network: the frame codec                                    *)
(* ===================================================================== *)

Record MsgParser : Type := mkMsgParser {
  lenMsgLen : Z;
  minMsgLen : Z;
  maxMsgLen : Z;
  littleEndian : bool
}.

Definition NewMsgParser : MsgParser :=
  {| lenMsgLen := 2; minMsgLen := 1; maxMsgLen := 4096; littleEndian := false |}.

(** [SetMsgLen]: each argument is taken only when it passes its gate, then
    both bounds are clamped to what the header can hold.  The [switch] has no
    default, so [max] stays [0] for any other width. *)
Definition MsgParser_SetMsgLen (p : MsgParser)
    (lenMsgLen' minMsgLen' maxMsgLen' : Z) : MsgParser :=
  let l := if (lenMsgLen' =? 1) || (lenMsgLen' =? 2) || (lenMsgLen' =? 4)
           then lenMsgLen' else lenMsgLen p in
  let mn := if negb (minMsgLen' =? 0) then minMsgLen' else minMsgLen p in
  let mx := if negb (maxMsgLen' =? 0) then maxMsgLen' else maxMsgLen p in
  let max := if l =? 1 then MaxUint8
             else if l =? 2 then MaxUint16
             else if l =? 4 then MaxUint32
             else 0 in
  {| lenMsgLen := l;
     minMsgLen := if mn >? max then max else mn;
     maxMsgLen := if mx >? max then max else mx;
     littleEndian := littleEndian p |}.

Definition MsgParser_SetByteOrder (p : MsgParser) (littleEndian' : bool) : MsgParser :=
  {| lenMsgLen := lenMsgLen p;
     minMsgLen := minMsgLen p;
     maxMsgLen := maxMsgLen p;
     littleEndian := littleEndian' |}.

(** ** encoding/binary *)

Definition BigEndian_Uint16 (b : list byte) : Z :=
  Z.lor (Z_of_byte (nth 1 b x00)) (Z.shiftl (Z_of_byte (nth 0 b x00)) 8).

Definition LittleEndian_Uint16 (b : list byte) : Z :=
  Z.lor (Z_of_byte (nth 0 b x00)) (Z.shiftl (Z_of_byte (nth 1 b x00)) 8).

Definition BigEndian_Uint32 (b : list byte) : Z :=
  Z.lor (Z.lor (Z.lor (Z_of_byte (nth 3 b x00))
                      (Z.shiftl (Z_of_byte (nth 2 b x00)) 8))
               (Z.shiftl (Z_of_byte (nth 1 b x00)) 16))
        (Z.shiftl (Z_of_byte (nth 0 b x00)) 24).

Definition LittleEndian_Uint32 (b : list byte) : Z :=
  Z.lor (Z.lor (Z.lor (Z_of_byte (nth 0 b x00))
                      (Z.shiftl (Z_of_byte (nth 1 b x00)) 8))
               (Z.shiftl (Z_of_byte (nth 2 b x00)) 16))
        (Z.shiftl (Z_of_byte (nth 3 b x00)) 24).

(** The [Put] functions index the last byte first, so a short buffer panics. *)
Definition BigEndian_PutUint16 (b : list byte) (v : Z) : outcome (list byte) :=
  if len b <? 2 then Panics "index out of range"
  else Returns ([byte_of_Z (Z.shiftr v 8); byte_of_Z v] ++ skipn 2 b).

Definition LittleEndian_PutUint16 (b : list byte) (v : Z) : outcome (list byte) :=
  if len b <? 2 then Panics "index out of range"
  else Returns ([byte_of_Z v; byte_of_Z (Z.shiftr v 8)] ++ skipn 2 b).

Definition BigEndian_PutUint32 (b : list byte) (v : Z) : outcome (list byte) :=
  if len b <? 4 then Panics "index out of range"
  else Returns ([byte_of_Z (Z.shiftr v 24); byte_of_Z (Z.shiftr v 16);
                 byte_of_Z (Z.shiftr v 8); byte_of_Z v] ++ skipn 4 b).

Definition LittleEndian_PutUint32 (b : list byte) (v : Z) : outcome (list byte) :=
  if len b <? 4 then Panics "index out of range"
  else Returns ([byte_of_Z v; byte_of_Z (Z.shiftr v 8);
                 byte_of_Z (Z.shiftr v 16); byte_of_Z (Z.shiftr v 24)] ++ skipn 4 b).

(** ** The transport under a connection

    [net_in] holds the bytes the peer has sent and that were not read yet (the
    stream ends after them); [net_out] collects what the writer task wrote. *)
Record netConn : Type := mkNetConn {
  net_in : list byte;
  net_out : list byte;
  net_linger0 : bool;
  net_closed : bool
}.

Definition net_SetLinger0 (c : netConn) : netConn :=
  {| net_in := net_in c; net_out := net_out c;
     net_linger0 := true; net_closed := net_closed c |}.

Definition net_Close (c : netConn) : netConn :=
  {| net_in := net_in c; net_out := net_out c;
     net_linger0 := net_linger0 c; net_closed := true |}.

(** [conn.Write(b)]: fails on a closed transport. *)
Definition net_Write (c : netConn) (b : list byte) : netConn * error :=
  if net_closed c then (c, Some "use of closed network connection"%string)
  else ({| net_in := net_in c; net_out := net_out c ++ b;
           net_linger0 := net_linger0 c; net_closed := false |}, None).

(** [io.ReadFull(conn, buf)] with [len(buf) = n]: an empty buffer is filled
    without a read; otherwise the stream must still hold [n] bytes. *)
Definition io_ReadFull (c : netConn) (n : Z) : (list byte + string) * netConn :=
  if n <=? 0 then (inl [], c)
  else if net_closed c then (inr "use of closed network connection"%string, c)
  else if len (net_in c) <? n
       then (inr (if len (net_in c) =? 0 then "EOF"%string else "unexpected EOF"%string),
             {| net_in := []; net_out := net_out c;
                net_linger0 := net_linger0 c; net_closed := false |})
       else (inl (firstn (Z.to_nat n) (net_in c)),
             {| net_in := skipn (Z.to_nat n) (net_in c); net_out := net_out c;
                net_linger0 := net_linger0 c; net_closed := false |}).

(* ===================================================================== *)
(** * Package network: the TCP connection                                 *)
(* ===================================================================== *)

(** The struct fields, plus [writerExited]: the control state of the writer
    task that [newTCPConn] starts.  The queue holds [None] for the [nil]
    buffer that asks the writer to stop. *)
Record TCPConn : Type := mkTCPConn {
  conn : netConn;
  writeChan : chan (option (list byte));
  closeFlag : bool;
  msgParser : MsgParser;
  writerExited : bool
}.

Definition newTCPConn (conn0 : netConn) (pendingWriteNum : Z)
    (msgParser0 : MsgParser) : outcome TCPConn :=
  do! ch <- make_chan pendingWriteNum;
  Returns {| conn := conn0; writeChan := ch; closeFlag := false;
             msgParser := msgParser0; writerExited := false |}.

Definition TCPConn_doDestroy (c : TCPConn) : outcome TCPConn :=
  let conn1 := net_Close (net_SetLinger0 (conn c)) in
  if negb (closeFlag c) then
    do! ch <- close_chan (writeChan c);
    Returns {| conn := conn1; writeChan := ch; closeFlag := true;
               msgParser := msgParser c; writerExited := writerExited c |}
  else
    Returns {| conn := conn1; writeChan := writeChan c; closeFlag := closeFlag c;
               msgParser := msgParser c; writerExited := writerExited c |}.

Definition TCPConn_Destroy (c : TCPConn) : outcome TCPConn :=
  TCPConn_doDestroy c.

Definition TCPConn_doWrite (c : TCPConn) (b : option (list byte)) : outcome TCPConn :=
  if len (ch_buf (writeChan c)) =? ch_cap (writeChan c) then
    TCPConn_doDestroy c
  else
    match chan_send (writeChan c) b with
    | Sent ch => Returns {| conn := conn c; writeChan := ch; closeFlag := closeFlag c;
                            msgParser := msgParser c; writerExited := writerExited c |}
    | WouldBlock => Blocks
    | SendPanics => Panics "send on closed channel"
    end.

Definition TCPConn_Close (c : TCPConn) : outcome TCPConn :=
  if closeFlag c then Returns c
  else
    do! c1 <- TCPConn_doWrite c None;
    Returns {| conn := conn c1; writeChan := writeChan c1; closeFlag := true;
               msgParser := msgParser c1; writerExited := writerExited c1 |}.

Definition TCPConn_Write (c : TCPConn) (b : option (list byte)) : outcome TCPConn :=
  match b with
  | None => Returns c
  | Some _ => if closeFlag c then Returns c else TCPConn_doWrite c b
  end.

(** One turn of the writer task: take the next buffer and write it to the
    transport; leave the loop on the [nil] buffer, on a write error ([fail]
    stands for an error the peer causes) or when the queue is closed and
    drained; on leaving, close the transport and set the closed flag.  [None]:
    the task is parked on the empty queue, or has exited. *)
Definition TCPConn_writer_exit (c : TCPConn) (rest : list (option (list byte)))
    : TCPConn :=
  {| conn := net_Close (conn c);
     writeChan := mkChan rest (ch_cap (writeChan c)) (ch_closed (writeChan c));
     closeFlag := true; msgParser := msgParser c; writerExited := true |}.

Definition TCPConn_writer_step (c : TCPConn) (fail : bool) : option TCPConn :=
  if writerExited c then None
  else
    match ch_buf (writeChan c) with
    | [] => if ch_closed (writeChan c) then Some (TCPConn_writer_exit c []) else None
    | None :: rest => Some (TCPConn_writer_exit c rest)
    | Some b :: rest =>
        match net_Write (conn c) b with
        | (conn1, None) =>
            if fail then Some (TCPConn_writer_exit c rest)
            else Some {| conn := conn1;
                         writeChan := mkChan rest (ch_cap (writeChan c))
                                             (ch_closed (writeChan c));
                         closeFlag := closeFlag c; msgParser := msgParser c;
                         writerExited := false |}
        | (_, Some _) => Some (TCPConn_writer_exit c rest)
        end
    end.

Definition TCPConn_set_conn (c : TCPConn) (conn1 : netConn) : TCPConn :=
  {| conn := conn1; writeChan := writeChan c; closeFlag := closeFlag c;
     msgParser := msgParser c; writerExited := writerExited c |}.

(** ** MsgParser.Read *)

Definition MsgParser_Read (p : MsgParser) (c : TCPConn)
    : outcome ((list byte + string) * TCPConn) :=
  if (lenMsgLen p <? 0) || (4 <? lenMsgLen p) then Panics "slice bounds out of range"
  else
    match io_ReadFull (conn c) (lenMsgLen p) with
    | (inr err, conn1) => Returns (inr err, TCPConn_set_conn c conn1)
    | (inl bufMsgLen, conn1) =>
        let msgLen :=
          if lenMsgLen p =? 1 then Z_of_byte (nth 0 bufMsgLen x00)
          else if lenMsgLen p =? 2 then
            if littleEndian p then LittleEndian_Uint16 bufMsgLen
            else BigEndian_Uint16 bufMsgLen
          else if lenMsgLen p =? 4 then
            if littleEndian p then LittleEndian_Uint32 bufMsgLen
            else BigEndian_Uint32 bufMsgLen
          else 0 in
        if msgLen >? maxMsgLen p then
          Returns (inr "message too long"%string, TCPConn_set_conn c conn1)
        else if msgLen <? minMsgLen p then
          Returns (inr "message too short"%string, TCPConn_set_conn c conn1)
        else
          match io_ReadFull conn1 msgLen with
          | (inr err, conn2) => Returns (inr err, TCPConn_set_conn c conn2)
          | (inl msgData, conn2) => Returns (inl msgData, TCPConn_set_conn c conn2)
          end
    end.

(** ** MsgParser.Write *)

(** The first loop: [msgLen += uint32(len(args[i]))] on a [uint32]. *)
Definition Write_msgLen (args : list (list byte)) : Z :=
  fold_left (fun msgLen a => uint32 (msgLen + uint32 (len a))) args 0.

(** The header [switch]; no case matches any other width. *)
Definition Write_header (p : MsgParser) (msg : list byte) (msgLen : Z)
    : outcome (list byte) :=
  if lenMsgLen p =? 1 then
    match msg with
    | [] => Panics "index out of range"
    | _ :: tl => Returns (byte_of_Z msgLen :: tl)
    end
  else if lenMsgLen p =? 2 then
    if littleEndian p then LittleEndian_PutUint16 msg (uint16 msgLen)
    else BigEndian_PutUint16 msg (uint16 msgLen)
  else if lenMsgLen p =? 4 then
    if littleEndian p then LittleEndian_PutUint32 msg msgLen
    else BigEndian_PutUint32 msg msgLen
  else Returns msg.

(** [copy(msg[l:], a)]: as many bytes of [a] as [msg[l:]] has room for. *)
Definition copy_at (msg : list byte) (l : Z) (a : list byte) : list byte :=
  let room := len msg - l in
  let n := Z.min room (len a) in
  firstn (Z.to_nat l) msg ++ firstn (Z.to_nat n) a ++ skipn (Z.to_nat (l + n)) msg.

(** The second loop; [msg[l:]] panics once [l] is past the end of [msg]. *)
Fixpoint Write_copy (msg : list byte) (l : Z) (args : list (list byte))
    : outcome (list byte) :=
  match args with
  | [] => Returns msg
  | a :: args' =>
      if (l <? 0) || (len msg <? l) then Panics "slice bounds out of range"
      else Write_copy (copy_at msg l a) (l + len a) args'
  end.

(** The buffer [Write] builds, or the error it returns before building one. *)
Definition Write_frame (p : MsgParser) (args : list (list byte))
    : outcome (list byte + string) :=
  let msgLen := Write_msgLen args in
  if msgLen >? maxMsgLen p then Returns (inr "message too long"%string)
  else if msgLen <? minMsgLen p then Returns (inr "message too short"%string)
  else
    let msg0 := repeat x00 (Z.to_nat (uint32 (uint32 (lenMsgLen p) + msgLen))) in
    do! msg1 <- Write_header p msg0 msgLen;
    do! msg <- Write_copy msg1 (lenMsgLen p) args;
    Returns (inl msg).

Definition MsgParser_Write (p : MsgParser) (c : TCPConn) (args : list (list byte))
    : outcome (error * TCPConn) :=
  do! fr <- Write_frame p args;
  match fr with
  | inr err => Returns (Some err, c)
  | inl msg =>
      do! c1 <- TCPConn_Write c (Some msg);
      Returns (None, c1)
  end.

Definition TCPConn_ReadMsg (c : TCPConn) : outcome ((list byte + string) * TCPConn) :=
  MsgParser_Read (msgParser c) c.

Definition TCPConn_WriteMsg (c : TCPConn) (args : list (list byte))
    : outcome (error * TCPConn) :=
  MsgParser_Write (msgParser c) c args.

(* ===================================================================== *)
(** * Package network: the WebSocket connection                           *)
(* ===================================================================== *)

(** The WebSocket transport exchanges whole binary messages. *)
Record wsNetConn : Type := mkWsNetConn {
  wsn_in : list (list byte);
  wsn_out : list (list byte);
  wsn_linger0 : bool;
  wsn_closed : bool
}.

Definition wsn_SetLinger0 (c : wsNetConn) : wsNetConn :=
  {| wsn_in := wsn_in c; wsn_out := wsn_out c;
     wsn_linger0 := true; wsn_closed := wsn_closed c |}.

Definition wsn_Close (c : wsNetConn) : wsNetConn :=
  {| wsn_in := wsn_in c; wsn_out := wsn_out c;
     wsn_linger0 := wsn_linger0 c; wsn_closed := true |}.

Definition wsn_WriteMessage (c : wsNetConn) (b : list byte) : wsNetConn * error :=
  if wsn_closed c then (c, Some "use of closed network connection"%string)
  else ({| wsn_in := wsn_in c; wsn_out := wsn_out c ++ [b];
           wsn_linger0 := wsn_linger0 c; wsn_closed := false |}, None).

Definition wsn_ReadMessage (c : wsNetConn) : (list byte + string) * wsNetConn :=
  if wsn_closed c then (inr "use of closed network connection"%string, c)
  else
    match wsn_in c with
    | [] => (inr "EOF"%string, c)
    | m :: rest => (inl m, {| wsn_in := rest; wsn_out := wsn_out c;
                              wsn_linger0 := wsn_linger0 c; wsn_closed := false |})
    end.

(** The fields of [WSConn] carry the prefix [ws_]; [ws_writerExited] is the
    control state of the writer task, as for [TCPConn]. *)
Record WSConn : Type := mkWSConn {
  ws_conn : wsNetConn;
  ws_writeChan : chan (option (list byte));
  ws_maxMsgLen : Z;
  ws_closeFlag : bool;
  ws_writerExited : bool
}.

Definition newWSConn (conn0 : wsNetConn) (pendingWriteNum : Z) (maxMsgLen0 : Z)
    : outcome WSConn :=
  do! ch <- make_chan pendingWriteNum;
  Returns {| ws_conn := conn0; ws_writeChan := ch; ws_maxMsgLen := maxMsgLen0;
             ws_closeFlag := false; ws_writerExited := false |}.

Definition WSConn_doDestroy (c : WSConn) : outcome WSConn :=
  let conn1 := wsn_Close (wsn_SetLinger0 (ws_conn c)) in
  if negb (ws_closeFlag c) then
    do! ch <- close_chan (ws_writeChan c);
    Returns {| ws_conn := conn1; ws_writeChan := ch; ws_maxMsgLen := ws_maxMsgLen c;
               ws_closeFlag := true; ws_writerExited := ws_writerExited c |}
  else
    Returns {| ws_conn := conn1; ws_writeChan := ws_writeChan c;
               ws_maxMsgLen := ws_maxMsgLen c;
               ws_closeFlag := ws_closeFlag c; ws_writerExited := ws_writerExited c |}.

Definition WSConn_Destroy (c : WSConn) : outcome WSConn :=
  WSConn_doDestroy c.

Definition WSConn_doWrite (c : WSConn) (b : option (list byte)) : outcome WSConn :=
  if len (ch_buf (ws_writeChan c)) =? ch_cap (ws_writeChan c) then
    WSConn_doDestroy c
  else
    match chan_send (ws_writeChan c) b with
    | Sent ch => Returns {| ws_conn := ws_conn c; ws_writeChan := ch;
                            ws_maxMsgLen := ws_maxMsgLen c;
                            ws_closeFlag := ws_closeFlag c;
                            ws_writerExited := ws_writerExited c |}
    | WouldBlock => Blocks
    | SendPanics => Panics "send on closed channel"
    end.

Definition WSConn_Close (c : WSConn) : outcome WSConn :=
  if ws_closeFlag c then Returns c
  else
    do! c1 <- WSConn_doWrite c None;
    Returns {| ws_conn := ws_conn c1; ws_writeChan := ws_writeChan c1;
               ws_maxMsgLen := ws_maxMsgLen c1;
               ws_closeFlag := true; ws_writerExited := ws_writerExited c1 |}.

Definition WSConn_ReadMsg (c : WSConn) : (list byte + string) * WSConn :=
  match wsn_ReadMessage (ws_conn c) with
  | (r, conn1) => (r, {| ws_conn := conn1; ws_writeChan := ws_writeChan c;
                         ws_maxMsgLen := ws_maxMsgLen c;
                         ws_closeFlag := ws_closeFlag c;
                         ws_writerExited := ws_writerExited c |})
  end.

(** The merge loop of [WriteMsg]; [msg] has [msgLen] bytes, [l] is an [int]. *)
Fixpoint WSConn_merge (msg : list byte) (l : Z) (args : list (list byte))
    : outcome (list byte) :=
  match args with
  | [] => Returns msg
  | a :: args' =>
      if (l <? 0) || (len msg <? l) then Panics "slice bounds out of range"
      else WSConn_merge (copy_at msg l a) (l + len a) args'
  end.

Definition WSConn_WriteMsg (c : WSConn) (args : list (list byte))
    : outcome (error * WSConn) :=
  if ws_closeFlag c then Returns (None, c)
  else
    let msgLen := Write_msgLen args in
    if msgLen >? ws_maxMsgLen c then Returns (Some "message too long"%string, c)
    else if msgLen <? 1 then Returns (Some "message too short"%string, c)
    else
      match args with
      | [a] =>
          do! c1 <- WSConn_doWrite c (Some a);
          Returns (None, c1)
      | _ =>
          do! msg <- WSConn_merge (repeat x00 (Z.to_nat msgLen)) 0 args;
          do! c1 <- WSConn_doWrite c (Some msg);
          Returns (None, c1)
      end.

Definition WSConn_writer_exit (c : WSConn) (rest : list (option (list byte)))
    : WSConn :=
  {| ws_conn := wsn_Close (ws_conn c);
     ws_writeChan := mkChan rest (ch_cap (ws_writeChan c)) (ch_closed (ws_writeChan c));
     ws_maxMsgLen := ws_maxMsgLen c;
     ws_closeFlag := true; ws_writerExited := true |}.

Definition WSConn_writer_step (c : WSConn) (fail : bool) : option WSConn :=
  if ws_writerExited c then None
  else
    match ch_buf (ws_writeChan c) with
    | [] => if ch_closed (ws_writeChan c) then Some (WSConn_writer_exit c []) else None
    | None :: rest => Some (WSConn_writer_exit c rest)
    | Some b :: rest =>
        match wsn_WriteMessage (ws_conn c) b with
        | (conn1, None) =>
            if fail then Some (WSConn_writer_exit c rest)
            else Some {| ws_conn := conn1;
                         ws_writeChan := mkChan rest (ch_cap (ws_writeChan c))
                                                (ch_closed (ws_writeChan c));
                         ws_maxMsgLen := ws_maxMsgLen c;
                         ws_closeFlag := ws_closeFlag c;
                         ws_writerExited := false |}
        | (_, Some _) => Some (WSConn_writer_exit c rest)
        end
    end.

(** ** The states a connection can reach

    Every method runs under the connection's lock, so the producers' calls and
    the turns of the writer task interleave as whole steps. *)
Inductive TCPConn_step : TCPConn -> TCPConn -> Prop :=
| TCP_step_Write c b c' :
    TCPConn_Write c b = Returns c' -> TCPConn_step c c'
| TCP_step_WriteMsg c args e c' :
    TCPConn_WriteMsg c args = Returns (e, c') -> TCPConn_step c c'
| TCP_step_Close c c' :
    TCPConn_Close c = Returns c' -> TCPConn_step c c'
| TCP_step_Destroy c c' :
    TCPConn_Destroy c = Returns c' -> TCPConn_step c c'
| TCP_step_ReadMsg c r c' :
    TCPConn_ReadMsg c = Returns (r, c') -> TCPConn_step c c'
| TCP_step_writer c fail c' :
    TCPConn_writer_step c fail = Some c' -> TCPConn_step c c'.

Inductive TCPConn_reaches (c0 : TCPConn) : TCPConn -> Prop :=
| TCP_reach_refl : TCPConn_reaches c0 c0
| TCP_reach_step c c' :
    TCPConn_reaches c0 c -> TCPConn_step c c' -> TCPConn_reaches c0 c'.

Inductive WSConn_step : WSConn -> WSConn -> Prop :=
| WS_step_WriteMsg c args e c' :
    WSConn_WriteMsg c args = Returns (e, c') -> WSConn_step c c'
| WS_step_Close c c' :
    WSConn_Close c = Returns c' -> WSConn_step c c'
| WS_step_Destroy c c' :
    WSConn_Destroy c = Returns c' -> WSConn_step c c'
| WS_step_ReadMsg c r c' :
    WSConn_ReadMsg c = (r, c') -> WSConn_step c c'
| WS_step_writer c fail c' :
    WSConn_writer_step c fail = Some c' -> WSConn_step c c'.

Inductive WSConn_reaches (c0 : WSConn) : WSConn -> Prop :=
| WS_reach_refl : WSConn_reaches c0 c0
| WS_reach_step c c' :
    WSConn_reaches c0 c -> WSConn_step c c' -> WSConn_reaches c0 c'.

(** What [doDestroy] leaves of a connection that was not closed before: the
    transport closed with linger 0, the write queue closed with its content
    untouched, the closed flag set. *)
Definition TCPConn_destroyed (c : TCPConn) : TCPConn :=
  {| conn := net_Close (net_SetLinger0 (conn c));
     writeChan := mkChan (ch_buf (writeChan c)) (ch_cap (writeChan c)) true;
     closeFlag := true; msgParser := msgParser c; writerExited := writerExited c |}.

Definition WSConn_destroyed (c : WSConn) : WSConn :=
  {| ws_conn := wsn_Close (wsn_SetLinger0 (ws_conn c));
     ws_writeChan := mkChan (ch_buf (ws_writeChan c)) (ch_cap (ws_writeChan c)) true;
     ws_maxMsgLen := ws_maxMsgLen c;
     ws_closeFlag := true; ws_writerExited := ws_writerExited c |}.

(** ** The wire format, as the specification words it

    [length_header p n] is the unsigned integer [n] on [lenMsgLen p] bytes in
    the byte order of [p]; a frame is that header followed by the payload.
    These two are the reference that [Write_frame] and [MsgParser_Read] are
    compared with. *)
Definition length_header (p : MsgParser) (n : Z) : list byte :=
  if lenMsgLen p =? 1 then [byte_of_Z n]
  else if lenMsgLen p =? 2 then
    if littleEndian p then [byte_of_Z n; byte_of_Z (n / 256)]
    else [byte_of_Z (n / 256); byte_of_Z n]
  else if lenMsgLen p =? 4 then
    if littleEndian p
    then [byte_of_Z n; byte_of_Z (n / 256); byte_of_Z (n / 65536);
          byte_of_Z (n / 16777216)]
    else [byte_of_Z (n / 16777216); byte_of_Z (n / 65536);
          byte_of_Z (n / 256); byte_of_Z n]
  else [].

Definition wire_frame (p : MsgParser) (payload : list byte) : list byte :=
  length_header p (len payload) ++ payload.

(** The widths [SetMsgLen] accepts, and the largest length each can carry. *)
Definition valid_width (p : MsgParser) : Prop :=
  lenMsgLen p = 1 \/ lenMsgLen p = 2 \/ lenMsgLen p = 4.

Definition header_max (p : MsgParser) : Z := 2 ^ (8 * lenMsgLen p) - 1.

(** ** Sample configurations and connections used in the examples *)

(** Scenario S1: width 2, big-endian, lengths 1 to 8. *)
Definition parser_S1 : MsgParser := MsgParser_SetMsgLen NewMsgParser 2 1 8.

(** Scenario S2: width 1, at most 255 bytes. *)
Definition parser_S2 : MsgParser := MsgParser_SetMsgLen NewMsgParser 1 1 255.

(** Width 4 with the largest maximum the header allows. *)
Definition parser_wide : MsgParser := MsgParser_SetMsgLen NewMsgParser 4 1 4294967295.

(** A caller asking for a minimum above the maximum. *)
Definition parser_crossed : MsgParser := MsgParser_SetMsgLen NewMsgParser 2 10 5.

Definition idle_net : netConn :=
  {| net_in := []; net_out := []; net_linger0 := false; net_closed := false |}.

(** A fresh connection with room for two pending writes. *)
Definition fresh_conn (p : MsgParser) : TCPConn :=
  {| conn := idle_net; writeChan := mkChan [] 2 false; closeFlag := false;
     msgParser := p; writerExited := false |}.

(** The same connection after [Close]: the stop request is queued and the
    closed flag is set. *)
Definition closed_conn (p : MsgParser) : TCPConn :=
  {| conn := idle_net; writeChan := mkChan [None] 2 false; closeFlag := true;
     msgParser := p; writerExited := false |}.

(** A payload of [2^32 - 4] zero bytes. *)
Definition huge_payload : list byte := repeat x00 (Z.to_nat 4294967292).

(** A TCP and a WebSocket connection with room for one pending write, and the
    same connections once one buffer is queued. *)
Definition one_slot_conn : TCPConn :=
  {| conn := idle_net; writeChan := mkChan [] 1 false; closeFlag := false;
     msgParser := NewMsgParser; writerExited := false |}.

Definition one_slot_conn_full : TCPConn :=
  {| conn := idle_net; writeChan := mkChan [Some [x41]] 1 false; closeFlag := false;
     msgParser := NewMsgParser; writerExited := false |}.

Definition idle_wsnet : wsNetConn :=
  {| wsn_in := []; wsn_out := []; wsn_linger0 := false; wsn_closed := false |}.

Definition one_slot_ws : WSConn :=
  {| ws_conn := idle_wsnet; ws_writeChan := mkChan [] 1 false; ws_maxMsgLen := 4096;
     ws_closeFlag := false; ws_writerExited := false |}.

Definition one_slot_ws_full : WSConn :=
  {| ws_conn := idle_wsnet; ws_writeChan := mkChan [Some [x41]] 1 false;
     ws_maxMsgLen := 4096; ws_closeFlag := false; ws_writerExited := false |}.

(* ===================================================================== *)
(** * Package chanrpc                                                     *)
(* ===================================================================== *)

(** The three function shapes, told apart by what the function returns; the
    three callback shapes mirror them. *)
Inductive shape : Type := Shape0 | Shape1 | ShapeN.

(** Values of type [interface{}].  A function or a callback is a value that
    names a closure; what the closure does when called is given by [run_func]
    and [run_cb] below. *)
#[warnings="-register-all"]
Inductive value : Type :=
| VNil
| VInt (n : Z)
| VStr (s : string)
| VSlice (l : list value)
| VFunc (sh : shape) (name : string)
| VCallback (sh : shape) (name : string).

Record CallInfo : Type := mkCallInfo {
  ci_f : value;
  ci_args : list value;
  ci_chanRet : option nat;
  ci_cb : value
}.

Record RetInfo : Type := mkRetInfo {
  ri_ret : value;
  ri_err : error;
  ri_cb : value
}.

Record Server : Type := mkServer {
  functions : gmap string value;
  ChanCall : chan CallInfo
}.

Record Client : Type := mkClient {
  s : option nat;
  chanSyncRet : nat;
  ChanAsynRet : nat;
  pendingAsynCall : Z
}.

(** A callback invocation: which closure, with which result and error. *)
Record cb_call : Type := mkCbCall {
  cbc_name : string;
  cbc_ret : value;
  cbc_err : error
}.

(** The objects the calls share: the reply channels and the servers, both held
    by reference (a [nat]); the lines written by [log.Error]; the callbacks
    invoked so far, oldest first. *)
Record heap : Type := mkHeap {
  h_chans : gmap nat (chan RetInfo);
  h_servers : gmap nat Server;
  h_log : list string;
  h_calls : list cb_call
}.

Definition heap_set_chan (h : heap) (k : nat) (ch : chan RetInfo) : heap :=
  {| h_chans := <[k := ch]> (h_chans h); h_servers := h_servers h;
     h_log := h_log h; h_calls := h_calls h |}.

Definition heap_set_server (h : heap) (k : nat) (sv : Server) : heap :=
  {| h_chans := h_chans h; h_servers := <[k := sv]> (h_servers h);
     h_log := h_log h; h_calls := h_calls h |}.

Definition log_Error (h : heap) (line : string) : heap :=
  {| h_chans := h_chans h; h_servers := h_servers h;
     h_log := h_log h ++ [line]; h_calls := h_calls h |}.

Definition record_call (h : heap) (c : cb_call) : heap :=
  {| h_chans := h_chans h; h_servers := h_servers h;
     h_log := h_log h; h_calls := h_calls h ++ [c] |}.

Section chanrpc.

(** What a registered function does on its arguments: a function of the first
    shape returns nothing ([VNil] here), one of the third shape a slice. *)
Variable run_func : string -> list value -> outcome value.

(** What a callback does on a result and an error: it returns ([None]) or
    panics with a value ([Some r]). *)
Variable run_cb : string -> value -> error -> option string.

(** [conf.LenStackBuf], and the text [runtime.Stack] has to offer. *)
Variable LenStackBuf : Z.
Variable runtime_Stack : string.

(** [buf[:l]] after [runtime.Stack(buf, false)] on a buffer of
    [LenStackBuf] bytes. *)
Definition stack_text : string :=
  substring 0 (Z.to_nat LenStackBuf) runtime_Stack.

(** The message of a recovered panic, with the stack when it is configured. *)
Definition panic_message (r : string) : string :=
  if LenStackBuf >? 0 then (r ++ ": " ++ stack_text)%string else r.

Definition NewServer (l : Z) : outcome Server :=
  do! ch <- make_chan l;
  Returns {| functions := ∅; ChanCall := ch |}.

Definition Server_Register (sv : Server) (id : string) (f : value) : outcome Server :=
  match f with
  | VFunc _ _ =>
      match functions sv !! id with
      | Some _ => Panics ("function id " ++ id ++ ": already registered")
      | None => Returns {| functions := <[id := f]> (functions sv);
                           ChanCall := ChanCall sv |}
      end
  | _ => Panics ("function id " ++ id ++ ": definition of function is invalid")
  end.

(** [ret]: nothing to do without a reply slot; otherwise the callback of the
    call is copied into the result and the result is sent.  A send on a closed
    channel panics; the deferred function turns that into the returned error.
    A reply slot that refers to no channel behaves as a [nil] channel. *)
Definition Server_ret (h : heap) (ci : CallInfo) (ri : RetInfo) : outcome (error * heap) :=
  match ci_chanRet ci with
  | None => Returns (None, h)
  | Some k =>
      let ri' := {| ri_ret := ri_ret ri; ri_err := ri_err ri; ri_cb := ci_cb ci |} in
      match h_chans h !! k with
      | None => Blocks
      | Some ch =>
          match chan_send ch ri' with
          | Sent ch' => Returns (None, heap_set_chan h k ch')
          | WouldBlock => Blocks
          | SendPanics => Returns (Some "send on closed channel"%string, h)
          end
      end
  end.

(** The deferred function of [exec] after a panic with value [r]: the error
    that [exec] returns carries the stack; the result sent to the caller is a
    second error, formatted from [r] alone; what [ret] returns is dropped. *)
Definition Server_exec_recover (h : heap) (ci : CallInfo) (r : string)
    : outcome (error * heap) :=
  let err := Some (panic_message r) in
  do! res <- Server_ret h ci {| ri_ret := VNil; ri_err := Some r; ri_cb := VNil |};
  Returns (err, snd res).

Definition Server_exec (h : heap) (ci : CallInfo) : outcome (error * heap) :=
  match ci_f ci with
  | VFunc Shape0 name =>
      match run_func name (ci_args ci) with
      | Returns _ => Server_ret h ci {| ri_ret := VNil; ri_err := None; ri_cb := VNil |}
      | Panics r => Server_exec_recover h ci r
      | Blocks => Blocks
      end
  | VFunc _ name =>
      match run_func name (ci_args ci) with
      | Returns ret => Server_ret h ci {| ri_ret := ret; ri_err := None; ri_cb := VNil |}
      | Panics r => Server_exec_recover h ci r
      | Blocks => Blocks
      end
  | _ => Server_exec_recover h ci "bug"
  end.

Definition Server_Exec (h : heap) (ci : CallInfo) : outcome heap :=
  do! res <- Server_exec h ci;
  match fst res with
  | Some err => Returns (log_Error (snd res) err)
  | None => Returns (snd res)
  end.

Definition NewClient (h : heap) (kSync kAsyn : nat) (l : Z) : outcome (Client * heap) :=
  do! chAsyn <- make_chan l;
  Returns ({| s := None; chanSyncRet := kSync; ChanAsynRet := kAsyn;
              pendingAsynCall := 0 |},
           heap_set_chan (heap_set_chan h kSync (mkChan [] 1 false)) kAsyn chAsyn).

Definition Client_Attach (c : Client) (sv : nat) : Client :=
  {| s := Some sv; chanSyncRet := chanSyncRet c; ChanAsynRet := ChanAsynRet c;
     pendingAsynCall := pendingAsynCall c |}.

(** [call]: a blocking send parks the caller when the queue has no room; the
    non-blocking one gives up with an error.  A closed queue makes the send
    panic, which the deferred function returns as the error. *)
Definition Client_call (h : heap) (c : Client) (ci : CallInfo) (block : bool)
    : outcome (error * heap) :=
  match s c with
  | None => Returns (Some "invalid memory address or nil pointer dereference"%string, h)
  | Some k =>
      match h_servers h !! k with
      | None => Returns (Some "invalid memory address or nil pointer dereference"%string, h)
      | Some sv =>
          match chan_send (ChanCall sv) ci with
          | Sent ch' =>
              Returns (None, heap_set_server h k {| functions := functions sv;
                                                    ChanCall := ch' |})
          | WouldBlock =>
              if block then Blocks
              else Returns (Some "chanrpc channel full"%string, h)
          | SendPanics => Returns (Some "send on closed channel"%string, h)
          end
      end
  end.

Definition shape_of_n (n : Z) : option shape :=
  if n =? 0 then Some Shape0
  else if n =? 1 then Some Shape1
  else if n =? 2 then Some ShapeN
  else None.

Definition shape_eqb (a b : shape) : bool :=
  match a, b with
  | Shape0, Shape0 | Shape1, Shape1 | ShapeN, ShapeN => true
  | _, _ => false
  end.

(** [f]: the function registered under [id], checked against the shape the
    call asks for. *)
Definition Client_f (h : heap) (c : Client) (id : string) (n : Z)
    : outcome (value * error) :=
  match s c with
  | None => Returns (VNil, Some "server not attached"%string)
  | Some k =>
      match h_servers h !! k with
      | None => Panics "invalid memory address or nil pointer dereference"
      | Some sv =>
          match functions sv !! id with
          | None | Some VNil =>
              Returns (VNil, Some ("function id " ++ id ++ ": function not registered")%string)
          | Some f =>
              match shape_of_n n with
              | None => Panics "bug"
              | Some sh =>
                  let ok := match f with
                            | VFunc sh' _ => shape_eqb sh sh'
                            | _ => false
                            end in
                  if ok then Returns (f, None)
                  else Returns (f, Some ("function id " ++ id ++ ": return type mismatch")%string)
              end
          end
      end
  end.

(** A send on the client's own asynchronous reply queue. *)
Definition send_AsynRet (h : heap) (c : Client) (ri : RetInfo) : outcome heap :=
  match h_chans h !! ChanAsynRet c with
  | None => Blocks
  | Some ch =>
      match chan_send ch ri with
      | Sent ch' => Returns (heap_set_chan h (ChanAsynRet c) ch')
      | WouldBlock => Blocks
      | SendPanics => Panics "send on closed channel"
      end
  end.

Definition Client_asynCall (h : heap) (c : Client) (id : string)
    (args : list value) (cb : value) (n : Z) : outcome heap :=
  do! fe <- Client_f h c id n;
  match snd fe with
  | Some err => send_AsynRet h c {| ri_ret := VNil; ri_err := Some err; ri_cb := cb |}
  | None =>
      do! res <- Client_call h c {| ci_f := fst fe; ci_args := args;
                                    ci_chanRet := Some (ChanAsynRet c);
                                    ci_cb := cb |} false;
      match fst res with
      | Some err => send_AsynRet (snd res) c
                      {| ri_ret := VNil; ri_err := Some err; ri_cb := cb |}
      | None => Returns (snd res)
      end
  end.

(** [assert]: [nil] stays [nil]; anything else must be a slice. *)
Definition assert_slice (i : value) : outcome value :=
  match i with
  | VNil => Returns VNil
  | VSlice l => Returns (VSlice l)
  | _ => Panics "interface conversion: interface {} is not []interface {}"
  end.

(** [execCb]: call the callback by its shape; a panic (of the callback, of
    [assert], or the "bug" of a value that is no callback) is recovered and
    logged. *)
Definition execCb (h : heap) (ri : RetInfo) : outcome heap :=
  let invoke (name : string) (ret : value) : outcome heap :=
    let h1 := record_call h {| cbc_name := name; cbc_ret := ret; cbc_err := ri_err ri |} in
    match run_cb name ret (ri_err ri) with
    | None => Returns h1
    | Some r => Returns (log_Error h1 (panic_message r))
    end in
  match ri_cb ri with
  | VCallback Shape0 name => invoke name VNil
  | VCallback Shape1 name => invoke name (ri_ret ri)
  | VCallback ShapeN name =>
      match assert_slice (ri_ret ri) with
      | Returns ret => invoke name ret
      | Panics r => Returns (log_Error h (panic_message r))
      | Blocks => Blocks
      end
  | _ => Returns (log_Error h (panic_message "bug"))
  end.

(** The capacity of the client's asynchronous reply queue; [cap] of a [nil]
    channel is 0. *)
Definition cap_AsynRet (h : heap) (c : Client) : Z :=
  match h_chans h !! ChanAsynRet c with
  | Some ch => ch_cap ch
  | None => 0
  end.

Definition Client_AsynCall (h : heap) (c : Client) (id : string) (_args : list value)
    : outcome (Client * heap) :=
  match rev _args with
  | [] => Panics "callback function not found"
  | cb :: rargs =>
      let args := rev rargs in
      match cb with
      | VCallback sh _ =>
          let n := match sh with Shape0 => 0 | Shape1 => 1 | ShapeN => 2 end in
          if pendingAsynCall c >=? cap_AsynRet h c then
            do! h1 <- execCb h {| ri_ret := VNil; ri_err := Some "too many calls"%string;
                                  ri_cb := cb |};
            Returns (c, h1)
          else
            do! h1 <- Client_asynCall h c id args cb n;
            Returns ({| s := s c; chanSyncRet := chanSyncRet c;
                        ChanAsynRet := ChanAsynRet c;
                        pendingAsynCall := pendingAsynCall c + 1 |}, h1)
      | _ => Panics "definition of callback function is invalid"
      end
  end.

Definition Client_Cb (h : heap) (c : Client) (ri : RetInfo) : outcome (Client * heap) :=
  do! h1 <- execCb h ri;
  Returns ({| s := s c; chanSyncRet := chanSyncRet c; ChanAsynRet := ChanAsynRet c;
              pendingAsynCall := pendingAsynCall c - 1 |}, h1).

Definition Client_Idle (c : Client) : bool := pendingAsynCall c =? 0.

End chanrpc.

(** ** Sample handlers, callbacks and heaps used in the examples *)

(** The function named "boom" panics with the value "boom"; every other
    function returns its first argument. *)
Definition sample_run_func (name : string) (args : list value) : outcome value :=
  if String.eqb name "boom" then Panics "boom"
  else Returns (hd VNil args).

Definition sample_run_cb (name : string) (ret : value) (err : error) : option string :=
  None.

Definition sample_stack : string := "goroutine 1 [running]:".

(** One reply channel, number 0, with one free slot; one server, number 0,
    with an empty request queue of one slot. *)
Definition sample_heap : heap :=
  {| h_chans := {[ 0%nat := mkChan [] 1 false ]};
     h_servers := {[ 0%nat := {| functions := ∅; ChanCall := mkChan [] 1 false |} ]};
     h_log := []; h_calls := [] |}.

Definition boom_call : CallInfo :=
  {| ci_f := VFunc Shape0 "boom"; ci_args := []; ci_chanRet := Some 0%nat;
     ci_cb := VCallback Shape0 "done" |}.

(** A client of server 0 with one call in flight on a reply queue of one
    slot (scenario S5). *)
Definition busy_client : Client :=
  {| s := Some 0%nat; chanSyncRet := 1%nat; ChanAsynRet := 0%nat; pendingAsynCall := 1 |}.

(* ===================================================================== *)
(** * Package module: the registry and its teardown                       *)
(* ===================================================================== *)

(** Where the task started by [go run(m)] stands. *)
Inductive run_state : Type := NotStarted | Running | Returned.

(** A registered module: the implementation (by name), the close signal, the
    counter of the wait group, and the state of its run task. *)
Record module : Type := mkModule {
  mi : string;
  closeSig : chan bool;
  wg : Z;
  task : run_state
}.

(** What the tasks do to the registry, in the order it happens. *)
Inductive event : Type :=
| EvOnInit (i : nat)
| EvSendClose (i : nat)
| EvWaitDone (i : nat)
| EvOnDestroy (i : nat)
| EvRunReturned (i : nat).

(** The package state: the slice [mods], the log, and the events so far. *)
Record registry : Type := mkRegistry {
  mods : list module;
  reg_log : list string;
  reg_trace : list event
}.

Definition empty_registry : registry :=
  {| mods := []; reg_log := []; reg_trace := [] |}.

Definition Register (r : registry) (mi0 : string) : registry :=
  {| mods := mods r ++ [ {| mi := mi0; closeSig := mkChan [] 1 false;
                            wg := 0; task := NotStarted |} ];
     reg_log := reg_log r; reg_trace := reg_trace r |}.

(** [Init], for modules whose [OnInit] returns: the first loop calls [OnInit]
    in order, the second adds one to each wait group and starts the run task. *)
Definition Init (r : registry) : registry :=
  {| mods := map (fun m => {| mi := mi m; closeSig := closeSig m;
                              wg := wg m + 1; task := Running |}) (mods r);
     reg_log := reg_log r;
     reg_trace := reg_trace r ++ map EvOnInit (seq 0 (length (mods r))) |}.

Definition set_module (r : registry) (i : nat) (m : module) (evs : list event)
    : registry :=
  {| mods := <[i := m]> (mods r); reg_log := reg_log r;
     reg_trace := reg_trace r ++ evs |}.

Section module.

(** What [OnDestroy] of an implementation does: it returns ([None]) or panics
    with a value. *)
Variable OnDestroy_panic : string -> option string.
Variable LenStackBuf : Z.
Variable runtime_Stack : string.

(** [destroy(m)]: [OnDestroy] under a deferred recover that logs the panic. *)
Definition destroy (r : registry) (i : nat) (m : module) : registry :=
  match OnDestroy_panic (mi m) with
  | None =>
      {| mods := mods r; reg_log := reg_log r;
         reg_trace := reg_trace r ++ [EvOnDestroy i] |}
  | Some p =>
      {| mods := mods r;
         reg_log := reg_log r ++ [panic_message LenStackBuf runtime_Stack p];
         reg_trace := reg_trace r ++ [EvOnDestroy i] |}
  end.

(** Where the task that runs [Destroy] stands: before the send, the wait or
    the call of [destroy] for [mods[i]], or past the loop. *)
Inductive Destroy_pc : Type :=
| AtSend (i : Z)
| AtWait (i : Z)
| AtDestroy (i : Z)
| Finished.

(** The loop test [i >= 0]. *)
Definition Destroy_loop (i : Z) : Destroy_pc :=
  if i >=? 0 then AtSend i else Finished.

(** [i := len(mods) - 1]. *)
Definition Destroy_start (r : registry) : Destroy_pc :=
  Destroy_loop (len (mods r) - 1).

(** One statement of the loop body.  The send parks the task while the close
    signal has no room, the wait while the counter is not zero ([None]). *)
Definition Destroy_step (r : registry) (pc : Destroy_pc)
    : option (registry * Destroy_pc) :=
  match pc with
  | AtSend i =>
      match mods r !! Z.to_nat i with
      | Some m =>
          match chan_send (closeSig m) true with
          | Sent ch =>
              Some (set_module r (Z.to_nat i)
                      {| mi := mi m; closeSig := ch; wg := wg m; task := task m |}
                      [EvSendClose (Z.to_nat i)],
                    AtWait i)
          | _ => None
          end
      | None => None
      end
  | AtWait i =>
      match mods r !! Z.to_nat i with
      | Some m =>
          if wg m =? 0
          then Some (set_module r (Z.to_nat i) m [EvWaitDone (Z.to_nat i)], AtDestroy i)
          else None
      | None => None
      end
  | AtDestroy i =>
      match mods r !! Z.to_nat i with
      | Some m => Some (destroy r (Z.to_nat i) m, Destroy_loop (i - 1))
      | None => None
      end
  | Finished => None
  end.

(** The run task of a module: [Run] may take the close signal from the
    channel at any time, and when it returns, [run] calls [wg.Done()]. *)
Inductive run_step : registry -> registry -> Prop :=
| run_receives r i m b rest :
    mods r !! i = Some m -> task m = Running ->
    ch_buf (closeSig m) = b :: rest ->
    run_step r (set_module r i
                  {| mi := mi m;
                     closeSig := mkChan rest (ch_cap (closeSig m)) (ch_closed (closeSig m));
                     wg := wg m; task := Running |} [])
| run_returns r i m :
    mods r !! i = Some m -> task m = Running ->
    run_step r (set_module r i
                  {| mi := mi m; closeSig := closeSig m;
                     wg := wg m - 1; task := Returned |} [EvRunReturned i]).

(** The task of [Destroy] and the run tasks interleave. *)
Inductive sys_step : registry * Destroy_pc -> registry * Destroy_pc -> Prop :=
| sys_destroy r pc r' pc' :
    Destroy_step r pc = Some (r', pc') -> sys_step (r, pc) (r', pc')
| sys_run r pc r' :
    run_step r r' -> sys_step (r, pc) (r', pc).

Inductive sys_reaches (st0 : registry * Destroy_pc) : registry * Destroy_pc -> Prop :=
| sys_reach_refl : sys_reaches st0 st0
| sys_reach_step st st' :
    sys_reaches st0 st -> sys_step st st' -> sys_reaches st0 st'.

End module.

(** The events of the task that runs [Destroy]. *)
Definition is_destroy_event (e : event) : bool :=
  match e with
  | EvSendClose _ | EvWaitDone _ | EvOnDestroy _ => true
  | _ => false
  end.

(** What [Destroy] is to do on [n] registered modules, as the specification
    words it: last registered first, and for each module the send, the wait,
    the call of [OnDestroy]. *)
Definition teardown_order (n : nat) : list event :=
  flat_map (fun i => [EvSendClose i; EvWaitDone i; EvOnDestroy i]) (rev (seq 0 n)).

(** The registry after registering the implementations [names], in order, and
    calling [Init]. *)
Definition started_registry (names : list string) : registry :=
  Init (fold_left Register names empty_registry).

(** Two modules, registered in the order "game", "gate"; [OnDestroy] of "gate"
    panics. *)
Definition sample_OnDestroy_panic (name : string) : option string :=
  if String.eqb name "gate" then Some "gate: teardown failed"%string else None.

Definition sample_registry : registry := started_registry ["game"; "gate"]%string.

(* ===================================================================== *)
(** * Go's package time, as far as the cron search uses it                 *)
(* ===================================================================== *)

(** An instant is a count of nanoseconds since 1970-01-01T00:00:00Z together
    with the location it is shown in.  A location is a fixed offset east of
    UTC, in seconds ([0] for UTC): zones whose offset changes over the year
    are outside this model, as are instants beyond the range of Go's 64-bit
    counters.  The calendar is the proleptic Gregorian one. *)
Module time.

Record Time : Type := mkTime {
  unixNano : Z;
  offset : Z
}.

Definition Nanosecond : Z := 1.
Definition Second : Z := 1000000000.
Definition Minute : Z := 60 * Second.
Definition Hour : Z := 60 * Minute.

(** The zero instant [time.Time{}]: January 1, year 1, 00:00:00 UTC. *)
Definition zero_unix : Z := -62135596800.
Definition zero : Time := {| unixNano := zero_unix * Second; offset := 0 |}.

Definition IsZero (t : Time) : bool := unixNano t =? zero_unix * Second.

Definition After (t u : Time) : bool := unixNano u <? unixNano t.

Definition Location (t : Time) : Z := offset t.

(** Seconds since 1970-01-01T00:00:00 on the clock of the instant's location. *)
Definition local_sec (t : Time) : Z := unixNano t / Second + offset t.

(** Days since 1970-01-01 on that clock, and the second within the day. *)
Definition local_day (t : Time) : Z := local_sec t / 86400.
Definition sec_of_day (t : Time) : Z := local_sec t mod 86400.

(** Year, month and day of the day number [z] (days since 1970-01-01).  The
    day is located in its era of 400 years (146097 days), counted from March 1
    so that a leap day comes last: then in its century (36524 days, the fourth
    one a day longer), its cycle of four years (1461 days, the last one of a
    century a day shorter) and its year (365 days, the fourth one a day
    longer); month and day follow from the day of that year. *)
Definition civil_from_days (z : Z) : Z * Z * Z :=
  let z' := z + 719468 in
  let era := z' / 146097 in
  let doe := z' mod 146097 in
  let c := Z.min 3 (doe / 36524) in
  let doc := doe - 36524 * c in
  let q := doc / 1461 in
  let doq := doc - 1461 * q in
  let a := Z.min 3 (doq / 365) in
  let doy := doq - 365 * a in
  let yoe := 100 * c + 4 * q + a in
  let mp := (5 * doy + 2) / 153 in
  let d := doy - (153 * mp + 2) / 5 + 1 in
  let m := if mp <? 10 then mp + 3 else mp - 9 in
  let y := yoe + era * 400 in
  (if m <=? 2 then y + 1 else y, m, d).

(** The day number of March 1 of year [y], and the day of the March-based
    year on which month [m] (1 to 12) starts. *)
Definition year_base (y : Z) : Z :=
  let era := y / 400 in
  let yoe := y mod 400 in
  era * 146097 + yoe * 365 + yoe / 4 - yoe / 100 - 719468.

Definition month_doy (m : Z) : Z := (153 * ((m + 9) mod 12) + 2) / 5.

(** The day number of the first day of month [m] (1 to 12) of year [y]. *)
Definition month_start (y m : Z) : Z :=
  year_base (if m <=? 2 then y - 1 else y) + month_doy m.

(** [Date] accepts any month and day: a month outside 1 to 12 carries into
    the year, a day outside the month carries into the following days. *)
Definition days_from_civil (y m d : Z) : Z :=
  month_start (y + (m - 1) / 12) ((m - 1) mod 12 + 1) + (d - 1).

Definition Date (year month day hour min sec nsec : Z) (loc : Z) : Time :=
  {| unixNano := (days_from_civil year month day * 86400
                  + hour * 3600 + min * 60 + sec - loc) * Second + nsec;
     offset := loc |}.

Definition Year (t : Time) : Z := fst (fst (civil_from_days (local_day t))).
Definition Month (t : Time) : Z := snd (fst (civil_from_days (local_day t))).
Definition Day (t : Time) : Z := snd (civil_from_days (local_day t)).

(** Sunday is 0; 1970-01-01 was a Thursday. *)
Definition Weekday (t : Time) : Z := (local_day t + 4) mod 7.

Definition Hour_of (t : Time) : Z := sec_of_day t / 3600.
Definition Minute_of (t : Time) : Z := sec_of_day t mod 3600 / 60.
Definition Second_of (t : Time) : Z := sec_of_day t mod 60.
Definition Nanosecond_of (t : Time) : Z := unixNano t mod Second.

Definition January : Z := 1.

Definition Add (t : Time) (d : Z) : Time :=
  {| unixNano := unixNano t + d; offset := offset t |}.

(** [t.Truncate(d)]: [t] rounded down to a multiple of [d] since the zero
    instant; [t] itself when [d <= 0]. *)
Definition Truncate (t : Time) (d : Z) : Time :=
  if d <=? 0 then t
  else {| unixNano := unixNano t - (unixNano t - zero_unix * Second) mod d;
          offset := offset t |}.

Definition AddDate (t : Time) (years months days : Z) : Time :=
  Date (Year t + years) (Month t + months) (Day t + days)
       (Hour_of t) (Minute_of t) (Second_of t) (Nanosecond_of t) (Location t).

(** ** Months and instants of whole seconds *)

(** The check that day [doy] of a year that starts on March 1 falls in one
    of twelve months, on a day from 1 to 31, before the start of the month
    that follows. *)
Definition doy_okb (doy : Z) : bool :=
  let mp := (5 * doy + 2) / 153 in
  let d := doy - (153 * mp + 2) / 5 + 1 in
  (0 <=? mp) && (mp <=? 11) && (1 <=? d) && (d <=? 31) &&
  (doy <? (153 * (mp + 1) + 2) / 5).

(** The leap day of the year that starts on March 1 of year [a] of cycle [q]
    of century [c] of an era: the year ends with a February 29 when the
    calendar year that follows is a leap year. *)
Definition leap_day (c q a : Z) : Z :=
  if (a =? 3) && ((q <? 24) || (c =? 3)) then 1 else 0.

(** The first day of the month after month [m] of year [y]. *)
Definition next_month_start (y m : Z) : Z := month_start (y + m / 12) (m mod 12 + 1).

(** The first day of the month with index [k]: month [k mod 12 + 1] of year
    [k / 12]. *)
Definition ms (k : Z) : Z := month_start (k / 12) (k mod 12 + 1).

(** An instant of whole seconds. *)
Definition whole (t : Time) : Prop := unixNano t mod Second = 0.

(** The first day of the month after the month of [t]. *)
Definition month_end (t : Time) : Z := ms (12 * Year t + Month t - 1 + 1).

End time.

(* ===================================================================== *)
(** * Package timer: cron expressions                                     *)
(* ===================================================================== *)

(** ** strings and strconv *)

Definition uint64 (z : Z) : Z := z mod 18446744073709551616.

(** [int(x)] on a 64-bit platform: two's complement wrap-around. *)
Definition int64 (z : Z) : Z :=
  (z + 9223372036854775808) mod 18446744073709551616 - 9223372036854775808.

Definition MaxUint64 : Z := 18446744073709551615.

(** [x << k] on [uint64], for a shift count [k] of type [uint]: counts of 64
    and more give 0. *)
Definition shl64 (x k : Z) : Z :=
  if k <? 64 then uint64 (Z.shiftl x k) else 0.

(** [^x] on [uint64]. *)
Definition not64 (x : Z) : Z := Z.lxor x MaxUint64.

(** [strings.Split(s, sep)] for a separator of one byte. *)
Fixpoint Split (s : string) (sep : ascii) : list string :=
  match s with
  | EmptyString => [EmptyString]
  | String c rest =>
      if Ascii.eqb c sep then EmptyString :: Split rest sep
      else match Split rest sep with
           | [] => [String c EmptyString]
           | hd :: tl => String c hd :: tl
           end
  end.

(** White space for [strings.Fields], among the ASCII characters. *)
Definition is_space (c : ascii) : bool :=
  let n := nat_of_ascii c in
  ((9 <=? n) && (n <=? 13))%nat || (n =? 32)%nat.

(** [strings.Fields(s)]; [cur] holds the field being read. *)
Fixpoint Fields_from (s : string) (cur : string) : list string :=
  match s with
  | EmptyString => if String.eqb cur "" then [] else [cur]
  | String c rest =>
      if is_space c then
        if String.eqb cur "" then Fields_from rest ""
        else cur :: Fields_from rest ""
      else Fields_from rest (cur ++ String c EmptyString)
  end.

Definition Fields (s : string) : list string := Fields_from s "".

Definition digit_of (c : ascii) : option Z :=
  let n := Z.of_nat (nat_of_ascii c) in
  if (48 <=? n) && (n <=? 57) then Some (n - 48) else None.

Fixpoint parse_digits (s : string) (acc : Z) : option Z :=
  match s with
  | EmptyString => Some acc
  | String c rest =>
      match digit_of c with
      | Some d => parse_digits rest (acc * 10 + d)
      | None => None
      end
  end.

(** [strconv.Atoi]: an optional sign, then decimal digits, at least one; the
    value must fit an [int] of 64 bits.  [None] stands for the error. *)
Definition Atoi (s : string) : option Z :=
  match s with
  | EmptyString => None
  | String c rest =>
      let neg := Ascii.eqb c "-" in
      let body := if neg || Ascii.eqb c "+" then rest else s in
      match body with
      | EmptyString => None
      | _ =>
          match parse_digits body 0 with
          | None => None
          | Some n =>
              let v := if neg then - n else n in
              if (-9223372036854775808 <=? v) && (v <=? 9223372036854775807)
              then Some v else None
          end
      end
  end.

Module timer.

Import time.

(** The six fields, each a mask over its domain held in a [uint64]. *)
Record CronExpr : Type := mkCronExpr {
  sec : Z;
  min : Z;
  hour : Z;
  dom : Z;
  month : Z;
  dow : Z
}.

(** The errors of the parser, with the values their messages print. *)
Inductive cron_error : Type :=
| ErrFieldCount (expr : string) (n : Z)
| ErrTooManySlashes (field : string)
| ErrTooManyHyphens (range : string)
| ErrInvalidRange (range : string)
| ErrOutOfRange (lo hi : Z) (range : string)
| ErrInvalidIncrement (incr : string)
| ErrInvalidExpr (expr : string) (err : cron_error).

(** The loop [for i := start; i <= end; i += incr] that sets bit [i]; [i] is
    an [int], the shift count is [uint(i)].  [None]: out of fuel, which the
    256 rounds that [parseCronTerm] gives never are for a field of the
    expression ([timer_facts.field_loop_returns]). *)
Fixpoint field_loop (fuel : nat) (i end_ incr cronField : Z) : option Z :=
  match fuel with
  | O => None
  | S fuel' =>
      if i <=? end_
      then field_loop fuel' (int64 (i + incr)) end_ incr
                      (Z.lor cronField (shl64 1 (uint64 i)))
      else Some cronField
  end.

(** One term of a field (the body of the loop over the comma list): the bits
    it adds to [cronField]. *)
Definition parseCronTerm (field : string) (min max : Z) (cronField : Z)
    : cron_error + Z :=
  let rangeAndIncr := Split field "/" in
  if 2 <? len rangeAndIncr then inl (ErrTooManySlashes field)
  else
    let range := hd EmptyString rangeAndIncr in
    let startAndEnd := Split range "-" in
    if 2 <? len startAndEnd then inl (ErrTooManyHyphens range)
    else
      let bounds : cron_error + (Z * Z) :=
        if String.eqb (hd EmptyString startAndEnd) "*" then
          if negb (len startAndEnd =? 1) then inl (ErrInvalidRange range)
          else inr (min, max)
        else
          match Atoi (hd EmptyString startAndEnd) with
          | None => inl (ErrInvalidRange range)
          | Some start =>
              if len startAndEnd =? 1 then
                if len rangeAndIncr =? 2 then inr (start, max)
                else inr (start, start)
              else
                match Atoi (nth 1 startAndEnd EmptyString) with
                | None => inl (ErrInvalidRange range)
                | Some end_ => inr (start, end_)
                end
          end in
      match bounds with
      | inl err => inl err
      | inr (start, end_) =>
          if start >? end_ then inl (ErrInvalidRange range)
          else if start <? min then inl (ErrOutOfRange min max range)
          else if end_ >? max then inl (ErrOutOfRange min max range)
          else
            let incr : cron_error + Z :=
              if len rangeAndIncr =? 1 then inr 1
              else
                match Atoi (nth 1 rangeAndIncr EmptyString) with
                | None => inl (ErrInvalidIncrement (nth 1 rangeAndIncr EmptyString))
                | Some incr =>
                    if incr <=? 0
                    then inl (ErrInvalidIncrement (nth 1 rangeAndIncr EmptyString))
                    else inr incr
                end in
            match incr with
            | inl err => inl err
            | inr incr =>
                if incr =? 1 then
                  inr (Z.lor cronField
                         (Z.land (not64 (shl64 MaxUint64 (uint64 (end_ + 1))))
                                 (shl64 MaxUint64 (uint64 start))))
                else
                  match field_loop 256 start end_ incr cronField with
                  | Some cronField' => inr cronField'
                  | None => inl (ErrInvalidIncrement (nth 1 rangeAndIncr EmptyString))
                  end
            end
      end.

Fixpoint parseCronTerms (fields : list string) (min max : Z) (cronField : Z)
    : cron_error + Z :=
  match fields with
  | [] => inr cronField
  | field :: rest =>
      match parseCronTerm field min max cronField with
      | inl err => inl err
      | inr cronField' => parseCronTerms rest min max cronField'
      end
  end.

Definition parseCronField (field : string) (min max : Z) : cron_error + Z :=
  parseCronTerms (Split field ",") min max 0.

Definition NewCronExpr (expr : string) : cron_error + CronExpr :=
  let fields := Fields expr in
  if negb (len fields =? 5) && negb (len fields =? 6)
  then inl (ErrFieldCount expr (len fields))
  else
    let fields := if len fields =? 5 then "0"%string :: fields else fields in
    let field (i : nat) := nth i fields EmptyString in
    let wrap (r : cron_error + Z) (k : Z -> cron_error + CronExpr) :=
      match r with
      | inl err => inl (ErrInvalidExpr expr err)
      | inr v => k v
      end in
    wrap (parseCronField (field 0%nat) 0 59) (fun sec0 =>
    wrap (parseCronField (field 1%nat) 0 59) (fun min0 =>
    wrap (parseCronField (field 2%nat) 0 23) (fun hour0 =>
    wrap (parseCronField (field 3%nat) 1 31) (fun dom0 =>
    wrap (parseCronField (field 4%nat) 1 12) (fun month0 =>
    wrap (parseCronField (field 5%nat) 0 6) (fun dow0 =>
      inr {| sec := sec0; min := min0; hour := hour0;
             dom := dom0; month := month0; dow := dow0 |})))))).

(** [1<<uint(k) & mask != 0]. *)
Definition bit_set (k mask : Z) : bool :=
  negb (Z.land (shl64 1 (uint64 k)) mask =? 0).

Definition matchDay (e : CronExpr) (t : Time) : bool :=
  if dom e =? 4294967294 then bit_set (Weekday t) (dow e)
  else if dow e =? 127 then bit_set (Day t) (dom e)
  else bit_set (Weekday t) (dow e) || bit_set (Day t) (dom e).

(** ** Next

    The search is a loop with a label ([retry]) and five inner loops that jump
    back to it.  A state is the instant [t], the flag [initFlag] and the place
    where the search stands; a step runs one test, and for a loop whose
    condition holds, its body. *)
Inductive place : Type :=
| at_retry | at_month | at_day | at_hours | at_minutes | at_seconds.

Record search : Type := mkSearch {
  s_t : Time;
  s_initFlag : bool;
  s_at : place
}.

Inductive step_result : Type :=
| Continue (st : search)
| Return (t : Time).

Definition Next_step (e : CronExpr) (year : Z) (st : search) : step_result :=
  let t := s_t st in
  let initFlag := s_initFlag st in
  match s_at st with
  | at_retry =>
      if Year t >? year + 1 then Return zero
      else Continue {| s_t := t; s_initFlag := initFlag; s_at := at_month |}
  | at_month =>
      if negb (bit_set (Month t) (month e)) then
        let t1 := if negb initFlag
                  then Date (Year t) (Month t) 1 0 0 0 0 (Location t) else t in
        let t2 := AddDate t1 0 1 0 in
        Continue {| s_t := t2; s_initFlag := true;
                    s_at := if Month t2 =? January then at_retry else at_month |}
      else Continue {| s_t := t; s_initFlag := initFlag; s_at := at_day |}
  | at_day =>
      if negb (matchDay e t) then
        let t1 := if negb initFlag
                  then Date (Year t) (Month t) (Day t) 0 0 0 0 (Location t) else t in
        let t2 := AddDate t1 0 0 1 in
        Continue {| s_t := t2; s_initFlag := true;
                    s_at := if Day t2 =? 1 then at_retry else at_day |}
      else Continue {| s_t := t; s_initFlag := initFlag; s_at := at_hours |}
  | at_hours =>
      if negb (bit_set (Hour_of t) (hour e)) then
        let t1 := if negb initFlag then Truncate t Hour else t in
        let t2 := Add t1 Hour in
        Continue {| s_t := t2; s_initFlag := true;
                    s_at := if Hour_of t2 =? 0 then at_retry else at_hours |}
      else Continue {| s_t := t; s_initFlag := initFlag; s_at := at_minutes |}
  | at_minutes =>
      if negb (bit_set (Minute_of t) (min e)) then
        let t1 := if negb initFlag then Truncate t Minute else t in
        let t2 := Add t1 Minute in
        Continue {| s_t := t2; s_initFlag := true;
                    s_at := if Minute_of t2 =? 0 then at_retry else at_minutes |}
      else Continue {| s_t := t; s_initFlag := initFlag; s_at := at_seconds |}
  | at_seconds =>
      if negb (bit_set (Second_of t) (sec e)) then
        let t2 := Add t Second in
        Continue {| s_t := t2; s_initFlag := true;
                    s_at := if Second_of t2 =? 0 then at_retry else at_seconds |}
      else Return t
  end.

(** Up to [2^k] steps, stopping at the first [Return]. *)
Fixpoint Next_run (k : nat) (e : CronExpr) (year : Z) (st : search) : step_result :=
  match k with
  | O => Next_step e year st
  | S k' =>
      match Next_run k' e year st with
      | Return t => Return t
      | Continue st' => Next_run k' e year st'
      end
  end.

(** The search starts at the upcoming second; [year] is the year of that
    instant.  [None]: the search is still running after [2^32] steps. *)
Definition Next_start (t : Time) : Time := Add (Truncate t Second) Second.

Definition Next (e : CronExpr) (t : Time) : option Time :=
  let t0 := Next_start t in
  match Next_run 32 e (Year t0) {| s_t := t0; s_initFlag := false; s_at := at_retry |} with
  | Return r => Some r
  | Continue _ => None
  end.

(** ** The fields of an expression, and the search of [Next] *)

(** The places of the search, counted down to the place that returns. *)
Definition rank (p : place) : Z :=
  match p with
  | at_retry => 5 | at_month => 4 | at_day => 3
  | at_hours => 2 | at_minutes => 1 | at_seconds => 0
  end.

(** A second that no instant of the year of [t0] or of the next year reaches,
    on the clock of [t0]. *)
Definition horizon (t0 : Time) : Z := (local_day t0 + 745) * 86400.

(** The search stands at [retry] in a year it gives up on. *)
Definition gave_up (t0 : Time) (st : search) : bool :=
  match s_at st with
  | at_retry => Year (s_t st) >? Year t0 + 1
  | _ => false
  end.

(** A bound on the steps that the search can still take. *)
Definition steps_left (t0 : Time) (st : search) : Z :=
  if gave_up t0 st then 0
  else 6 * (horizon t0 - local_sec (s_t st)) + rank (s_at st).

(** What holds of every state of the search that started at [t0]. *)
Definition search_inv (t0 : Time) (st : search) : Prop :=
  whole (s_t st) /\ offset (s_t st) = offset t0 /\
  local_sec t0 <= local_sec (s_t st) /\
  (s_at st <> at_retry -> Year (s_t st) <= Year t0 + 1).

(** What holds of the instant that the search returns. *)
Definition search_post (t0 r : Time) : Prop :=
  r = zero \/
  (whole r /\ offset r = offset t0 /\ local_sec t0 <= local_sec r /\
   Year r <= Year t0 + 1).

(** The six fields that [NewCronExpr] parses: those of the expression, with
    a seconds field of [0] put in front of five. *)
Definition cron_fields (expr : string) : list string :=
  let fields := Fields expr in
  if len fields =? 5 then "0"%string :: fields else fields.

Definition dom_field (expr : string) : string := nth 3 (cron_fields expr) EmptyString.
Definition dow_field (expr : string) : string := nth 5 (cron_fields expr) EmptyString.

(** Sample expressions and instants: [0 0 0 29 2 *] with the last second of
    2022 and the leap day of 2024; [0 0 0 * * 1], which has the masks of
    [0 0 0 1-31 * 1], with Wednesday 2020-01-01. *)
Definition leap_day_expr : CronExpr :=
  {| sec := 1; min := 1; hour := 1; dom := 536870912; month := 4; dow := 127 |}.
Definition new_years_eve : Time := Date 2022 12 31 23 59 59 0 0.
Definition leap_day_2024 : Time := Date 2024 2 29 0 0 0 0 0.

Definition monday_expr : CronExpr :=
  {| sec := 1; min := 1; hour := 1; dom := 4294967294; month := 8190; dow := 2 |}.
Definition wednesday : Time := Date 2020 1 1 0 0 0 0 0.

(** ** Instants that an expression matches *)

(** The five tests of [Next], on one instant. *)
Definition matches (e : CronExpr) (t : Time) : bool :=
  bit_set (Month t) (month e) && matchDay e t &&
  bit_set (Hour_of t) (hour e) && bit_set (Minute_of t) (min e) &&
  bit_set (Second_of t) (sec e).

(** The tests that the instant of a state has passed when the search stands
    at a place. *)
Definition passed (e : CronExpr) (st : search) : Prop :=
  let t := s_t st in
  match s_at st with
  | at_retry | at_month => True
  | at_day => bit_set (Month t) (month e) = true
  | at_hours => bit_set (Month t) (month e) = true /\ matchDay e t = true
  | at_minutes =>
      bit_set (Month t) (month e) = true /\ matchDay e t = true /\
      bit_set (Hour_of t) (hour e) = true
  | at_seconds =>
      bit_set (Month t) (month e) = true /\ matchDay e t = true /\
      bit_set (Hour_of t) (hour e) = true /\ bit_set (Minute_of t) (min e) = true
  end.

End timer.

(* ===================================================================== *)
(** * Package util: random picks                                          *)
(* ===================================================================== *)

(** [int32(x)]: two's complement wrap-around on 32 bits. *)
Definition int32 (z : Z) : Z := (z + 2147483648) mod 4294967296 - 2147483648.

Module util.

Section rand.

(** The random source: [draw k n] is what the [k]-th call of [rand.Int63n]
    returns when it is called with the bound [n]. *)
Variable draw : nat -> Z -> Z.

(** [rand.Int63n(n)] panics unless [n > 0]. *)
Definition Int63n (k : nat) (n : Z) : outcome Z :=
  if n <=? 0 then Panics "invalid argument to Int63n" else Returns (draw k n).

(** The running sums [r] of [RandGroup], on [uint32]: [prev] is [r[i-1]]. *)
Fixpoint RandGroup_sums (prev : Z) (p : list Z) : list Z :=
  match p with
  | [] => []
  | x :: p' => uint32 (prev + x) :: RandGroup_sums (uint32 (prev + x)) p'
  end.

(** The last loop: the first index [i] with [rn < r[i]]. *)
Fixpoint RandGroup_find (rn : Z) (r : list Z) (i : Z) : outcome Z :=
  match r with
  | [] => Panics "bug"
  | x :: r' => if rn <? x then Returns i else RandGroup_find rn r' (i + 1)
  end.

(** [RandGroup(p...)]; [None] is the [nil] slice of a call without
    arguments. *)
Definition RandGroup (p : option (list Z)) : outcome Z :=
  match p with
  | None => Panics "args not found"
  | Some [] => Panics "index out of range"
  | Some (p0 :: p') =>
      let r := p0 :: RandGroup_sums p0 p' in
      let rl := List.last r 0 in
      if rl =? 0 then Returns 0
      else
        do! x <- Int63n 0 rl;
        RandGroup_find (uint32 x) r 0
  end.

Definition RandInterval (b1 b2 : Z) : outcome Z :=
  if b1 =? b2 then Returns b1
  else
    let min := if b1 >? b2 then b2 else b1 in
    let max := if b1 >? b2 then b1 else b2 in
    do! x <- Int63n 0 (max - min + 1);
    Returns (int32 (x + min)).

(** [m[v]] when the map has the key [v], else [v] itself. *)
Definition RandIntervalN_slot (m : gmap Z Z) (v : Z) : Z :=
  match m !! v with
  | Some mv => mv
  | None => v
  end.

(** The loop of [RandIntervalN]: [cnt] rounds are left, [i] were made, [l]
    is the length of the interval that is left, [m] is the map. *)
Fixpoint RandIntervalN_loop (cnt i : nat) (l min : Z) (m : gmap Z Z)
    : outcome (list Z) :=
  match cnt with
  | O => Returns []
  | S cnt' =>
      do! x <- Int63n i l;
      let v := int32 (x + min) in
      let ri := RandIntervalN_slot m v in
      let lv := int32 (l - 1 + min) in
      let m' := if v =? lv then m else <[v := RandIntervalN_slot m lv]> m in
      do! rest <- RandIntervalN_loop cnt' (S i) (l - 1) min m';
      Returns (ri :: rest)
  end.

Definition RandIntervalN (b1 b2 : Z) (n : Z) : outcome (list Z) :=
  if b1 =? b2 then Returns [b1]
  else
    let min := if b1 >? b2 then b2 else b1 in
    let max := if b1 >? b2 then b1 else b2 in
    let l := max - min + 1 in
    let n := if n >? l then uint32 l else n in
    RandIntervalN_loop (Z.to_nat n) 0 l min ∅.

End rand.


(** ** Map

    The map behind the lock.  Keys are values of a type with a decidable
    equality that can be hashed; the stored values are [interface{}] values,
    [VNil] being [nil].  [None] is the [nil] map of a [Map] that was never
    written.  The methods that take the lock ([Get], [Set], [Del], [Len],
    the two locked ranges) run the functions below as they are. *)
Section Map.

Context {K : Type} `{Countable K}.

Record Map : Type := mkMap {
  m : option (gmap K value)
}.

Definition Map_init (mp : Map) : Map :=
  match m mp with
  | None => {| m := Some ∅ |}
  | Some _ => mp
  end.

Definition Map_UnsafeGet (mp : Map) (key : K) : value :=
  match m mp with
  | None => VNil
  | Some mm => match mm !! key with Some v => v | None => VNil end
  end.

Definition Map_UnsafeSet (mp : Map) (key : K) (v : value) : Map :=
  match m (Map_init mp) with
  | Some mm => {| m := Some (<[key := v]> mm) |}
  | None => Map_init mp
  end.

(** [TestAndSet]: the value found, or [nil] after storing [v]. *)
Definition Map_TestAndSet (mp : Map) (key : K) (v : value) : value * Map :=
  match m (Map_init mp) with
  | Some mm =>
      match mm !! key with
      | Some old => (old, Map_init mp)
      | None => (VNil, {| m := Some (<[key := v]> mm) |})
      end
  | None => (VNil, Map_init mp)
  end.

Definition Map_UnsafeDel (mp : Map) (key : K) : Map :=
  match m (Map_init mp) with
  | Some mm => {| m := Some (delete key mm) |}
  | None => Map_init mp
  end.

Definition Map_UnsafeLen (mp : Map) : Z :=
  match m mp with
  | None => 0
  | Some mm => Z.of_nat (size mm)
  end.

(** [UnsafeRange]: the pairs that [f] is called on; Go fixes no order. *)
Definition Map_UnsafeRange (mp : Map) : list (K * value) :=
  match m mp with
  | None => []
  | Some mm => map_to_list mm
  end.

End Map.

Arguments Map K {_ _}.

(** The sum of weights, and a source for the examples. *)
Definition sum_list (p : list Z) : Z := fold_right Z.add 0 p.

Definition sample_draw (k : nat) (n : Z) : Z := (7 * Z.of_nat k + 3) mod n.

End util.

(* ===================================================================== *)
(** * Connections at work: reading loops and writing runs                 *)
(* ===================================================================== *)

(** ** gate: the loop of an agent

    [agent.Run] reads messages from its connection until a read fails; with
    a processor it decodes each message and routes it, and stops at the first
    message that does not decode or is not routed.  The connection is any
    [network.Conn]; what the processor does is given by [Unmarshal] and
    [Route].  The result holds the messages routed, in order, the line
    written by [log.Debug], and the connection; [None]: out of fuel. *)
Section agent.

Variable C : Type.
Variable ReadMsg : C -> outcome ((list byte + string) * C).
Variable Msg : Type.
Variable Unmarshal : list byte -> Msg + string.
Variable Route : Msg -> error.

(** [a.gate.Processor != nil]. *)
Variable hasProcessor : bool.

Fixpoint agent_Run (fuel : nat) (c : C) (routed : list Msg)
    : outcome (option (list Msg * string * C)) :=
  match fuel with
  | O => Returns None
  | S fuel' =>
      do! r <- ReadMsg c;
      match fst r with
      | inr err => Returns (Some (routed, ("read message: " ++ err)%string, snd r))
      | inl data =>
          if hasProcessor then
            match Unmarshal data with
            | inr err =>
                Returns (Some (routed, ("unmarshal message error: " ++ err)%string, snd r))
            | inl msg =>
                match Route msg with
                | Some err =>
                    Returns (Some (routed, ("route message error: " ++ err)%string, snd r))
                | None => agent_Run fuel' (snd r) (routed ++ [msg])
                end
            end
          else agent_Run fuel' (snd r) routed
      end
  end.

End agent.

(** ** Runs of a connection: writes and turns of the writer task *)

Inductive conn_action : Type :=
| ActWrite (b : list byte)
| ActTurn.

(** [Write(b)] for a write, one turn of the writer task (whose write to the
    transport succeeds) for a turn; a turn of a writer that is parked or has
    exited changes nothing.  [None]: a call did not return. *)
Fixpoint TCPConn_run (acts : list conn_action) (c : TCPConn) : option TCPConn :=
  match acts with
  | [] => Some c
  | ActWrite b :: acts' =>
      match TCPConn_Write c (Some b) with
      | Returns c' => TCPConn_run acts' c'
      | _ => None
      end
  | ActTurn :: acts' =>
      match TCPConn_writer_step c false with
      | Some c' => TCPConn_run acts' c'
      | None => TCPConn_run acts' c
      end
  end.

(** The bytes of the writes of a run, and the bytes a queue holds. *)
Fixpoint written (acts : list conn_action) : list byte :=
  match acts with
  | [] => []
  | ActWrite b :: acts' => b ++ written acts'
  | ActTurn :: acts' => written acts'
  end.

Fixpoint queued (q : list (option (list byte))) : list byte :=
  match q with
  | [] => []
  | Some b :: q' => b ++ queued q'
  | None :: q' => queued q'
  end.

(** [n] turns of the writer task in a row. *)
Fixpoint TCPConn_turns (n : nat) (c : TCPConn) : TCPConn :=
  match n with
  | O => c
  | S n' =>
      match TCPConn_writer_step c false with
      | Some c' => TCPConn_turns n' c'
      | None => c
      end
  end.

(** The frames of a list of payloads, one after the other. *)
Definition wire_stream (p : MsgParser) (payloads : list (list byte)) : list byte :=
  concat (map (wire_frame p) payloads).

(** A connection in service: not closed, its writer task running, its
    transport open, and only buffers in its queue. *)
Definition TCPConn_live (c : TCPConn) : Prop :=
  closeFlag c = false /\ ch_closed (writeChan c) = false /\
  writerExited c = false /\ net_closed (conn c) = false /\
  len (ch_buf (writeChan c)) <= ch_cap (writeChan c) /\
  exists bufs, ch_buf (writeChan c) = map Some bufs.

(** A connection with room for two pending writes and one buffer queued. *)
Definition one_slot_conn_two : TCPConn :=
  {| conn := idle_net; writeChan := mkChan [Some [x41]] 2 false; closeFlag := false;
     msgParser := parser_S1; writerExited := false |}.

(* ===================================================================== *)
(** * chanrpc at work: calls, replies and closing                         *)
(* ===================================================================== *)

(** A receive from a channel when no sender is parked: the oldest queued
    value, or the receiver would wait (empty and open), or the channel is
    closed and drained and the receive gives the zero value. *)
Inductive recv_result (A : Type) : Type :=
| Received (x : A) (ch : chan A)
| RecvWaits
| RecvClosed.
Arguments Received {A} x ch.
Arguments RecvWaits {A}.
Arguments RecvClosed {A}.

Definition chan_recv {A : Type} (ch : chan A) : recv_result A :=
  match ch_buf ch with
  | x :: rest => Received x (mkChan rest (ch_cap ch) (ch_closed ch))
  | [] => if ch_closed ch then RecvClosed else RecvWaits
  end.

Definition nil_dereference : string :=
  "runtime error: invalid memory address or nil pointer dereference".

Section chanrpc_calls.

Variable run_func : string -> list value -> outcome value.
Variable run_cb : string -> value -> error -> option string.
Variable LenStackBuf : Z.
Variable runtime_Stack : string.

(** [Server.Go]: nothing for an unknown function; otherwise the call is
    queued without a reply slot; the panic of a send on a closed queue is
    recovered and dropped.  The server is the one numbered [k]. *)
Definition Server_Go (h : heap) (k : nat) (id : string) (args : list value)
    : outcome heap :=
  match h_servers h !! k with
  | None => Panics nil_dereference
  | Some sv =>
      match functions sv !! id with
      | None | Some VNil => Returns h
      | Some f =>
          match chan_send (ChanCall sv) {| ci_f := f; ci_args := args;
                                           ci_chanRet := None; ci_cb := VNil |} with
          | Sent ch' => Returns (heap_set_server h k {| functions := functions sv;
                                                        ChanCall := ch' |})
          | WouldBlock => Blocks
          | SendPanics => Returns h
          end
      end
  end.

(** The loop of [Server.Close] over the calls left in the closed queue: each
    is answered with the error "chanrpc server closed"; what [ret] returns is
    dropped. *)
Fixpoint Server_Close_loop (h : heap) (cis : list CallInfo) : outcome heap :=
  match cis with
  | [] => Returns h
  | ci :: rest =>
      do! res <- Server_ret h ci {| ri_ret := VNil;
                                    ri_err := Some "chanrpc server closed"%string;
                                    ri_cb := VNil |};
      Server_Close_loop (snd res) rest
  end.

Definition Server_Close (h : heap) (k : nat) : outcome heap :=
  match h_servers h !! k with
  | None => Panics nil_dereference
  | Some sv =>
      do! ch <- close_chan (ChanCall sv);
      Server_Close_loop
        (heap_set_server h k {| functions := functions sv;
                                ChanCall := mkChan [] (ch_cap ch) true |})
        (ch_buf ch)
  end.

(** ** The cases of [Skeleton.Run] that serve chanrpc

    [case ci := <-s.server.ChanCall: s.server.Exec(ci)]: the oldest queued
    call of server [k] is executed.  A receive on the closed and drained queue
    gives a [nil] call, on which [exec] panics twice, the second time inside
    its deferred function. *)
Definition Skeleton_Run_call (h : heap) (k : nat) : outcome heap :=
  match h_servers h !! k with
  | None => Panics nil_dereference
  | Some sv =>
      match chan_recv (ChanCall sv) with
      | Received ci ch' =>
          Server_Exec run_func LenStackBuf runtime_Stack
                      (heap_set_server h k {| functions := functions sv;
                                              ChanCall := ch' |}) ci
      | RecvWaits => Blocks
      | RecvClosed => Panics nil_dereference
      end
  end.

(** [case ri := <-s.client.ChanAsynRet: s.client.Cb(ri)].  On a closed and
    drained queue the result is [nil]: [Cb] counts it, and the panic of
    [execCb] on it is recovered and logged. *)
Definition Skeleton_Run_ret (h : heap) (c : Client) : outcome (Client * heap) :=
  match h_chans h !! ChanAsynRet c with
  | None => Blocks
  | Some ch =>
      match chan_recv ch with
      | Received ri ch' =>
          Client_Cb run_cb LenStackBuf runtime_Stack
                    (heap_set_chan h (ChanAsynRet c) ch') c ri
      | RecvWaits => Blocks
      | RecvClosed =>
          Returns ({| s := s c; chanSyncRet := chanSyncRet c;
                      ChanAsynRet := ChanAsynRet c;
                      pendingAsynCall := pendingAsynCall c - 1 |},
                   log_Error h (panic_message LenStackBuf runtime_Stack nil_dereference))
      end
  end.

(** ** Synchronous calls

    Between the send of the call and the receive of its result the caller is
    parked; [others] is what the other tasks do in the meantime. *)
Variable others : heap -> outcome heap.

(** [ri := <-c.chanSyncRet]. *)
Definition Client_recv_sync (h : heap) (c : Client) : outcome (RetInfo * heap) :=
  match h_chans h !! chanSyncRet c with
  | None => Blocks
  | Some ch =>
      match chan_recv ch with
      | Received ri ch' => Returns (ri, heap_set_chan h (chanSyncRet c) ch')
      | RecvWaits => Blocks
      | RecvClosed => Panics nil_dereference
      end
  end.

(** The part the three synchronous calls share: look the function up, send
    the call, wait for the result.  An error before the wait is returned in
    the place of a result. *)
Definition Client_sync (h : heap) (c : Client) (id : string) (args : list value)
    (n : Z) : outcome ((RetInfo + string) * heap) :=
  do! fe <- Client_f h c id n;
  match snd fe with
  | Some err => Returns (inr err, h)
  | None =>
      do! res <- Client_call h c {| ci_f := fst fe; ci_args := args;
                                    ci_chanRet := Some (chanSyncRet c);
                                    ci_cb := VNil |} true;
      match fst res with
      | Some err => Returns (inr err, snd res)
      | None =>
          do! h1 <- others (snd res);
          do! r <- Client_recv_sync h1 c;
          Returns (inl (fst r), snd r)
      end
  end.

Definition Client_Call0 (h : heap) (c : Client) (id : string) (args : list value)
    : outcome (error * heap) :=
  do! r <- Client_sync h c id args 0;
  match fst r with
  | inr err => Returns (Some err, snd r)
  | inl ri => Returns (ri_err ri, snd r)
  end.

Definition Client_Call1 (h : heap) (c : Client) (id : string) (args : list value)
    : outcome (value * error * heap) :=
  do! r <- Client_sync h c id args 1;
  match fst r with
  | inr err => Returns (VNil, Some err, snd r)
  | inl ri => Returns (ri_ret ri, ri_err ri, snd r)
  end.

Definition Client_CallN (h : heap) (c : Client) (id : string) (args : list value)
    : outcome (value * error * heap) :=
  do! r <- Client_sync h c id args 2;
  match fst r with
  | inr err => Returns (VNil, Some err, snd r)
  | inl ri =>
      do! ret <- assert_slice (ri_ret ri);
      Returns (ret, ri_err ri, snd r)
  end.

(** [Client.Close]: while calls are pending, wait for a result and run its
    callback.  [Cb] takes one from the counter, so the loop makes as many
    turns as the counter says when it starts. *)
Fixpoint Client_Close_loop (turns : nat) (h : heap) (c : Client)
    : outcome (Client * heap) :=
  match turns with
  | O => Returns (c, h)
  | S turns' =>
      if pendingAsynCall c >? 0 then
        do! r <- Skeleton_Run_ret h c;
        Client_Close_loop turns' (snd r) (fst r)
      else Returns (c, h)
  end.

Definition Client_Close (h : heap) (c : Client) : outcome (Client * heap) :=
  Client_Close_loop (Z.to_nat (pendingAsynCall c)) h c.

End chanrpc_calls.

(** The callback invocation a result leads to, if its callback is one of the
    three shapes and, for the third, the result is a slice or [nil]. *)
Definition invocation (ri : RetInfo) : option cb_call :=
  match ri_cb ri with
  | VCallback Shape0 name =>
      Some {| cbc_name := name; cbc_ret := VNil; cbc_err := ri_err ri |}
  | VCallback Shape1 name =>
      Some {| cbc_name := name; cbc_ret := ri_ret ri; cbc_err := ri_err ri |}
  | VCallback ShapeN name =>
      match ri_ret ri with
      | VNil | VSlice _ =>
          Some {| cbc_name := name; cbc_ret := ri_ret ri; cbc_err := ri_err ri |}
      | _ => None
      end
  | _ => None
  end.

(** A server with two functions of the second shape and a request queue of
    one slot; reply channel 0 is the asynchronous one (two slots), 1 the
    synchronous one. *)
Definition echo_heap : heap :=
  {| h_chans := {[ 0%nat := mkChan [] 2 false; 1%nat := mkChan [] 1 false ]};
     h_servers := {[ 0%nat := {| functions := {[ "echo"%string := VFunc Shape1 "echo";
                                                 "boom"%string := VFunc Shape1 "boom" ]};
                                 ChanCall := mkChan [] 1 false |} ]};
     h_log := []; h_calls := [] |}.

Definition echo_client : Client :=
  {| s := Some 0%nat; chanSyncRet := 1%nat; ChanAsynRet := 0%nat; pendingAsynCall := 0 |}.

(** The result [Server.Close] sends for a call it finds in the queue, and the
    results for a list of such calls: those without a reply slot get none. *)
Definition closed_reply (ci : CallInfo) : RetInfo :=
  {| ri_ret := VNil; ri_err := Some "chanrpc server closed"%string; ri_cb := ci_cb ci |}.

Definition closed_replies (cis : list CallInfo) : list RetInfo :=
  flat_map (fun ci => match ci_chanRet ci with
                      | Some _ => [closed_reply ci]
                      | None => []
                      end) cis.

(** The heap of [echo_heap] with two calls waiting at the server, the first
    sent by [Server.Go], the second by an asynchronous call of the client;
    and the client with that call pending. *)
Definition waiting_heap : heap :=
  {| h_chans := {[ 0%nat := mkChan [] 2 false; 1%nat := mkChan [] 1 false ]};
     h_servers :=
       {[ 0%nat := {| functions := {[ "echo"%string := VFunc Shape1 "echo" ]};
                      ChanCall :=
                        mkChan [ {| ci_f := VFunc Shape1 "echo"; ci_args := [VInt 1];
                                    ci_chanRet := None; ci_cb := VNil |};
                                 {| ci_f := VFunc Shape1 "echo"; ci_args := [VInt 2];
                                    ci_chanRet := Some 0%nat;
                                    ci_cb := VCallback Shape1 "got" |} ] 2 false |} ]};
     h_log := []; h_calls := [] |}.

Definition waiting_client : Client :=
  {| s := Some 0%nat; chanSyncRet := 1%nat; ChanAsynRet := 0%nat; pendingAsynCall := 1 |}.

(** A heap whose asynchronous reply channel holds two results, and the
    client with these two calls pending. *)
Definition answered_heap : heap :=
  {| h_chans :=
       {[ 0%nat := mkChan [ {| ri_ret := VInt 1; ri_err := None;
                               ri_cb := VCallback Shape1 "first" |};
                            {| ri_ret := VNil; ri_err := Some "chanrpc server closed"%string;
                               ri_cb := VCallback Shape0 "second" |} ] 2 false;
          1%nat := mkChan [] 1 false ]};
     h_servers := ∅; h_log := []; h_calls := [] |}.

Definition answered_client : Client :=
  {| s := None; chanSyncRet := 1%nat; ChanAsynRet := 0%nat; pendingAsynCall := 2 |}.

(* ===================================================================== *)
(** * Package network: the TCP server                                     *)
(* ===================================================================== *)

(** What [ln.Accept] gives: a new connection over a transport, an error that
    is a temporary [net.Error], or another error. *)
Inductive accept_result : Type :=
| Accepted (nc : netConn)
| TemporaryError (err : string)
| OtherError (err : string).

(** What the server does that can be seen from outside, in order.
    Connections are numbered in the order [Accept] returns them. *)
Inductive srv_event : Type :=
| SrvLogRelease (line : string)
| SrvAcceptError (err : string) (retry : Z)
| SrvSleep (d : Z)
| SrvConnClosed (conn : nat)
| SrvTooMany
| SrvAgentRun (conn : nat)
| SrvAgentOnClose (conn : nat).

(** The server, the state of its accept loop ([srv_tempDelay], and whether
    [run] has returned) and of the tasks it started: [srv_tcp] holds the
    [TCPConn] of every connection whose agent is running. *)
Record TCPServer : Type := mkTCPServer {
  MaxConnNum : Z;
  PendingWriteNum : Z;
  srv_msgParser : MsgParser;
  srv_conns : gset nat;
  srv_wgConns : Z;
  srv_tcp : gmap nat TCPConn;
  srv_accepted : nat;
  srv_tempDelay : Z;
  srv_returned : bool;
  srv_trace : list srv_event
}.

Definition Millisecond : Z := 1000000.

(** [init], once [net.Listen] has succeeded and with a [NewAgent]: the two
    limits are reset to 100 when they are not positive, the set of
    connections is made, and the parser is configured. *)
Definition TCPServer_init (maxConnNum pendingWriteNum : Z)
    (lenMsgLen0 minMsgLen0 maxMsgLen0 : Z) (littleEndian0 : bool) : TCPServer :=
  let max1 := if maxConnNum <=? 0 then 100 else maxConnNum in
  let log1 := if maxConnNum <=? 0
              then [SrvLogRelease "invalid MaxConnNum, reset to 100"] else [] in
  let pending1 := if pendingWriteNum <=? 0 then 100 else pendingWriteNum in
  let log2 := if pendingWriteNum <=? 0
              then [SrvLogRelease "invalid PendingWriteNum, reset to 100"] else [] in
  {| MaxConnNum := max1; PendingWriteNum := pending1;
     srv_msgParser := MsgParser_SetByteOrder
                        (MsgParser_SetMsgLen NewMsgParser lenMsgLen0 minMsgLen0 maxMsgLen0)
                                   littleEndian0;
     srv_conns := ∅; srv_wgConns := 0; srv_tcp := ∅; srv_accepted := 0;
     srv_tempDelay := 0; srv_returned := false;
     srv_trace := log1 ++ log2 |}.

(** One turn of the loop of [run] on what [Accept] gives. *)
Definition TCPServer_run_turn (sv : TCPServer) (a : accept_result) : outcome TCPServer :=
  match a with
  | TemporaryError err =>
      let d1 := if srv_tempDelay sv =? 0 then 5 * Millisecond
                else int64 (srv_tempDelay sv * 2) in
      let d2 := if d1 >? time.Second then time.Second else d1 in
      Returns {| MaxConnNum := MaxConnNum sv; PendingWriteNum := PendingWriteNum sv;
                 srv_msgParser := srv_msgParser sv; srv_conns := srv_conns sv;
                 srv_wgConns := srv_wgConns sv; srv_tcp := srv_tcp sv;
                 srv_accepted := srv_accepted sv;
                 srv_tempDelay := d2; srv_returned := false;
                 srv_trace := srv_trace sv ++ [SrvAcceptError err d2; SrvSleep d2] |}
  | OtherError _ =>
      Returns {| MaxConnNum := MaxConnNum sv; PendingWriteNum := PendingWriteNum sv;
                 srv_msgParser := srv_msgParser sv; srv_conns := srv_conns sv;
                 srv_wgConns := srv_wgConns sv; srv_tcp := srv_tcp sv;
                 srv_accepted := srv_accepted sv;
                 srv_tempDelay := srv_tempDelay sv; srv_returned := true;
                 srv_trace := srv_trace sv |}
  | Accepted nc =>
      let conn := srv_accepted sv in
      if Z.of_nat (size (srv_conns sv)) >=? MaxConnNum sv then
        Returns {| MaxConnNum := MaxConnNum sv; PendingWriteNum := PendingWriteNum sv;
                   srv_msgParser := srv_msgParser sv; srv_conns := srv_conns sv;
                   srv_wgConns := srv_wgConns sv; srv_tcp := srv_tcp sv;
                   srv_accepted := S conn;
                   srv_tempDelay := 0; srv_returned := false;
                   srv_trace := srv_trace sv ++ [SrvConnClosed conn; SrvTooMany] |}
      else
        do! tcpConn <- newTCPConn nc (PendingWriteNum sv) (srv_msgParser sv);
        Returns {| MaxConnNum := MaxConnNum sv; PendingWriteNum := PendingWriteNum sv;
                   srv_msgParser := srv_msgParser sv;
                   srv_conns := {[ conn ]} ∪ srv_conns sv;
                   srv_wgConns := srv_wgConns sv + 1;
                   srv_tcp := <[conn := tcpConn]> (srv_tcp sv);
                   srv_accepted := S conn;
                   srv_tempDelay := 0; srv_returned := false;
                   srv_trace := srv_trace sv ++ [SrvAgentRun conn] |}
  end.

(** The end of the task started for a connection, once [agent.Run] has
    returned: the connection is closed and taken out of the set, [OnClose] is
    called and the wait group is told. *)
Definition TCPServer_agent_exit (sv : TCPServer) (conn : nat) : outcome TCPServer :=
  match srv_tcp sv !! conn with
  | None => Returns sv
  | Some tcpConn =>
      do! _closed <- TCPConn_Close tcpConn;
      Returns {| MaxConnNum := MaxConnNum sv; PendingWriteNum := PendingWriteNum sv;
                 srv_msgParser := srv_msgParser sv;
                 srv_conns := srv_conns sv ∖ {[ conn ]};
                 srv_wgConns := srv_wgConns sv - 1;
                 srv_tcp := delete conn (srv_tcp sv);
                 srv_accepted := srv_accepted sv;
                 srv_tempDelay := srv_tempDelay sv; srv_returned := srv_returned sv;
                 srv_trace := srv_trace sv ++ [SrvAgentOnClose conn] |}
  end.

Definition srv_set_tcp (sv : TCPServer) (conn : nat) (c : TCPConn) : TCPServer :=
  {| MaxConnNum := MaxConnNum sv; PendingWriteNum := PendingWriteNum sv;
     srv_msgParser := srv_msgParser sv; srv_conns := srv_conns sv;
     srv_wgConns := srv_wgConns sv; srv_tcp := <[conn := c]> (srv_tcp sv);
     srv_accepted := srv_accepted sv;
     srv_tempDelay := srv_tempDelay sv; srv_returned := srv_returned sv;
     srv_trace := srv_trace sv |}.

(** A connection at work while its agent runs: a write by the agent, or a
    turn of the writer task. *)
Definition TCPServer_conn_act (sv : TCPServer) (conn : nat) (a : conn_action)
    : outcome TCPServer :=
  match srv_tcp sv !! conn with
  | None => Returns sv
  | Some c =>
      match a with
      | ActWrite b =>
          do! c' <- TCPConn_Write c (Some b);
          Returns (srv_set_tcp sv conn c')
      | ActTurn =>
          match TCPConn_writer_step c false with
          | Some c' => Returns (srv_set_tcp sv conn c')
          | None => Returns sv
          end
      end
  end.

(** What happens to a server: its accept loop makes a turn (unless [run] has
    returned), a connection is at work, or the task of a connection ends. *)
Inductive srv_action : Type :=
| SrvAccept (a : accept_result)
| SrvConn (conn : nat) (a : conn_action)
| SrvAgentExit (conn : nat).

Definition TCPServer_act (sv : TCPServer) (x : srv_action) : outcome TCPServer :=
  match x with
  | SrvAccept a => if srv_returned sv then Returns sv else TCPServer_run_turn sv a
  | SrvConn conn a => TCPServer_conn_act sv conn a
  | SrvAgentExit conn => TCPServer_agent_exit sv conn
  end.

Fixpoint TCPServer_acts (sv : TCPServer) (xs : list srv_action) : outcome TCPServer :=
  match xs with
  | [] => Returns sv
  | x :: xs' => do! sv1 <- TCPServer_act sv x; TCPServer_acts sv1 xs'
  end.

(** The delay before the retry that follows the [n]-th temporary error in a
    row: 5 ms, doubled each time, at most one second. *)
Definition retry_delay (n : nat) : Z :=
  Z.min (5 * Millisecond * 2 ^ (Z.of_nat n - 1)) time.Second.

(** The events of the retries after the temporary errors [errs], the first
    of which is the [n]-th in a row. *)
Fixpoint retries (n : nat) (errs : list string) : list srv_event :=
  match errs with
  | [] => []
  | e :: rest =>
      SrvAcceptError e (retry_delay n) :: SrvSleep (retry_delay n) :: retries (S n) rest
  end.


(* ===================================================================== *)
(** * Package g: functions run aside, callbacks run by the owner          *)
(* ===================================================================== *)

Module g.

(** A callback is a closure, known by its name, or [nil]. *)
Record Go : Type := mkGo {
  ChanCb : chan (option string);
  pendingGo : Z
}.

Record LinearGo : Type := mkLinearGo {
  lg_f : string;
  lg_cb : option string
}.

(** A [Go], one [LinearContext] made from it, and the tasks they started:
    [w_started] holds the tasks of [Go.Go] that have not run yet, [linearGo]
    is the queue of the context and [w_waiting] counts the tasks of the
    context that wait for [mutexExecution].  The last four fields record
    what has been logged, the functions run by the tasks of [Go.Go] and by
    those of the context, and the callbacks called, each in order. *)
Record world : Type := mkWorld {
  w_g : Go;
  w_started : list LinearGo;
  linearGo : list LinearGo;
  w_waiting : nat;
  w_log : list string;
  w_ran : list string;
  w_linear_ran : list string;
  w_called : list string
}.

Section tasks.

(** What a function, or a callback, does when called: it returns ([None])
    or panics with a value. *)
Variable run_f : string -> option string.
Variable run_cb : string -> option string.
Variable LenStackBuf : Z.
Variable runtime_Stack : string.

(** [New(l)] followed by [NewLinearContext()]. *)
Definition New (l : Z) : outcome world :=
  do! ch <- make_chan l;
  Returns {| w_g := {| ChanCb := ch; pendingGo := 0 |};
             w_started := []; linearGo := []; w_waiting := 0;
             w_log := []; w_ran := []; w_linear_ran := []; w_called := [] |}.

Definition logged (panicked : option string) : list string :=
  match panicked with
  | Some r => [panic_message LenStackBuf runtime_Stack r]
  | None => []
  end.

(** [Go.Go]: count the call and start a task. *)
Definition Go_Go (w : world) (f : string) (cb : option string) : world :=
  {| w_g := {| ChanCb := ChanCb (w_g w); pendingGo := pendingGo (w_g w) + 1 |};
     w_started := w_started w ++ [ {| lg_f := f; lg_cb := cb |} ];
     linearGo := linearGo w; w_waiting := w_waiting w;
     w_log := w_log w; w_ran := w_ran w; w_linear_ran := w_linear_ran w;
     w_called := w_called w |}.

(** The deferred function of a task, after its function has returned or
    panicked: the callback is sent, then the panic, if any, is recovered and
    logged. *)
Definition task_end (w : world) (cb : option string) (panicked : option string)
    : outcome world :=
  match chan_send (ChanCb (w_g w)) cb with
  | Sent ch' =>
      Returns {| w_g := {| ChanCb := ch'; pendingGo := pendingGo (w_g w) |};
                 w_started := w_started w; linearGo := linearGo w;
                 w_waiting := w_waiting w;
                 w_log := w_log w ++ logged panicked;
                 w_ran := w_ran w; w_linear_ran := w_linear_ran w;
                 w_called := w_called w |}
  | WouldBlock => Blocks
  | SendPanics => Panics "send on closed channel"
  end.

(** The task of [Go.Go] at place [i] among those started runs to its end. *)
Definition Go_task (w : world) (i : nat) : outcome world :=
  match w_started w !! i with
  | None => Returns w
  | Some e =>
      task_end {| w_g := w_g w; w_started := delete i (w_started w);
                  linearGo := linearGo w; w_waiting := w_waiting w;
                  w_log := w_log w; w_ran := w_ran w ++ [lg_f e];
                  w_linear_ran := w_linear_ran w; w_called := w_called w |}
               (lg_cb e) (run_f (lg_f e))
  end.

(** [Go.Cb]: call the callback unless it is [nil]; the deferred function
    takes one from the counter and logs a panic. *)
Definition Go_Cb (w : world) (cb : option string) : world :=
  {| w_g := {| ChanCb := ChanCb (w_g w); pendingGo := pendingGo (w_g w) - 1 |};
     w_started := w_started w; linearGo := linearGo w; w_waiting := w_waiting w;
     w_log := w_log w ++ match cb with
                         | Some name => logged (run_cb name)
                         | None => []
                         end;
     w_ran := w_ran w; w_linear_ran := w_linear_ran w;
     w_called := w_called w ++ match cb with Some name => [name] | None => [] end |}.

(** [g.Cb(<-g.ChanCb)]; a closed and drained channel gives the [nil]
    callback. *)
Definition Go_recv_Cb (w : world) : outcome world :=
  match chan_recv (ChanCb (w_g w)) with
  | Received cb ch' =>
      Returns (Go_Cb {| w_g := {| ChanCb := ch'; pendingGo := pendingGo (w_g w) |};
                        w_started := w_started w; linearGo := linearGo w;
                        w_waiting := w_waiting w; w_log := w_log w; w_ran := w_ran w;
                        w_linear_ran := w_linear_ran w; w_called := w_called w |} cb)
  | RecvWaits => Blocks
  | RecvClosed => Returns (Go_Cb w None)
  end.

(** [Go.Close]: [Cb] takes one from the counter, so the loop makes as many
    turns as the counter says when it starts. *)
Fixpoint Go_Close_loop (turns : nat) (w : world) : outcome world :=
  match turns with
  | O => Returns w
  | S turns' =>
      if pendingGo (w_g w) >? 0 then
        do! w1 <- Go_recv_Cb w;
        Go_Close_loop turns' w1
      else Returns w
  end.

Definition Go_Close (w : world) : outcome world :=
  Go_Close_loop (Z.to_nat (pendingGo (w_g w))) w.

Definition Go_Idle (w : world) : bool := pendingGo (w_g w) =? 0.

(** [LinearContext.Go]: count the call, put it at the back of the queue and
    start a task. *)
Definition LinearContext_Go (w : world) (f : string) (cb : option string) : world :=
  {| w_g := {| ChanCb := ChanCb (w_g w); pendingGo := pendingGo (w_g w) + 1 |};
     w_started := w_started w;
     linearGo := linearGo w ++ [ {| lg_f := f; lg_cb := cb |} ];
     w_waiting := S (w_waiting w);
     w_log := w_log w; w_ran := w_ran w; w_linear_ran := w_linear_ran w;
     w_called := w_called w |}.

(** A task of the context, from the moment it holds [mutexExecution] to its
    end: it takes the front of the queue, whichever call started it, and runs
    that function.  [Remove] of the front of an empty list panics. *)
Definition LinearContext_task (w : world) : outcome world :=
  match linearGo w with
  | [] => Panics nil_dereference
  | e :: rest =>
      task_end {| w_g := w_g w; w_started := w_started w;
                  linearGo := rest; w_waiting := pred (w_waiting w);
                  w_log := w_log w; w_ran := w_ran w;
                  w_linear_ran := w_linear_ran w ++ [lg_f e];
                  w_called := w_called w |}
               (lg_cb e) (run_f (lg_f e))
  end.

(** What can happen next: a call of [Go.Go] or of [LinearContext.Go] by the
    owner, the run of a started task, the run of a waiting task of the
    context, or the owner taking a callback from the channel and calling it
    (as [Skeleton.Run] does when one is there). *)
Inductive action : Type :=
| DoGo (f : string) (cb : option string)
| DoTask (i : nat)
| DoLinearGo (f : string) (cb : option string)
| DoLinearTask
| DoCb.

Definition act (w : world) (a : action) : outcome world :=
  match a with
  | DoGo f cb => Returns (Go_Go w f cb)
  | DoTask i => Go_task w i
  | DoLinearGo f cb => Returns (LinearContext_Go w f cb)
  | DoLinearTask =>
      match w_waiting w with
      | O => Returns w
      | S _ => LinearContext_task w
      end
  | DoCb =>
      match ch_buf (ChanCb (w_g w)) with
      | [] => Returns w
      | _ :: _ => Go_recv_Cb w
      end
  end.

Fixpoint acts (w : world) (xs : list action) : outcome world :=
  match xs with
  | [] => Returns w
  | x :: xs' => do! w1 <- act w x; acts w1 xs'
  end.

End tasks.

(** The functions given to [LinearContext.Go] by a list of actions, in the
    order of the calls. *)
Fixpoint linear_calls (xs : list action) : list string :=
  match xs with
  | [] => []
  | DoLinearGo f _ :: xs' => f :: linear_calls xs'
  | _ :: xs' => linear_calls xs'
  end.

(** The callbacks that are not [nil]. *)
Definition callbacks (q : list (option string)) : list string :=
  flat_map (fun cb => match cb with Some name => [name] | None => [] end) q.

(** What holds between the actions: the counter is the number of callbacks
    in the channel plus the number of tasks that have not finished, and each
    waiting task of the context has its call in the queue. *)
Definition world_inv (w : world) : Prop :=
  pendingGo (w_g w)
  = len (ch_buf (ChanCb (w_g w))) + len (w_started w) + Z.of_nat (w_waiting w) /\
  length (linearGo w) = w_waiting w /\
  ch_closed (ChanCb (w_g w)) = false.

(** The number of calls of [Go.Go] and [LinearContext.Go] in a list of
    actions. *)
Fixpoint go_calls (xs : list action) : Z :=
  match xs with
  | [] => 0
  | DoGo _ _ :: xs' => 1 + go_calls xs'
  | DoLinearGo _ _ :: xs' => 1 + go_calls xs'
  | _ :: xs' => go_calls xs'
  end.

(** The function "bad" panics; every callback returns. *)
Definition panics_on_bad (name : string) : option string :=
  if String.eqb name "bad" then Some "bad"%string else None.

Definition quiet_cb (name : string) : option string := None.

End g.

(* ===================================================================== *)
(** * Package timer: the dispatcher and its timers                        *)
(* ===================================================================== *)

Module dispatcher.

(** Where the [time.Timer] of a timer stands: it has yet to fire, its
    function waits for room in the channel of the dispatcher, its function
    has sent the timer, or it was stopped before it fired. *)
Inductive clock : Type := Armed | Parked | Fired | Halted.

Record Timer : Type := mkTimer {
  t_t : clock;
  t_cb : option string
}.

(** What the owner of the dispatcher does to a timer, in order. *)
Inductive timer_event : Type :=
| EvStop (t : nat)
| EvCall (t : nat) (cb : string).

(** The dispatcher and the timers it made, which are known by their place
    in [d_timers]. *)
Record Dispatcher : Type := mkDispatcher {
  ChanTimer : chan nat;
  d_timers : list Timer;
  d_log : list string;
  d_trace : list timer_event
}.

Section dispatcher.

(** What a callback does when called: it returns ([None]) or panics. *)
Variable run_cb : string -> option string.
Variable LenStackBuf : Z.
Variable runtime_Stack : string.

Definition NewDispatcher (l : Z) : outcome Dispatcher :=
  do! ch <- make_chan l;
  Returns {| ChanTimer := ch; d_timers := []; d_log := []; d_trace := [] |}.

(** [AfterFunc]: a new timer with the callback, its clock armed. *)
Definition AfterFunc (disp : Dispatcher) (d : Z) (cb : option string)
    : Dispatcher * nat :=
  ({| ChanTimer := ChanTimer disp;
      d_timers := d_timers disp ++ [ {| t_t := Armed; t_cb := cb |} ];
      d_log := d_log disp; d_trace := d_trace disp |},
   length (d_timers disp)).

Definition set_timer (disp : Dispatcher) (t : nat) (tm : Timer) : Dispatcher :=
  {| ChanTimer := ChanTimer disp; d_timers := <[t := tm]> (d_timers disp);
     d_log := d_log disp; d_trace := d_trace disp |}.

(** The function given to [time.AfterFunc] runs, or goes on after waiting:
    it sends the timer when the channel has room and waits otherwise. *)
Definition fire (disp : Dispatcher) (t : nat) : outcome Dispatcher :=
  match d_timers disp !! t with
  | None => Returns disp
  | Some tm =>
      match t_t tm with
      | Armed | Parked =>
          match chan_send (ChanTimer disp) t with
          | Sent ch' =>
              Returns {| ChanTimer := ch';
                         d_timers := <[t := {| t_t := Fired; t_cb := t_cb tm |}]>
                                       (d_timers disp);
                         d_log := d_log disp; d_trace := d_trace disp |}
          | WouldBlock => Returns (set_timer disp t {| t_t := Parked; t_cb := t_cb tm |})
          | SendPanics => Panics "send on closed channel"
          end
      | _ => Returns disp
      end
  end.

(** [Timer.Stop]: the clock is stopped, which keeps it from firing if it has
    not fired yet, and the callback is dropped. *)
Definition Timer_Stop (disp : Dispatcher) (t : nat) : outcome Dispatcher :=
  match d_timers disp !! t with
  | None => Panics nil_dereference
  | Some tm =>
      Returns {| ChanTimer := ChanTimer disp;
                 d_timers := <[t := {| t_t := match t_t tm with
                                              | Armed => Halted
                                              | st => st
                                              end;
                                       t_cb := None |}]> (d_timers disp);
                 d_log := d_log disp;
                 d_trace := d_trace disp ++ [EvStop t] |}
  end.

(** [Timer.Cb]: the callback, if there still is one, is called; the deferred
    function drops it and logs a panic. *)
Definition Timer_Cb (disp : Dispatcher) (t : nat) : outcome Dispatcher :=
  match d_timers disp !! t with
  | None => Panics nil_dereference
  | Some tm =>
      match t_cb tm with
      | None => Returns disp
      | Some cb =>
          Returns {| ChanTimer := ChanTimer disp;
                     d_timers := <[t := {| t_t := t_t tm; t_cb := None |}]>
                                   (d_timers disp);
                     d_log := d_log disp
                              ++ match run_cb cb with
                                 | Some r => [panic_message LenStackBuf runtime_Stack r]
                                 | None => []
                                 end;
                     d_trace := d_trace disp ++ [EvCall t cb] |}
      end
  end.

(** [case t := <-s.dispatcher.ChanTimer: t.Cb()] of [Skeleton.Run], when a
    timer is there. *)
Definition dispatch (disp : Dispatcher) : outcome Dispatcher :=
  match chan_recv (ChanTimer disp) with
  | Received t ch' =>
      Timer_Cb {| ChanTimer := ch'; d_timers := d_timers disp;
                  d_log := d_log disp; d_trace := d_trace disp |} t
  | RecvWaits => Returns disp
  | RecvClosed => Panics nil_dereference
  end.

(** What can happen next; the owner stops only timers it was given. *)
Inductive timer_action : Type :=
| DoAfterFunc (d : Z) (cb : option string)
| DoFire (t : nat)
| DoStop (t : nat)
| DoDispatch.

Definition timer_act (disp : Dispatcher) (a : timer_action) : outcome Dispatcher :=
  match a with
  | DoAfterFunc d cb => Returns (fst (AfterFunc disp d cb))
  | DoFire t => fire disp t
  | DoStop t =>
      match d_timers disp !! t with
      | None => Returns disp
      | Some _ => Timer_Stop disp t
      end
  | DoDispatch => dispatch disp
  end.

Fixpoint timer_acts (disp : Dispatcher) (xs : list timer_action) : outcome Dispatcher :=
  match xs with
  | [] => Returns disp
  | x :: xs' => do! d1 <- timer_act disp x; timer_acts d1 xs'
  end.

End dispatcher.

Definition timer_of (ev : timer_event) : nat :=
  match ev with
  | EvStop t => t
  | EvCall t _ => t
  end.

(** No callback of a timer is called after the timer was stopped or its
    callback was called. *)
Fixpoint settled (tr : list timer_event) : Prop :=
  match tr with
  | [] => True
  | ev :: rest => (forall cb, ~ In (EvCall (timer_of ev) cb) rest) /\ settled rest
  end.

(** The callback given to [AfterFunc] for the timer at place [t]. *)
Fixpoint given (xs : list timer_action) (t : nat) : option string :=
  match xs with
  | [] => None
  | DoAfterFunc _ cb :: xs' =>
      match t with
      | O => cb
      | S t' => given xs' t'
      end
  | _ :: xs' => given xs' t
  end.

(** What holds between the actions: the channel is open and holds timers of
    the dispatcher; a timer that was stopped or called has no callback; the
    callback of a timer, while it has one, and the callbacks called are those
    that the timers were made with ([orig]). *)
Definition dispatcher_inv (orig : nat -> option string) (disp : Dispatcher) : Prop :=
  ch_closed (ChanTimer disp) = false /\
  Forall (fun t => (t < length (d_timers disp))%nat) (ch_buf (ChanTimer disp)) /\
  Forall (fun ev => exists tm, d_timers disp !! timer_of ev = Some tm /\ t_cb tm = None)
         (d_trace disp) /\
  settled (d_trace disp) /\
  (forall t tm, d_timers disp !! t = Some tm -> t_cb tm = None \/ t_cb tm = orig t) /\
  (forall t cb, In (EvCall t cb) (d_trace disp) -> orig t = Some cb).

Definition silent_cb (name : string) : option string := None.

End dispatcher.

(* ===================================================================== *)
(** * Package network: the TCP client                                     *)
(* ===================================================================== *)

Module tcp_client.

(** Where a task that runs [connect] stands: in [dial]; back from [dial]
    with a connection (numbered in the order of the dials) and about to take
    the lock; in [agent.Run], with the [TCPConn] it made; or returned. *)
Inductive connect_pc : Type :=
| Dialing
| Dialed (id : nat) (nc : netConn)
| Serving (id : nat) (tcpConn : TCPConn)
| Ended.

Inductive cli_event : Type :=
| CliLogRelease (line : string)
| CliDialError (err : string)
| CliSleep (d : Z)
| CliConnClosed (id : nat)
| CliAgentRun (id : nat)
| CliAgentOnClose (id : nat).

(** The client; [cli_conns] is [None] for the [nil] map. *)
Record TCPClient : Type := mkTCPClient {
  ConnNum : Z;
  ConnectInterval : Z;
  cli_PendingWriteNum : Z;
  AutoReconnect : bool;
  cli_conns : option (gset nat);
  cli_wg : Z;
  cli_closeFlag : bool;
  cli_msgParser : MsgParser;
  cli_tasks : list connect_pc;
  cli_dials : nat;
  cli_trace : list cli_event
}.

(** [Start], with a [NewAgent] and on a client that is not running: [init]
    resets what is not positive, makes the set and the parser and clears the
    flag; then [ConnNum] tasks are started. *)
Definition Start (connNum connectInterval pendingWriteNum : Z) (autoReconnect : bool)
    (lenMsgLen0 minMsgLen0 maxMsgLen0 : Z) (littleEndian0 : bool) : TCPClient :=
  let n := if connNum <=? 0 then 1 else connNum in
  let d := if connectInterval <=? 0 then 3 * time.Second else connectInterval in
  let p := if pendingWriteNum <=? 0 then 100 else pendingWriteNum in
  {| ConnNum := n; ConnectInterval := d; cli_PendingWriteNum := p;
     AutoReconnect := autoReconnect;
     cli_conns := Some ∅; cli_wg := n; cli_closeFlag := false;
     cli_msgParser := MsgParser_SetByteOrder
                        (MsgParser_SetMsgLen NewMsgParser lenMsgLen0 minMsgLen0 maxMsgLen0)
                        littleEndian0;
     cli_tasks := repeat Dialing (Z.to_nat n); cli_dials := 0;
     cli_trace :=
       (if connNum <=? 0
        then [CliLogRelease "invalid ConnNum, reset to 1"] else [])
       ++ (if connectInterval <=? 0
           then [CliLogRelease "invalid ConnectInterval, reset to 3s"] else [])
       ++ (if pendingWriteNum <=? 0
           then [CliLogRelease "invalid PendingWriteNum, reset to 100"] else []) |}.

Definition update (cl : TCPClient) (conns' : option (gset nat)) (wg' : Z)
    (tasks' : list connect_pc) (dials' : nat) (evs : list cli_event) : TCPClient :=
  {| ConnNum := ConnNum cl; ConnectInterval := ConnectInterval cl;
     cli_PendingWriteNum := cli_PendingWriteNum cl; AutoReconnect := AutoReconnect cl;
     cli_conns := conns'; cli_wg := wg'; cli_closeFlag := cli_closeFlag cl;
     cli_msgParser := cli_msgParser cl;
     cli_tasks := tasks'; cli_dials := dials';
     cli_trace := cli_trace cl ++ evs |}.

(** What [net.Dial] gives. *)
Inductive dial_result : Type :=
| DialOk (nc : netConn)
| DialError (err : string).

(** [connect] returns: the deferred [wg.Done()]. *)
Definition task_returns (cl : TCPClient) (k : nat) (evs : list cli_event) : TCPClient :=
  update cl (cli_conns cl) (cli_wg cl - 1) (<[k := Ended]> (cli_tasks cl))
         (cli_dials cl) evs.

(** One turn of the loop of [dial] in task [k], and the test [conn == nil]
    of [connect] when [dial] returns without a connection. *)
Definition connect_dial (cl : TCPClient) (k : nat) (res : dial_result)
    : outcome TCPClient :=
  match cli_tasks cl !! k with
  | Some Dialing =>
      match res with
      | DialOk nc =>
          Returns (update cl (cli_conns cl) (cli_wg cl)
                          (<[k := Dialed (cli_dials cl) nc]> (cli_tasks cl))
                          (S (cli_dials cl)) [])
      | DialError err =>
          if cli_closeFlag cl then Returns (task_returns cl k [])
          else Returns (update cl (cli_conns cl) (cli_wg cl) (cli_tasks cl)
                               (cli_dials cl)
                               [CliDialError err; CliSleep (ConnectInterval cl)])
      end
  | _ => Returns cl
  end.

(** [connect] under the lock, with the connection it got: either the client
    is closed and the connection is closed, or the connection enters the set
    and gets its [TCPConn] and its agent.  An entry in the [nil] map cannot
    be assigned. *)
Definition connect_enter (cl : TCPClient) (k : nat) : outcome TCPClient :=
  match cli_tasks cl !! k with
  | Some (Dialed id nc) =>
      if cli_closeFlag cl then Returns (task_returns cl k [CliConnClosed id])
      else
        match cli_conns cl with
        | None => Panics "assignment to entry in nil map"
        | Some set =>
            do! tcpConn <- newTCPConn nc (cli_PendingWriteNum cl) (cli_msgParser cl);
            Returns (update cl (Some ({[ id ]} ∪ set)) (cli_wg cl)
                            (<[k := Serving id tcpConn]> (cli_tasks cl))
                            (cli_dials cl) [CliAgentRun id])
        end
  | _ => Returns cl
  end.

(** [connect] after [agent.Run] has returned. *)
Definition connect_leave (cl : TCPClient) (k : nat) : outcome TCPClient :=
  match cli_tasks cl !! k with
  | Some (Serving id tcpConn) =>
      do! _closed <- TCPConn_Close tcpConn;
      let conns' := match cli_conns cl with
                    | Some set => Some (set ∖ {[ id ]})
                    | None => None
                    end in
      if AutoReconnect cl then
        Returns (update cl conns' (cli_wg cl) (<[k := Dialing]> (cli_tasks cl))
                        (cli_dials cl)
                        [CliAgentOnClose id; CliSleep (ConnectInterval cl)])
      else
        Returns (update cl conns' (cli_wg cl - 1) (<[k := Ended]> (cli_tasks cl))
                        (cli_dials cl) [CliAgentOnClose id])
  | _ => Returns cl
  end.

(** The connection of task [k] at work while its agent runs: a write by the
    agent, or a turn of the writer task. *)
Definition connect_serve (cl : TCPClient) (k : nat) (a : conn_action)
    : outcome TCPClient :=
  match cli_tasks cl !! k with
  | Some (Serving id c) =>
      match a with
      | ActWrite b =>
          do! c' <- TCPConn_Write c (Some b);
          Returns (update cl (cli_conns cl) (cli_wg cl)
                          (<[k := Serving id c']> (cli_tasks cl)) (cli_dials cl) [])
      | ActTurn =>
          match TCPConn_writer_step c false with
          | Some c' =>
              Returns (update cl (cli_conns cl) (cli_wg cl)
                              (<[k := Serving id c']> (cli_tasks cl)) (cli_dials cl) [])
          | None => Returns cl
          end
      end
  | _ => Returns cl
  end.

(** [conn.Close()] on the transport of a connection of the set. *)
Definition close_transport (set : gset nat) (pc : connect_pc) : connect_pc :=
  match pc with
  | Serving id c =>
      if decide (id ∈ set) then Serving id (TCPConn_set_conn c (net_Close (conn c)))
      else pc
  | _ => pc
  end.

(** [Close], up to the wait: the flag is set, the transports of the
    connections in the set are closed, and the set becomes [nil]. *)
Definition Close (cl : TCPClient) : TCPClient :=
  {| ConnNum := ConnNum cl; ConnectInterval := ConnectInterval cl;
     cli_PendingWriteNum := cli_PendingWriteNum cl; AutoReconnect := AutoReconnect cl;
     cli_conns := None; cli_wg := cli_wg cl; cli_closeFlag := true;
     cli_msgParser := cli_msgParser cl;
     cli_tasks := match cli_conns cl with
                  | Some set => map (close_transport set) (cli_tasks cl)
                  | None => cli_tasks cl
                  end;
     cli_dials := cli_dials cl;
     cli_trace := cli_trace cl
                  ++ match cli_conns cl with
                     | Some set => map CliConnClosed (elements set)
                     | None => []
                     end |}.

Inductive cli_action : Type :=
| CliDial (k : nat) (res : dial_result)
| CliEnter (k : nat)
| CliServe (k : nat) (a : conn_action)
| CliLeave (k : nat)
| CliClose.

Definition cli_act (cl : TCPClient) (x : cli_action) : outcome TCPClient :=
  match x with
  | CliDial k res => connect_dial cl k res
  | CliEnter k => connect_enter cl k
  | CliServe k a => connect_serve cl k a
  | CliLeave k => connect_leave cl k
  | CliClose => Returns (Close cl)
  end.

Fixpoint cli_acts (cl : TCPClient) (xs : list cli_action) : outcome TCPClient :=
  match xs with
  | [] => Returns cl
  | x :: xs' => do! cl1 <- cli_act cl x; cli_acts cl1 xs'
  end.

(** The agents started, by their connections, in order. *)
Definition agents_run (tr : list cli_event) : list nat :=
  flat_map (fun ev => match ev with CliAgentRun id => [id] | _ => [] end) tr.

(** The number of tasks that have not returned. *)
Definition live (pc : connect_pc) : Z :=
  match pc with
  | Ended => 0
  | _ => 1
  end.

Definition live_tasks (tasks : list connect_pc) : Z :=
  fold_right (fun pc n => live pc + n) 0 tasks.

End tcp_client.

(** * Invariants

    What the steps of a connection and of the teardown keep. *)

(** What every step keeps: the capacity, the occupancy below it, and an open
    queue as long as the closed flag is not set. *)
Definition TCPConn_inv (n : Z) (c : TCPConn) : Prop :=
  ch_cap (writeChan c) = n /\
  len (ch_buf (writeChan c)) <= n /\
  (closeFlag c = false -> ch_closed (writeChan c) = false).

Definition WSConn_inv (n : Z) (c : WSConn) : Prop :=
  ch_cap (ws_writeChan c) = n /\
  len (ch_buf (ws_writeChan c)) <= n /\
  (ws_closeFlag c = false -> ch_closed (ws_writeChan c) = false).

(** The teardown of the modules numbered [k] and above, last first. *)
Definition torn_down (n k : nat) : list event :=
  flat_map (fun i => [EvSendClose i; EvWaitDone i; EvOnDestroy i]) (rev (seq k (n - k))).

(** Every call of [OnDestroy] in a trace comes after the return of that
    module's [Run]. *)
Definition run_before_destroy (t : list event) : Prop :=
  forall t1 t2 i, t = t1 ++ EvOnDestroy i :: t2 -> In (EvRunReturned i) t1.

Definition destroy_events (r : registry) : list event :=
  List.filter is_destroy_event (reg_trace r).

(** A started module is running with a count of one, or has returned with a
    count of zero and its return on the trace. *)
Definition module_ok (t : list event) (j : nat) (m : module) : Prop :=
  (task m = Running /\ wg m = 1) \/
  (task m = Returned /\ wg m = 0 /\ In (EvRunReturned j) t).

Definition pc_ok (n : nat) (r : registry) (pc : Destroy_pc) : Prop :=
  match pc with
  | AtSend i =>
      0 <= i < Z.of_nat n /\
      destroy_events r = torn_down n (S (Z.to_nat i))
  | AtWait i =>
      0 <= i < Z.of_nat n /\
      destroy_events r = torn_down n (S (Z.to_nat i)) ++ [EvSendClose (Z.to_nat i)]
  | AtDestroy i =>
      0 <= i < Z.of_nat n /\
      destroy_events r = torn_down n (S (Z.to_nat i))
                         ++ [EvSendClose (Z.to_nat i); EvWaitDone (Z.to_nat i)] /\
      exists m, mods r !! Z.to_nat i = Some m /\ task m = Returned
  | Finished => destroy_events r = torn_down n 0
  end.

Definition sys_inv (n : nat) (st : registry * Destroy_pc) : Prop :=
  length (mods (fst st)) = n /\
  (forall j m, mods (fst st) !! j = Some m -> module_ok (reg_trace (fst st)) j m) /\
  pc_ok n (fst st) (snd st) /\
  run_before_destroy (reg_trace (fst st)).

(** What holds of a server between the actions: the limits are positive, the
    set of connections is within the limit and is counted by the wait group,
    each connection in it has its [TCPConn], and these keep their invariant. *)
Definition TCPServer_inv (sv : TCPServer) : Prop :=
  0 < MaxConnNum sv /\ 0 < PendingWriteNum sv /\
  Z.of_nat (size (srv_conns sv)) <= MaxConnNum sv /\
  srv_wgConns sv = Z.of_nat (size (srv_conns sv)) /\
  dom (srv_tcp sv) = srv_conns sv /\
  (forall conn, conn ∈ srv_conns sv -> (conn < srv_accepted sv)%nat) /\
  (forall conn c, srv_tcp sv !! conn = Some c -> TCPConn_inv (PendingWriteNum sv) c).

(** Whether [Destroy], where it stands, has sent the close signal of the
    module at place [j]. *)
Definition signalled (pc : Destroy_pc) (j : nat) : Prop :=
  match pc with
  | AtSend i => i < Z.of_nat j
  | AtWait i | AtDestroy i => i <= Z.of_nat j
  | Finished => True
  end.

(** The close signal of a module is an open channel of one slot, which is
    empty as long as [Destroy] has not sent on it. *)
Definition closeSig_ok (pc : Destroy_pc) (j : nat) (m : module) : Prop :=
  ch_closed (closeSig m) = false /\ ch_cap (closeSig m) = 1 /\
  (ch_buf (closeSig m) = [] \/ signalled pc j).

Definition closeSig_inv (st : registry * Destroy_pc) : Prop :=
  forall j m, mods (fst st) !! j = Some m -> closeSig_ok (snd st) j m.

(** What holds of a client between the actions: the queue length is
    positive, the set of connections is [nil] exactly when the client is
    closed, the wait group counts the tasks that have not returned, and the
    connections of the tasks keep their invariant. *)
Definition TCPClient_inv (cl : tcp_client.TCPClient) : Prop :=
  0 < tcp_client.cli_PendingWriteNum cl /\
  (tcp_client.cli_conns cl = None <-> tcp_client.cli_closeFlag cl = true) /\
  tcp_client.cli_wg cl = tcp_client.live_tasks (tcp_client.cli_tasks cl) /\
  (forall k id c, tcp_client.cli_tasks cl !! k = Some (tcp_client.Serving id c) ->
                  TCPConn_inv (tcp_client.cli_PendingWriteNum cl) c).

(* ===================================================================== *)
(** * Properties                                                          *)
(* ===================================================================== *)

(** ** Bytes and fixed-width integers *)

Lemma len_app {A : Type} (l1 l2 : list A) : len (l1 ++ l2) = len l1 + len l2.
Proof. unfold len. rewrite length_app. lia. Qed.

Lemma len_nonneg {A : Type} (l : list A) : 0 <= len l.
Proof. unfold len. lia. Qed.

Lemma len_repeat {A : Type} (x : A) (n : Z) : 0 <= n -> len (repeat x (Z.to_nat n)) = n.
Proof. intros Hn. unfold len. rewrite repeat_length. lia. Qed.

Lemma Z_of_byte_range (b : byte) : 0 <= Z_of_byte b < 256.
Proof.
  unfold Z_of_byte. pose proof (Byte.to_N_bounded b) as H. lia.
Qed.

Lemma Z_of_byte_of_Z (z : Z) : Z_of_byte (byte_of_Z z) = z mod 256.
Proof.
  unfold Z_of_byte, byte_of_Z.
  assert (Hr : 0 <= z mod 256 < 256) by (apply Z.mod_pos_bound; lia).
  destruct (Byte.of_N (Z.to_N (z mod 256))) as [b|] eqn:E.
  - apply Byte.to_of_N in E. rewrite E. lia.
  - apply Byte.of_N_None_iff in E. lia.
Qed.

Lemma land_shiftl_disjoint (lo hi k : Z) :
  0 <= k -> 0 <= lo < 2 ^ k -> Z.land lo (Z.shiftl hi k) = 0.
Proof.
  intros Hk Hlo. apply Z.bits_inj'. intros n Hn.
  rewrite Z.land_spec, Z.bits_0.
  destruct (Z.ltb_spec n k) as [Hlt|Hge].
  - rewrite Z.shiftl_spec_low by lia. apply andb_false_r.
  - destruct (Z.eq_dec lo 0) as [->|Hne].
    + rewrite Z.bits_0. reflexivity.
    + rewrite (Z.bits_above_log2 lo n); [reflexivity | lia |].
      apply Z.lt_le_trans with k; [|lia].
      apply Z.log2_lt_pow2; lia.
Qed.

Lemma lor_shiftl_add (lo hi k : Z) :
  0 <= k -> 0 <= lo < 2 ^ k -> Z.lor lo (Z.shiftl hi k) = lo + hi * 2 ^ k.
Proof.
  intros Hk Hlo.
  pose proof (land_shiftl_disjoint lo hi k Hk Hlo) as Hd.
  rewrite <- Z.lxor_lor by exact Hd.
  rewrite <- Z.add_nocarry_lxor by exact Hd.
  rewrite Z.shiftl_mul_pow2 by lia. reflexivity.
Qed.

(** ** The frame codec *)

Lemma uint32_small (z : Z) : 0 <= z < 4294967296 -> uint32 z = z.
Proof. intros H. unfold uint32. apply Z.mod_small. exact H. Qed.

Lemma Write_msgLen_from (args : list (list byte)) (acc : Z) :
  0 <= acc -> acc + len (concat args) < 4294967296 ->
  fold_left (fun msgLen a => uint32 (msgLen + uint32 (len a))) args acc
  = acc + len (concat args).
Proof.
  revert acc. induction args as [|a args IH]; intros acc Hacc Hsum; simpl.
  - unfold len. simpl. lia.
  - cbn [concat] in Hsum. rewrite len_app in Hsum.
    pose proof (len_nonneg a) as Ha. pose proof (len_nonneg (concat args)) as Hr.
    rewrite (uint32_small (len a)) by lia.
    rewrite (uint32_small (acc + len a)) by lia.
    rewrite IH by lia. rewrite len_app. lia.
Qed.

Lemma Write_msgLen_exact (args : list (list byte)) :
  len (concat args) < 4294967296 -> Write_msgLen args = len (concat args).
Proof.
  intros H. unfold Write_msgLen. rewrite Write_msgLen_from; lia.
Qed.

Lemma copy_at_fill (pre rest a : list byte) :
  len a <= len rest ->
  copy_at (pre ++ rest) (len pre) a = (pre ++ a) ++ skipn (length a) rest.
Proof.
  intros Hfit. unfold copy_at. rewrite len_app.
  replace (len pre + len rest - len pre) with (len rest) by lia.
  rewrite Z.min_r by lia.
  unfold len. rewrite Nat2Z.id.
  rewrite firstn_app, firstn_all, Nat.sub_diag. simpl. rewrite app_nil_r.
  rewrite Nat2Z.id, firstn_all.
  replace (Z.to_nat (Z.of_nat (length pre) + Z.of_nat (length a)))
    with (length pre + length a)%nat by lia.
  rewrite skipn_app.
  rewrite (skipn_all2 pre) by lia. simpl.
  replace (length pre + length a - length pre)%nat with (length a) by lia.
  rewrite <- app_assoc. reflexivity.
Qed.

Lemma Write_copy_concat (args : list (list byte)) (pre rest : list byte) :
  len rest = len (concat args) ->
  Write_copy (pre ++ rest) (len pre) args = Returns (pre ++ concat args).
Proof.
  revert pre rest. induction args as [|a args IH]; intros pre rest Hlen; simpl in *.
  - destruct rest; [rewrite app_nil_r; reflexivity | unfold len in Hlen; simpl in Hlen; lia].
  - rewrite len_app in Hlen.
    pose proof (len_nonneg pre) as Hp. pose proof (len_nonneg (concat args)) as Hc.
    pose proof (len_nonneg a) as Ha.
    replace (len pre <? 0) with false by (symmetry; apply Z.ltb_ge; lia).
    replace (len (pre ++ rest) <? len pre) with false
      by (symmetry; apply Z.ltb_ge; rewrite len_app; lia).
    simpl. rewrite copy_at_fill by lia.
    rewrite <- len_app. rewrite IH.
    + rewrite <- app_assoc. reflexivity.
    + unfold len in *. rewrite length_skipn. lia.
Qed.

Lemma repeat_split_header (w n : Z) :
  0 <= w -> 0 <= n ->
  repeat x00 (Z.to_nat (w + n)) = repeat x00 (Z.to_nat w) ++ repeat x00 (Z.to_nat n).
Proof.
  intros Hw Hn. rewrite Z2Nat.inj_add by lia. apply repeat_app.
Qed.

Lemma Write_header_ok (p : MsgParser) (n : Z) (zeros : list byte) :
  valid_width p -> 0 <= n <= header_max p ->
  Write_header p (repeat x00 (Z.to_nat (lenMsgLen p)) ++ zeros) n
  = Returns (length_header p n ++ zeros).
Proof.
  intros Hw Hn. unfold Write_header, length_header, header_max, valid_width in *.
  destruct p as [w mn mx le]; simpl in *.
  destruct Hw as [-> | [-> | ->]]; simpl in *.
  - reflexivity.
  - unfold uint16. rewrite Z.mod_small by lia.
    destruct le; unfold LittleEndian_PutUint16, BigEndian_PutUint16;
      replace (len (x00 :: x00 :: zeros) <? 2) with false
        by (symmetry; apply Z.ltb_ge; unfold len; simpl length; lia);
      rewrite Z.shiftr_div_pow2 by lia; reflexivity.
  - destruct le; unfold LittleEndian_PutUint32, BigEndian_PutUint32;
      replace (len (x00 :: x00 :: x00 :: x00 :: zeros) <? 4) with false
        by (symmetry; apply Z.ltb_ge; unfold len; simpl length; lia);
      rewrite !Z.shiftr_div_pow2 by lia; reflexivity.
Qed.

Lemma Write_frame_ok (p : MsgParser) (args : list (list byte)) :
  valid_width p ->
  minMsgLen p <= len (concat args) <= maxMsgLen p ->
  len (concat args) <= header_max p ->
  lenMsgLen p + len (concat args) < 4294967296 ->
  Write_frame p args = Returns (inl (wire_frame p (concat args))).
Proof.
  intros Hw Hb Hh Hov.
  pose proof (len_nonneg (concat args)) as Hn.
  assert (Hw0 : 0 < lenMsgLen p) by (destruct Hw as [->|[->| ->]]; lia).
  unfold Write_frame. rewrite Write_msgLen_exact by lia.
  destruct (Z.gtb_spec (len (concat args)) (maxMsgLen p)) as [Hgt|_]; [lia|].
  destruct (Z.ltb_spec (len (concat args)) (minMsgLen p)) as [Hlt|_]; [lia|].
  rewrite (uint32_small (lenMsgLen p)) by lia.
  rewrite uint32_small by lia.
  rewrite repeat_split_header by lia.
  rewrite Write_header_ok by (auto; lia). simpl.
  assert (Hl : lenMsgLen p = len (length_header p (len (concat args)))).
  { unfold length_header. destruct Hw as [H|[H|H]]; rewrite H; simpl;
      try destruct (littleEndian p); reflexivity. }
  unfold wire_frame.
  set (h := length_header p (len (concat args))) in *.
  rewrite Hl, Write_copy_concat by (apply len_repeat; lia).
  reflexivity.
Qed.

Lemma io_ReadFull_prefix (c : netConn) (pre rest : list byte) :
  net_closed c = false -> net_in c = pre ++ rest ->
  io_ReadFull c (len pre)
  = (inl pre, {| net_in := rest; net_out := net_out c;
                 net_linger0 := net_linger0 c; net_closed := false |}).
Proof.
  intros Hc Hin. unfold io_ReadFull.
  destruct (Z.leb_spec (len pre) 0) as [Hz|Hpos].
  - assert (pre = []) as -> by (destruct pre; [reflexivity | unfold len in Hz; simpl in Hz; lia]).
    destruct c; simpl in *; subst. reflexivity.
  - rewrite Hc, Hin.
    destruct (Z.ltb_spec (len (pre ++ rest)) (len pre)) as [Hlt|_].
    + rewrite len_app in Hlt. pose proof (len_nonneg rest). lia.
    + unfold len. rewrite Nat2Z.id.
      rewrite firstn_app, firstn_all, Nat.sub_diag, skipn_app, skipn_all, Nat.sub_diag.
      simpl. rewrite app_nil_r. reflexivity.
Qed.

Lemma decode_u16 (n : Z) :
  0 <= n < 65536 ->
  Z.lor (Z_of_byte (byte_of_Z n)) (Z.shiftl (Z_of_byte (byte_of_Z (n / 256))) 8) = n.
Proof.
  intros Hn. rewrite !Z_of_byte_of_Z.
  rewrite lor_shiftl_add by (try lia; apply Z.mod_pos_bound; lia).
  change (2 ^ 8) with 256.
  rewrite (Z.mod_small (n / 256)) by (split; [apply Z.div_pos; lia | apply Z.div_lt_upper_bound; lia]).
  pose proof (Z.div_mod n 256). lia.
Qed.

Lemma decode_u32 (n : Z) :
  0 <= n < 4294967296 ->
  Z.lor (Z.lor (Z.lor (Z_of_byte (byte_of_Z n))
                      (Z.shiftl (Z_of_byte (byte_of_Z (n / 256))) 8))
               (Z.shiftl (Z_of_byte (byte_of_Z (n / 65536))) 16))
        (Z.shiftl (Z_of_byte (byte_of_Z (n / 16777216))) 24) = n.
Proof.
  intros Hn. rewrite !Z_of_byte_of_Z.
  assert (H0 : 0 <= n mod 256 < 256) by (apply Z.mod_pos_bound; lia).
  assert (H1 : 0 <= (n / 256) mod 256 < 256) by (apply Z.mod_pos_bound; lia).
  assert (H2 : 0 <= (n / 65536) mod 256 < 256) by (apply Z.mod_pos_bound; lia).
  assert (H3 : 0 <= (n / 16777216) mod 256 < 256) by (apply Z.mod_pos_bound; lia).
  rewrite (lor_shiftl_add (n mod 256)) by (change (2 ^ 8) with 256; lia).
  rewrite (lor_shiftl_add _ _ 16) by (change (2 ^ 8) with 256; change (2 ^ 16) with 65536; lia).
  rewrite (lor_shiftl_add _ _ 24)
    by (change (2 ^ 8) with 256; change (2 ^ 16) with 65536;
        change (2 ^ 24) with 16777216; lia).
  change (2 ^ 8) with 256; change (2 ^ 16) with 65536; change (2 ^ 24) with 16777216.
  clear H0 H1 H2 H3.
  pose proof (Z.div_mod n 256 ltac:(lia)) as E0.
  pose proof (Z.div_mod (n / 256) 256 ltac:(lia)) as E1.
  pose proof (Z.div_mod (n / 65536) 256 ltac:(lia)) as E2.
  assert (D1 : n / 65536 = n / 256 / 256) by (rewrite Z.div_div by lia; reflexivity).
  assert (D2 : n / 16777216 = n / 65536 / 256) by (rewrite Z.div_div by lia; reflexivity).
  assert (H3 : (n / 16777216) mod 256 = n / 16777216).
  { apply Z.mod_small. split; [apply Z.div_pos; lia | apply Z.div_lt_upper_bound; lia]. }
  rewrite H3. rewrite D1 in *. rewrite D2 in *. lia.
Qed.

Lemma length_header_len (p : MsgParser) (n : Z) :
  valid_width p -> len (length_header p n) = lenMsgLen p.
Proof.
  intros Hw. unfold length_header.
  destruct Hw as [H|[H|H]]; rewrite H; simpl;
    try destruct (littleEndian p); reflexivity.
Qed.

Lemma MsgParser_Read_frame (p : MsgParser) (c : TCPConn) (payload rest : list byte) :
  valid_width p ->
  minMsgLen p <= len payload <= maxMsgLen p ->
  len payload <= header_max p ->
  net_closed (conn c) = false ->
  net_in (conn c) = wire_frame p payload ++ rest ->
  MsgParser_Read p c
  = Returns (inl payload,
             TCPConn_set_conn c {| net_in := rest; net_out := net_out (conn c);
                                   net_linger0 := net_linger0 (conn c);
                                   net_closed := false |}).
Proof.
  intros Hw Hb Hh Hc Hin.
  pose proof (len_nonneg payload) as Hn.
  unfold MsgParser_Read.
  assert (Hw4 : (lenMsgLen p <? 0) || (4 <? lenMsgLen p) = false).
  { destruct Hw as [H|[H|H]]; rewrite H; reflexivity. }
  rewrite Hw4.
  unfold wire_frame in Hin. rewrite <- app_assoc in Hin.
  rewrite <- (length_header_len p (len payload) Hw) at 1.
  rewrite (io_ReadFull_prefix _ _ _ Hc Hin).
  set (conn1 := {| net_in := payload ++ rest; net_out := net_out (conn c);
                   net_linger0 := net_linger0 (conn c); net_closed := false |}).
  assert (Hdec :
    (if lenMsgLen p =? 1 then Z_of_byte (nth 0 (length_header p (len payload)) x00)
     else if lenMsgLen p =? 2 then
       if littleEndian p then LittleEndian_Uint16 (length_header p (len payload))
       else BigEndian_Uint16 (length_header p (len payload))
     else if lenMsgLen p =? 4 then
       if littleEndian p then LittleEndian_Uint32 (length_header p (len payload))
       else BigEndian_Uint32 (length_header p (len payload))
     else 0) = len payload).
  { unfold length_header, header_max in *.
    destruct Hw as [H|[H|H]]; rewrite H in *; simpl in Hh |- *.
    - rewrite Z_of_byte_of_Z. apply Z.mod_small. lia.
    - destruct (littleEndian p);
        unfold LittleEndian_Uint16, BigEndian_Uint16; simpl nth;
        apply decode_u16; lia.
    - destruct (littleEndian p);
        unfold LittleEndian_Uint32, BigEndian_Uint32; simpl nth;
        apply decode_u32; lia. }
  rewrite Hdec.
  destruct (Z.gtb_spec (len payload) (maxMsgLen p)) as [Hgt|_]; [lia|].
  destruct (Z.ltb_spec (len payload) (minMsgLen p)) as [Hlt|_]; [lia|].
  rewrite (io_ReadFull_prefix conn1 payload rest eq_refl eq_refl).
  reflexivity.
Qed.

(** Round trip of the frame codec, away from the 32-bit wrap-around: for a
    parser with a width of 1, 2 or 4 whose maximum fits the header, and buffers
    whose total length lies within the bounds and, with the header, below
    [2^32], [Write] builds exactly header-then-payload, queues it on an open
    connection with room, and [Read] on a stream that starts with these bytes
    returns the payload and leaves the rest of the stream. *)
Theorem MsgParser_roundtrip (p : MsgParser) (args : list (list byte))
    (cw cr : TCPConn) (rest : list byte) :
  valid_width p ->
  maxMsgLen p <= header_max p ->
  minMsgLen p <= len (concat args) <= maxMsgLen p ->
  lenMsgLen p + len (concat args) < 4294967296 ->
  closeFlag cw = false -> ch_closed (writeChan cw) = false ->
  len (ch_buf (writeChan cw)) < ch_cap (writeChan cw) ->
  net_closed (conn cr) = false ->
  net_in (conn cr) = wire_frame p (concat args) ++ rest ->
  Write_frame p args = Returns (inl (wire_frame p (concat args))) /\
  MsgParser_Write p cw args
  = Returns (None,
             {| conn := conn cw;
                writeChan := mkChan (ch_buf (writeChan cw)
                                     ++ [Some (wire_frame p (concat args))])
                                    (ch_cap (writeChan cw)) false;
                closeFlag := false; msgParser := msgParser cw;
                writerExited := writerExited cw |}) /\
  MsgParser_Read p cr
  = Returns (inl (concat args),
             TCPConn_set_conn cr {| net_in := rest; net_out := net_out (conn cr);
                                    net_linger0 := net_linger0 (conn cr);
                                    net_closed := false |}).
Proof.
  intros Hw Hmax Hb Hov Hcf Hcc Hroom Hnc Hin.
  assert (Hfr := Write_frame_ok p args Hw Hb ltac:(lia) Hov).
  split; [exact Hfr|]. split.
  - unfold MsgParser_Write. rewrite Hfr. simpl.
    rewrite Hcf. unfold TCPConn_doWrite.
    destruct (Z.eqb_spec (len (ch_buf (writeChan cw))) (ch_cap (writeChan cw))) as [E|_];
      [lia|].
    unfold chan_send. rewrite Hcc.
    destruct (Z.ltb_spec (len (ch_buf (writeChan cw))) (ch_cap (writeChan cw))) as [_|E];
      [|lia].
    simpl. rewrite Hcf. reflexivity.
  - apply MsgParser_Read_frame; auto; lia.
Qed.

(** The round trip at width 2, big-endian, for the payload [41 42 43]. *)
Lemma MsgParser_roundtrip_witness :
  MsgParser_Write parser_S1 (fresh_conn parser_S1) [[x41; x42; x43]]
  = Returns (None,
             {| conn := idle_net;
                writeChan := mkChan [Some [x00; x03; x41; x42; x43]] 2 false;
                closeFlag := false; msgParser := parser_S1; writerExited := false |}) /\
  MsgParser_Read parser_S1
    (TCPConn_set_conn (fresh_conn parser_S1)
       {| net_in := [x00; x03; x41; x42; x43]; net_out := [];
          net_linger0 := false; net_closed := false |})
  = Returns (inl [x41; x42; x43], fresh_conn parser_S1).
Proof.
  destruct (MsgParser_roundtrip parser_S1 [[x41; x42; x43]] (fresh_conn parser_S1)
              (TCPConn_set_conn (fresh_conn parser_S1)
                 {| net_in := [x00; x03; x41; x42; x43]; net_out := [];
                    net_linger0 := false; net_closed := false |}) [])
    as (_ & Hwrite & Hread).
  - right. left. reflexivity.
  - vm_compute. discriminate.
  - vm_compute. split; discriminate.
  - vm_compute. reflexivity.
  - reflexivity.
  - reflexivity.
  - vm_compute. reflexivity.
  - reflexivity.
  - reflexivity.
  - split; [exact Hwrite | exact Hread].
Defined.

(** Scenario S1: width 2, big-endian, min 1, max 8; writing [41 42 43] queues
    the wire bytes [00 03 41 42 43], and reading them back yields [41 42 43]. *)
Example S1_framing :
  MsgParser_Write parser_S1 (fresh_conn parser_S1) [[x41; x42; x43]]
  = Returns (None,
             {| conn := idle_net;
                writeChan := mkChan [Some [x00; x03; x41; x42; x43]] 2 false;
                closeFlag := false; msgParser := parser_S1; writerExited := false |}) /\
  MsgParser_Read parser_S1
    (TCPConn_set_conn (fresh_conn parser_S1)
       {| net_in := [x00; x03; x41; x42; x43]; net_out := [];
          net_linger0 := false; net_closed := false |})
  = Returns (inl [x41; x42; x43], fresh_conn parser_S1).
Proof. split; reflexivity. Qed.

Lemma Write_frame_wraps (p : MsgParser) (args : list (list byte)) :
  lenMsgLen p = 4 ->
  minMsgLen p <= len (concat args) <= maxMsgLen p ->
  4294967292 <= len (concat args) < 4294967296 ->
  Write_frame p args = Panics "index out of range".
Proof.
  intros Hw Hb Hn. unfold Write_frame.
  rewrite Write_msgLen_exact by lia.
  destruct (Z.gtb_spec (len (concat args)) (maxMsgLen p)) as [Hgt|_]; [lia|].
  destruct (Z.ltb_spec (len (concat args)) (minMsgLen p)) as [Hlt|_]; [lia|].
  rewrite Hw.
  assert (Hwrap : uint32 (uint32 4 + len (concat args)) = len (concat args) - 4294967292).
  { unfold uint32. rewrite (Z.mod_small 4) by lia.
    symmetry. apply Z.mod_unique with 1; lia. }
  rewrite Hwrap.
  set (k := len (concat args) - 4294967292).
  assert (Hk : 0 <= k < 4) by (unfold k; lia).
  unfold Write_header. rewrite Hw. simpl.
  assert (Hshort : (len (repeat x00 (Z.to_nat k)) <? 4) = true)
    by (apply Z.ltb_lt; rewrite len_repeat; lia).
  destruct (littleEndian p);
    unfold LittleEndian_PutUint32, BigEndian_PutUint32; rewrite Hshort; reflexivity.
Qed.

Lemma huge_payload_len : len (concat [huge_payload]) = 4294967292.
Proof.
  unfold huge_payload. cbn [concat]. rewrite app_nil_r.
  apply len_repeat. lia.
Qed.

(** ** The bounded write queue *)

Lemma TCPConn_doDestroy_inv n c c' :
  TCPConn_inv n c -> TCPConn_doDestroy c = Returns c' -> TCPConn_inv n c'.
Proof.
  intros (Hcap & Hlen & Hopen). unfold TCPConn_doDestroy, close_chan.
  destruct (closeFlag c) eqn:Hcf; simpl.
  - intros [= <-]. unfold TCPConn_inv. simpl. repeat split; auto.
  - rewrite (Hopen eq_refl). simpl. intros [= <-].
    unfold TCPConn_inv. simpl. repeat split; auto; try discriminate.
Qed.

Lemma TCPConn_doWrite_inv n c b c' :
  TCPConn_inv n c -> TCPConn_doWrite c b = Returns c' -> TCPConn_inv n c'.
Proof.
  intros Hinv. pose proof Hinv as (Hcap & Hlen & Hopen). unfold TCPConn_doWrite.
  destruct (Z.eqb_spec (len (ch_buf (writeChan c))) (ch_cap (writeChan c))) as [E|E].
  - apply TCPConn_doDestroy_inv. exact Hinv.
  - unfold chan_send. destruct (ch_closed (writeChan c)) eqn:Hcl; [discriminate|].
    destruct (Z.ltb_spec (len (ch_buf (writeChan c))) (ch_cap (writeChan c))) as [Hlt|Hge];
      [|discriminate].
    intros [= <-]. unfold TCPConn_inv. simpl. rewrite len_app.
    repeat split; auto. unfold len at 2. simpl. lia.
Qed.

Lemma TCPConn_Write_inv n c b c' :
  TCPConn_inv n c -> TCPConn_Write c b = Returns c' -> TCPConn_inv n c'.
Proof.
  intros Hinv. unfold TCPConn_Write. destruct b as [b|].
  - destruct (closeFlag c); [intros [= <-]; exact Hinv|].
    apply TCPConn_doWrite_inv. exact Hinv.
  - intros [= <-]. exact Hinv.
Qed.

Lemma TCPConn_writer_exit_inv n c rest :
  ch_cap (writeChan c) = n -> len rest <= n -> TCPConn_inv n (TCPConn_writer_exit c rest).
Proof.
  intros Hcap Hlen. unfold TCPConn_inv, TCPConn_writer_exit. simpl.
  repeat split; auto; try discriminate.
Qed.

Lemma TCPConn_step_inv n c c' :
  TCPConn_inv n c -> TCPConn_step c c' -> TCPConn_inv n c'.
Proof.
  intros Hinv Hstep. destruct Hstep as
    [c b c' H | c args e c' H | c c' H | c c' H | c r c' H | c fail c' H].
  - eapply TCPConn_Write_inv; eauto.
  - unfold TCPConn_WriteMsg, MsgParser_Write in H.
    destruct (Write_frame (msgParser c) args) as [[msg|err] | |]; cbn [obind] in H;
      try discriminate.
    + destruct (TCPConn_Write c (Some msg)) as [c1| |] eqn:Hw; cbn [obind] in H;
        try discriminate.
      inversion H; subst. eapply TCPConn_Write_inv; eauto.
    + inversion H; subst. exact Hinv.
  - unfold TCPConn_Close in H. destruct (closeFlag c) eqn:Hcf.
    + injection H as <-. exact Hinv.
    + destruct (TCPConn_doWrite c None) as [c1| |] eqn:Hw; simpl in H; try discriminate.
      injection H as <-.
      destruct (TCPConn_doWrite_inv n c None c1 Hinv Hw) as (Hcap & Hlen & _).
      unfold TCPConn_inv. simpl. repeat split; auto; try discriminate.
  - eapply TCPConn_doDestroy_inv; eauto.
  - destruct Hinv as (Hcap & Hlen & Hopen).
    unfold TCPConn_ReadMsg, MsgParser_Read in H.
    destruct ((lenMsgLen (msgParser c) <? 0) || (4 <? lenMsgLen (msgParser c)));
      [discriminate|].
    assert (Hset : forall k, TCPConn_inv n (TCPConn_set_conn c k))
      by (intros k; unfold TCPConn_inv; simpl; auto).
    repeat match type of H with
    | context [match ?x with _ => _ end] => destruct x
    | context [if ?x then _ else _] => destruct x
    end; injection H as _ <-; apply Hset.
  - destruct Hinv as (Hcap & Hlen & Hopen).
    unfold TCPConn_writer_step in H.
    destruct (writerExited c); [discriminate|].
    destruct (ch_buf (writeChan c)) as [|[b|] rest] eqn:Hbuf.
    + destruct (ch_closed (writeChan c)); [|discriminate].
      injection H as <-. apply TCPConn_writer_exit_inv; auto.
    + assert (Hr : len rest <= n) by (unfold len in *; simpl in Hlen; lia).
      destruct (net_Write (conn c) b) as [conn1 [e|]].
      * injection H as <-. apply TCPConn_writer_exit_inv; auto.
      * destruct fail; injection H as <-; [apply TCPConn_writer_exit_inv; auto|].
        unfold TCPConn_inv. simpl. auto.
    + assert (Hr : len rest <= n) by (unfold len in *; simpl in Hlen; lia).
      injection H as <-. apply TCPConn_writer_exit_inv; auto.
Qed.

Lemma TCPConn_reaches_inv n c0 c :
  TCPConn_inv n c0 -> TCPConn_reaches c0 c -> TCPConn_inv n c.
Proof.
  intros H0 Hr. induction Hr as [|c c' _ IH Hstep]; [exact H0|].
  eapply TCPConn_step_inv; eauto.
Qed.

Lemma newTCPConn_inv conn0 n p c0 :
  newTCPConn conn0 n p = Returns c0 -> TCPConn_inv n c0.
Proof.
  unfold newTCPConn, make_chan. destruct (Z.ltb_spec n 0) as [Hneg|Hpos]; simpl;
    [discriminate|].
  intros [= <-]. unfold TCPConn_inv, len. simpl. auto.
Qed.

Lemma TCPConn_doWrite_full n c b :
  TCPConn_inv n c -> closeFlag c = false ->
  len (ch_buf (writeChan c)) = ch_cap (writeChan c) ->
  TCPConn_doWrite c b = Returns (TCPConn_destroyed c).
Proof.
  intros (Hcap & Hlen & Hopen) Hcf Hfull. unfold TCPConn_doWrite.
  rewrite Hfull, Z.eqb_refl. unfold TCPConn_doDestroy, close_chan.
  rewrite Hcf, (Hopen Hcf). reflexivity.
Qed.

Lemma WSConn_doDestroy_inv n c c' :
  WSConn_inv n c -> WSConn_doDestroy c = Returns c' -> WSConn_inv n c'.
Proof.
  intros (Hcap & Hlen & Hopen). unfold WSConn_doDestroy, close_chan.
  destruct (ws_closeFlag c) eqn:Hcf; simpl.
  - intros [= <-]. unfold WSConn_inv. simpl. repeat split; auto.
  - rewrite (Hopen eq_refl). simpl. intros [= <-].
    unfold WSConn_inv. simpl. repeat split; auto; try discriminate.
Qed.

Lemma WSConn_doWrite_inv n c b c' :
  WSConn_inv n c -> WSConn_doWrite c b = Returns c' -> WSConn_inv n c'.
Proof.
  intros Hinv. pose proof Hinv as (Hcap & Hlen & Hopen). unfold WSConn_doWrite.
  destruct (Z.eqb_spec (len (ch_buf (ws_writeChan c))) (ch_cap (ws_writeChan c))) as [E|E].
  - apply WSConn_doDestroy_inv. exact Hinv.
  - unfold chan_send. destruct (ch_closed (ws_writeChan c)) eqn:Hcl; [discriminate|].
    destruct (Z.ltb_spec (len (ch_buf (ws_writeChan c))) (ch_cap (ws_writeChan c)))
      as [Hlt|Hge]; [|discriminate].
    intros [= <-]. unfold WSConn_inv. simpl. rewrite len_app.
    repeat split; auto. unfold len at 2. simpl. lia.
Qed.

Lemma WSConn_writer_exit_inv n c rest :
  ch_cap (ws_writeChan c) = n -> len rest <= n -> WSConn_inv n (WSConn_writer_exit c rest).
Proof.
  intros Hcap Hlen. unfold WSConn_inv, WSConn_writer_exit. simpl.
  repeat split; auto; try discriminate.
Qed.

Lemma WSConn_WriteMsg_inv n c args e c' :
  WSConn_inv n c -> WSConn_WriteMsg c args = Returns (e, c') -> WSConn_inv n c'.
Proof.
  intros Hinv H. unfold WSConn_WriteMsg in H.
  destruct (ws_closeFlag c); [inversion H; subst; exact Hinv|].
  destruct (Write_msgLen args >? ws_maxMsgLen c); [inversion H; subst; exact Hinv|].
  destruct (Write_msgLen args <? 1); [inversion H; subst; exact Hinv|].
  assert (Hsend : forall b, (do! c1 <- WSConn_doWrite c (Some b); Returns (None, c1))
                            = Returns (e, c') -> WSConn_inv n c').
  { intros b Hb. destruct (WSConn_doWrite c (Some b)) as [c1| |] eqn:Hw;
      cbn [obind] in Hb; try discriminate.
    inversion Hb; subst. eapply WSConn_doWrite_inv; eauto. }
  assert (Hmerge : (do! msg <- WSConn_merge (repeat x00 (Z.to_nat (Write_msgLen args))) 0 args;
                    do! c1 <- WSConn_doWrite c (Some msg); Returns (None, c1))
                   = Returns (e, c') -> WSConn_inv n c').
  { intros Hm.
    destruct (WSConn_merge (repeat x00 (Z.to_nat (Write_msgLen args))) 0 args)
      as [msg| |]; cbn [obind] in Hm; try discriminate.
    eapply Hsend; eauto. }
  destruct args as [|a [|a' args']]; eauto.
Qed.

Lemma WSConn_step_inv n c c' :
  WSConn_inv n c -> WSConn_step c c' -> WSConn_inv n c'.
Proof.
  intros Hinv Hstep. destruct Hstep as
    [c args e c' H | c c' H | c c' H | c r c' H | c fail c' H].
  - eapply WSConn_WriteMsg_inv; eauto.
  - unfold WSConn_Close in H. destruct (ws_closeFlag c) eqn:Hcf.
    + injection H as <-. exact Hinv.
    + destruct (WSConn_doWrite c None) as [c1| |] eqn:Hw; simpl in H; try discriminate.
      injection H as <-.
      destruct (WSConn_doWrite_inv n c None c1 Hinv Hw) as (Hcap & Hlen & _).
      unfold WSConn_inv. simpl. repeat split; auto; try discriminate.
  - eapply WSConn_doDestroy_inv; eauto.
  - destruct Hinv as (Hcap & Hlen & Hopen).
    unfold WSConn_ReadMsg in H.
    destruct (wsn_ReadMessage (ws_conn c)) as [r1 conn1].
    inversion H; subst. unfold WSConn_inv. simpl. auto.
  - destruct Hinv as (Hcap & Hlen & Hopen).
    unfold WSConn_writer_step in H.
    destruct (ws_writerExited c); [discriminate|].
    destruct (ch_buf (ws_writeChan c)) as [|[b|] rest] eqn:Hbuf.
    + destruct (ch_closed (ws_writeChan c)); [|discriminate].
      injection H as <-. apply WSConn_writer_exit_inv; auto.
    + assert (Hr : len rest <= n) by (unfold len in *; simpl in Hlen; lia).
      destruct (wsn_WriteMessage (ws_conn c) b) as [conn1 [e|]].
      * injection H as <-. apply WSConn_writer_exit_inv; auto.
      * destruct fail; injection H as <-; [apply WSConn_writer_exit_inv; auto|].
        unfold WSConn_inv. simpl. auto.
    + assert (Hr : len rest <= n) by (unfold len in *; simpl in Hlen; lia).
      injection H as <-. apply WSConn_writer_exit_inv; auto.
Qed.

Lemma WSConn_reaches_inv n c0 c :
  WSConn_inv n c0 -> WSConn_reaches c0 c -> WSConn_inv n c.
Proof.
  intros H0 Hr. induction Hr as [|c c' _ IH Hstep]; [exact H0|].
  eapply WSConn_step_inv; eauto.
Qed.

Lemma newWSConn_inv conn0 n m c0 :
  newWSConn conn0 n m = Returns c0 -> WSConn_inv n c0.
Proof.
  unfold newWSConn, make_chan. destruct (Z.ltb_spec n 0) as [Hneg|Hpos]; simpl;
    [discriminate|].
  intros [= <-]. unfold WSConn_inv, len. simpl. auto.
Qed.

Lemma WSConn_doWrite_full n c b :
  WSConn_inv n c -> ws_closeFlag c = false ->
  len (ch_buf (ws_writeChan c)) = ch_cap (ws_writeChan c) ->
  WSConn_doWrite c b = Returns (WSConn_destroyed c).
Proof.
  intros (Hcap & Hlen & Hopen) Hcf Hfull. unfold WSConn_doWrite.
  rewrite Hfull, Z.eqb_refl. unfold WSConn_doDestroy, close_chan.
  rewrite Hcf, (Hopen Hcf). reflexivity.
Qed.



(** ** Configuration bounds of the frame codec *)

(** C7, as stated, fails: [SetMsgLen] never compares the two bounds with each
    other.  Starting from the default parser, [SetMsgLen(2, 10, 5)] leaves a
    minimum of 10 above a maximum of 5. *)
Lemma SetMsgLen_min_above_max :
  minMsgLen (MsgParser_SetMsgLen NewMsgParser 2 10 5) = 10 /\
  maxMsgLen (MsgParser_SetMsgLen NewMsgParser 2 10 5) = 5 /\
  maxMsgLen (MsgParser_SetMsgLen NewMsgParser 2 10 5)
  < minMsgLen (MsgParser_SetMsgLen NewMsgParser 2 10 5).
Proof. repeat split. Qed.

(** C7 (amended).  After every call to [SetMsgLen] on a parser whose width is
    1, 2 or 4, for all arguments: the width is still 1, 2 or 4; the minimum and
    the maximum are each at most [2^(8*lenMsgLen) - 1], each being the value
    that passed its gate clamped to that limit; hence every accepted payload
    length lies between the minimum and the maximum and fits the header.  The
    two bounds are not ordered by the call: the minimum is at most the maximum
    when the values that passed the gates (a non-zero argument, else the
    previous field) were so ordered. *)
Theorem SetMsgLen_bounds (p : MsgParser) (lenMsgLen' minMsgLen' maxMsgLen' : Z) :
  valid_width p ->
  let p' := MsgParser_SetMsgLen p lenMsgLen' minMsgLen' maxMsgLen' in
  let mn := if minMsgLen' =? 0 then minMsgLen p else minMsgLen' in
  let mx := if maxMsgLen' =? 0 then maxMsgLen p else maxMsgLen' in
  valid_width p' /\
  minMsgLen p' = Z.min mn (header_max p') /\
  maxMsgLen p' = Z.min mx (header_max p') /\
  minMsgLen p' <= header_max p' /\
  maxMsgLen p' <= header_max p' /\
  (forall n, minMsgLen p' <= n <= maxMsgLen p' -> n <= header_max p') /\
  (mn <= mx -> minMsgLen p' <= maxMsgLen p').
Proof.
  intros Hw p' mn mx.
  assert (Hw' : valid_width p').
  { unfold p', valid_width, MsgParser_SetMsgLen in *. simpl.
    destruct (Z.eqb_spec lenMsgLen' 1); simpl; [lia|].
    destruct (Z.eqb_spec lenMsgLen' 2); simpl; [lia|].
    destruct (Z.eqb_spec lenMsgLen' 4); simpl; [lia|]. exact Hw. }
  assert (Hmin : minMsgLen p' = Z.min mn (header_max p') /\
                 maxMsgLen p' = Z.min mx (header_max p')).
  { unfold header_max. unfold valid_width in Hw'.
    subst mn mx. unfold p' in *. unfold MsgParser_SetMsgLen in *. simpl in *.
    set (l := if (lenMsgLen' =? 1) || (lenMsgLen' =? 2) || (lenMsgLen' =? 4)
              then lenMsgLen' else lenMsgLen p) in *.
    clearbody l.
    destruct (Z.eqb_spec minMsgLen' 0); destruct (Z.eqb_spec maxMsgLen' 0); simpl;
      destruct Hw' as [-> | [-> | ->]]; simpl;
      unfold MaxUint8, MaxUint16, MaxUint32;
      split;
      match goal with
      | |- (if ?a >? ?b then _ else _) = _ => destruct (Z.gtb_spec a b); lia
      end. }
  destruct Hmin as [Hmn Hmx].
  split; [exact Hw'|]. split; [exact Hmn|]. split; [exact Hmx|].
  repeat split; try lia.
Qed.

Lemma SetMsgLen_bounds_witness :
  valid_width (MsgParser_SetMsgLen NewMsgParser 1 3 0) /\
  minMsgLen (MsgParser_SetMsgLen NewMsgParser 1 3 0) = 3 /\
  maxMsgLen (MsgParser_SetMsgLen NewMsgParser 1 3 0) = 255 /\
  (200 <= 255) /\
  minMsgLen (MsgParser_SetMsgLen NewMsgParser 1 3 0)
  <= maxMsgLen (MsgParser_SetMsgLen NewMsgParser 1 3 0).
Proof.
  assert (Hw : valid_width NewMsgParser) by (right; left; reflexivity).
  destruct (SetMsgLen_bounds NewMsgParser 1 3 0 Hw)
    as (Hv & Hmn & Hmx & _ & _ & Hfit & Hord).
  split; [exact Hv|]. split; [exact Hmn|]. split; [exact Hmx|].
  split; [apply (Hfit 200); change (3 <= 200 <= 255); lia|].
  apply Hord. change (3 <= 4096). lia.
Defined.

(** ** Length errors of [Write] *)

(** C8, as stated, fails for a parser whose minimum is above its maximum: a
    total of 7 bytes is below the minimum 10, yet the first check (above the
    maximum 5) answers, and [Write] returns "message too long", not "message
    too short". *)
Lemma Write_below_min_reports_too_long :
  len (concat [[x01; x02; x03; x04; x05; x06; x07]]) < minMsgLen parser_crossed /\
  MsgParser_Write parser_crossed (fresh_conn parser_crossed)
    [[x01; x02; x03; x04; x05; x06; x07]]
  = Returns (Some "message too long"%string, fresh_conn parser_crossed).
Proof. split; vm_compute; reflexivity. Qed.

(** C8 (amended).  For every vector of buffers whose summed length is below
    [2^32] and is either above [maxMsgLen] or below [minMsgLen], [Write]
    returns an error and hands nothing to the connection layer (no buffer is
    built and the connection is unchanged): the error is "message too long"
    when the sum exceeds [maxMsgLen], and "message too short" when it does not
    exceed [maxMsgLen] and is below [minMsgLen]. *)
Theorem Write_length_errors (p : MsgParser) (c : TCPConn) (args : list (list byte)) :
  len (concat args) < 4294967296 ->
  maxMsgLen p < len (concat args) \/ len (concat args) < minMsgLen p ->
  let err := if maxMsgLen p <? len (concat args)
             then "message too long"%string else "message too short"%string in
  Write_frame p args = Returns (inr err) /\
  MsgParser_Write p c args = Returns (Some err, c).
Proof.
  intros Hsum Hout err.
  assert (Hfr : Write_frame p args = Returns (inr err)).
  { unfold Write_frame, err. rewrite Write_msgLen_exact by exact Hsum.
    rewrite Z.gtb_ltb.
    destruct (Z.ltb_spec (maxMsgLen p) (len (concat args))) as [Hgt|Hle]; [reflexivity|].
    destruct (Z.ltb_spec (len (concat args)) (minMsgLen p)) as [Hlt|Hge];
      [reflexivity | lia]. }
  split; [exact Hfr|].
  unfold MsgParser_Write. rewrite Hfr. reflexivity.
Qed.

(** Scenario S2 (width 1, max 255, a payload of 256 bytes: "message too long",
    nothing sent) and an empty write on the default parser ("message too
    short"). *)
Lemma Write_length_errors_witness :
  MsgParser_Write parser_S2 (fresh_conn parser_S2) [repeat x00 256]
  = Returns (Some "message too long"%string, fresh_conn parser_S2) /\
  MsgParser_Write NewMsgParser (fresh_conn NewMsgParser) []
  = Returns (Some "message too short"%string, fresh_conn NewMsgParser).
Proof.
  split.
  - apply (Write_length_errors parser_S2 (fresh_conn parser_S2) [repeat x00 256]).
    + vm_compute. reflexivity.
    + left. vm_compute. reflexivity.
  - apply (Write_length_errors NewMsgParser (fresh_conn NewMsgParser) []).
    + vm_compute. reflexivity.
    + right. vm_compute. reflexivity.
Defined.

(** ** The 32-bit wrap-around in the size of the frame buffer *)

(** C1 at its failing input.  The parser has width 4 and the largest maximum,
    the payload has [2^32 - 4] bytes, so its length is within the configured
    bounds; the buffer size [uint32(lenMsgLen) + msgLen] wraps to 0, the header
    cannot be stored, and [Write] panics instead of queueing header and
    payload. *)
Theorem Write_huge_payload_panics :
  valid_width parser_wide /\
  minMsgLen parser_wide <= len huge_payload <= maxMsgLen parser_wide /\
  MsgParser_Write parser_wide (fresh_conn parser_wide) [huge_payload]
  = Panics "index out of range".
Proof.
  pose proof huge_payload_len as Hlen.
  assert (Hl : len huge_payload = 4294967292).
  { rewrite <- Hlen. cbn [concat]. rewrite app_nil_r. reflexivity. }
  split; [right; right; reflexivity|].
  split.
  - rewrite Hl. change (1 <= 4294967292 <= 4294967295). lia.
  - unfold MsgParser_Write.
    rewrite (Write_frame_wraps parser_wide [huge_payload]).
    + reflexivity.
    + reflexivity.
    + rewrite Hlen. change (1 <= 4294967292 <= 4294967295). lia.
    + rewrite Hlen. lia.
Qed.

(** Writes on a closed connection are dropped, away from the wrap-around: with
    the closed flag set, [WriteMsg] on a [TCPConn] with buffers whose total
    length is within the bounds and, with the header, below [2^32] returns
    [nil] and leaves the connection as it was; [WriteMsg] on a [WSConn] does so
    for every argument. *)
Theorem WriteMsg_after_close_dropped :
  (forall c args,
      closeFlag c = true ->
      valid_width (msgParser c) ->
      maxMsgLen (msgParser c) <= header_max (msgParser c) ->
      minMsgLen (msgParser c) <= len (concat args) <= maxMsgLen (msgParser c) ->
      lenMsgLen (msgParser c) + len (concat args) < 4294967296 ->
      TCPConn_WriteMsg c args = Returns (None, c)) /\
  (forall c args, ws_closeFlag c = true -> WSConn_WriteMsg c args = Returns (None, c)).
Proof.
  split.
  - intros c args Hcf Hw Hmax Hb Hov.
    unfold TCPConn_WriteMsg, MsgParser_Write.
    rewrite (Write_frame_ok _ args Hw Hb ltac:(lia) Hov). simpl.
    rewrite Hcf. reflexivity.
  - intros c args Hcf. unfold WSConn_WriteMsg. rewrite Hcf. reflexivity.
Qed.

(** C10 at its failing input.  The connection was closed ([closeFlag] set), the
    payload of [2^32 - 4] bytes is within the bounds of the width-4 parser;
    [WriteMsg] builds the frame before it looks at the closed flag, the buffer
    size wraps, and the call panics instead of returning [nil]. *)
Theorem WriteMsg_closed_huge_payload_panics :
  closeFlag (closed_conn parser_wide) = true /\
  minMsgLen parser_wide <= len huge_payload <= maxMsgLen parser_wide /\
  TCPConn_WriteMsg (closed_conn parser_wide) [huge_payload]
  = Panics "index out of range".
Proof.
  pose proof huge_payload_len as Hlen.
  assert (Hl : len huge_payload = 4294967292).
  { rewrite <- Hlen. cbn [concat]. rewrite app_nil_r. reflexivity. }
  split; [reflexivity|]. split.
  - rewrite Hl. change (1 <= 4294967292 <= 4294967295). lia.
  - unfold TCPConn_WriteMsg, MsgParser_Write.
    change (msgParser (closed_conn parser_wide)) with parser_wide.
    rewrite (Write_frame_wraps parser_wide [huge_payload]).
    + reflexivity.
    + reflexivity.
    + rewrite Hlen. change (1 <= 4294967292 <= 4294967295). lia.
    + rewrite Hlen. lia.
Qed.

(** ** Channel RPC: panics in handlers *)

(** C3, as stated, fails: with a stack buffer of 4096 bytes, the result that
    reaches the reply channel after the handler "boom" panicked carries the
    error "boom"; the error with the stack trace is the one [exec] returns. *)
Lemma exec_reply_has_no_stack :
  Server_exec sample_run_func 4096 sample_stack sample_heap boom_call
  = Returns (Some "boom: goroutine 1 [running]:"%string,
             heap_set_chan sample_heap 0%nat
               (mkChan [ {| ri_ret := VNil; ri_err := Some "boom"%string;
                            ri_cb := VCallback Shape0 "done" |} ] 1 false)) /\
  panic_message 4096 sample_stack "boom" = "boom: goroutine 1 [running]:"%string /\
  "boom"%string <> "boom: goroutine 1 [running]:"%string.
Proof. split; [reflexivity|]. split; [reflexivity | discriminate]. Qed.

Section chanrpc_properties.

Variable run_func : string -> list value -> outcome value.
Variable run_cb : string -> value -> error -> option string.
Variable LenStackBuf : Z.
Variable runtime_Stack : string.

(** C3 (amended).  When the target function of a call panics with [r] during
    [exec], the panic is recovered.  The error formatted from [r] together with
    the stack trace (cut to the configured stack-buffer length, and only when
    that length is positive) is what [exec] returns and [Exec] logs.  What is
    sent through the reply slot, when there is one, is a result whose error is
    formatted from [r] alone and whose callback is the callback of the call;
    without a reply slot nothing is sent. *)
Theorem exec_panic_recovered (h : heap) (ci : CallInfo) (sh : shape)
    (name r : string) :
  ci_f ci = VFunc sh name ->
  run_func name (ci_args ci) = Panics r ->
  let reply := {| ri_ret := VNil; ri_err := Some r; ri_cb := ci_cb ci |} in
  let err := if LenStackBuf >? 0
             then (r ++ ": " ++ substring 0 (Z.to_nat LenStackBuf) runtime_Stack)%string
             else r in
  (ci_chanRet ci = None ->
     Server_exec run_func LenStackBuf runtime_Stack h ci = Returns (Some err, h) /\
     Server_Exec run_func LenStackBuf runtime_Stack h ci = Returns (log_Error h err)) /\
  (forall k ch,
     ci_chanRet ci = Some k -> h_chans h !! k = Some ch ->
     ch_closed ch = false -> len (ch_buf ch) < ch_cap ch ->
     let h' := heap_set_chan h k (mkChan (ch_buf ch ++ [reply]) (ch_cap ch) false) in
     Server_exec run_func LenStackBuf runtime_Stack h ci = Returns (Some err, h') /\
     Server_Exec run_func LenStackBuf runtime_Stack h ci = Returns (log_Error h' err)).
Proof.
  intros Hf Hpanic reply err.
  assert (Hexec : Server_exec run_func LenStackBuf runtime_Stack h ci
                  = Server_exec_recover LenStackBuf runtime_Stack h ci r).
  { unfold Server_exec. rewrite Hf. destruct sh; rewrite Hpanic; reflexivity. }
  split.
  - intros Hnone.
    assert (E : Server_exec run_func LenStackBuf runtime_Stack h ci = Returns (Some err, h)).
    { rewrite Hexec. unfold Server_exec_recover, Server_ret. rewrite Hnone. reflexivity. }
    split; [exact E|]. unfold Server_Exec. rewrite E. reflexivity.
  - intros k ch Hk Hch Hopen Hroom h'.
    assert (E : Server_exec run_func LenStackBuf runtime_Stack h ci = Returns (Some err, h')).
    { rewrite Hexec. unfold Server_exec_recover, Server_ret. rewrite Hk, Hch.
      unfold chan_send. rewrite Hopen.
      destruct (Z.ltb_spec (len (ch_buf ch)) (ch_cap ch)) as [_|Hge]; [|lia].
      reflexivity. }
    split; [exact E|]. unfold Server_Exec. rewrite E. reflexivity.
Qed.

(** C4.  When the pending counter of a client has reached the capacity of its
    asynchronous reply queue, a further [AsynCall] (arguments followed by a
    callback of one of the three shapes) leaves the servers, hence the request
    queue of the attached server, and the reply channels untouched; the
    callback is invoked once, before [AsynCall] returns, with the error "too
    many calls"; the client, and so its pending counter, is unchanged.  A panic
    of the callback is recovered and logged. *)
Theorem AsynCall_too_many_calls (h : heap) (c : Client) (id : string)
    (args : list value) (sh : shape) (name : string) :
  pendingAsynCall c >= cap_AsynRet h c ->
  let invoked := {| cbc_name := name; cbc_ret := VNil;
                    cbc_err := Some "too many calls"%string |} in
  exists h',
    Client_AsynCall run_cb LenStackBuf runtime_Stack h c id
                    (args ++ [VCallback sh name])
    = Returns (c, h') /\
    h_servers h' = h_servers h /\
    h_chans h' = h_chans h /\
    h_calls h' = h_calls h ++ [invoked] /\
    h_log h' = h_log h ++ match run_cb name VNil (Some "too many calls"%string) with
                          | None => []
                          | Some r => [panic_message LenStackBuf runtime_Stack r]
                          end.
Proof.
  intros Hfull invoked.
  unfold Client_AsynCall. rewrite rev_app_distr. simpl.
  destruct (Z.geb_spec (pendingAsynCall c) (cap_AsynRet h c)) as [_|Hlt]; [|lia].
  unfold execCb. simpl.
  destruct sh; simpl;
    destruct (run_cb name VNil (Some "too many calls"%string)) as [r|];
    eexists; (split; [reflexivity|]); simpl; rewrite ?app_nil_r; auto.
Qed.

End chanrpc_properties.

Lemma exec_panic_recovered_witness :
  Server_exec sample_run_func 4096 sample_stack sample_heap boom_call
  = Returns (Some "boom: goroutine 1 [running]:"%string,
             heap_set_chan sample_heap 0%nat
               (mkChan [ {| ri_ret := VNil; ri_err := Some "boom"%string;
                            ri_cb := VCallback Shape0 "done" |} ] 1 false)).
Proof.
  destruct (exec_panic_recovered sample_run_func 4096 sample_stack sample_heap
              boom_call Shape0 "boom" "boom" eq_refl eq_refl) as [_ Hsend].
  destruct (Hsend 0%nat (mkChan [] 1 false) eq_refl eq_refl eq_refl
              ltac:(vm_compute; reflexivity)) as [Hexec _].
  exact Hexec.
Defined.

(** Scenario S5: reply queue of one slot, one call in flight; a second
    [AsynCall] invokes the callback at once with "too many calls". *)
Lemma AsynCall_too_many_calls_witness :
  exists h',
    Client_AsynCall sample_run_cb 4096 sample_stack sample_heap
                    busy_client "add" [VInt 2; VInt 3; VCallback Shape1 "got"]
    = Returns (busy_client, h') /\
    h_servers h' = h_servers sample_heap /\
    h_calls h' = [ {| cbc_name := "got"; cbc_ret := VNil;
                      cbc_err := Some "too many calls"%string |} ].
Proof.
  destruct (AsynCall_too_many_calls sample_run_cb 4096 sample_stack
              sample_heap busy_client "add" [VInt 2; VInt 3] Shape1 "got"
              ltac:(vm_compute; discriminate))
    as (h' & Hcall & Hsrv & _ & Hcalls & _).
  exists h'. split; [exact Hcall|]. split; [exact Hsrv|]. exact Hcalls.
Defined.

(** ** Module teardown *)

Lemma torn_down_all (n : nat) : torn_down n 0 = teardown_order n.
Proof. unfold torn_down, teardown_order. rewrite Nat.sub_0_r. reflexivity. Qed.

Lemma torn_down_none (n : nat) : torn_down n n = [].
Proof. unfold torn_down. rewrite Nat.sub_diag. reflexivity. Qed.

Lemma torn_down_next (n k : nat) :
  (k < n)%nat ->
  torn_down n k = torn_down n (S k) ++ [EvSendClose k; EvWaitDone k; EvOnDestroy k].
Proof.
  intros Hk. unfold torn_down.
  replace (n - k)%nat with (S (n - S k)) by lia.
  cbn [seq rev]. rewrite flat_map_app. cbn [flat_map]. rewrite app_nil_r. reflexivity.
Qed.

Lemma torn_down_prefix (n k : nat) :
  (k <= n)%nat -> exists rest, teardown_order n = torn_down n k ++ rest.
Proof.
  intros Hk. rewrite <- torn_down_all.
  induction k as [|k IH].
  - exists []. rewrite app_nil_r. reflexivity.
  - destruct IH as [rest Hrest]; [lia|].
    rewrite Hrest, (torn_down_next n k) by lia.
    rewrite <- app_assoc. eexists. reflexivity.
Qed.

Lemma split_snoc {A : Type} (l t1 t2 : list A) (e x : A) :
  l ++ [e] = t1 ++ x :: t2 ->
  (t2 = [] /\ x = e /\ t1 = l) \/ (exists t2', t2 = t2' ++ [e] /\ l = t1 ++ x :: t2').
Proof.
  intros H. destruct (exists_last (l := x :: t2)) as (t2' & y & Hy); [discriminate|].
  destruct t2' as [|x' t2'].
  - simpl in Hy. injection Hy as -> ->.
    apply app_inj_tail in H as [-> ->]. left. auto.
  - simpl in Hy. injection Hy as -> ->.
    change (l ++ [e] = t1 ++ (x' :: t2') ++ [y]) in H.
    rewrite app_assoc in H. apply app_inj_tail in H as [-> ->].
    right. exists t2'. auto.
Qed.

Lemma run_before_destroy_snoc_other (t : list event) (e : event) :
  run_before_destroy t -> (forall i, e <> EvOnDestroy i) -> run_before_destroy (t ++ [e]).
Proof.
  intros Ht He t1 t2 i Hsplit.
  apply split_snoc in Hsplit as [(_ & Hx & _) | (t2' & _ & Hl)].
  - exfalso. apply (He i). auto.
  - eapply Ht; eauto.
Qed.

Lemma run_before_destroy_snoc_destroy (t : list event) (i : nat) :
  run_before_destroy t -> In (EvRunReturned i) t ->
  run_before_destroy (t ++ [EvOnDestroy i]).
Proof.
  intros Ht Hin t1 t2 j Hsplit.
  apply split_snoc in Hsplit as [(_ & Hx & ->) | (t2' & _ & Hl)].
  - injection Hx as ->. exact Hin.
  - eapply Ht; eauto.
Qed.

Lemma run_before_destroy_init (n : nat) :
  run_before_destroy (map EvOnInit (seq 0 n)).
Proof.
  intros t1 t2 i Hsplit.
  assert (Hin : In (EvOnDestroy i) (map EvOnInit (seq 0 n)))
    by (rewrite Hsplit; apply in_or_app; right; left; reflexivity).
  apply in_map_iff in Hin as (x & Hx & _). discriminate.
Qed.

Lemma module_ok_more (t evs : list event) (j : nat) (m : module) :
  module_ok t j m -> module_ok (t ++ evs) j m.
Proof.
  intros [H | (H1 & H2 & H3)]; [left; exact H | right].
  repeat split; auto. apply in_or_app. left. exact H3.
Qed.

Lemma Register_mods (names : list string) (r : registry) :
  length (mods (fold_left Register names r)) = (length (mods r) + length names)%nat /\
  reg_trace (fold_left Register names r) = reg_trace r /\
  (Forall (fun m => wg m = 0) (mods r) ->
   Forall (fun m => wg m = 0) (mods (fold_left Register names r))).
Proof.
  revert r. induction names as [|x names IH]; intros r; simpl.
  - repeat split; auto.
  - destruct (IH (Register r x)) as (Hlen & Htr & Hwg).
    rewrite Hlen, Htr. unfold Register at 1 2. simpl. rewrite length_app. simpl.
    repeat split; [lia|].
    intros Hall. apply Hwg. unfold Register. simpl.
    apply Forall_app. split; [exact Hall|]. constructor; [reflexivity | constructor].
Qed.

Lemma filter_destroy_init (n : nat) :
  List.filter is_destroy_event (map EvOnInit (seq 0 n)) = [].
Proof.
  generalize 0%nat. induction n as [|n IH]; intros k; simpl; auto.
Qed.

Lemma Destroy_loop_ok (n : nat) (r : registry) (i : Z) :
  -1 <= i < Z.of_nat n ->
  destroy_events r = torn_down n (Z.to_nat (i + 1)) ->
  pc_ok n r (Destroy_loop i).
Proof.
  intros Hi Hd. unfold Destroy_loop.
  destruct (Z.geb_spec i 0) as [Hge|Hlt]; simpl.
  - split; [lia|]. rewrite Hd. f_equal. lia.
  - rewrite Hd. f_equal. lia.
Qed.

Lemma started_registry_inv (names : list string) :
  sys_inv (length names)
    (started_registry names, Destroy_start (started_registry names)).
Proof.
  destruct (Register_mods names empty_registry) as (Hlen & Htr & Hwg).
  simpl in Hlen, Htr.
  assert (Hl : length (mods (started_registry names)) = length names).
  { unfold started_registry, Init. simpl. rewrite length_map. exact Hlen. }
  assert (Ht : reg_trace (started_registry names)
               = map EvOnInit (seq 0 (length names))).
  { unfold started_registry, Init. simpl. rewrite Htr, Hlen. reflexivity. }
  unfold sys_inv. cbn [fst snd]. split; [exact Hl|]. split; [|split].
  - intros j m Hj. left.
    unfold started_registry, Init in Hj. simpl in Hj.
    rewrite list_lookup_fmap in Hj.
    destruct (mods (fold_left Register names empty_registry) !! j) as [m0|] eqn:E;
      simpl in Hj; [|discriminate].
    injection Hj as <-. simpl. split; [reflexivity|].
    specialize (Hwg ltac:(constructor)).
    rewrite Forall_forall in Hwg.
    rewrite (Hwg m0); [reflexivity|].
    eapply list_elem_of_lookup_2. exact E.
  - unfold Destroy_start. apply Destroy_loop_ok.
    + unfold len. rewrite Hl. lia.
    + unfold destroy_events. rewrite Ht, filter_destroy_init.
      unfold len. rewrite Hl.
      replace (Z.to_nat (Z.of_nat (length names) - 1 + 1)) with (length names) by lia.
      symmetry. apply torn_down_none.
  - rewrite Ht. apply run_before_destroy_init.
Qed.

Lemma destroy_events_set_module (r : registry) (k : nat) (m : module) (evs : list event) :
  destroy_events (set_module r k m evs)
  = destroy_events r ++ List.filter is_destroy_event evs.
Proof. unfold destroy_events, set_module. simpl. apply List.filter_app. Qed.

Lemma pc_ok_transfer (n : nat) (r r' : registry) (pc : Destroy_pc) :
  pc_ok n r pc ->
  destroy_events r' = destroy_events r ->
  (forall k m, mods r !! k = Some m -> task m = Returned ->
               exists m', mods r' !! k = Some m' /\ task m' = Returned) ->
  pc_ok n r' pc.
Proof.
  intros Hpc Hd Hret. destruct pc as [i|i|i|]; simpl in *; rewrite Hd; auto.
  destruct Hpc as (Hi & He & m & Hm & Ht).
  split; [exact Hi|]. split; [exact He|]. eapply Hret; eauto.
Qed.

Lemma modules_ok_set (r : registry) (k : nat) (m m' : module) (evs : list event) :
  (forall j m0, mods r !! j = Some m0 -> module_ok (reg_trace r) j m0) ->
  mods r !! k = Some m ->
  module_ok (reg_trace r ++ evs) k m' ->
  forall j m0, mods (set_module r k m' evs) !! j = Some m0 ->
               module_ok (reg_trace (set_module r k m' evs)) j m0.
Proof.
  intros Hall Hk Hm' j m0 Hj. unfold set_module in *. simpl in *.
  destruct (Nat.eq_dec k j) as [<-|Hne].
  - rewrite list_lookup_insert_eq in Hj by (eapply lookup_lt_Some; eauto).
    injection Hj as <-. exact Hm'.
  - rewrite list_lookup_insert_ne in Hj by exact Hne.
    apply module_ok_more. apply Hall. exact Hj.
Qed.

Lemma returned_kept (r : registry) (i : nat) (m m' : module) (evs : list event) :
  mods r !! i = Some m ->
  (task m = Returned -> task m' = Returned) ->
  forall k m0, mods r !! k = Some m0 -> task m0 = Returned ->
    exists m1, mods (set_module r i m' evs) !! k = Some m1 /\ task m1 = Returned.
Proof.
  intros Hi Hkeep k m0 Hk Ht. unfold set_module. simpl.
  destruct (Nat.eq_dec i k) as [<-|Hne].
  - rewrite list_lookup_insert_eq by (eapply lookup_lt_Some; eauto).
    exists m'. split; [reflexivity|]. apply Hkeep. congruence.
  - rewrite list_lookup_insert_ne by exact Hne. eauto.
Qed.

Section module_properties.

Variable OnDestroy_panic : string -> option string.
Variable LenStackBuf : Z.
Variable runtime_Stack : string.

Lemma Destroy_step_inv (n : nat) (r r' : registry) (pc pc' : Destroy_pc) :
  sys_inv n (r, pc) ->
  Destroy_step OnDestroy_panic LenStackBuf runtime_Stack r pc = Some (r', pc') ->
  sys_inv n (r', pc').
Proof.
  intros (Hlen & Hmods & Hpc & Hord) Hstep. cbn [fst snd] in *.
  destruct pc as [i|i|i|]; simpl in Hstep; [| | |discriminate];
    destruct (mods r !! Z.to_nat i) as [m|] eqn:Hm; try discriminate.
  - (* the send *)
    destruct (chan_send (closeSig m) true) as [ch| |]; try discriminate.
    injection Hstep as <- <-. destruct Hpc as (Hi & Hd).
    unfold sys_inv. cbn [fst snd].
    split; [unfold set_module; simpl; rewrite length_insert; exact Hlen|].
    split; [|split].
    + eapply modules_ok_set; eauto. apply module_ok_more.
      destruct (Hmods _ _ Hm) as [H|H]; [left | right]; exact H.
    + simpl. split; [exact Hi|].
      rewrite destroy_events_set_module, Hd. reflexivity.
    + unfold set_module. simpl. apply run_before_destroy_snoc_other; [exact Hord|].
      discriminate.
  - (* the wait *)
    destruct (Z.eqb_spec (wg m) 0) as [Hwg|]; [|discriminate].
    injection Hstep as <- <-. destruct Hpc as (Hi & Hd).
    assert (Hret : task m = Returned).
    { destruct (Hmods _ _ Hm) as [(_ & H1) | (H & _)]; [lia | exact H]. }
    unfold sys_inv. cbn [fst snd].
    split; [unfold set_module; simpl; rewrite length_insert; exact Hlen|].
    split; [|split].
    + eapply modules_ok_set; eauto. apply module_ok_more. apply (Hmods _ _ Hm).
    + simpl. split; [exact Hi|]. split.
      * rewrite destroy_events_set_module, Hd, <- app_assoc. reflexivity.
      * exists m. split; [|exact Hret]. unfold set_module. simpl.
        apply list_lookup_insert_eq. eapply lookup_lt_Some; eauto.
    + unfold set_module. simpl. apply run_before_destroy_snoc_other; [exact Hord|].
      discriminate.
  - (* the call of destroy *)
    injection Hstep as <- <-. destruct Hpc as (Hi & Hd & m1 & Hm1 & Hret).
    assert (m1 = m) as -> by congruence.
    assert (Hin : In (EvRunReturned (Z.to_nat i)) (reg_trace r)).
    { destruct (Hmods _ _ Hm) as [(H & _) | (_ & _ & H)]; [congruence | exact H]. }
    assert (Htr : reg_trace (destroy OnDestroy_panic LenStackBuf runtime_Stack r (Z.to_nat i) m)
                  = reg_trace r ++ [EvOnDestroy (Z.to_nat i)])
      by (unfold destroy; destruct (OnDestroy_panic (mi m)); reflexivity).
    assert (Hms : mods (destroy OnDestroy_panic LenStackBuf runtime_Stack r (Z.to_nat i) m)
                  = mods r)
      by (unfold destroy; destruct (OnDestroy_panic (mi m)); reflexivity).
    unfold sys_inv. cbn [fst snd]. rewrite Hms, Htr.
    split; [exact Hlen|]. split; [|split].
    + intros j m0 Hj. apply module_ok_more. apply Hmods. exact Hj.
    + apply Destroy_loop_ok; [lia|].
      unfold destroy_events. rewrite Htr, List.filter_app. simpl.
      fold (destroy_events r). rewrite Hd, <- app_assoc. simpl.
      replace (Z.to_nat (i - 1 + 1)) with (Z.to_nat i) by lia.
      symmetry. apply torn_down_next. lia.
    + apply run_before_destroy_snoc_destroy; assumption.
Qed.

Lemma run_step_inv (n : nat) (r r' : registry) (pc : Destroy_pc) :
  sys_inv n (r, pc) -> run_step r r' -> sys_inv n (r', pc).
Proof.
  intros (Hlen & Hmods & Hpc & Hord) Hstep. cbn [fst snd] in *.
  destruct Hstep as [r i m b rest Hm Hrun Hbuf | r i m Hm Hrun];
    unfold sys_inv; cbn [fst snd].
  - split; [unfold set_module; simpl; rewrite length_insert; exact Hlen|].
    split; [|split].
    + eapply modules_ok_set; eauto. apply module_ok_more.
      destruct (Hmods _ _ Hm) as [(_ & H)|(H & _)]; [|congruence].
      left. split; [reflexivity | exact H].
    + eapply pc_ok_transfer; eauto.
      * rewrite destroy_events_set_module. simpl. apply app_nil_r.
      * eapply returned_kept; eauto. congruence.
    + unfold set_module. simpl. rewrite app_nil_r. exact Hord.
  - split; [unfold set_module; simpl; rewrite length_insert; exact Hlen|].
    split; [|split].
    + eapply modules_ok_set; eauto.
      destruct (Hmods _ _ Hm) as [(_ & H)|(H & _)]; [|congruence].
      right. simpl. repeat split; [lia|]. apply in_or_app. right. left. reflexivity.
    + eapply pc_ok_transfer; eauto.
      * rewrite destroy_events_set_module. simpl. apply app_nil_r.
      * eapply returned_kept; eauto.
    + unfold set_module. simpl. apply run_before_destroy_snoc_other; [exact Hord|].
      discriminate.
Qed.

Lemma sys_reaches_inv (n : nat) (st0 st : registry * Destroy_pc) :
  sys_inv n st0 ->
  sys_reaches OnDestroy_panic LenStackBuf runtime_Stack st0 st ->
  sys_inv n st.
Proof.
  intros H0 Hr. induction Hr as [|st st' _ IH Hstep]; [exact H0|].
  destruct Hstep as [r pc r' pc' H | r pc r' H].
  - eapply Destroy_step_inv; eauto.
  - eapply run_step_inv; eauto.
Qed.

End module_properties.

Section module_teardown.

Variable OnDestroy_panic : string -> option string.
Variable LenStackBuf : Z.
Variable runtime_Stack : string.

Lemma sys_reaches_front (st0 st1 st : registry * Destroy_pc) :
  sys_step OnDestroy_panic LenStackBuf runtime_Stack st0 st1 ->
  sys_reaches OnDestroy_panic LenStackBuf runtime_Stack st1 st ->
  sys_reaches OnDestroy_panic LenStackBuf runtime_Stack st0 st.
Proof.
  intros Hstep Hr. induction Hr as [|st st' _ IH Hs].
  - eapply sys_reach_step; [apply sys_reach_refl | exact Hstep].
  - eapply sys_reach_step; eauto.
Qed.


End module_teardown.


(* ===================================================================== *)
(** * The calendar and the cron search                                    *)
(* ===================================================================== *)

Module timer_facts.

Import time timer.

(** ** The calendar at known dates *)

Example calendar_samples :
  civil_from_days 0 = (1970, 1, 1) /\
  civil_from_days 19782 = (2024, 2, 29) /\
  civil_from_days (-719162) = (1, 1, 1) /\
  Date 1 1 1 0 0 0 0 0 = zero /\
  unixNano new_years_eve = 1672531199 * Second /\
  Weekday wednesday = 3 /\
  AddDate (Date 2023 1 31 12 0 0 0 3600) 0 1 0 = Date 2023 3 3 12 0 0 0 3600 /\
  Truncate (Date 2023 1 31 12 34 56 7 19800) Hour = Date 2023 1 31 12 30 0 0 19800.
Proof. vm_compute. repeat split; reflexivity. Qed.

(** ** The months of a year that starts on March 1 *)

Lemma doy_table_checked :
  forallb doy_okb (map Z.of_nat (seq 0 366)) = true.
Proof. vm_compute. reflexivity. Qed.

Lemma doy_table (doy : Z) :
  0 <= doy <= 365 ->
  let mp := (5 * doy + 2) / 153 in
  let d := doy - (153 * mp + 2) / 5 + 1 in
  0 <= mp <= 11 /\ 1 <= d <= 31 /\ doy < (153 * (mp + 1) + 2) / 5.
Proof.
  intros Hd. pose proof doy_table_checked as Hall.
  rewrite forallb_forall in Hall.
  assert (Hin : In doy (map Z.of_nat (seq 0 366))).
  { apply in_map_iff. exists (Z.to_nat doy). split; [lia|]. apply in_seq. lia. }
  specialize (Hall doy Hin). unfold doy_okb in Hall. cbv zeta in *.
  rewrite !andb_true_iff in Hall.
  rewrite !Z.leb_le, Z.ltb_lt in Hall. lia.
Qed.

(** ** Years inside an era *)

Lemma year_base_digits (era c q a : Z) :
  0 <= c <= 3 -> 0 <= q <= 24 -> 0 <= a <= 3 ->
  year_base (100 * c + 4 * q + a + era * 400)
  = era * 146097 + 36524 * c + 1461 * q + 365 * a - 719468.
Proof.
  intros Hc Hq Ha. unfold year_base.
  rewrite Z.div_add, Z.mod_add by lia.
  rewrite (Z.div_small (100 * c + 4 * q + a) 400) by lia.
  rewrite (Z.mod_small (100 * c + 4 * q + a) 400) by lia.
  assert (H4 : (100 * c + 4 * q + a) / 4 = 25 * c + q).
  { symmetry. apply Z.div_unique with a; lia. }
  assert (H100 : (100 * c + 4 * q + a) / 100 = c).
  { symmetry. apply Z.div_unique with (4 * q + a); lia. }
  rewrite H4, H100. lia.
Qed.

Lemma era_digits (doe : Z) :
  0 <= doe < 146097 ->
  let c := Z.min 3 (doe / 36524) in
  let doc := doe - 36524 * c in
  let q := doc / 1461 in
  let doq := doc - 1461 * q in
  let a := Z.min 3 (doq / 365) in
  let doy := doq - 365 * a in
  0 <= c <= 3 /\ 0 <= q <= 24 /\ 0 <= a <= 3 /\
  doe = 36524 * c + 1461 * q + 365 * a + doy /\
  0 <= doy < 365 + leap_day c q a.
Proof.
  intros Hdoe. cbv zeta.
  pose proof (Z.div_mod doe 36524 ltac:(lia)) as E1.
  pose proof (Z.mod_pos_bound doe 36524 ltac:(lia)) as B1.
  assert (Hc0 : 0 <= doe / 36524 <= 4).
  { split; [apply Z.div_pos; lia|]. apply Z.div_le_upper_bound; lia. }
  set (c := Z.min 3 (doe / 36524)).
  assert (Hc : 0 <= c <= 3) by (unfold c; lia).
  set (doc := doe - 36524 * c).
  assert (Hdoc : 0 <= doc /\ (c < 3 -> doc < 36524) /\ doc <= 36524).
  { unfold doc, c. destruct (Z.min_spec 3 (doe / 36524)) as [[H1 ->]|[H1 ->]]; lia. }
  pose proof (Z.div_mod doc 1461 ltac:(lia)) as E2.
  pose proof (Z.mod_pos_bound doc 1461 ltac:(lia)) as B2.
  set (q := doc / 1461) in *.
  assert (Hq : 0 <= q <= 24).
  { unfold q. split; [apply Z.div_pos; lia|].
    assert (doc / 1461 < 25) by (apply Z.div_lt_upper_bound; lia). lia. }
  set (doq := doc - 1461 * q).
  assert (Hdoq : 0 <= doq <= 1460 /\ (c < 3 -> q = 24 -> doq < 1460)) by (unfold doq; lia).
  pose proof (Z.div_mod doq 365 ltac:(lia)) as E3.
  pose proof (Z.mod_pos_bound doq 365 ltac:(lia)) as B3.
  assert (Ha0 : 0 <= doq / 365 <= 4).
  { split; [apply Z.div_pos; lia|]. apply Z.div_le_upper_bound; lia. }
  set (a := Z.min 3 (doq / 365)).
  assert (Ha : 0 <= a <= 3) by (unfold a; lia).
  assert (Hdoy : 0 <= doq - 365 * a /\ (a < 3 -> doq - 365 * a < 365)).
  { unfold a. destruct (Z.min_spec 3 (doq / 365)) as [[H1 ->]|[H1 ->]]; lia. }
  split; [exact Hc|]. split; [exact Hq|]. split; [exact Ha|].
  split; [unfold doq, doc; lia|].
  unfold leap_day.
  destruct (Z.eqb_spec a 3) as [Ea|Ea]; simpl; [|lia].
  destruct (Z.ltb_spec q 24) as [Eq|Eq]; simpl; [lia|].
  destruct (Z.eqb_spec c 3) as [Ec|Ec]; simpl; lia.
Qed.

Lemma year_base_next (era c q a : Z) :
  0 <= c <= 3 -> 0 <= q <= 24 -> 0 <= a <= 3 ->
  year_base (100 * c + 4 * q + a + era * 400 + 1)
  = year_base (100 * c + 4 * q + a + era * 400) + 365 + leap_day c q a.
Proof.
  intros Hc Hq Ha. rewrite (year_base_digits era c q a) by lia.
  unfold leap_day.
  destruct (Z.eqb_spec a 3) as [Ea|Ea]; simpl.
  - destruct (Z.ltb_spec q 24) as [Eq|Eq]; simpl.
    + replace (100 * c + 4 * q + a + era * 400 + 1)
        with (100 * c + 4 * (q + 1) + 0 + era * 400) by lia.
      rewrite year_base_digits by lia. lia.
    + destruct (Z.eqb_spec c 3) as [Ec|Ec]; simpl.
      * replace (100 * c + 4 * q + a + era * 400 + 1)
          with (100 * 0 + 4 * 0 + 0 + (era + 1) * 400) by lia.
        rewrite year_base_digits by lia. lia.
      * replace (100 * c + 4 * q + a + era * 400 + 1)
          with (100 * (c + 1) + 4 * 0 + 0 + era * 400) by lia.
        rewrite year_base_digits by lia. lia.
  - replace (100 * c + 4 * q + a + era * 400 + 1)
      with (100 * c + 4 * q + (a + 1) + era * 400) by lia.
    rewrite year_base_digits by lia. lia.
Qed.

(** The date of a day is a date of the calendar, and the day lies in the
    month of its date. *)
Lemma civil_spec (n : Z) :
  let '(y, m, d) := civil_from_days n in
  1 <= m <= 12 /\ 1 <= d <= 31 /\
  n = month_start y m + (d - 1) /\
  n < next_month_start y m.
Proof.
  unfold civil_from_days.
  pose proof (Z.div_mod (n + 719468) 146097 ltac:(lia)) as En.
  pose proof (Z.mod_pos_bound (n + 719468) 146097 ltac:(lia)) as Bn.
  set (era := (n + 719468) / 146097) in *.
  set (doe := (n + 719468) mod 146097) in *.
  pose proof (era_digits doe Bn) as Hdig. cbv zeta in Hdig.
  set (c := Z.min 3 (doe / 36524)) in *.
  set (doc := doe - 36524 * c) in *.
  set (q := doc / 1461) in *.
  set (doq := doc - 1461 * q) in *.
  set (a := Z.min 3 (doq / 365)) in *.
  set (doy := doq - 365 * a) in *.
  destruct Hdig as (Hc & Hq & Ha & Hdoe & Hdoy).
  assert (Hleap : 0 <= leap_day c q a <= 1)
    by (unfold leap_day; destruct ((a =? 3) && ((q <? 24) || (c =? 3))); lia).
  pose proof (doy_table doy ltac:(lia)) as Htab. cbv zeta in Htab.
  pose proof (year_base_digits era c q a Hc Hq Ha) as Hyb.
  pose proof (year_base_next era c q a Hc Hq Ha) as Hnext.
  set (yoe := 100 * c + 4 * q + a) in *.
  set (mp := (5 * doy + 2) / 153) in *.
  cbv zeta.
  destruct Htab as (Hmp & Hd & Hlt).
  assert (Hcases : mp = 0 \/ mp = 1 \/ mp = 2 \/ mp = 3 \/ mp = 4 \/ mp = 5 \/
                   mp = 6 \/ mp = 7 \/ mp = 8 \/ mp = 9 \/ mp = 10 \/ mp = 11) by lia.
  clearbody mp yoe doy a doq q doc c doe era.
  unfold next_month_start, month_start, month_doy.
  destruct Hcases as [E|[E|[E|[E|[E|[E|[E|[E|[E|[E|[E|E]]]]]]]]]]];
    subst mp;
    match goal with
    | |- context [if ?k <? 10 then ?k + 3 else ?k - 9] =>
        let v := eval vm_compute in (if k <? 10 then k + 3 else k - 9) in
        change (if k <? 10 then k + 3 else k - 9) with v
    end;
    repeat match goal with
    | |- context [Z.leb ?a ?b] =>
        let v := eval vm_compute in (Z.leb a b) in
        change (Z.leb a b) with v
    end;
    cbv beta iota;
    repeat match goal with
    | |- context [Z.modulo ?a ?b] =>
        let v := eval vm_compute in (Z.modulo a b) in
        change (Z.modulo a b) with v
    | |- context [Z.div ?a ?b] =>
        let v := eval vm_compute in (Z.div a b) in
        change (Z.div a b) with v
    | H : context [Z.div ?a ?b] |- _ =>
        let v := eval vm_compute in (Z.div a b) in
        change (Z.div a b) with v in H
    end;
    repeat match goal with
    | |- context [year_base ?x] =>
        first [ replace x with (yoe + era * 400) by lia
              | replace x with (yoe + era * 400 + 1) by lia ];
        progress rewrite ?Hyb, ?Hnext
    end;
    lia.
Qed.

(** ** Months in a row *)

Lemma year_digits (y : Z) :
  exists era c q a,
    0 <= c <= 3 /\ 0 <= q <= 24 /\ 0 <= a <= 3 /\
    y = 100 * c + 4 * q + a + era * 400.
Proof.
  exists (y / 400), (y mod 400 / 100), (y mod 400 mod 100 / 4), (y mod 400 mod 100 mod 4).
  Z.div_mod_to_equations. lia.
Qed.

Lemma year_base_succ (y : Z) :
  exists L, 0 <= L <= 1 /\ year_base (y + 1) = year_base y + 365 + L.
Proof.
  destruct (year_digits y) as (era & c & q & a & Hc & Hq & Ha & ->).
  exists (leap_day c q a). split.
  - unfold leap_day. destruct ((a =? 3) && ((q <? 24) || (c =? 3))); lia.
  - apply year_base_next; assumption.
Qed.

Ltac eval_closed :=
  repeat match goal with
  | |- context [Z.leb ?a ?b] =>
      let v := eval vm_compute in (Z.leb a b) in
      change (Z.leb a b) with v
  | |- context [Z.modulo ?a ?b] =>
      let v := eval vm_compute in (Z.modulo a b) in
      change (Z.modulo a b) with v
  | |- context [Z.div ?a ?b] =>
      let v := eval vm_compute in (Z.div a b) in
      change (Z.div a b) with v
  end; cbv beta iota.

Lemma ms_step (k : Z) :
  28 <= ms (k + 1) - ms k <= 31 /\ (k mod 12 = 0 -> ms (k + 1) = ms k + 31).
Proof.
  unfold ms.
  pose proof (Z.div_mod k 12 ltac:(lia)) as Ek.
  pose proof (Z.mod_pos_bound k 12 ltac:(lia)) as Bk.
  set (y := k / 12) in *. set (j := k mod 12) in *. clearbody y j.
  destruct (year_base_succ (y - 1)) as (L & HL & EL).
  replace (y - 1 + 1) with y in EL by lia.
  assert (Hj : j = 0 \/ j = 1 \/ j = 2 \/ j = 3 \/ j = 4 \/ j = 5 \/
               j = 6 \/ j = 7 \/ j = 8 \/ j = 9 \/ j = 10 \/ j = 11) by lia.
  assert (Hdiv : forall j', 0 <= j' < 12 -> (12 * y + j') / 12 = y /\ (12 * y + j') mod 12 = j').
  { intros j' Hj'. Z.div_mod_to_equations. lia. }
  assert (Hdiv' : (12 * y + 12) / 12 = y + 1 /\ (12 * y + 12) mod 12 = 0).
  { Z.div_mod_to_equations. lia. }
  subst k. unfold month_start, month_doy.
  destruct Hj as [E|[E|[E|[E|[E|[E|[E|[E|[E|[E|[E|E]]]]]]]]]]]; subst j;
    [ match goal with
      | |- context [(12 * y + ?a + 1) / 12] =>
          let s := eval vm_compute in (a + 1) in
          replace (12 * y + a + 1) with (12 * y + s) by lia;
          destruct (Hdiv s ltac:(lia)) as [-> ->]
      end .. | replace (12 * y + 11 + 1) with (12 * y + 12) by lia;
               destruct Hdiv' as [-> ->] ];
    eval_closed; replace (y + 1 - 1) with y by lia; lia.
Qed.

Lemma ms_succ (k : Z) : ms k < ms (k + 1).
Proof. pose proof (ms_step k). lia. Qed.

Lemma ms_add (k : Z) (j : nat) :
  ms k + 28 * Z.of_nat j <= ms (k + Z.of_nat j) <= ms k + 31 * Z.of_nat j.
Proof.
  induction j as [|j IH].
  - replace (k + Z.of_nat 0) with k by lia. lia.
  - replace (k + Z.of_nat (S j)) with (k + Z.of_nat j + 1) by lia.
    pose proof (ms_step (k + Z.of_nat j)). lia.
Qed.

Lemma ms_add_Z (k j : Z) :
  0 <= j -> ms k + 28 * j <= ms (k + j) <= ms k + 31 * j.
Proof.
  intros H. pose proof (ms_add k (Z.to_nat j)) as Ha.
  rewrite Z2Nat.id in Ha by exact H. exact Ha.
Qed.

Lemma ms_le (k1 k2 : Z) : k1 <= k2 -> ms k1 <= ms k2.
Proof.
  intros H. pose proof (ms_add_Z k1 (k2 - k1) ltac:(lia)) as Ha.
  replace (k1 + (k2 - k1)) with k2 in Ha by lia. lia.
Qed.

Lemma ms_lt (k1 k2 : Z) : k1 < k2 -> ms k1 < ms k2.
Proof.
  intros H. pose proof (ms_le (k1 + 1) k2 ltac:(lia)). pose proof (ms_succ k1). lia.
Qed.

Lemma ms_lt_inv (k1 k2 : Z) : ms k1 < ms k2 -> k1 < k2.
Proof.
  intros H. destruct (Z.lt_ge_cases k1 k2) as [Hlt|Hge]; [exact Hlt|].
  pose proof (ms_le k2 k1 Hge). lia.
Qed.

(** A day lies in one month only. *)
Lemma ms_unique (k1 k2 n : Z) :
  ms k1 <= n < ms (k1 + 1) -> ms k2 <= n < ms (k2 + 1) -> k1 = k2.
Proof.
  intros H1 H2.
  assert (k1 < k2 + 1) by (apply ms_lt_inv; lia).
  assert (k2 < k1 + 1) by (apply ms_lt_inv; lia).
  lia.
Qed.

Lemma ms_month (y m : Z) : 1 <= m <= 12 -> ms (12 * y + m - 1) = month_start y m.
Proof.
  intros Hm. unfold ms.
  assert ((12 * y + m - 1) / 12 = y /\ (12 * y + m - 1) mod 12 = m - 1) as [-> ->]
    by (Z.div_mod_to_equations; lia).
  f_equal. lia.
Qed.

Lemma ms_next_month (y m : Z) : 1 <= m <= 12 -> ms (12 * y + m) = next_month_start y m.
Proof.
  intros Hm. unfold ms, next_month_start.
  assert ((12 * y + m) / 12 = y + m / 12 /\ (12 * y + m) mod 12 = m mod 12) as [-> ->]
    by (Z.div_mod_to_equations; lia).
  reflexivity.
Qed.

Lemma civil_index (n : Z) :
  let '(y, m, d) := civil_from_days n in
  1 <= m <= 12 /\ 1 <= d <= 31 /\
  n = ms (12 * y + m - 1) + (d - 1) /\ n < ms (12 * y + m - 1 + 1).
Proof.
  pose proof (civil_spec n) as H.
  destruct (civil_from_days n) as [[y m] d].
  destruct H as (Hm & Hd & En & Hn).
  rewrite ms_month by lia.
  replace (12 * y + m - 1 + 1) with (12 * y + m) by lia.
  rewrite ms_next_month by lia. auto.
Qed.

(** A date of the calendar is the date of its day. *)
Lemma civil_of_date (k d : Z) :
  1 <= d -> ms k + (d - 1) < ms (k + 1) ->
  civil_from_days (ms k + (d - 1)) = (k / 12, k mod 12 + 1, d).
Proof.
  intros Hd Hlt.
  pose proof (civil_index (ms k + (d - 1))) as H.
  destruct (civil_from_days (ms k + (d - 1))) as [[y m] d'].
  destruct H as (Hm & Hd' & En & Hn).
  assert (Ek : 12 * y + m - 1 = k).
  { apply (ms_unique _ _ (ms k + (d - 1))); lia. }
  rewrite Ek in En.
  assert (y = k / 12 /\ m = k mod 12 + 1) as [-> ->]
    by (Z.div_mod_to_equations; lia).
  f_equal. lia.
Qed.

Lemma days_from_civil_index (y m d : Z) :
  days_from_civil y m d = ms (12 * y + m - 1) + (d - 1).
Proof.
  unfold days_from_civil, ms.
  assert ((12 * y + m - 1) / 12 = y + (m - 1) / 12 /\
          (12 * y + m - 1) mod 12 = (m - 1) mod 12) as [-> ->]
    by (Z.div_mod_to_equations; lia).
  reflexivity.
Qed.

(** ** Instants on the clock of their location *)

Lemma local_split (t : Time) :
  local_sec t = local_day t * 86400 + sec_of_day t /\ 0 <= sec_of_day t < 86400.
Proof. unfold local_day, sec_of_day. Z.div_mod_to_equations. lia. Qed.

Lemma local_day_unique (t : Time) (n s : Z) :
  local_sec t = n * 86400 + s -> 0 <= s < 86400 ->
  local_day t = n /\ sec_of_day t = s.
Proof.
  intros E Hs. unfold local_day, sec_of_day. rewrite E.
  Z.div_mod_to_equations. lia.
Qed.

Lemma clock_of_day (t : Time) :
  Hour_of t * 3600 + Minute_of t * 60 + Second_of t = sec_of_day t.
Proof.
  unfold Hour_of, Minute_of, Second_of.
  generalize (sec_of_day t). intros s. Z.div_mod_to_equations. lia.
Qed.

Lemma clock_ranges (t : Time) :
  (Hour_of t <> 0 -> 3600 <= sec_of_day t) /\
  (Minute_of t <> 0 -> 60 <= sec_of_day t) /\
  (Second_of t <> 0 -> 1 <= sec_of_day t) /\
  0 <= Hour_of t < 24 /\ 0 <= Minute_of t < 60 /\ 0 <= Second_of t < 60.
Proof.
  pose proof (local_split t) as [_ Hs].
  unfold Hour_of, Minute_of, Second_of.
  revert Hs. generalize (sec_of_day t). intros s Hs.
  Z.div_mod_to_equations. lia.
Qed.

Lemma whole_unix (t : Time) :
  whole t -> unixNano t = (local_sec t - offset t) * Second.
Proof.
  unfold whole, local_sec, Second. intros H. Z.div_mod_to_equations. lia.
Qed.

Lemma Date_local (y m d h mi s nsec loc : Z) :
  0 <= nsec < Second ->
  local_sec (Date y m d h mi s nsec loc)
  = days_from_civil y m d * 86400 + h * 3600 + mi * 60 + s /\
  offset (Date y m d h mi s nsec loc) = loc /\
  unixNano (Date y m d h mi s nsec loc) mod Second = nsec.
Proof.
  unfold local_sec, Date, Second. cbn [unixNano offset]. intros H.
  generalize (days_from_civil y m d). intros n.
  Z.div_mod_to_equations. lia.
Qed.

Lemma Nanosecond_range (t : Time) : 0 <= Nanosecond_of t < Second.
Proof. unfold Nanosecond_of, Second. Z.div_mod_to_equations. lia. Qed.

Lemma AddDate_local (t : Time) (dy dm dd : Z) :
  local_sec (AddDate t dy dm dd)
  = days_from_civil (Year t + dy) (Month t + dm) (Day t + dd) * 86400 + sec_of_day t /\
  offset (AddDate t dy dm dd) = offset t /\
  unixNano (AddDate t dy dm dd) mod Second = unixNano t mod Second.
Proof.
  unfold AddDate, Location.
  destruct (Date_local (Year t + dy) (Month t + dm) (Day t + dd)
              (Hour_of t) (Minute_of t) (Second_of t) (Nanosecond_of t) (offset t)
              (Nanosecond_range t)) as (E1 & E2 & E3).
  rewrite E1, E2, E3. pose proof (clock_of_day t). unfold Nanosecond_of. lia.
Qed.

Lemma Add_seconds (t : Time) (k : Z) :
  whole t ->
  whole (Add t (k * Second)) /\
  offset (Add t (k * Second)) = offset t /\
  local_sec (Add t (k * Second)) = local_sec t + k.
Proof.
  unfold whole, Add, local_sec, Second. cbn [unixNano offset]. intros H.
  Z.div_mod_to_equations. lia.
Qed.

Lemma Truncate_pos (t : Time) (d : Z) :
  0 < d ->
  Truncate t d = {| unixNano := unixNano t - (unixNano t - zero_unix * Second) mod d;
                    offset := offset t |}.
Proof.
  intros H. unfold Truncate. destruct (Z.leb_spec d 0); [lia|reflexivity].
Qed.

Lemma Truncate_seconds (t : Time) (w : Z) :
  whole t -> w = 3600 \/ w = 60 ->
  whole (Truncate t (w * Second)) /\
  offset (Truncate t (w * Second)) = offset t /\
  local_sec t - w < local_sec (Truncate t (w * Second)) <= local_sec t.
Proof.
  intros H Hw. rewrite Truncate_pos by (unfold Second; lia).
  revert H. unfold whole, local_sec, Second, zero_unix. cbn [unixNano offset].
  intros H. destruct Hw as [-> | ->]; Z.div_mod_to_equations; lia.
Qed.

Lemma Next_start_whole (t : Time) :
  whole (Next_start t) /\ offset (Next_start t) = offset t /\
  unixNano t < unixNano (Next_start t).
Proof.
  unfold Next_start. rewrite Truncate_pos by (unfold Second; lia).
  unfold whole, Add, Second, zero_unix. cbn [unixNano offset].
  Z.div_mod_to_equations. lia.
Qed.

(** ** Dates of instants *)

Lemma civil_fields (t : Time) :
  civil_from_days (local_day t) = (Year t, Month t, Day t).
Proof.
  unfold Year, Month, Day. destruct (civil_from_days (local_day t)) as [[y m] d].
  reflexivity.
Qed.

Lemma month_end_eq (t : Time) : month_end t = ms (12 * Year t + Month t - 1 + 1).
Proof. reflexivity. Qed.

Lemma date_of (t : Time) :
  1 <= Month t <= 12 /\ 1 <= Day t <= 31 /\
  local_day t = ms (12 * Year t + Month t - 1) + (Day t - 1) /\
  local_day t < month_end t.
Proof.
  pose proof (civil_index (local_day t)) as H. rewrite civil_fields in H. exact H.
Qed.

Lemma same_day_same_date (a b : Time) :
  local_day a = local_day b ->
  Year a = Year b /\ Month a = Month b /\ Day a = Day b.
Proof. unfold Year, Month, Day. intros ->. auto. Qed.

Lemma later_day_later (a b : Time) :
  local_day a < local_day b -> local_sec a < local_sec b.
Proof.
  intros H. pose proof (local_split a). pose proof (local_split b). lia.
Qed.

Lemma later_same_day (a b : Time) (w : Z) :
  local_sec a < local_sec b <= local_sec a + w -> w <= sec_of_day b ->
  local_day b = local_day a.
Proof.
  intros H Hw. pose proof (local_split a). pose proof (local_split b). nia.
Qed.

(** Years do not run backwards, and two years take less than 745 days. *)
Lemma year_horizon (a b : Time) :
  Year b <= Year a + 1 -> local_day b < local_day a + 745.
Proof.
  intros H.
  destruct (date_of a) as (Hma & Hda & Ea & _).
  destruct (date_of b) as (Hmb & _ & _ & Hb). rewrite month_end_eq in Hb.
  pose proof (ms_le (12 * Year b + Month b - 1 + 1) (12 * Year a + 24) ltac:(lia)).
  pose proof (ms_add_Z (12 * Year a) 24 ltac:(lia)) as H24.
  pose proof (ms_le (12 * Year a) (12 * Year a + Month a - 1) ltac:(lia)).
  lia.
Qed.

Lemma month_advance (t t2 : Time) (d' : Z) :
  local_day t2 = ms (12 * Year t + Month t - 1 + 1) + (d' - 1) -> 1 <= d' <= 31 ->
  month_end t <= local_day t2 /\ (Month t2 <> 1 -> Year t2 <= Year t).
Proof.
  intros E Hd'. rewrite month_end_eq. split; [lia|]. intros HM.
  destruct (date_of t) as (Hm & _ & _ & _).
  destruct (date_of t2) as (Hm2 & Hd2 & E2 & _).
  destruct (Z.le_gt_cases (Year t2) (Year t)) as [Hle|Hgt]; [exact Hle|exfalso].
  pose proof (ms_le (12 * Year t + Month t - 1 + 1) (12 * Year t + 12) ltac:(lia)).
  destruct (ms_step (12 * Year t + 12)) as [_ Hjan].
  specialize (Hjan ltac:(Z.div_mod_to_equations; lia)).
  pose proof (ms_le (12 * Year t + 12 + 1) (12 * Year t2 + Month t2 - 1) ltac:(lia)).
  lia.
Qed.

Lemma day_advance (t t2 : Time) :
  local_day t2 = local_day t + 1 -> Day t2 <> 1 -> Year t2 = Year t.
Proof.
  intros E HD.
  destruct (date_of t) as (Hm & Hd & Et & Hlt). rewrite month_end_eq in Hlt.
  destruct (date_of t2) as (Hm2 & Hd2 & E2 & Hlt2). rewrite month_end_eq in Hlt2.
  destruct (Z.lt_ge_cases (local_day t2) (ms (12 * Year t + Month t - 1 + 1))) as [Hin|Hout].
  - assert (12 * Year t + Month t - 1 = 12 * Year t2 + Month t2 - 1)
      by (apply (ms_unique _ _ (local_day t2)); lia).
    lia.
  - exfalso.
    pose proof (ms_succ (12 * Year t + Month t - 1 + 1)).
    assert (12 * Year t + Month t - 1 + 1 = 12 * Year t2 + Month t2 - 1)
      by (apply (ms_unique _ _ (local_day t2)); lia).
    assert (ms (12 * Year t + Month t - 1 + 1) = ms (12 * Year t2 + Month t2 - 1))
      by congruence.
    lia.
Qed.

Lemma Date_first_of_month (t : Time) :
  let t1 := Date (Year t) (Month t) 1 0 0 0 0 (Location t) in
  whole t1 /\ offset t1 = offset t /\
  Year t1 = Year t /\ Month t1 = Month t /\ Day t1 = 1 /\ sec_of_day t1 = 0.
Proof.
  cbv zeta. unfold Location.
  destruct (Date_local (Year t) (Month t) 1 0 0 0 0 (offset t) ltac:(unfold Second; lia))
    as (E1 & E2 & E3).
  destruct (date_of t) as (Hm & _ & _ & _).
  rewrite days_from_civil_index in E1.
  destruct (local_day_unique _ (ms (12 * Year t + Month t - 1) + (1 - 1)) 0
              ltac:(rewrite E1; lia) ltac:(lia)) as [Ed Es].
  pose proof (civil_of_date (12 * Year t + Month t - 1) 1 ltac:(lia)
                ltac:(pose proof (ms_succ (12 * Year t + Month t - 1)); lia)) as Hc.
  rewrite <- Ed, civil_fields in Hc.
  injection Hc as Hy Hmo Hda.
  split; [exact E3|]. split; [exact E2|].
  split; [rewrite Hy; Z.div_mod_to_equations; lia|].
  split; [rewrite Hmo; Z.div_mod_to_equations; lia|].
  split; [exact Hda | exact Es].
Qed.

Lemma Date_midnight (t : Time) :
  let t1 := Date (Year t) (Month t) (Day t) 0 0 0 0 (Location t) in
  whole t1 /\ offset t1 = offset t /\ local_day t1 = local_day t /\ sec_of_day t1 = 0.
Proof.
  cbv zeta. unfold Location.
  destruct (Date_local (Year t) (Month t) (Day t) 0 0 0 0 (offset t)
              ltac:(unfold Second; lia)) as (E1 & E2 & E3).
  destruct (date_of t) as (_ & _ & Et & _).
  rewrite days_from_civil_index, <- Et in E1.
  destruct (local_day_unique _ (local_day t) 0 ltac:(rewrite E1; lia) ltac:(lia))
    as [Ed Es].
  auto.
Qed.

Lemma AddDate_month (t : Time) :
  let t2 := AddDate t 0 1 0 in
  (whole t -> whole t2) /\ offset t2 = offset t /\
  month_end t <= local_day t2 /\ (Month t2 <> 1 -> Year t2 <= Year t).
Proof.
  cbv zeta. destruct (AddDate_local t 0 1 0) as (E1 & E2 & E3).
  destruct (date_of t) as (_ & Hd & _ & _).
  destruct (local_split t) as [_ Hs].
  rewrite days_from_civil_index in E1.
  destruct (local_day_unique _ _ _ E1 Hs) as [Ed _].
  split; [unfold whole; congruence|]. split; [exact E2|].
  apply (month_advance t _ (Day t)); [|lia].
  rewrite Ed. f_equal; [f_equal|]; lia.
Qed.

Lemma AddDate_day (t : Time) :
  let t2 := AddDate t 0 0 1 in
  (whole t -> whole t2) /\ offset t2 = offset t /\
  local_day t2 = local_day t + 1 /\ (Day t2 <> 1 -> Year t2 = Year t).
Proof.
  cbv zeta. destruct (AddDate_local t 0 0 1) as (E1 & E2 & E3).
  destruct (date_of t) as (_ & _ & Et & _).
  destruct (local_split t) as [_ Hs].
  rewrite days_from_civil_index in E1.
  destruct (local_day_unique _ _ _ E1 Hs) as [Ed _].
  assert (Ed' : local_day (AddDate t 0 0 1) = local_day t + 1).
  { rewrite Ed. replace (12 * (Year t + 0) + (Month t + 0) - 1)
      with (12 * Year t + Month t - 1) by lia. lia. }
  split; [unfold whole; congruence|]. split; [exact E2|].
  split; [exact Ed'|]. apply day_advance. exact Ed'.
Qed.

(** ** The bodies of the five loops *)

Lemma Hour_seconds : Hour = 3600 * Second.
Proof. reflexivity. Qed.

Lemma Minute_seconds : Minute = 60 * Second.
Proof. reflexivity. Qed.

Lemma Second_seconds : Second = 1 * Second.
Proof. reflexivity. Qed.

Lemma month_body (t : Time) (initFlag : bool) :
  whole t ->
  let t1 := if negb initFlag
            then Date (Year t) (Month t) 1 0 0 0 0 (Location t) else t in
  let t2 := AddDate t1 0 1 0 in
  whole t2 /\ offset t2 = offset t /\ local_sec t < local_sec t2 /\
  (Month t2 <> 1 -> Year t2 <= Year t).
Proof.
  intros Hw. cbv zeta.
  destruct (date_of t) as (_ & _ & _ & Hend).
  destruct initFlag; cbn [negb].
  - destruct (AddDate_month t) as (W & O & E & Y).
    split; [auto|]. split; [exact O|]. split; [|exact Y].
    apply later_day_later. lia.
  - destruct (Date_first_of_month t) as (W1 & O1 & Y1 & M1 & _ & _).
    set (t1 := Date (Year t) (Month t) 1 0 0 0 0 (Location t)) in *.
    destruct (AddDate_month t1) as (W & O & E & Y).
    rewrite month_end_eq, Y1, M1, <- month_end_eq in E.
    split; [auto|]. split; [congruence|]. split; [|rewrite <- Y1; exact Y].
    apply later_day_later. lia.
Qed.

Lemma day_body (t : Time) (initFlag : bool) :
  whole t ->
  let t1 := if negb initFlag
            then Date (Year t) (Month t) (Day t) 0 0 0 0 (Location t) else t in
  let t2 := AddDate t1 0 0 1 in
  whole t2 /\ offset t2 = offset t /\ local_sec t < local_sec t2 /\
  (Day t2 <> 1 -> Year t2 <= Year t).
Proof.
  intros Hw. cbv zeta.
  destruct initFlag; cbn [negb].
  - destruct (AddDate_day t) as (W & O & E & Y).
    split; [auto|]. split; [exact O|]. split; [|intros H; rewrite (Y H); lia].
    apply later_day_later. lia.
  - destruct (Date_midnight t) as (W1 & O1 & D1 & _).
    set (t1 := Date (Year t) (Month t) (Day t) 0 0 0 0 (Location t)) in *.
    destruct (AddDate_day t1) as (W & O & E & Y).
    destruct (same_day_same_date t1 t D1) as (Y1 & _ & _).
    split; [auto|]. split; [congruence|].
    split; [|intros H; rewrite (Y H), Y1; lia].
    apply later_day_later. lia.
Qed.

Lemma clock_body (t : Time) (initFlag : bool) (w : Z) :
  whole t -> w = 3600 \/ w = 60 ->
  let t1 := if negb initFlag then Truncate t (w * Second) else t in
  let t2 := Add t1 (w * Second) in
  whole t2 /\ offset t2 = offset t /\
  local_sec t < local_sec t2 <= local_sec t + w.
Proof.
  intros Hw Hcase. cbv zeta.
  destruct initFlag; cbn [negb].
  - destruct (Add_seconds t w Hw) as (W & O & E). rewrite E.
    split; [exact W|]. split; [exact O|]. lia.
  - destruct (Truncate_seconds t w Hw Hcase) as (W1 & O1 & E1).
    destruct (Add_seconds _ w W1) as (W & O & E). rewrite E.
    split; [exact W|]. split; [congruence|]. lia.
Qed.

Lemma same_year_within (t t2 : Time) (w : Z) :
  local_sec t < local_sec t2 <= local_sec t + w -> w <= sec_of_day t2 ->
  Year t2 <= Year t.
Proof.
  intros H Hs.
  destruct (same_day_same_date t2 t (later_same_day t t2 w H Hs)) as (-> & _ & _).
  lia.
Qed.

Lemma hours_body (t : Time) (initFlag : bool) :
  whole t ->
  let t1 := if negb initFlag then Truncate t Hour else t in
  let t2 := Add t1 Hour in
  whole t2 /\ offset t2 = offset t /\ local_sec t < local_sec t2 /\
  (Hour_of t2 <> 0 -> Year t2 <= Year t).
Proof.
  intros Hw. rewrite Hour_seconds.
  destruct (clock_body t initFlag 3600 Hw ltac:(auto)) as (W & O & E).
  cbv zeta. split; [exact W|]. split; [exact O|]. split; [lia|].
  intros H. apply (same_year_within t _ 3600 E).
  apply clock_ranges. exact H.
Qed.

Lemma minutes_body (t : Time) (initFlag : bool) :
  whole t ->
  let t1 := if negb initFlag then Truncate t Minute else t in
  let t2 := Add t1 Minute in
  whole t2 /\ offset t2 = offset t /\ local_sec t < local_sec t2 /\
  (Minute_of t2 <> 0 -> Year t2 <= Year t).
Proof.
  intros Hw. rewrite Minute_seconds.
  destruct (clock_body t initFlag 60 Hw ltac:(auto)) as (W & O & E).
  cbv zeta. split; [exact W|]. split; [exact O|]. split; [lia|].
  intros H. apply (same_year_within t _ 60); [lia|].
  apply clock_ranges. exact H.
Qed.

Lemma seconds_body (t : Time) :
  whole t ->
  let t2 := Add t Second in
  whole t2 /\ offset t2 = offset t /\ local_sec t < local_sec t2 /\
  (Second_of t2 <> 0 -> Year t2 <= Year t).
Proof.
  intros Hw. rewrite Second_seconds.
  destruct (Add_seconds t 1 Hw) as (W & O & E).
  cbv zeta. split; [exact W|]. split; [exact O|]. split; [lia|].
  intros H. apply (same_year_within t _ 1); [lia|].
  apply clock_ranges. exact H.
Qed.

(** ** The search of [Next] *)

Lemma steps_left_live (t0 : Time) (st : search) :
  gave_up t0 st = false ->
  steps_left t0 st = 6 * (horizon t0 - local_sec (s_t st)) + rank (s_at st).
Proof. unfold steps_left. intros ->. reflexivity. Qed.

Lemma steps_left_bound (t0 : Time) (st : search) :
  steps_left t0 st = 0 \/
  steps_left t0 st = 6 * (horizon t0 - local_sec (s_t st)) + rank (s_at st).
Proof. unfold steps_left. destruct (gave_up t0 st); auto. Qed.

Lemma rank_range (p : place) : 0 <= rank p <= 5.
Proof. destruct p; cbn [rank]; lia. Qed.

Lemma before_horizon (t0 t : Time) :
  Year t <= Year t0 + 1 -> local_sec t < horizon t0.
Proof.
  intros H. pose proof (year_horizon t0 t H). pose proof (local_split t).
  unfold horizon. lia.
Qed.

Lemma steps_left_nonneg (t0 : Time) (st : search) :
  search_inv t0 st -> 0 <= steps_left t0 st.
Proof.
  intros (_ & _ & _ & HY). unfold steps_left, gave_up.
  pose proof (rank_range (s_at st)).
  destruct (s_at st) eqn:E;
    try (pose proof (before_horizon t0 (s_t st) (HY ltac:(discriminate))); lia).
  destruct (Z.gtb_spec (Year (s_t st)) (Year t0 + 1)); [lia|].
  pose proof (before_horizon t0 (s_t st) ltac:(lia)). lia.
Qed.

(** A loop body that has run: the instant is later, and the search goes on
    in the loop or at [retry]. *)
Lemma loop_step (t0 : Time) (st : search) (t2 : Time) (b : bool) :
  search_inv t0 st -> s_at st <> at_retry ->
  whole t2 /\ offset t2 = offset (s_t st) /\ local_sec (s_t st) < local_sec t2 /\
  (b = false -> Year t2 <= Year (s_t st)) ->
  let st' := {| s_t := t2; s_initFlag := true;
                s_at := if b then at_retry else s_at st |} in
  search_inv t0 st' /\ steps_left t0 st' + 1 <= steps_left t0 st.
Proof.
  intros (W & O & L & HY) Hp (W2 & O2 & L2 & Y2). cbv zeta.
  specialize (HY Hp).
  pose proof (before_horizon t0 (s_t st) HY) as Hh.
  pose proof (rank_range (s_at st)) as Hr.
  assert (Hlive : gave_up t0 st = false)
    by (unfold gave_up; destruct (s_at st); [contradiction|reflexivity..]).
  rewrite (steps_left_live t0 st Hlive).
  split.
  - unfold search_inv. cbn [s_t s_at].
    split; [exact W2|]. split; [congruence|]. split; [lia|].
    destruct b; [contradiction|]. intros _. specialize (Y2 eq_refl). lia.
  - destruct (steps_left_bound t0
               {| s_t := t2; s_initFlag := true;
                  s_at := if b then at_retry else s_at st |}) as [-> | ->];
      [lia|]. cbn [s_t s_at].
    pose proof (rank_range (if b then at_retry else s_at st)). lia.
Qed.

(** A test that has passed: the search moves to the next place. *)
Lemma place_step (t0 : Time) (st : search) (p' : place) :
  search_inv t0 st -> gave_up t0 st = false ->
  Year (s_t st) <= Year t0 + 1 ->
  p' <> at_retry -> rank p' + 1 = rank (s_at st) ->
  let st' := {| s_t := s_t st; s_initFlag := s_initFlag st; s_at := p' |} in
  search_inv t0 st' /\ steps_left t0 st' + 1 <= steps_left t0 st.
Proof.
  intros (W & O & L & HY) Hlive HYear Hp Hr. cbv zeta.
  rewrite (steps_left_live t0 st Hlive).
  assert (Hlive' : gave_up t0 {| s_t := s_t st; s_initFlag := s_initFlag st; s_at := p' |}
                   = false)
    by (unfold gave_up; cbn [s_at]; destruct p'; [contradiction|reflexivity..]).
  rewrite (steps_left_live _ _ Hlive'). cbn [s_t s_at].
  split; [|lia].
  unfold search_inv. cbn [s_t s_at]. auto.
Qed.

Lemma January_is_1 : January = 1.
Proof. reflexivity. Qed.

Lemma zero_post (t0 : Time) : search_post t0 zero.
Proof. left. reflexivity. Qed.

(** One step of the search keeps the invariant and uses up a step. *)
Lemma Next_step_progress (e : CronExpr) (t0 : Time) (st : search) :
  search_inv t0 st ->
  match Next_step e (Year t0) st with
  | Return r => search_post t0 r
  | Continue st' => search_inv t0 st' /\ steps_left t0 st' + 1 <= steps_left t0 st
  end.
Proof.
  destruct st as [t f p]. intros HI.
  pose proof HI as (W & O & L & HY). cbn [s_t s_at] in W, O, L, HY.
  destruct p; unfold Next_step; cbn [s_t s_initFlag s_at].
  - destruct (Z.gtb_spec (Year t) (Year t0 + 1)) as [Hgt|Hle].
    + apply zero_post.
    + apply (place_step t0 {| s_t := t; s_initFlag := f; s_at := at_retry |} at_month HI);
        cbn [s_t s_at rank]; try lia; try discriminate.
      unfold gave_up. cbn [s_t s_at]. destruct (Z.gtb_spec (Year t) (Year t0 + 1)); [lia|reflexivity].
  - specialize (HY ltac:(discriminate)).
    destruct (bit_set (Month t) (month e)); cbn [negb].
    + apply (place_step t0 {| s_t := t; s_initFlag := f; s_at := at_month |} at_day HI);
        cbn [s_t s_at rank]; try lia; try discriminate; reflexivity.
    + destruct (month_body t f W) as (W2 & O2 & L2 & Y2).
      apply (loop_step t0 {| s_t := t; s_initFlag := f; s_at := at_month |} _ _ HI);
        [discriminate|]. cbn [s_t].
      split; [exact W2|]. split; [exact O2|]. split; [exact L2|].
      intros Hb. apply Y2. rewrite <- January_is_1. apply Z.eqb_neq. exact Hb.
  - specialize (HY ltac:(discriminate)).
    destruct (matchDay e t); cbn [negb].
    + apply (place_step t0 {| s_t := t; s_initFlag := f; s_at := at_day |} at_hours HI);
        cbn [s_t s_at rank]; try lia; try discriminate; reflexivity.
    + destruct (day_body t f W) as (W2 & O2 & L2 & Y2).
      apply (loop_step t0 {| s_t := t; s_initFlag := f; s_at := at_day |} _ _ HI);
        [discriminate|]. cbn [s_t].
      split; [exact W2|]. split; [exact O2|]. split; [exact L2|].
      intros Hb. apply Y2. apply Z.eqb_neq. exact Hb.
  - specialize (HY ltac:(discriminate)).
    destruct (bit_set (Hour_of t) (hour e)); cbn [negb].
    + apply (place_step t0 {| s_t := t; s_initFlag := f; s_at := at_hours |} at_minutes HI);
        cbn [s_t s_at rank]; try lia; try discriminate; reflexivity.
    + destruct (hours_body t f W) as (W2 & O2 & L2 & Y2).
      apply (loop_step t0 {| s_t := t; s_initFlag := f; s_at := at_hours |} _ _ HI);
        [discriminate|]. cbn [s_t].
      split; [exact W2|]. split; [exact O2|]. split; [exact L2|].
      intros Hb. apply Y2. apply Z.eqb_neq. exact Hb.
  - specialize (HY ltac:(discriminate)).
    destruct (bit_set (Minute_of t) (min e)); cbn [negb].
    + apply (place_step t0 {| s_t := t; s_initFlag := f; s_at := at_minutes |} at_seconds HI);
        cbn [s_t s_at rank]; try lia; try discriminate; reflexivity.
    + destruct (minutes_body t f W) as (W2 & O2 & L2 & Y2).
      apply (loop_step t0 {| s_t := t; s_initFlag := f; s_at := at_minutes |} _ _ HI);
        [discriminate|]. cbn [s_t].
      split; [exact W2|]. split; [exact O2|]. split; [exact L2|].
      intros Hb. apply Y2. apply Z.eqb_neq. exact Hb.
  - specialize (HY ltac:(discriminate)).
    destruct (bit_set (Second_of t) (sec e)); cbn [negb].
    + right. auto.
    + destruct (seconds_body t W) as (W2 & O2 & L2 & Y2).
      apply (loop_step t0 {| s_t := t; s_initFlag := f; s_at := at_seconds |} _ _ HI);
        [discriminate|]. cbn [s_t].
      split; [exact W2|]. split; [exact O2|]. split; [exact L2|].
      intros Hb. apply Y2. apply Z.eqb_neq. exact Hb.
Qed.

Lemma Next_run_progress (e : CronExpr) (t0 : Time) (k : nat) :
  forall st, search_inv t0 st ->
  match Next_run k e (Year t0) st with
  | Return r => search_post t0 r
  | Continue st' =>
      search_inv t0 st' /\ steps_left t0 st' + 2 ^ Z.of_nat k <= steps_left t0 st
  end.
Proof.
  induction k as [|k IH]; intros st HI.
  - cbn [Next_run]. apply Next_step_progress. exact HI.
  - cbn [Next_run]. pose proof (IH st HI) as H1.
    destruct (Next_run k e (Year t0) st) as [st1|r]; [|exact H1].
    destruct H1 as [HI1 Hm1]. pose proof (IH st1 HI1) as H2.
    destruct (Next_run k e (Year t0) st1) as [st2|r]; [|exact H2].
    destruct H2 as [HI2 Hm2]. split; [exact HI2|].
    rewrite Nat2Z.inj_succ, Z.pow_succ_r by lia. lia.
Qed.

(** The search that starts at the upcoming second of [t]. *)
Lemma Next_start_inv (t : Time) :
  search_inv (Next_start t)
    {| s_t := Next_start t; s_initFlag := false; s_at := at_retry |}.
Proof.
  destruct (Next_start_whole t) as (W & _ & _).
  unfold search_inv. cbn [s_t s_at].
  split; [exact W|]. split; [reflexivity|]. split; [lia|]. intros H. contradiction.
Qed.

Lemma Next_start_steps (t : Time) :
  steps_left (Next_start t)
    {| s_t := Next_start t; s_initFlag := false; s_at := at_retry |} < 2 ^ 32.
Proof.
  destruct (steps_left_bound (Next_start t)
              {| s_t := Next_start t; s_initFlag := false; s_at := at_retry |})
    as [-> | ->]; [reflexivity|].
  cbn [s_t s_at rank]. unfold horizon.
  pose proof (local_split (Next_start t)).
  change (2 ^ 32) with 4294967296. lia.
Qed.

(** [Next] returns, and what it returns is the zero instant or an instant
    of the search. *)
Lemma Next_returns (e : CronExpr) (t : Time) :
  exists r, Next e t = Some r /\ search_post (Next_start t) r.
Proof.
  unfold Next. cbv zeta.
  pose proof (Next_run_progress e (Next_start t) 32 _ (Next_start_inv t)) as H.
  destruct (Next_run 32 e (Year (Next_start t))
              {| s_t := Next_start t; s_initFlag := false; s_at := at_retry |})
    as [st'|r].
  - exfalso. destruct H as [HI Hm].
    pose proof (steps_left_nonneg _ _ HI).
    pose proof (Next_start_steps t).
    change (Z.of_nat 32) with 32 in Hm.
    change (2 ^ 32) with 4294967296 in *. lia.
  - exists r. split; [reflexivity|exact H].
Qed.

Lemma search_post_after (t r : Time) :
  search_post (Next_start t) r -> r <> zero -> After r t = true.
Proof.
  intros [Hz | (W & O & L & _)] Hnz; [contradiction|].
  destruct (Next_start_whole t) as (W0 & _ & Hlt).
  unfold After. apply Z.ltb_lt.
  rewrite (whole_unix r W). rewrite (whole_unix _ W0) in Hlt.
  rewrite O. unfold Second in *. lia.
Qed.

(** ** The loop of a field with an increment *)

Lemma int64_small (z : Z) :
  -9223372036854775808 <= z <= 9223372036854775807 -> int64 z = z.
Proof. intros H. unfold int64. Z.div_mod_to_equations. lia. Qed.

Lemma int64_wrap (z : Z) :
  9223372036854775807 < z <= 18446744073709551615 ->
  int64 z = z - 18446744073709551616.
Proof. intros H. unfold int64. Z.div_mod_to_equations. lia. Qed.

Lemma field_loop_done (fuel : nat) (i end_ incr cf : Z) :
  end_ < i -> field_loop (S fuel) i end_ incr cf = Some cf.
Proof.
  intros H. cbn [field_loop]. destruct (Z.leb_spec i end_); [lia|reflexivity].
Qed.

Lemma field_loop_next (fuel : nat) (i end_ incr cf : Z) :
  i <= end_ ->
  field_loop (S fuel) i end_ incr cf
  = field_loop fuel (int64 (i + incr)) end_ incr (Z.lor cf (shl64 1 (uint64 i))).
Proof.
  intros H. cbn [field_loop]. destruct (Z.leb_spec i end_); [reflexivity|lia].
Qed.

(** An increment that cannot wrap: [i] grows until it is past [end_]. *)
Lemma field_loop_grows (end_ incr : Z) (fuel : nat) :
  end_ <= 59 -> 0 < incr <= 4611686018427387904 ->
  forall i cf, 0 <= i -> Z.max 0 (end_ - i + 1) < Z.of_nat fuel ->
  exists v, field_loop fuel i end_ incr cf = Some v.
Proof.
  intros He Hincr. induction fuel as [|fuel IH]; intros i cf Hi Hfuel.
  - lia.
  - destruct (Z.le_gt_cases i end_) as [Hle|Hgt].
    + rewrite field_loop_next by exact Hle.
      rewrite int64_small by lia. apply IH; lia.
    + rewrite field_loop_done by lia. eauto.
Qed.

(** An increment that wraps: two rounds take [i] down by twice what the
    increment lacks to [2^63], until a round leaves the range of the field. *)
Lemma field_loop_wraps (end_ incr : Z) (n : nat) :
  end_ <= 59 -> 4611686018427387904 < incr <= 9223372036854775807 ->
  forall fuel i cf, 0 <= i <= end_ -> i <= Z.of_nat n ->
  (2 * n + 4 <= fuel)%nat ->
  exists v, field_loop fuel i end_ incr cf = Some v.
Proof.
  intros He Hincr. induction n as [|n IH]; intros fuel i cf Hi Hn Hfuel.
  - (* i = 0: no wrap *)
    destruct fuel as [|[|fuel]]; try lia.
    rewrite field_loop_next by lia.
    rewrite int64_small by lia.
    rewrite field_loop_done by lia. eauto.
  - destruct fuel as [|[|[|[|fuel]]]]; try lia.
    rewrite field_loop_next by lia.
    destruct (Z.le_gt_cases (i + incr) 9223372036854775807) as [Hfit|Hwrap].
    + rewrite int64_small by lia. rewrite field_loop_done by lia. eauto.
    + rewrite int64_wrap by lia.
      rewrite field_loop_next by lia.
      rewrite int64_small by lia.
      destruct (Z.le_gt_cases 0 (i + incr - 18446744073709551616 + incr)) as [Hpos|Hneg].
      * apply IH; lia.
      * rewrite field_loop_next by lia.
        rewrite int64_small by lia.
        rewrite field_loop_done by lia. eauto.
Qed.

(** 256 rounds are enough for every field. *)
Lemma field_loop_returns (start end_ incr cf : Z) :
  0 <= start <= end_ -> end_ <= 59 -> 0 < incr <= 9223372036854775807 ->
  exists v, field_loop 256 start end_ incr cf = Some v.
Proof.
  intros Hs He Hincr.
  destruct (Z.le_gt_cases incr 4611686018427387904) as [Hsmall|Hlarge].
  - apply field_loop_grows; lia.
  - apply (field_loop_wraps end_ incr 59); lia.
Qed.

Lemma Atoi_range (s : string) (v : Z) :
  Atoi s = Some v -> -9223372036854775808 <= v <= 9223372036854775807.
Proof.
  unfold Atoi. destruct s as [|c rest]; [discriminate|]. cbv zeta.
  destruct (if (Ascii.eqb c "-" || Ascii.eqb c "+")%bool then rest else String c rest);
    [discriminate|].
  match goal with
  | |- context [parse_digits ?b 0] => destruct (parse_digits b 0) as [n|]
  end; [|discriminate].
  match goal with
  | |- context [if ?b then Some ?x else None] => destruct b eqn:E; [|discriminate]
  end.
  intros [= <-]. apply andb_true_iff in E as [E1 E2]. lia.
Qed.

(** An error about the increment is one that the code reports: the text
    after the slash is not a number of 64 bits, or the number is not
    positive.  The rounds of [field_loop] never run out. *)
Lemma parseCronTerm_increment_error (field : string) (min max cf : Z) (s : string) :
  0 <= min -> max <= 59 ->
  parseCronTerm field min max cf = inl (ErrInvalidIncrement s) ->
  match Atoi s with
  | None => True
  | Some incr => incr <= 0
  end.
Proof.
  intros Hmin Hmax. unfold parseCronTerm. cbv zeta.
  set (rangeAndIncr := Split field "/").
  set (range := hd EmptyString rangeAndIncr).
  set (startAndEnd := Split range "-").
  destruct (2 <? len rangeAndIncr); [discriminate|].
  destruct (2 <? len startAndEnd); [discriminate|].
  match goal with
  | |- match ?b with _ => _ end = _ -> _ => destruct b as [err|[start end_]] eqn:Eb
  end.
  { intros [= ->]. revert Eb.
    destruct (String.eqb (hd EmptyString startAndEnd) "*").
    - destruct (negb (len startAndEnd =? 1)); discriminate.
    - destruct (Atoi (hd EmptyString startAndEnd)); [|discriminate].
      destruct (len startAndEnd =? 1).
      + destruct (len rangeAndIncr =? 2); discriminate.
      + destruct (Atoi (nth 1 startAndEnd EmptyString)); discriminate. }
  destruct (Z.gtb_spec start end_); [discriminate|].
  destruct (Z.ltb_spec start min); [discriminate|].
  destruct (Z.gtb_spec end_ max); [discriminate|].
  destruct (len rangeAndIncr =? 1).
  - destruct (1 =? 1); [discriminate|].
    destruct (field_loop_returns start end_ 1 cf ltac:(lia) ltac:(lia) ltac:(lia)) as [v ->].
    discriminate.
  - destruct (Atoi (nth 1 rangeAndIncr EmptyString)) as [incr|] eqn:Ea.
    + destruct (Z.leb_spec incr 0) as [Hle|Hpos].
      * intros [= <-]. rewrite Ea. exact Hle.
      * destruct (incr =? 1); [discriminate|].
        pose proof (Atoi_range _ _ Ea).
        destruct (field_loop_returns start end_ incr cf ltac:(lia) ltac:(lia) ltac:(lia))
          as [v ->].
        discriminate.
    + intros [= <-]. rewrite Ea. exact I.
Qed.

(** The term [1-5/0]: the increment is a number, and not positive. *)
Lemma parseCronTerm_increment_error_witness :
  parseCronTerm "1-5/0" 0 59 0 = inl (ErrInvalidIncrement "0") /\
  match Atoi "0" with
  | None => True
  | Some incr => incr <= 0
  end.
Proof.
  assert (H : parseCronTerm "1-5/0" 0 59 0 = inl (ErrInvalidIncrement "0"))
    by (vm_compute; reflexivity).
  split; [exact H|].
  apply (parseCronTerm_increment_error "1-5/0" 0 59 0 "0"); [lia | lia | exact H].
Defined.

(** ** Masks and days *)

Lemma bit_set_testbit (k mask : Z) :
  0 <= k < 64 -> bit_set k mask = Z.testbit mask k.
Proof.
  intros Hk. unfold bit_set, shl64, uint64.
  rewrite (Z.mod_small k) by lia.
  destruct (Z.ltb_spec k 64) as [_|]; [|lia].
  rewrite Z.shiftl_1_l.
  assert (Hpow : 0 < 2 ^ k < 2 ^ 64)
    by (split; [apply Z.pow_pos_nonneg; lia | apply Z.pow_lt_mono_r; lia]).
  change (2 ^ 64) with 18446744073709551616 in Hpow.
  rewrite Z.mod_small by lia.
  destruct (Z.testbit mask k) eqn:Hb.
  - destruct (Z.eqb_spec (Z.land (2 ^ k) mask) 0) as [E|E]; [|reflexivity].
    assert (Hbit : Z.testbit (Z.land (2 ^ k) mask) k = true)
      by (rewrite Z.land_spec, Z.pow2_bits_true, Hb by lia; reflexivity).
    rewrite E, Z.bits_0 in Hbit. discriminate.
  - assert (E : Z.land (2 ^ k) mask = 0).
    { apply Z.bits_inj'. intros i Hi.
      rewrite Z.land_spec, Z.bits_0, Z.pow2_bits_eqb by lia.
      destruct (Z.eqb_spec k i) as [->|]; [rewrite Hb|]; reflexivity. }
    rewrite E. reflexivity.
Qed.

Lemma Weekday_range (t : Time) : 0 <= Weekday t < 7.
Proof. unfold Weekday. apply Z.mod_pos_bound. lia. Qed.

Lemma NewCronExpr_day_fields (expr : string) (e : CronExpr) :
  NewCronExpr expr = inr e ->
  parseCronField (dom_field expr) 1 31 = inr (dom e) /\
  parseCronField (dow_field expr) 0 6 = inr (dow e).
Proof.
  unfold NewCronExpr, dom_field, dow_field, cron_fields. cbv zeta.
  destruct (negb (len (Fields expr) =? 5) && negb (len (Fields expr) =? 6));
    [discriminate|].
  set (fields := if len (Fields expr) =? 5 then _ else _).
  destruct (parseCronField (nth 0 fields EmptyString) 0 59); [discriminate|].
  destruct (parseCronField (nth 1 fields EmptyString) 0 59); [discriminate|].
  destruct (parseCronField (nth 2 fields EmptyString) 0 23); [discriminate|].
  destruct (parseCronField (nth 3 fields EmptyString) 1 31); [discriminate|].
  destruct (parseCronField (nth 4 fields EmptyString) 1 12); [discriminate|].
  destruct (parseCronField (nth 5 fields EmptyString) 0 6); [discriminate|].
  intros H. injection H as <-. cbn [dom dow]. auto.
Qed.

Lemma star_dom : parseCronField "*" 1 31 = inr 4294967294.
Proof. vm_compute. reflexivity. Qed.

Lemma star_dow : parseCronField "*" 0 6 = inr 127.
Proof. vm_compute. reflexivity. Qed.

(** C2 (amended).  The day of an instant is matched on the masks.  When the
    day-of-month mask is [0xfffffffe], the mask that [*] gives, only the day
    of the week is looked at; otherwise, when the day-of-week mask is [0x7f],
    the mask that [*] gives, only the day of the month is looked at;
    otherwise either may match. *)
Theorem matchDay_by_masks (expr : string) (e : CronExpr) (t : Time) :
  NewCronExpr expr = inr e ->
  matchDay e t
  = (if dom e =? 4294967294 then Z.testbit (dow e) (Weekday t)
     else if dow e =? 127 then Z.testbit (dom e) (Day t)
     else Z.testbit (dow e) (Weekday t) || Z.testbit (dom e) (Day t)) /\
  (dom_field expr = "*"%string -> dom e = 4294967294) /\
  (dow_field expr = "*"%string -> dow e = 127).
Proof.
  intros H. destruct (NewCronExpr_day_fields expr e H) as [Hdom Hdow].
  split; [|split].
  - unfold matchDay.
    destruct (date_of t) as (_ & Hd & _ & _).
    pose proof (Weekday_range t).
    rewrite !bit_set_testbit by lia. reflexivity.
  - intros E. rewrite E, star_dom in Hdom. congruence.
  - intros E. rewrite E, star_dow in Hdow. congruence.
Qed.

(** The expression [0 0 0 * * 1] on Wednesday 2020-01-01: the day-of-month
    field is [*], and the day of the week decides. *)
Lemma matchDay_by_masks_witness :
  NewCronExpr "0 0 0 * * 1" = inr monday_expr /\
  matchDay monday_expr wednesday = Z.testbit (dow monday_expr) (Weekday wednesday) /\
  dom monday_expr = 4294967294.
Proof.
  assert (H : NewCronExpr "0 0 0 * * 1" = inr monday_expr) by (vm_compute; reflexivity).
  split; [exact H|].
  destruct (matchDay_by_masks _ _ wednesday H) as (Hm & Hdom & _).
  split; [exact Hm | apply Hdom; vm_compute; reflexivity].
Defined.

(** C2, as stated, fails: neither field of [0 0 0 1-31 * 1] is [*], the
    bit of the day of the month of Wednesday 2020-01-01 is set, and the day
    is not matched. *)
Lemma matchDay_range_taken_for_star :
  NewCronExpr "0 0 0 1-31 * 1" = inr monday_expr /\
  dom_field "0 0 0 1-31 * 1" = "1-31"%string /\
  dow_field "0 0 0 1-31 * 1" = "1"%string /\
  Z.testbit (dom monday_expr) (Day wednesday) = true /\
  matchDay monday_expr wednesday = false.
Proof. vm_compute. repeat split; reflexivity. Qed.

(** ** Next *)




(** ** What [Next] returns matches the expression *)

Lemma same_day_same_weekday (a b : Time) :
  local_day a = local_day b -> Weekday a = Weekday b.
Proof. unfold Weekday. intros ->. reflexivity. Qed.

Lemma same_day_matchDay (e : CronExpr) (a b : Time) :
  local_day a = local_day b -> matchDay e a = matchDay e b.
Proof.
  intros H. unfold matchDay.
  destruct (same_day_same_date a b H) as (_ & _ & ->).
  rewrite (same_day_same_weekday a b H). reflexivity.
Qed.

(** The day after a day, when it is not the first of a month, lies in the
    same month. *)
Lemma day_advance_month (t t2 : Time) :
  local_day t2 = local_day t + 1 -> Day t2 <> 1 -> Month t2 = Month t.
Proof.
  intros E HD.
  destruct (date_of t) as (Hm & Hd & Et & Hlt). rewrite month_end_eq in Hlt.
  destruct (date_of t2) as (Hm2 & Hd2 & E2 & Hlt2). rewrite month_end_eq in Hlt2.
  pose proof (day_advance t t2 E HD) as HY.
  destruct (Z.lt_ge_cases (local_day t2) (ms (12 * Year t + Month t - 1 + 1))) as [Hin|Hout].
  - assert (12 * Year t + Month t - 1 = 12 * Year t2 + Month t2 - 1)
      by (apply (ms_unique _ _ (local_day t2)); lia).
    lia.
  - exfalso.
    pose proof (ms_succ (12 * Year t + Month t - 1 + 1)).
    assert (12 * Year t + Month t - 1 + 1 = 12 * Year t2 + Month t2 - 1)
      by (apply (ms_unique _ _ (local_day t2)); lia).
    assert (ms (12 * Year t + Month t - 1 + 1) = ms (12 * Year t2 + Month t2 - 1))
      by congruence.
    lia.
Qed.

Lemma day_body_month (t : Time) (initFlag : bool) :
  let t1 := if negb initFlag
            then Date (Year t) (Month t) (Day t) 0 0 0 0 (Location t) else t in
  let t2 := AddDate t1 0 0 1 in
  Day t2 <> 1 -> Month t2 = Month t.
Proof.
  cbv zeta. destruct initFlag; cbn [negb].
  - destruct (AddDate_day t) as (_ & _ & E & _). apply day_advance_month. exact E.
  - destruct (Date_midnight t) as (_ & _ & D1 & _).
    set (t1 := Date (Year t) (Month t) (Day t) 0 0 0 0 (Location t)) in *.
    destruct (AddDate_day t1) as (_ & _ & E & _).
    intros H. apply day_advance_month; [|exact H]. lia.
Qed.

(** A later instant within [w] seconds that is at least [w] seconds into its
    day shares the day, and with [w] at most a minute also the hour, and
    with [w] one second also the minute. *)
Lemma clock_kept (t t2 : Time) (w : Z) :
  local_sec t < local_sec t2 <= local_sec t + w ->
  (w = 3600 -> Hour_of t2 <> 0 -> local_day t2 = local_day t) /\
  (w = 60 -> Minute_of t2 <> 0 ->
   local_day t2 = local_day t /\ Hour_of t2 = Hour_of t) /\
  (w = 1 -> Second_of t2 <> 0 ->
   local_day t2 = local_day t /\ Hour_of t2 = Hour_of t /\ Minute_of t2 = Minute_of t).
Proof.
  intros H.
  pose proof (local_split t) as [Et Ht]. pose proof (local_split t2) as [Et2 Ht2].
  destruct (clock_ranges t2) as (R1 & R2 & R3 & _).
  split; [|split].
  - intros -> Hh. apply (later_same_day t t2 3600 H). auto.
  - intros -> Hm.
    assert (Ed : local_day t2 = local_day t) by (apply (later_same_day t t2 60 H); auto).
    split; [exact Ed|].
    revert Hm. unfold Hour_of, Minute_of.
    assert (Es : sec_of_day t < sec_of_day t2 <= sec_of_day t + 60) by lia.
    revert Es Ht Ht2. generalize (sec_of_day t), (sec_of_day t2). intros s s2 Es Hs Hs2 Hm.
    Z.div_mod_to_equations. lia.
  - intros -> Hs.
    assert (Ed : local_day t2 = local_day t) by (apply (later_same_day t t2 1 H); auto).
    split; [exact Ed|].
    revert Hs. unfold Hour_of, Minute_of, Second_of.
    assert (Es : sec_of_day t2 = sec_of_day t + 1) by lia.
    revert Es Ht Ht2. generalize (sec_of_day t), (sec_of_day t2). intros s s2 Es Hs Hs2 Hm.
    Z.div_mod_to_equations. lia.
Qed.

Lemma same_day_month (a b : Time) : local_day a = local_day b -> Month a = Month b.
Proof. intros H. apply (same_day_same_date a b H). Qed.

(** One step of the search keeps what the instant has passed. *)
Lemma Next_step_passed (e : CronExpr) (year : Z) (st : search) :
  whole (s_t st) -> passed e st ->
  match Next_step e year st with
  | Return r => r = zero \/ matches e r = true
  | Continue st' => passed e st'
  end.
Proof.
  destruct st as [t f p]. cbn [s_t]. intros W HP.
  destruct p; unfold Next_step; cbn [s_t s_initFlag s_at]; unfold passed in HP;
    cbn [s_t s_at] in HP.
  - destruct (Year t >? year + 1); [left; reflexivity|exact I].
  - destruct (bit_set (Month t) (month e)) eqn:Em; cbn [negb].
    + exact Em.
    + unfold passed. cbn [s_at]. destruct (_ =? January); exact I.
  - destruct (matchDay e t) eqn:Ed; cbn [negb].
    + split; [exact HP|exact Ed].
    + set (t2 := AddDate _ 0 0 1). unfold passed. cbn [s_at s_t].
      destruct (Z.eqb_spec (Day t2) 1) as [E1|N1]; [exact I|].
      unfold t2. rewrite (day_body_month t f N1). exact HP.
  - destruct HP as [Hmo Hda].
    destruct (bit_set (Hour_of t) (hour e)) eqn:Eh; cbn [negb].
    + unfold passed. cbn [s_t s_at]. auto.
    + pose proof (clock_body t f 3600 W ltac:(auto)) as (_ & _ & Hb).
      rewrite <- Hour_seconds in Hb. cbv zeta in Hb.
      set (t2 := Add _ Hour) in *. unfold passed. cbn [s_at s_t].
      destruct (Z.eqb_spec (Hour_of t2) 0) as [E0|N0]; [exact I|].
      destruct (clock_kept t t2 3600 Hb) as (K & _ & _).
      specialize (K eq_refl N0).
      rewrite (same_day_month t2 t K), (same_day_matchDay e t2 t K). auto.
  - destruct HP as (Hmo & Hda & Hho).
    destruct (bit_set (Minute_of t) (min e)) eqn:Emi; cbn [negb].
    + unfold passed. cbn [s_t s_at]. auto.
    + pose proof (clock_body t f 60 W ltac:(auto)) as (_ & _ & Hb).
      rewrite <- Minute_seconds in Hb. cbv zeta in Hb.
      set (t2 := Add _ Minute) in *. unfold passed. cbn [s_at s_t].
      destruct (Z.eqb_spec (Minute_of t2) 0) as [E0|N0]; [exact I|].
      destruct (clock_kept t t2 60 Hb) as (_ & K & _).
      destruct (K eq_refl N0) as [Kd Kh].
      rewrite (same_day_month t2 t Kd), (same_day_matchDay e t2 t Kd), Kh. auto.
  - destruct HP as (Hmo & Hda & Hho & Hmi).
    destruct (bit_set (Second_of t) (sec e)) eqn:Es; cbn [negb].
    + right. unfold matches. rewrite Hmo, Hda, Hho, Hmi, Es. reflexivity.
    + destruct (Add_seconds t 1 W) as (_ & _ & Hb).
      rewrite <- Second_seconds in Hb.
      set (t2 := Add t Second) in *. unfold passed. cbn [s_at s_t].
      destruct (Z.eqb_spec (Second_of t2) 0) as [E0|N0]; [exact I|].
      destruct (clock_kept t t2 1 ltac:(lia)) as (_ & _ & K).
      destruct (K eq_refl N0) as (Kd & Kh & Km).
      rewrite (same_day_month t2 t Kd), (same_day_matchDay e t2 t Kd), Kh, Km. auto.
Qed.

Lemma Next_run_passed (e : CronExpr) (t0 : Time) (k : nat) :
  forall st, search_inv t0 st -> passed e st ->
  match Next_run k e (Year t0) st with
  | Return r => r = zero \/ matches e r = true
  | Continue st' => search_inv t0 st' /\ passed e st'
  end.
Proof.
  induction k as [|k IH]; intros st HI HP.
  - cbn [Next_run].
    pose proof (Next_step_progress e t0 st HI) as H1.
    pose proof (Next_step_passed e (Year t0) st ltac:(apply HI) HP) as H2.
    destruct (Next_step e (Year t0) st); [split; [apply H1|exact H2]|exact H2].
  - cbn [Next_run]. pose proof (IH st HI HP) as H1.
    destruct (Next_run k e (Year t0) st) as [st1|r]; [|exact H1].
    destruct H1 as [HI1 HP1]. apply IH; assumption.
Qed.


End timer_facts.

(* ===================================================================== *)
(** * Package util: random picks, properties                              *)
(* ===================================================================== *)

Module util_facts.

Import util.

Lemma int32_small (z : Z) : -2147483648 <= z <= 2147483647 -> int32 z = z.
Proof. intros H. unfold int32. Z.div_mod_to_equations. lia. Qed.

Lemma sum_list_cons (x : Z) (p : list Z) : sum_list (x :: p) = x + sum_list p.
Proof. reflexivity. Qed.

Lemma sum_list_firstn_0 (p : list Z) : sum_list (firstn 0 p) = 0.
Proof. reflexivity. Qed.

Lemma sum_list_firstn_S (j : nat) (x : Z) (p : list Z) :
  sum_list (firstn (S j) (x :: p)) = x + sum_list (firstn j p).
Proof. reflexivity. Qed.

Lemma sum_list_nonneg (p : list Z) :
  Forall (fun x => 0 <= x < 4294967296) p -> 0 <= sum_list p.
Proof.
  induction 1 as [|x p Hx _ IH]; [cbn; lia|]. rewrite sum_list_cons. lia.
Qed.

(** ** RandGroup *)

Lemma RandGroup_sums_last (p : list Z) (prev : Z) :
  Forall (fun x => 0 <= x < 4294967296) p ->
  0 <= prev -> prev + sum_list p < 4294967296 ->
  List.last (prev :: RandGroup_sums prev p) 0 = prev + sum_list p.
Proof.
  intros Hp. revert prev. induction Hp as [|x p Hx Hp IH]; intros prev H0 Hs.
  - cbn. lia.
  - rewrite sum_list_cons in *. cbn [RandGroup_sums].
    pose proof (sum_list_nonneg p Hp).
    rewrite uint32_small by lia.
    change (List.last (prev :: (prev + x) :: RandGroup_sums (prev + x) p) 0)
      with (List.last ((prev + x) :: RandGroup_sums (prev + x) p) 0).
    rewrite IH by lia. lia.
Qed.

Lemma RandGroup_find_sums (p : list Z) :
  Forall (fun x => 0 <= x < 4294967296) p ->
  forall prev rn i0,
    0 <= prev -> prev + sum_list p < 4294967296 ->
    prev <= rn < prev + sum_list p ->
    exists j,
      RandGroup_find rn (RandGroup_sums prev p) i0 = Returns (i0 + Z.of_nat j) /\
      (j < length p)%nat /\
      prev + sum_list (firstn j p) <= rn < prev + sum_list (firstn (S j) p).
Proof.
  induction 1 as [|x p Hx Hp IH]; intros prev rn i0 H0 Hs Hrn.
  - cbn in Hrn. lia.
  - rewrite sum_list_cons in *. cbn [RandGroup_sums RandGroup_find].
    pose proof (sum_list_nonneg p Hp).
    rewrite uint32_small by lia.
    destruct (Z.ltb_spec rn (prev + x)) as [Hlt|Hge].
    + exists 0%nat. rewrite sum_list_firstn_S, !sum_list_firstn_0. cbn [length].
      split; [f_equal; lia|]. lia.
    + destruct (IH (prev + x) rn (i0 + 1) ltac:(lia) ltac:(lia) ltac:(lia))
        as (j & Ej & Hj & Hb).
      exists (S j). rewrite !sum_list_firstn_S. cbn [length].
      split; [rewrite Ej; f_equal; lia|]. lia.
Qed.

(** [RandGroup] picks by weight.  For weights whose sum is positive and
    fits 32 bits, the index returned is the one whose share of the sum holds
    the number drawn below the sum: the weights before it add up to at most
    that number, and with its own weight to more. *)
Theorem RandGroup_by_weight (draw : nat -> Z -> Z) (p : list Z) :
  (forall k n, 0 < n -> 0 <= draw k n < n) ->
  Forall (fun x => 0 <= x < 4294967296) p ->
  0 < sum_list p < 4294967296 ->
  exists i,
    RandGroup draw (Some p) = Returns (Z.of_nat i) /\
    (i < length p)%nat /\
    sum_list (firstn i p) <= draw 0%nat (sum_list p) < sum_list (firstn (S i) p).
Proof.
  intros Hdraw Hp Hsum. destruct p as [|p0 p']; [cbn in Hsum; lia|].
  inversion Hp as [|? ? Hp0 Hp']; subst.
  rewrite sum_list_cons in *.
  pose proof (sum_list_nonneg p' Hp') as Hnn.
  unfold RandGroup. cbv zeta.
  rewrite (RandGroup_sums_last p' p0 Hp' ltac:(lia) ltac:(lia)).
  destruct (Z.eqb_spec (p0 + sum_list p') 0) as [E|_]; [lia|].
  unfold Int63n.
  destruct (Z.leb_spec (p0 + sum_list p') 0) as [E|_]; [lia|].
  cbn [obind].
  pose proof (Hdraw 0%nat (p0 + sum_list p') ltac:(lia)) as Hd.
  set (rn := draw 0%nat (p0 + sum_list p')) in *.
  rewrite uint32_small by lia.
  cbn [RandGroup_find].
  destruct (Z.ltb_spec rn p0) as [Hlt|Hge].
  - exists 0%nat. rewrite sum_list_firstn_S, !sum_list_firstn_0. cbn [length].
    split; [reflexivity|]. lia.
  - destruct (RandGroup_find_sums p' Hp' p0 rn (0 + 1) ltac:(lia)
                ltac:(lia) ltac:(lia)) as (j & Ej & Hj & Hb).
    exists (S j). rewrite !sum_list_firstn_S. cbn [length].
    split; [rewrite Ej; f_equal; lia|]. lia.
Qed.

(** Weights 1, 0, 3 with the number 3 drawn below 4: the third weight. *)
Lemma RandGroup_by_weight_witness :
  exists i,
    RandGroup sample_draw (Some [1; 0; 3]) = Returns (Z.of_nat i) /\
    (i < 3)%nat /\
    sum_list (firstn i [1; 0; 3]) <= sample_draw 0%nat 4
    < sum_list (firstn (S i) [1; 0; 3]).
Proof.
  apply (RandGroup_by_weight sample_draw [1; 0; 3]).
  - intros k n Hn. unfold sample_draw. apply Z.mod_pos_bound. exact Hn.
  - repeat constructor; lia.
  - cbn. lia.
Defined.

Lemma uint32_range (z : Z) : 0 <= uint32 z < 4294967296.
Proof. unfold uint32. apply Z.mod_pos_bound. lia. Qed.

Lemma RandGroup_sums_last_wrapped (p : list Z) (prev : Z) :
  0 <= prev < 4294967296 ->
  List.last (prev :: RandGroup_sums prev p) 0 = uint32 (prev + sum_list p).
Proof.
  revert prev. induction p as [|x p IH]; intros prev Hprev.
  - cbn [RandGroup_sums List.last]. change (sum_list []) with 0.
    rewrite Z.add_0_r, uint32_small by lia. reflexivity.
  - rewrite sum_list_cons. cbn [RandGroup_sums].
    change (List.last (prev :: uint32 (prev + x) :: RandGroup_sums (uint32 (prev + x)) p) 0)
      with (List.last (uint32 (prev + x) :: RandGroup_sums (uint32 (prev + x)) p) 0).
    rewrite IH by apply uint32_range.
    unfold uint32. rewrite Zplus_mod_idemp_l. f_equal. lia.
Qed.

Lemma RandGroup_find_wrapped (p : list Z) :
  forall prev rn i0,
    0 <= prev < 4294967296 ->
    prev <= rn < List.last (prev :: RandGroup_sums prev p) 0 ->
    exists j,
      RandGroup_find rn (RandGroup_sums prev p) i0 = Returns (i0 + Z.of_nat j) /\
      (j < length p)%nat /\ nth j p 0 <> 0.
Proof.
  induction p as [|x p IH]; intros prev rn i0 Hprev Hrn.
  - cbn [RandGroup_sums List.last] in Hrn. lia.
  - cbn [RandGroup_sums RandGroup_find] in *.
    change (List.last (prev :: uint32 (prev + x) :: RandGroup_sums (uint32 (prev + x)) p) 0)
      with (List.last (uint32 (prev + x) :: RandGroup_sums (uint32 (prev + x)) p) 0) in Hrn.
    destruct (Z.ltb_spec rn (uint32 (prev + x))) as [Hlt|Hge].
    + exists 0%nat. cbn [length nth]. split; [f_equal; lia|]. split; [lia|].
      intros ->. rewrite Z.add_0_r, uint32_small in Hlt by lia. lia.
    + destruct (IH (uint32 (prev + x)) rn (i0 + 1) (uint32_range _) ltac:(lia))
        as (j & Ej & Hj & Hw).
      exists (S j). cbn [length nth]. split; [rewrite Ej; f_equal; lia|].
      split; [lia|exact Hw].
Qed.

(** [RandGroup] on at least one weight returns an index of a weight, for
    every draw, also when the sum of the weights wraps around on 32 bits: the
    [panic("bug")] after the loop is never reached.  When the sum, as the
    32 bits hold it, is zero the index is 0; otherwise the weight at the
    index is not zero. *)
Theorem RandGroup_returns (draw : nat -> Z -> Z) (p0 : Z) (p' : list Z) :
  (forall k n, 0 < n -> 0 <= draw k n < n) ->
  0 <= p0 < 4294967296 ->
  exists i,
    RandGroup draw (Some (p0 :: p')) = Returns (Z.of_nat i) /\
    (i < length (p0 :: p'))%nat /\
    (uint32 (sum_list (p0 :: p')) = 0 -> i = 0%nat) /\
    (uint32 (sum_list (p0 :: p')) <> 0 -> nth i (p0 :: p') 0 <> 0).
Proof.
  intros Hdraw Hp0. unfold RandGroup. cbv zeta.
  rewrite sum_list_cons, <- (RandGroup_sums_last_wrapped p' p0 Hp0).
  set (rl := List.last (p0 :: RandGroup_sums p0 p') 0).
  assert (Hrl : 0 <= rl < 4294967296).
  { unfold rl. rewrite RandGroup_sums_last_wrapped by exact Hp0. apply uint32_range. }
  destruct (Z.eqb_spec rl 0) as [E0|N0].
  - exists 0%nat. cbn [length]. split; [reflexivity|]. split; [lia|].
    split; [reflexivity|contradiction].
  - unfold Int63n. destruct (Z.leb_spec rl 0) as [E|_]; [lia|]. cbn [obind].
    pose proof (Hdraw 0%nat rl ltac:(lia)) as Hd.
    rewrite uint32_small by lia.
    cbn [RandGroup_find].
    destruct (Z.ltb_spec (draw 0%nat rl) p0) as [Hlt|Hge].
    + exists 0%nat. cbn [length nth]. split; [reflexivity|]. split; [lia|].
      split; [reflexivity|lia].
    + destruct (RandGroup_find_wrapped p' p0 (draw 0%nat rl) (0 + 1) Hp0 ltac:(fold rl; lia))
        as (j & Ej & Hj & Hw).
      exists (S j). cbn [length nth]. split; [rewrite Ej; f_equal; lia|].
      split; [lia|]. split; [contradiction|intros _; exact Hw].
Qed.

(** Weights [2^32 - 1] and 2: the sum wraps to 1, the number drawn is 0. *)
Lemma RandGroup_returns_witness :
  exists i,
    RandGroup sample_draw (Some [4294967295; 2]) = Returns (Z.of_nat i) /\
    (i < 2)%nat /\
    (uint32 (sum_list [4294967295; 2]) = 0 -> i = 0%nat) /\
    (uint32 (sum_list [4294967295; 2]) <> 0 -> nth i [4294967295; 2] 0 <> 0).
Proof.
  apply (RandGroup_returns sample_draw 4294967295 [2]).
  - intros k n Hn. unfold sample_draw. apply Z.mod_pos_bound. exact Hn.
  - lia.
Defined.

(** ** RandInterval *)

(** [RandInterval] returns a number between its two arguments, in either
    order, both included; for equal arguments it draws nothing. *)
Theorem RandInterval_between (draw : nat -> Z -> Z) (b1 b2 : Z) :
  (forall k n, 0 < n -> 0 <= draw k n < n) ->
  -2147483648 <= b1 <= 2147483647 -> -2147483648 <= b2 <= 2147483647 ->
  exists r,
    RandInterval draw b1 b2 = Returns r /\
    Z.min b1 b2 <= r <= Z.max b1 b2 /\
    r = (if b1 =? b2 then b1
         else draw 0%nat (Z.max b1 b2 - Z.min b1 b2 + 1) + Z.min b1 b2).
Proof.
  intros Hdraw H1 H2. unfold RandInterval.
  destruct (Z.eqb_spec b1 b2) as [->|Hne].
  - exists b2. split; [reflexivity|]. lia.
  - cbv zeta. unfold Int63n.
    destruct (Z.gtb_spec b1 b2) as [Hgt|Hle].
    + rewrite Z.min_r, Z.max_l by lia.
      destruct (Z.leb_spec (b1 - b2 + 1) 0) as [E|_]; [lia|]. cbn [obind].
      pose proof (Hdraw 0%nat (b1 - b2 + 1) ltac:(lia)).
      rewrite int32_small by lia. eexists. split; [reflexivity|]. lia.
    + rewrite Z.min_l, Z.max_r by lia.
      destruct (Z.leb_spec (b2 - b1 + 1) 0) as [E|_]; [lia|]. cbn [obind].
      pose proof (Hdraw 0%nat (b2 - b1 + 1) ltac:(lia)).
      rewrite int32_small by lia. eexists. split; [reflexivity|]. lia.
Qed.

(** The whole range of [int32], given in descending order. *)
Lemma RandInterval_between_witness :
  exists r,
    RandInterval sample_draw 2147483647 (-2147483648) = Returns r /\
    Z.min 2147483647 (-2147483648) <= r <= Z.max 2147483647 (-2147483648) /\
    r = (if 2147483647 =? -2147483648 then 2147483647
         else sample_draw 0%nat (Z.max 2147483647 (-2147483648)
                                 - Z.min 2147483647 (-2147483648) + 1)
              + Z.min 2147483647 (-2147483648)).
Proof.
  apply (RandInterval_between sample_draw 2147483647 (-2147483648)).
  - intros k n Hn. unfold sample_draw. apply Z.mod_pos_bound. exact Hn.
  - lia.
  - lia.
Defined.

(** ** RandIntervalN *)

Lemma slot_insert (m : gmap Z Z) (v w x : Z) :
  RandIntervalN_slot (<[v := w]> m) x = if x =? v then w else RandIntervalN_slot m x.
Proof.
  unfold RandIntervalN_slot. destruct (Z.eqb_spec x v) as [->|Hne].
  - rewrite lookup_insert_eq. reflexivity.
  - rewrite lookup_insert_ne by congruence. reflexivity.
Qed.

(** The numbers that the map holds for the interval that is left are
    numbers of the whole interval, no two the same; the loop returns as many
    of them as it has rounds, no two the same. *)
Lemma RandIntervalN_loop_distinct (draw : nat -> Z -> Z) (min max : Z) :
  (forall k n, 0 < n -> 0 <= draw k n < n) ->
  -2147483648 <= min -> max <= 2147483647 ->
  forall cnt i l m,
    Z.of_nat cnt <= l -> min + l - 1 <= max ->
    (forall x, min <= x < min + l -> min <= RandIntervalN_slot m x <= max) ->
    (forall x y, min <= x < min + l -> min <= y < min + l ->
                 RandIntervalN_slot m x = RandIntervalN_slot m y -> x = y) ->
    exists r,
      RandIntervalN_loop draw cnt i l min m = Returns r /\
      length r = cnt /\ List.NoDup r /\
      forall y, In y r -> exists x, min <= x < min + l /\ y = RandIntervalN_slot m x.
Proof.
  intros Hdraw Hmin Hmax. induction cnt as [|cnt IH]; intros i l m Hcnt Hl Hin Hinj.
  - exists []. cbn [RandIntervalN_loop]. split; [reflexivity|]. split; [reflexivity|].
    split; [constructor|]. intros y [].
  - cbn [RandIntervalN_loop]. unfold Int63n.
    destruct (Z.leb_spec l 0) as [E|_]; [lia|]. cbn [obind].
    pose proof (Hdraw i l ltac:(lia)) as Hd.
    set (x0 := draw i l) in *.
    rewrite (int32_small (x0 + min)) by lia.
    rewrite (int32_small (l - 1 + min)) by lia.
    set (v := x0 + min). set (lv := l - 1 + min).
    set (m' := if v =? lv then m else <[v := RandIntervalN_slot m lv]> m).
    assert (Hslot : forall x, RandIntervalN_slot m' x
                              = if (x =? v) && negb (v =? lv)
                                then RandIntervalN_slot m lv
                                else RandIntervalN_slot m x).
    { intros x. unfold m'. destruct (Z.eqb_spec v lv) as [E|N].
      - rewrite andb_false_r. reflexivity.
      - rewrite slot_insert, andb_true_r. reflexivity. }
    destruct (IH (S i) (l - 1) m') as (rest & Erest & Hlen & Hnd & Hfrom).
    + lia.
    + lia.
    + intros x Hx. rewrite Hslot.
      destruct ((x =? v) && negb (v =? lv)); apply Hin; unfold lv; lia.
    + intros x y Hx Hy. rewrite !Hslot.
      destruct (Z.eqb_spec x v) as [Ex|Nx]; destruct (Z.eqb_spec y v) as [Ey|Ny];
        destruct (Z.eqb_spec v lv) as [Ev|Nv]; cbn [andb negb]; intros E;
        try congruence;
        try (apply Hinj in E; unfold lv in *; lia).
    + rewrite Erest. cbn [obind]. eexists. split; [reflexivity|].
      split; [cbn [length]; lia|]. split.
      * constructor; [|exact Hnd]. intros Hri.
        destruct (Hfrom _ Hri) as (x & Hx & Ex). rewrite Hslot in Ex.
        destruct (Z.eqb_spec x v) as [Exv|Nxv]; destruct (Z.eqb_spec v lv) as [Ev|Nv];
          cbn [andb negb] in Ex; apply Hinj in Ex; unfold v, lv in *; lia.
      * intros y [<-|Hy].
        -- exists v. split; [unfold v; lia|reflexivity].
        -- destruct (Hfrom _ Hy) as (x & Hx & Ex). rewrite Hslot in Ex.
           destruct ((x =? v) && negb (v =? lv)).
           ++ exists lv. split; [unfold lv; lia|exact Ex].
           ++ exists x. split; [lia|exact Ex].
Qed.

(** [RandIntervalN] returns numbers between its two arguments (in either
    order, both included), no number twice: [n] of them, or all the numbers
    of the interval when [n] is larger than their count.  For equal arguments
    it returns the one number, whatever [n] is. *)
Theorem RandIntervalN_distinct (draw : nat -> Z -> Z) (b1 b2 n : Z) :
  (forall k n, 0 < n -> 0 <= draw k n < n) ->
  -2147483648 <= b1 <= 2147483647 -> -2147483648 <= b2 <= 2147483647 ->
  0 <= n < 4294967296 ->
  exists r,
    RandIntervalN draw b1 b2 n = Returns r /\
    (b1 = b2 -> r = [b1]) /\
    (b1 <> b2 -> len r = Z.min n (Z.max b1 b2 - Z.min b1 b2 + 1)) /\
    List.NoDup r /\
    (forall y, In y r -> Z.min b1 b2 <= y <= Z.max b1 b2).
Proof.
  intros Hdraw H1 H2 Hn. unfold RandIntervalN.
  destruct (Z.eqb_spec b1 b2) as [->|Hne].
  - exists [b2]. split; [reflexivity|]. split; [reflexivity|]. split; [contradiction|].
    split; [repeat constructor; intros []|]. intros y [<-|[]]. lia.
  - cbv zeta.
    set (min := if b1 >? b2 then b2 else b1).
    set (max := if b1 >? b2 then b1 else b2).
    assert (Emin : min = Z.min b1 b2) by (unfold min; destruct (Z.gtb_spec b1 b2); lia).
    assert (Emax : max = Z.max b1 b2) by (unfold max; destruct (Z.gtb_spec b1 b2); lia).
    set (l := max - min + 1).
    set (n' := if n >? l then uint32 l else n).
    assert (En' : n' = Z.min n l).
    { unfold n'. destruct (Z.gtb_spec n l); [rewrite uint32_small|]; lia. }
    destruct (RandIntervalN_loop_distinct draw min max Hdraw ltac:(lia) ltac:(lia)
                (Z.to_nat n') 0%nat l ∅) as (r & Er & Hlen & Hnd & Hfrom).
    + lia.
    + unfold l. lia.
    + intros x Hx. unfold RandIntervalN_slot. rewrite lookup_empty. unfold l in Hx. lia.
    + intros x y _ _. unfold RandIntervalN_slot. rewrite !lookup_empty. auto.
    + exists r. split; [exact Er|]. split; [contradiction|].
      split; [intros _; unfold len; rewrite Hlen; unfold l in *; lia|].
      split; [exact Hnd|].
      intros y Hy. destruct (Hfrom y Hy) as (x & Hx & ->).
      unfold RandIntervalN_slot. rewrite lookup_empty. unfold l in Hx. lia.
Qed.

(** Five numbers asked from 3 down to 1: the three numbers, each once. *)
Lemma RandIntervalN_distinct_witness :
  exists r,
    RandIntervalN sample_draw 3 1 5 = Returns r /\
    (3 = 1 -> r = [3]) /\
    (3 <> 1 -> len r = Z.min 5 (Z.max 3 1 - Z.min 3 1 + 1)) /\
    List.NoDup r /\
    (forall y, In y r -> Z.min 3 1 <= y <= Z.max 3 1).
Proof.
  apply (RandIntervalN_distinct sample_draw 3 1 5).
  - intros k n Hn. unfold sample_draw. apply Z.mod_pos_bound. exact Hn.
  - lia.
  - lia.
  - lia.
Defined.

Example RandIntervalN_sample :
  RandIntervalN sample_draw 3 1 5 = Returns [1; 3; 2] /\
  RandIntervalN sample_draw 7 7 0 = Returns [7] /\
  RandIntervalN sample_draw 1 9 0 = Returns [].
Proof. vm_compute. repeat split; reflexivity. Qed.

(** ** Map *)

Section Map_facts.

Context {K : Type} `{Countable K}.



End Map_facts.
End util_facts.

(* ===================================================================== *)
(** * Connections at work: properties                                     *)
(* ===================================================================== *)

Module network_facts.

(** ** What [Read] makes of a header *)

Lemma header_decodes (p : MsgParser) (n : Z) :
  valid_width p -> 0 <= n <= header_max p ->
  (if lenMsgLen p =? 1 then Z_of_byte (nth 0 (length_header p n) x00)
   else if lenMsgLen p =? 2 then
     if littleEndian p then LittleEndian_Uint16 (length_header p n)
     else BigEndian_Uint16 (length_header p n)
   else if lenMsgLen p =? 4 then
     if littleEndian p then LittleEndian_Uint32 (length_header p n)
     else BigEndian_Uint32 (length_header p n)
   else 0) = n.
Proof.
  intros Hw Hn. unfold length_header, header_max in *.
  destruct Hw as [H|[H|H]]; rewrite H in *; simpl in Hn |- *.
  - rewrite Z_of_byte_of_Z. apply Z.mod_small. lia.
  - destruct (littleEndian p);
      unfold LittleEndian_Uint16, BigEndian_Uint16; simpl nth;
      apply decode_u16; lia.
  - destruct (littleEndian p);
      unfold LittleEndian_Uint32, BigEndian_Uint32; simpl nth;
      apply decode_u32; lia.
Qed.

Lemma valid_width_passes (p : MsgParser) :
  valid_width p -> (lenMsgLen p <? 0) || (4 <? lenMsgLen p) = false.
Proof. intros [H|[H|H]]; rewrite H; reflexivity. Qed.

(** [Read] on a stream that starts with the header of the length [n]. *)
Lemma Read_after_header (p : MsgParser) (c : TCPConn) (n : Z) (rest : list byte) :
  valid_width p -> 0 <= n <= header_max p ->
  net_closed (conn c) = false ->
  net_in (conn c) = length_header p n ++ rest ->
  let conn1 := {| net_in := rest; net_out := net_out (conn c);
                  net_linger0 := net_linger0 (conn c); net_closed := false |} in
  MsgParser_Read p c
  = if n >? maxMsgLen p then
      Returns (inr "message too long"%string, TCPConn_set_conn c conn1)
    else if n <? minMsgLen p then
      Returns (inr "message too short"%string, TCPConn_set_conn c conn1)
    else
      match io_ReadFull conn1 n with
      | (inr err, conn2) => Returns (inr err, TCPConn_set_conn c conn2)
      | (inl msgData, conn2) => Returns (inl msgData, TCPConn_set_conn c conn2)
      end.
Proof.
  intros Hw Hn Hc Hin. cbv zeta. unfold MsgParser_Read.
  rewrite (valid_width_passes p Hw).
  rewrite <- (length_header_len p n Hw) at 1.
  rewrite (io_ReadFull_prefix _ _ _ Hc Hin).
  rewrite (header_decodes p n Hw Hn). reflexivity.
Qed.



(** ** An agent on a stream of frames *)

Lemma agent_Run_frames {Msg : Type} (Unmarshal : list byte -> Msg + string)
    (Route : Msg -> error) (p : MsgParser) :
  valid_width p -> maxMsgLen p <= header_max p -> 0 < minMsgLen p ->
  forall (payloads : list (list byte)) (msgs : list Msg) (c : TCPConn) (routed : list Msg),
    msgParser c = p ->
    net_closed (conn c) = false ->
    net_in (conn c) = wire_stream p payloads ->
    Forall (fun payload => minMsgLen p <= len payload <= maxMsgLen p) payloads ->
    Forall2 (fun payload msg => Unmarshal payload = inl msg /\ Route msg = None)
            payloads msgs ->
    agent_Run TCPConn TCPConn_ReadMsg Msg Unmarshal Route true
              (S (length payloads)) c routed
    = Returns (Some (routed ++ msgs, "read message: EOF"%string,
                     TCPConn_set_conn c {| net_in := []; net_out := net_out (conn c);
                                           net_linger0 := net_linger0 (conn c);
                                           net_closed := false |})).
Proof.
  intros Hw Hmax Hmin payloads.
  induction payloads as [|payload payloads IH]; intros msgs c routed Hp Hc Hin Hb HU.
  - inversion HU; subst. cbn [length agent_Run].
    unfold TCPConn_ReadMsg, MsgParser_Read.
    rewrite (valid_width_passes _ Hw).
    unfold io_ReadFull.
    assert (Hpos : 0 < lenMsgLen (msgParser c)) by (destruct Hw as [E|[E|E]]; rewrite E; lia).
    destruct (Z.leb_spec (lenMsgLen (msgParser c)) 0); [lia|].
    rewrite Hc, Hin. cbn [wire_stream map concat].
    change (len (@nil byte)) with 0.
    destruct (Z.ltb_spec 0 (lenMsgLen (msgParser c))); [|lia].
    cbn [Z.eqb obind fst snd]. rewrite app_nil_r. reflexivity.
  - inversion HU as [|? msg ? msgs' [HUn HRo] HU']; subst.
    inversion Hb as [|? ? Hb1 Hb']; subst.
    cbn [length]. set (fuel' := S (length payloads)) in *. cbn [agent_Run].
    unfold TCPConn_ReadMsg at 1.
    unfold wire_stream in Hin. cbn [map concat] in Hin.
    rewrite (MsgParser_Read_frame (msgParser c) c payload
               (concat (map (wire_frame (msgParser c)) payloads)) Hw Hb1 ltac:(lia) Hc Hin).
    cbn [obind fst snd]. rewrite HUn, HRo.
    rewrite (IH msgs'
               (TCPConn_set_conn c
                  {| net_in := concat (map (wire_frame (msgParser c)) payloads);
                     net_out := net_out (conn c);
                     net_linger0 := net_linger0 (conn c); net_closed := false |})
               (routed ++ [msg]) eq_refl eq_refl eq_refl Hb' HU').
    cbn [TCPConn_set_conn conn net_out net_linger0]. rewrite <- app_assoc. reflexivity.
Qed.

(** An agent whose connection receives the frames of a list of payloads and
    then the end of the stream routes the decoded messages, all of them and
    in the order of the frames, and leaves its loop on the read that finds
    the end of the stream. *)
Theorem agent_Run_routes_stream {Msg : Type} (Unmarshal : list byte -> Msg + string)
    (Route : Msg -> error) (payloads : list (list byte)) (msgs : list Msg)
    (c : TCPConn) :
  valid_width (msgParser c) ->
  maxMsgLen (msgParser c) <= header_max (msgParser c) -> 0 < minMsgLen (msgParser c) ->
  net_closed (conn c) = false ->
  net_in (conn c) = wire_stream (msgParser c) payloads ->
  Forall (fun payload =>
            minMsgLen (msgParser c) <= len payload <= maxMsgLen (msgParser c)) payloads ->
  Forall2 (fun payload msg => Unmarshal payload = inl msg /\ Route msg = None)
          payloads msgs ->
  agent_Run TCPConn TCPConn_ReadMsg Msg Unmarshal Route true
            (S (length payloads)) c []
  = Returns (Some (msgs, "read message: EOF"%string,
                   TCPConn_set_conn c {| net_in := []; net_out := net_out (conn c);
                                         net_linger0 := net_linger0 (conn c);
                                         net_closed := false |})).
Proof.
  intros Hw Hmax Hmin Hc Hin Hb HU.
  apply (agent_Run_frames Unmarshal Route (msgParser c) Hw Hmax Hmin
           payloads msgs c [] eq_refl Hc Hin Hb HU).
Qed.

(** Two frames, decoded as they are and routed. *)
Lemma agent_Run_routes_stream_witness :
  agent_Run TCPConn TCPConn_ReadMsg (list byte) (fun b => inl b) (fun _ => None) true 3
    (TCPConn_set_conn (fresh_conn parser_S1)
       {| net_in := [x00; x03; x41; x42; x43; x00; x01; x44]; net_out := [];
          net_linger0 := false; net_closed := false |}) []
  = Returns (Some ([[x41; x42; x43]; [x44]], "read message: EOF"%string,
                   fresh_conn parser_S1)).
Proof.
  apply (agent_Run_routes_stream (fun b => inl b) (fun _ => None)
           [[x41; x42; x43]; [x44]] [[x41; x42; x43]; [x44]]
           (TCPConn_set_conn (fresh_conn parser_S1)
              {| net_in := [x00; x03; x41; x42; x43; x00; x01; x44]; net_out := [];
                 net_linger0 := false; net_closed := false |})).
  - right. left. reflexivity.
  - vm_compute. discriminate.
  - vm_compute. reflexivity.
  - reflexivity.
  - reflexivity.
  - repeat constructor; vm_compute; discriminate.
  - repeat constructor.
Defined.

(** ** Writes reach the transport in order *)

Lemma queued_app (q1 q2 : list (option (list byte))) :
  queued (q1 ++ q2) = queued q1 ++ queued q2.
Proof.
  induction q1 as [|[b|] q1 IH]; cbn [queued app]; [reflexivity| |exact IH].
  rewrite IH, app_assoc. reflexivity.
Qed.

Lemma queued_buffers (bufs : list (list byte)) : queued (map Some bufs) = concat bufs.
Proof.
  induction bufs as [|b bufs IH]; cbn [queued map concat]; [reflexivity|].
  rewrite IH. reflexivity.
Qed.

Lemma TCPConn_Write_closed (c : TCPConn) (b : option (list byte)) :
  closeFlag c = true -> TCPConn_Write c b = Returns c.
Proof. intros H. unfold TCPConn_Write. destruct b; [rewrite H|]; reflexivity. Qed.

Lemma TCPConn_writer_step_closed (c c' : TCPConn) (fail : bool) :
  closeFlag c = true -> TCPConn_writer_step c fail = Some c' -> closeFlag c' = true.
Proof.
  intros H. unfold TCPConn_writer_step.
  destruct (writerExited c); [discriminate|].
  destruct (ch_buf (writeChan c)) as [|[b|] rest].
  - destruct (ch_closed (writeChan c)); [|discriminate]. intros [= <-]. reflexivity.
  - destruct (net_Write (conn c) b) as [conn1 [err|]].
    + intros [= <-]. reflexivity.
    + destruct fail; intros [= <-]; [reflexivity|exact H].
  - intros [= <-]. reflexivity.
Qed.

Lemma TCPConn_run_closed (acts : list conn_action) :
  forall c c', closeFlag c = true -> TCPConn_run acts c = Some c' -> closeFlag c' = true.
Proof.
  induction acts as [|[b|] acts IH]; intros c c' H; cbn [TCPConn_run].
  - intros [= <-]. exact H.
  - rewrite (TCPConn_Write_closed c (Some b) H). apply IH. exact H.
  - destruct (TCPConn_writer_step c false) as [c1|] eqn:E.
    + apply IH. apply (TCPConn_writer_step_closed c c1 false H E).
    + apply IH. exact H.
Qed.

(** A write on a connection in service is queued, unless it closes the
    connection. *)
Lemma TCPConn_live_Write (c c' : TCPConn) (b : list byte) :
  TCPConn_live c -> TCPConn_Write c (Some b) = Returns c' ->
  closeFlag c' = true \/
  (TCPConn_live c' /\ conn c' = conn c /\
   ch_buf (writeChan c') = ch_buf (writeChan c) ++ [Some b]).
Proof.
  intros (Hcf & Hcc & Hwe & Hnc & Hlen & bufs & Hq).
  unfold TCPConn_Write. rewrite Hcf. unfold TCPConn_doWrite.
  destruct (Z.eqb_spec (len (ch_buf (writeChan c))) (ch_cap (writeChan c))) as [Efull|Nfull].
  - unfold TCPConn_doDestroy, close_chan. rewrite Hcf, Hcc. cbn [negb obind].
    intros [= <-]. left. reflexivity.
  - unfold chan_send. rewrite Hcc.
    destruct (Z.ltb_spec (len (ch_buf (writeChan c))) (ch_cap (writeChan c))); [|lia].
    intros [= <-]. right. cbn [conn writeChan closeFlag writerExited ch_buf ch_cap ch_closed].
    unfold TCPConn_live. cbn [conn writeChan closeFlag writerExited ch_buf ch_cap ch_closed].
    split; [|auto].
    split; [exact Hcf|]. split; [reflexivity|]. split; [exact Hwe|].
    split; [exact Hnc|]. split.
    + rewrite len_app. change (len [Some b]) with 1. lia.
    + exists (bufs ++ [b]). rewrite Hq, map_app. reflexivity.
Qed.

(** A turn of the writer of a connection in service moves the first buffer
    of the queue to the transport, whole; with an empty queue the writer is
    parked. *)
Lemma TCPConn_live_turn (c : TCPConn) :
  TCPConn_live c ->
  (ch_buf (writeChan c) = [] /\ TCPConn_writer_step c false = None) \/
  (exists b rest c',
     ch_buf (writeChan c) = Some b :: rest /\
     TCPConn_writer_step c false = Some c' /\ TCPConn_live c' /\
     net_out (conn c') = net_out (conn c) ++ b /\
     ch_buf (writeChan c') = rest).
Proof.
  intros (Hcf & Hcc & Hwe & Hnc & Hlen & bufs & Hq).
  unfold TCPConn_writer_step. rewrite Hwe, Hq.
  destruct bufs as [|b bufs]; cbn [map].
  - left. rewrite Hcc. auto.
  - right. exists b, (map Some bufs). unfold net_Write. rewrite Hnc.
    eexists. split; [reflexivity|]. split; [reflexivity|].
    unfold TCPConn_live.
    cbn [conn writeChan closeFlag writerExited ch_buf ch_cap ch_closed net_closed net_out].
    split; [|auto].
    split; [exact Hcf|]. split; [exact Hcc|]. split; [reflexivity|].
    split; [reflexivity|]. split.
    + rewrite Hq in Hlen. cbn [map] in Hlen. unfold len in *. cbn [length] in Hlen. lia.
    + exists bufs. reflexivity.
Qed.

Lemma TCPConn_run_in_order (acts : list conn_action) :
  forall c c',
    TCPConn_live c -> TCPConn_run acts c = Some c' -> closeFlag c' = false ->
    TCPConn_live c' /\
    net_out (conn c') ++ queued (ch_buf (writeChan c'))
    = net_out (conn c) ++ queued (ch_buf (writeChan c)) ++ written acts.
Proof.
  induction acts as [|[b|] acts IH]; intros c c' Hlive; cbn [TCPConn_run written].
  - intros [= <-] _. rewrite app_nil_r. auto.
  - destruct (TCPConn_Write c (Some b)) as [c1| |] eqn:E; try discriminate.
    intros Hrun Hopen.
    destruct (TCPConn_live_Write c c1 b Hlive E) as [Hclosed|(Hlive1 & Hconn & Hq)].
    + rewrite (TCPConn_run_closed acts c1 c' Hclosed Hrun) in Hopen. discriminate.
    + destruct (IH c1 c' Hlive1 Hrun Hopen) as [Hl' Heq]. split; [exact Hl'|].
      rewrite Heq, Hconn, Hq, queued_app. cbn [queued].
      rewrite app_nil_r, <- !app_assoc. reflexivity.
  - intros Hrun Hopen.
    destruct (TCPConn_live_turn c Hlive) as [[Hq Hstep]|(b & rest & c1 & Hq & Hstep & Hlive1 & Hout & Hq1)];
      rewrite Hstep in Hrun.
    + apply (IH c c' Hlive Hrun Hopen).
    + destruct (IH c1 c' Hlive1 Hrun Hopen) as [Hl' Heq]. split; [exact Hl'|].
      rewrite Heq, Hout, Hq1, Hq. cbn [queued]. rewrite <- !app_assoc. reflexivity.
Qed.

(** On a connection made by [newTCPConn] over an open transport, after any
    run of writes and turns of the writer task that leaves the connection
    open, the bytes written to the transport followed by the bytes still
    queued are the bytes of the writes, in the order of the writes: nothing
    is lost, doubled or reordered. *)
Theorem TCPConn_writes_in_order (conn0 : netConn) (pendingWriteNum : Z) (p : MsgParser)
    (acts : list conn_action) (c0 c : TCPConn) :
  newTCPConn conn0 pendingWriteNum p = Returns c0 ->
  net_closed conn0 = false ->
  TCPConn_run acts c0 = Some c ->
  closeFlag c = false ->
  net_out (conn c) ++ queued (ch_buf (writeChan c)) = net_out conn0 ++ written acts.
Proof.
  intros Hnew Hnc Hrun Hopen.
  unfold newTCPConn, make_chan in Hnew.
  destruct (Z.ltb_spec pendingWriteNum 0) as [|Hn]; [discriminate|].
  cbn [obind] in Hnew. injection Hnew as <-.
  assert (Hlive : TCPConn_live
                    {| conn := conn0; writeChan := mkChan [] pendingWriteNum false;
                       closeFlag := false; msgParser := p; writerExited := false |}).
  { unfold TCPConn_live. cbn [conn writeChan closeFlag writerExited ch_buf ch_cap ch_closed].
    split; [reflexivity|]. split; [reflexivity|]. split; [reflexivity|].
    split; [exact Hnc|]. split; [exact Hn|]. exists []. reflexivity. }
  destruct (TCPConn_run_in_order acts _ c Hlive Hrun Hopen) as [_ Heq].
  rewrite Heq. reflexivity.
Qed.

(** Two writes, one turn of the writer, a third write, on a queue of two. *)
Lemma TCPConn_writes_in_order_witness :
  net_out (conn {| conn := {| net_in := []; net_out := [x41]; net_linger0 := false;
                             net_closed := false |};
                   writeChan := mkChan [Some [x42; x43]; Some [x44]] 2 false;
                   closeFlag := false; msgParser := parser_S1; writerExited := false |})
  ++ queued [Some [x42; x43]; Some [x44]]
  = net_out idle_net ++ written [ActWrite [x41]; ActWrite [x42; x43]; ActTurn; ActWrite [x44]].
Proof.
  apply (TCPConn_writes_in_order idle_net 2 parser_S1
           [ActWrite [x41]; ActWrite [x42; x43]; ActTurn; ActWrite [x44]]
           (fresh_conn parser_S1)).
  - reflexivity.
  - reflexivity.
  - vm_compute. reflexivity.
  - reflexivity.
Defined.

(** ** Close and Destroy *)

Lemma TCPConn_turns_drain (bufs : list (list byte)) :
  forall (c : TCPConn) (tail : list (option (list byte))),
    closeFlag c = true ->
    writerExited c = false -> net_closed (conn c) = false ->
    ch_buf (writeChan c) = map Some bufs ++ None :: tail ->
    TCPConn_turns (S (length bufs)) c
    = {| conn := net_Close {| net_in := net_in (conn c);
                              net_out := net_out (conn c) ++ concat bufs;
                              net_linger0 := net_linger0 (conn c);
                              net_closed := false |};
         writeChan := mkChan tail (ch_cap (writeChan c)) (ch_closed (writeChan c));
         closeFlag := true; msgParser := msgParser c; writerExited := true |}.
Proof.
  induction bufs as [|b bufs IH]; intros c tail Hcf Hwe Hnc Hq.
  - cbn [length TCPConn_turns]. unfold TCPConn_writer_step at 1.
    rewrite Hwe, Hq. cbn [map app].
    cbn [TCPConn_turns]. unfold TCPConn_writer_step. cbn [TCPConn_writer_exit writerExited].
    cbn [concat]. rewrite app_nil_r.
    unfold TCPConn_writer_exit. f_equal.
  - cbn [length]. set (n := S (length bufs)) in *. cbn [TCPConn_turns].
    unfold TCPConn_writer_step at 1. rewrite Hwe, Hq. cbn [map app].
    unfold net_Write. rewrite Hnc.
    rewrite IH with (tail := tail); cbn [conn writeChan closeFlag writerExited ch_buf
                                         ch_cap ch_closed net_closed net_in net_out
                                         net_linger0 msgParser];
      try reflexivity; try assumption.
    cbn [concat]. rewrite <- app_assoc. reflexivity.
Qed.

(** [Close] is graceful while the queue has room: the buffers queued before
    it are written, in order, and then the writer task closes the transport
    without dropping what the peer has yet to receive (linger is left as it
    was).  When the queue is full, [Close] destroys the connection instead,
    and the buffers in the queue are never written. *)
Theorem TCPConn_Close_graceful (c : TCPConn) (bufs : list (list byte)) :
  TCPConn_live c -> ch_buf (writeChan c) = map Some bufs ->
  (len bufs < ch_cap (writeChan c) ->
   exists c1,
     TCPConn_Close c = Returns c1 /\
     closeFlag c1 = true /\
     ch_buf (writeChan c1) = map Some bufs ++ [None] /\
     TCPConn_turns (S (length bufs)) c1
     = {| conn := {| net_in := net_in (conn c);
                     net_out := net_out (conn c) ++ concat bufs;
                     net_linger0 := net_linger0 (conn c);
                     net_closed := true |};
          writeChan := mkChan [] (ch_cap (writeChan c)) false;
          closeFlag := true; msgParser := msgParser c; writerExited := true |}) /\
  (len bufs = ch_cap (writeChan c) ->
   TCPConn_Close c = Returns (TCPConn_destroyed c) /\
   forall n, net_out (conn (TCPConn_turns n (TCPConn_destroyed c))) = net_out (conn c)).
Proof.
  intros (Hcf & Hcc & Hwe & Hnc & Hlen & _) Hq.
  assert (Hlenq : len (ch_buf (writeChan c)) = len bufs).
  { rewrite Hq. unfold len. rewrite length_map. reflexivity. }
  split.
  - intros Hroom. unfold TCPConn_Close. rewrite Hcf. unfold TCPConn_doWrite.
    destruct (Z.eqb_spec (len (ch_buf (writeChan c))) (ch_cap (writeChan c))); [lia|].
    unfold chan_send. rewrite Hcc.
    destruct (Z.ltb_spec (len (ch_buf (writeChan c))) (ch_cap (writeChan c))); [|lia].
    cbn [obind conn writeChan closeFlag writerExited msgParser].
    eexists. split; [reflexivity|].
    cbn [conn writeChan closeFlag writerExited msgParser ch_buf].
    split; [reflexivity|]. split; [rewrite Hq; reflexivity|].
    rewrite (TCPConn_turns_drain bufs _ []);
      cbn [conn writeChan closeFlag writerExited msgParser ch_buf ch_cap ch_closed];
      try reflexivity; try assumption.
    rewrite Hq. reflexivity.
  - intros Hfull. split.
    + unfold TCPConn_Close. rewrite Hcf.
      unfold TCPConn_doWrite.
      destruct (Z.eqb_spec (len (ch_buf (writeChan c))) (ch_cap (writeChan c))); [|lia].
      unfold TCPConn_doDestroy, close_chan. rewrite Hcf, Hcc. cbn [negb obind].
      reflexivity.
    + intros n. unfold TCPConn_destroyed.
      destruct n as [|n]; [reflexivity|]. cbn [TCPConn_turns].
      unfold TCPConn_writer_step at 1.
      cbn [conn writeChan closeFlag writerExited msgParser ch_buf ch_cap ch_closed].
      rewrite Hwe, Hq.
      destruct bufs as [|b bufs]; cbn [map].
      * destruct n as [|n]; reflexivity.
      * unfold net_Write. cbn [net_closed net_Close net_SetLinger0].
        destruct n as [|n]; reflexivity.
Qed.

(** A connection with one buffer queued and room for another. *)
Lemma TCPConn_Close_graceful_witness :
  exists c1,
    TCPConn_Close one_slot_conn_two = Returns c1 /\
    closeFlag c1 = true /\
    ch_buf (writeChan c1) = [Some [x41]; None] /\
    net_out (conn (TCPConn_turns 2 c1)) = [x41] /\
    net_closed (conn (TCPConn_turns 2 c1)) = true.
Proof.
  destruct (TCPConn_Close_graceful one_slot_conn_two [[x41]]) as [Hroom _].
  - unfold TCPConn_live, one_slot_conn_two.
    cbn [conn writeChan closeFlag writerExited ch_buf ch_cap ch_closed net_closed idle_net].
    repeat split; try reflexivity.
    + vm_compute. discriminate.
    + exists [[x41]]. reflexivity.
  - reflexivity.
  - destruct (Hroom ltac:(vm_compute; reflexivity)) as (c1 & E1 & Hcf & Hq & Hturns).
    exists c1. change (TCPConn_turns 2 c1) with (TCPConn_turns (S (length [[x41]])) c1).
    rewrite Hturns. auto.
Defined.

(** No call of a producer waits or panics: on a connection made by
    [newTCPConn], in every state the producers and the writer task can reach,
    [Write], [Close] and [Destroy] return.  (A full queue makes [Write] and
    [Close] destroy the connection rather than wait for room.) *)
Theorem TCPConn_calls_return (conn0 : netConn) (pendingWriteNum : Z) (p : MsgParser)
    (c0 c : TCPConn) :
  newTCPConn conn0 pendingWriteNum p = Returns c0 ->
  TCPConn_reaches c0 c ->
  (forall b, exists c', TCPConn_Write c b = Returns c') /\
  (exists c', TCPConn_Close c = Returns c') /\
  (exists c', TCPConn_Destroy c = Returns c').
Proof.
  intros Hnew Hreach.
  pose proof (TCPConn_reaches_inv _ c0 c (newTCPConn_inv _ _ _ _ Hnew) Hreach)
    as (Hcap & Hlen & Hopen).
  assert (Hd : exists c', TCPConn_doDestroy c = Returns c').
  { unfold TCPConn_doDestroy, close_chan.
    destruct (closeFlag c) eqn:Hcf; cbn [negb]; [eexists; reflexivity|].
    rewrite (Hopen eq_refl). cbn [obind]. eexists; reflexivity. }
  assert (Hw : closeFlag c = false -> forall b, exists c', TCPConn_doWrite c b = Returns c').
  { intros Hcf b. unfold TCPConn_doWrite.
    destruct (Z.eqb_spec (len (ch_buf (writeChan c))) (ch_cap (writeChan c))) as [|Hne];
      [exact Hd|].
    unfold chan_send. rewrite (Hopen Hcf).
    destruct (Z.ltb_spec (len (ch_buf (writeChan c))) (ch_cap (writeChan c))); [|lia].
    eexists; reflexivity. }
  split; [|split].
  - intros [b|]; cbn [TCPConn_Write]; [|eexists; reflexivity].
    destruct (closeFlag c) eqn:Hcf; [eexists; reflexivity|]. apply Hw; reflexivity.
  - unfold TCPConn_Close. destruct (closeFlag c) eqn:Hcf; [eexists; reflexivity|].
    destruct (Hw eq_refl None) as (c' & ->). cbn [obind]. eexists; reflexivity.
  - exact Hd.
Qed.

Lemma TCPConn_calls_return_witness :
  (forall b, exists c', TCPConn_Write one_slot_conn_full b = Returns c') /\
  (exists c', TCPConn_Close one_slot_conn_full = Returns c') /\
  (exists c', TCPConn_Destroy one_slot_conn_full = Returns c').
Proof.
  apply (TCPConn_calls_return idle_net 1 NewMsgParser one_slot_conn one_slot_conn_full).
  - reflexivity.
  - eapply TCP_reach_step; [apply TCP_reach_refl|].
    apply (TCP_step_Write one_slot_conn (Some [x41])). reflexivity.
Defined.

(** ** The WebSocket connection *)

Lemma WSConn_merge_copy (args : list (list byte)) :
  forall (msg : list byte) (l : Z), WSConn_merge msg l args = Write_copy msg l args.
Proof.
  induction args as [|a args IH]; intros msg l; cbn [WSConn_merge Write_copy].
  - reflexivity.
  - destruct ((l <? 0) || (len msg <? l)); [reflexivity | apply IH].
Qed.

Lemma WSConn_merge_concat (args : list (list byte)) (pre rest : list byte) :
  len rest = len (concat args) ->
  WSConn_merge (pre ++ rest) (len pre) args = Returns (pre ++ concat args).
Proof.
  intros Hlen. rewrite WSConn_merge_copy. apply Write_copy_concat, Hlen.
Qed.

(** [WSConn.WriteMsg] sends its parts as one message: on an open connection
    whose queue has room, parts whose total length is between 1 and
    [maxMsgLen] are queued as a single buffer, their concatenation, and the
    writer task then hands that buffer to the transport as one WebSocket
    message. *)
Theorem WSConn_WriteMsg_one_message (c : WSConn) (args : list (list byte)) :
  ws_closeFlag c = false -> ws_writerExited c = false ->
  ch_closed (ws_writeChan c) = false -> wsn_closed (ws_conn c) = false ->
  ch_buf (ws_writeChan c) = [] -> 0 < ch_cap (ws_writeChan c) ->
  1 <= len (concat args) <= ws_maxMsgLen c -> len (concat args) < 4294967296 ->
  exists c1 c2,
    WSConn_WriteMsg c args = Returns (None, c1) /\
    ch_buf (ws_writeChan c1) = [Some (concat args)] /\
    WSConn_writer_step c1 false = Some c2 /\
    wsn_out (ws_conn c2) = wsn_out (ws_conn c) ++ [concat args] /\
    ch_buf (ws_writeChan c2) = [] /\ ws_closeFlag c2 = false.
Proof.
  intros Hcf Hwe Hcc Hnc Hq Hcap Hlen Hlt.
  assert (Hdw : forall b, WSConn_doWrite c (Some b)
                          = Returns {| ws_conn := ws_conn c;
                                       ws_writeChan := mkChan [Some b] (ch_cap (ws_writeChan c)) false;
                                       ws_maxMsgLen := ws_maxMsgLen c;
                                       ws_closeFlag := false;
                                       ws_writerExited := false |}).
  { intros b. unfold WSConn_doWrite, chan_send. rewrite Hq, Hcc, Hcf, Hwe.
    change (len []) with 0.
    destruct (Z.eqb_spec 0 (ch_cap (ws_writeChan c))); [lia|].
    destruct (Z.ltb_spec 0 (ch_cap (ws_writeChan c))); [|lia]. reflexivity. }
  assert (Hmsg : exists c1, WSConn_WriteMsg c args = Returns (None, c1) /\
                            c1 = {| ws_conn := ws_conn c;
                                    ws_writeChan := mkChan [Some (concat args)]
                                                           (ch_cap (ws_writeChan c)) false;
                                    ws_maxMsgLen := ws_maxMsgLen c;
                                    ws_closeFlag := false;
                                    ws_writerExited := false |}).
  { eexists. split; [|reflexivity].
    unfold WSConn_WriteMsg. rewrite Hcf, (Write_msgLen_exact args Hlt).
    destruct (Z.gtb_spec (len (concat args)) (ws_maxMsgLen c)); [lia|].
    destruct (Z.ltb_spec (len (concat args)) 1); [lia|].
    assert (Hmerge : WSConn_merge (repeat x00 (Z.to_nat (len (concat args)))) 0 args
                     = Returns (concat args)).
    { apply (WSConn_merge_concat args [] (repeat x00 (Z.to_nat (len (concat args))))).
      unfold len at 1. rewrite repeat_length. lia. }
    destruct args as [|a [|a' args]].
    - rewrite Hmerge. cbn [obind]. rewrite Hdw. reflexivity.
    - cbn [concat]. rewrite app_nil_r. rewrite Hdw. reflexivity.
    - rewrite Hmerge. cbn [obind]. rewrite Hdw. reflexivity. }
  destruct Hmsg as (c1 & E1 & ->).
  eexists. eexists. split; [exact E1|]. split; [reflexivity|].
  unfold WSConn_writer_step, wsn_WriteMessage.
  cbn [ws_conn ws_writeChan ws_closeFlag ws_writerExited ws_maxMsgLen ch_buf ch_cap ch_closed].
  rewrite Hnc. split; [reflexivity|].
  cbn [ws_conn ws_writeChan ws_closeFlag ws_writerExited ws_maxMsgLen ch_buf ch_cap
       ch_closed wsn_out].
  auto.
Qed.

Lemma WSConn_WriteMsg_one_message_witness :
  exists c1 c2,
    WSConn_WriteMsg one_slot_ws [[x41]; [x42; x41]] = Returns (None, c1) /\
    ch_buf (ws_writeChan c1) = [Some [x41; x42; x41]] /\
    WSConn_writer_step c1 false = Some c2 /\
    wsn_out (ws_conn c2) = [[x41; x42; x41]] /\
    ch_buf (ws_writeChan c2) = [] /\ ws_closeFlag c2 = false.
Proof.
  apply (WSConn_WriteMsg_one_message one_slot_ws [[x41]; [x42; x41]]);
    try reflexivity; vm_compute; try reflexivity; split; discriminate.
Defined.

End network_facts.

(* ===================================================================== *)
(** * chanrpc: calls and their replies                                    *)
(* ===================================================================== *)

Module chanrpc_facts.

Lemma heap_eq (h h' : heap) :
  h_chans h' = h_chans h -> h_servers h' = h_servers h ->
  h_log h' = h_log h -> h_calls h' = h_calls h -> h' = h.
Proof.
  destruct h, h'; cbn. intros -> -> -> ->. reflexivity.
Qed.

Lemma chan_send_room {A : Type} (ch : chan A) (x : A) :
  ch_closed ch = false -> len (ch_buf ch) < ch_cap ch ->
  chan_send ch x = Sent (mkChan (ch_buf ch ++ [x]) (ch_cap ch) false).
Proof.
  intros Ho Hr. unfold chan_send. rewrite Ho.
  destruct (Z.ltb_spec (len (ch_buf ch)) (ch_cap ch)); [reflexivity | lia].
Qed.

Lemma chan_send_closed {A : Type} (ch : chan A) (x : A) :
  ch_closed ch = true -> chan_send ch x = SendPanics.
Proof.
  intros Hc. unfold chan_send. rewrite Hc. reflexivity.
Qed.

Section chanrpc_calls_properties.

Variable run_func : string -> list value -> outcome value.
Variable run_cb : string -> value -> error -> option string.
Variable LenStackBuf : Z.
Variable runtime_Stack : string.

(** What the server loop does with a call of the second shape that it finds
    alone in its queue and whose reply channel has room. *)
Lemma Run_call_reply (h : heap) (k r : nat) (fs : gmap string value) (cap : Z)
    (name : string) (args : list value) (cb : value) (ch : chan RetInfo) :
  h_servers h !! k
  = Some {| functions := fs;
            ChanCall := mkChan [ {| ci_f := VFunc Shape1 name; ci_args := args;
                                    ci_chanRet := Some r; ci_cb := cb |} ] cap false |} ->
  h_chans h !! r = Some ch -> ch_closed ch = false -> len (ch_buf ch) < ch_cap ch ->
  let served := heap_set_server h k {| functions := fs; ChanCall := mkChan [] cap false |} in
  Skeleton_Run_call run_func LenStackBuf runtime_Stack h k
  = match run_func name args with
    | Returns v =>
        Returns (heap_set_chan served r
                   (mkChan (ch_buf ch ++ [ {| ri_ret := v; ri_err := None; ri_cb := cb |} ])
                           (ch_cap ch) false))
    | Panics p =>
        Returns (log_Error
                   (heap_set_chan served r
                      (mkChan (ch_buf ch ++ [ {| ri_ret := VNil; ri_err := Some p;
                                                 ri_cb := cb |} ])
                              (ch_cap ch) false))
                   (panic_message LenStackBuf runtime_Stack p))
    | Blocks => Blocks
    end.
Proof.
  intros Hsv Hch Ho Hr served. unfold Skeleton_Run_call. rewrite Hsv.
  cbn [chan_recv ChanCall ch_buf functions ch_cap ch_closed].
  unfold Server_Exec, Server_exec. cbn [ci_f ci_args].
  destruct (run_func name args) as [v|p|].
  - unfold Server_ret. cbn [ci_chanRet ci_cb ri_ret ri_err heap_set_server h_chans].
    rewrite Hch, (chan_send_room ch _ Ho Hr). reflexivity.
  - unfold Server_exec_recover, Server_ret.
    cbn [ci_chanRet ci_cb ri_ret ri_err heap_set_server h_chans].
    rewrite Hch, (chan_send_room ch _ Ho Hr). reflexivity.
  - reflexivity.
Qed.

(** A synchronous call comes back with what the function did.  A client
    attached to a server whose queue is empty and has room calls a function
    registered with the second shape, and the server loop takes the call
    while the client waits: [Call1] returns the value the function returns,
    without an error, and leaves the queues as they were; when the function
    panics, [Call1] returns the panic value as an error (the server logs it
    with the stack) and the caller does not panic. *)
Theorem Call1_round_trip (h : heap) (c : Client) (k : nat) (sv : Server)
    (id name : string) (args : list value) :
  s c = Some k -> h_servers h !! k = Some sv ->
  functions sv !! id = Some (VFunc Shape1 name) ->
  ch_buf (ChanCall sv) = [] -> ch_closed (ChanCall sv) = false ->
  0 < ch_cap (ChanCall sv) ->
  h_chans h !! chanSyncRet c = Some (mkChan [] 1 false) ->
  let Call1 := Client_Call1
                 (fun h' => Skeleton_Run_call run_func LenStackBuf runtime_Stack h' k)
                 h c id args in
  (forall v, run_func name args = Returns v -> Call1 = Returns (v, None, h)) /\
  (forall p, run_func name args = Panics p ->
             Call1 = Returns (VNil, Some p,
                              log_Error h (panic_message LenStackBuf runtime_Stack p))).
Proof.
  intros Hs Hsv Hf Hq Ho Hcap Hsync Call1.
  destruct sv as [fs [buf cap closed]]. cbn in Hf, Hq, Ho, Hcap. subst buf closed.
  set (ci := {| ci_f := VFunc Shape1 name; ci_args := args;
                ci_chanRet := Some (chanSyncRet c); ci_cb := VNil |}).
  set (h1 := heap_set_server h k {| functions := fs; ChanCall := mkChan [ci] cap false |}).
  assert (Hsent : Client_sync
                    (fun h' => Skeleton_Run_call run_func LenStackBuf runtime_Stack h' k)
                    h c id args 1
                  = (do! h2 <- Skeleton_Run_call run_func LenStackBuf runtime_Stack h1 k;
                     do! r <- Client_recv_sync h2 c;
                     Returns (inl (fst r), snd r))).
  { unfold Client_sync, Client_f. rewrite Hs, Hsv. cbn [functions]. rewrite Hf.
    change (shape_of_n 1) with (Some Shape1).
    cbn [shape_eqb obind snd fst].
    unfold Client_call. rewrite Hs, Hsv.
    rewrite chan_send_room by (cbn; unfold len; cbn; lia).
    cbn [obind fst snd ChanCall ch_buf ch_cap functions app]. reflexivity. }
  assert (Hsv1 : h_servers h1 !! k
                 = Some {| functions := fs; ChanCall := mkChan [ci] cap false |}).
  { unfold h1. cbn [heap_set_server h_servers]. apply lookup_insert_eq. }
  assert (Hrun := Run_call_reply h1 k (chanSyncRet c) fs cap name args VNil
                    (mkChan [] 1 false) Hsv1 Hsync eq_refl ltac:(unfold len; cbn; lia)).
  cbn zeta in Hrun. cbn [ch_buf ch_cap app] in Hrun.
  assert (Hback : forall ri,
             heap_set_chan
               (heap_set_chan
                  (heap_set_server h1 k {| functions := fs; ChanCall := mkChan [] cap false |})
                  (chanSyncRet c) (mkChan [ri] 1 false))
               (chanSyncRet c) (mkChan [] 1 false) = h).
  { intros ri. apply heap_eq; cbn [heap_set_chan heap_set_server h_chans h_servers
                                   h_log h_calls h1]; try reflexivity.
    - rewrite insert_insert_eq. apply insert_id, Hsync.
    - rewrite insert_insert_eq. apply insert_id, Hsv. }
  split.
  - intros v Hv. unfold Call1, Client_Call1. rewrite Hsent, Hrun, Hv.
    cbn [obind]. unfold Client_recv_sync.
    cbn [heap_set_chan h_chans]. rewrite lookup_insert_eq.
    cbn [chan_recv ch_buf ch_cap ch_closed obind fst snd ri_ret ri_err].
    rewrite Hback. reflexivity.
  - intros p Hp. unfold Call1, Client_Call1. rewrite Hsent, Hrun, Hp.
    cbn [obind]. unfold Client_recv_sync.
    cbn [log_Error heap_set_chan h_chans]. rewrite lookup_insert_eq.
    cbn [chan_recv ch_buf ch_cap ch_closed obind fst snd ri_ret ri_err].
    f_equal. f_equal.
    apply heap_eq; cbn [heap_set_chan heap_set_server log_Error h_chans h_servers
                        h_log h_calls h1]; try reflexivity.
    + rewrite insert_insert_eq. apply insert_id, Hsync.
    + rewrite insert_insert_eq. apply insert_id, Hsv.
Qed.

Lemma Client_minus_one (c : Client) :
  {| s := s c; chanSyncRet := chanSyncRet c; ChanAsynRet := ChanAsynRet c;
     pendingAsynCall := pendingAsynCall c + 1 - 1 |} = c.
Proof.
  destruct c as [sv ks ka p]. cbn. f_equal. lia.
Qed.

(** An asynchronous call comes back through the callback.  A client with a
    free slot on its empty reply queue calls a function registered with the
    second shape on a server whose queue is empty and has room: [AsynCall]
    counts the call; once the server loop has taken the call and the client
    loop the result, the callback has been invoked once with the value the
    function returned and no error, the counter is back where it was, and the
    queues are as before. *)
Theorem AsynCall_round_trip (h : heap) (c : Client) (k : nat) (sv : Server)
    (id name cb : string) (args : list value) (ch : chan RetInfo) (v : value) :
  s c = Some k -> h_servers h !! k = Some sv ->
  functions sv !! id = Some (VFunc Shape1 name) ->
  ch_buf (ChanCall sv) = [] -> ch_closed (ChanCall sv) = false ->
  0 < ch_cap (ChanCall sv) ->
  h_chans h !! ChanAsynRet c = Some ch -> ch_buf ch = [] -> ch_closed ch = false ->
  0 <= pendingAsynCall c < ch_cap ch ->
  run_func name args = Returns v ->
  exists c1 h1 h2,
    Client_AsynCall run_cb LenStackBuf runtime_Stack h c id
                    (args ++ [VCallback Shape1 cb]) = Returns (c1, h1) /\
    pendingAsynCall c1 = pendingAsynCall c + 1 /\
    Skeleton_Run_call run_func LenStackBuf runtime_Stack h1 k = Returns h2 /\
    Skeleton_Run_ret run_cb LenStackBuf runtime_Stack h2 c1
    = Returns (c,
               let h3 := record_call h {| cbc_name := cb; cbc_ret := v; cbc_err := None |} in
               match run_cb cb v None with
               | None => h3
               | Some r => log_Error h3 (panic_message LenStackBuf runtime_Stack r)
               end).
Proof.
  intros Hs Hsv Hf Hq Ho Hcap Hch Hbuf Hopen Hpend Hv.
  destruct sv as [fs [buf cap closed]]. cbn in Hf, Hq, Ho, Hcap. subst buf closed.
  destruct ch as [rbuf rcap rclosed]. cbn in Hbuf, Hopen, Hpend. subst rbuf rclosed.
  set (ci := {| ci_f := VFunc Shape1 name; ci_args := args;
                ci_chanRet := Some (ChanAsynRet c); ci_cb := VCallback Shape1 cb |}).
  set (h1 := heap_set_server h k {| functions := fs; ChanCall := mkChan [ci] cap false |}).
  set (c1 := {| s := s c; chanSyncRet := chanSyncRet c; ChanAsynRet := ChanAsynRet c;
                pendingAsynCall := pendingAsynCall c + 1 |}).
  assert (Hcall : Client_AsynCall run_cb LenStackBuf runtime_Stack h c id
                                  (args ++ [VCallback Shape1 cb]) = Returns (c1, h1)).
  { unfold Client_AsynCall. rewrite rev_app_distr. cbn [rev app]. rewrite rev_involutive.
    unfold cap_AsynRet. rewrite Hch. cbn [ch_cap].
    destruct (Z.geb_spec (pendingAsynCall c) rcap) as [|_]; [lia|].
    unfold Client_asynCall, Client_f. rewrite Hs, Hsv. cbn [functions]. rewrite Hf.
    change (shape_of_n 1) with (Some Shape1).
    cbn [shape_eqb obind snd fst].
    unfold Client_call. rewrite Hs, Hsv.
    rewrite chan_send_room by (cbn; unfold len; cbn; lia).
    cbn [obind fst snd ChanCall ch_buf ch_cap functions app].
    unfold c1. rewrite Hs. reflexivity. }
  assert (Hsv1 : h_servers h1 !! k
                 = Some {| functions := fs; ChanCall := mkChan [ci] cap false |}).
  { unfold h1. cbn [heap_set_server h_servers]. apply lookup_insert_eq. }
  assert (Hrun := Run_call_reply h1 k (ChanAsynRet c) fs cap name args (VCallback Shape1 cb)
                    (mkChan [] rcap false) Hsv1 Hch eq_refl
                    ltac:(unfold len; cbn; lia)).
  cbn zeta in Hrun. cbn [ch_buf ch_cap app] in Hrun. rewrite Hv in Hrun.
  exists c1. exists h1. eexists. split; [exact Hcall|]. split; [reflexivity|].
  split; [exact Hrun|].
  unfold Skeleton_Run_ret. cbn [c1 ChanAsynRet heap_set_chan h_chans].
  rewrite lookup_insert_eq. cbn [chan_recv ch_buf ch_cap ch_closed].
  unfold Client_Cb, execCb. cbn [ri_cb ri_ret ri_err obind].
  assert (Hback : heap_set_chan
                    (heap_set_chan
                       (heap_set_server h1 k {| functions := fs;
                                                ChanCall := mkChan [] cap false |})
                       (ChanAsynRet c)
                       (mkChan [ {| ri_ret := v; ri_err := None;
                                    ri_cb := VCallback Shape1 cb |} ] rcap false))
                    (ChanAsynRet c) (mkChan [] rcap false) = h).
  { apply heap_eq; cbn [heap_set_chan heap_set_server h_chans h_servers
                        h_log h_calls h1]; try reflexivity.
    - rewrite insert_insert_eq. apply insert_id, Hch.
    - rewrite insert_insert_eq. apply insert_id, Hsv. }
  unfold c1. cbn [pendingAsynCall s chanSyncRet ChanAsynRet]. rewrite Hback.
  destruct (run_cb cb v None); cbn [obind]; rewrite Client_minus_one; reflexivity.
Qed.

Lemma send_AsynRet_room (h : heap) (c : Client) (ch : chan RetInfo) (ri : RetInfo) :
  h_chans h !! ChanAsynRet c = Some ch -> ch_closed ch = false ->
  len (ch_buf ch) < ch_cap ch ->
  send_AsynRet h c ri
  = Returns (heap_set_chan h (ChanAsynRet c)
                           (mkChan (ch_buf ch ++ [ri]) (ch_cap ch) false)).
Proof.
  intros Hch Ho Hr. unfold send_AsynRet. rewrite Hch, (chan_send_room ch ri Ho Hr).
  reflexivity.
Qed.

(** [AsynCall] never waits and never loses a call.  On a client whose reply
    queue is open and holds no more results than calls are pending, with the
    counter below the capacity, [AsynCall] returns and counts the call; the
    callback is not invoked yet, and exactly one thing has been queued for
    it: either the call, at the end of the queue of the attached server, or,
    when the call could not be sent (no server attached, unknown function,
    wrong shape, queue full or closed), a result with the error, at the end
    of the client's reply queue. *)
Theorem AsynCall_never_waits (h : heap) (c : Client) (id : string)
    (args : list value) (sh : shape) (cb : string) (ch : chan RetInfo) :
  h_chans h !! ChanAsynRet c = Some ch -> ch_closed ch = false ->
  len (ch_buf ch) <= pendingAsynCall c < ch_cap ch ->
  (forall k, s c = Some k -> is_Some (h_servers h !! k)) ->
  exists h1,
    Client_AsynCall run_cb LenStackBuf runtime_Stack h c id (args ++ [VCallback sh cb])
    = Returns ({| s := s c; chanSyncRet := chanSyncRet c; ChanAsynRet := ChanAsynRet c;
                  pendingAsynCall := pendingAsynCall c + 1 |}, h1) /\
    h_log h1 = h_log h /\ h_calls h1 = h_calls h /\
    ((exists k sv f,
         s c = Some k /\ h_servers h !! k = Some sv /\ functions sv !! id = Some f /\
         h_chans h1 = h_chans h /\
         h_servers h1
         = <[k := {| functions := functions sv;
                     ChanCall := mkChan (ch_buf (ChanCall sv)
                                         ++ [ {| ci_f := f; ci_args := args;
                                                 ci_chanRet := Some (ChanAsynRet c);
                                                 ci_cb := VCallback sh cb |} ])
                                        (ch_cap (ChanCall sv)) false |}]> (h_servers h)) \/
     (exists err,
         h_servers h1 = h_servers h /\
         h_chans h1
         = <[ChanAsynRet c := mkChan (ch_buf ch ++ [ {| ri_ret := VNil; ri_err := Some err;
                                                        ri_cb := VCallback sh cb |} ])
                                     (ch_cap ch) false]> (h_chans h))).
Proof.
  intros Hch Ho Hpend Hsrv.
  assert (Hroom : len (ch_buf ch) < ch_cap ch) by lia.
  assert (Herr : forall err,
             exists h1,
               send_AsynRet h c {| ri_ret := VNil; ri_err := Some err;
                                   ri_cb := VCallback sh cb |} = Returns h1 /\
               h_log h1 = h_log h /\ h_calls h1 = h_calls h /\
               h_servers h1 = h_servers h /\
               h_chans h1
               = <[ChanAsynRet c := mkChan (ch_buf ch ++ [ {| ri_ret := VNil;
                                                              ri_err := Some err;
                                                              ri_cb := VCallback sh cb |} ])
                                           (ch_cap ch) false]> (h_chans h)).
  { intros err. eexists. split; [apply (send_AsynRet_room h c ch _ Hch Ho Hroom)|].
    cbn [heap_set_chan h_log h_calls h_servers h_chans]. auto. }
  unfold Client_AsynCall. rewrite rev_app_distr. cbn [rev app]. rewrite rev_involutive.
  unfold cap_AsynRet. rewrite Hch.
  destruct (Z.geb_spec (pendingAsynCall c) (ch_cap ch)) as [|_]; [lia|].
  unfold Client_asynCall, Client_f.
  destruct (s c) as [k|] eqn:Hs.
  2:{ cbn [obind snd fst].
      destruct (Herr "server not attached"%string) as (h1 & E & Hl & Hc & Hsv & Hcs).
      rewrite E. cbn [obind]. exists h1. split; [reflexivity|].
      split; [exact Hl|]. split; [exact Hc|]. right. eexists. split; eassumption. }
  destruct (Hsrv k eq_refl) as [sv Hsv]. rewrite Hsv.
  assert (Hn : shape_of_n match sh with Shape0 => 0 | Shape1 => 1 | ShapeN => 2 end
               = Some sh) by (destruct sh; reflexivity).
  destruct (functions sv !! id) as [f|] eqn:Hf.
  2:{ cbn [obind snd fst].
      destruct (Herr ("function id " ++ id ++ ": function not registered")%string)
        as (h1 & E & Hl & Hc & Hs1 & Hcs).
      rewrite E. cbn [obind]. exists h1. split; [reflexivity|].
      split; [exact Hl|]. split; [exact Hc|]. right. eexists. split; eassumption. }
  assert (Hrest :
            forall ok : bool,
            exists h1,
              (do! h1 <-
                 (do! fe <- (if ok then Returns (f, None)
                             else Returns (f, Some ("function id " ++ id
                                                    ++ ": return type mismatch")%string));
                  match snd fe with
                  | Some err => send_AsynRet h c {| ri_ret := VNil; ri_err := Some err;
                                                    ri_cb := VCallback sh cb |}
                  | None =>
                      do! res <- Client_call h c
                                   {| ci_f := fst fe; ci_args := args;
                                      ci_chanRet := Some (ChanAsynRet c);
                                      ci_cb := VCallback sh cb |} false;
                      match fst res with
                      | Some err => send_AsynRet (snd res) c
                                      {| ri_ret := VNil; ri_err := Some err;
                                         ri_cb := VCallback sh cb |}
                      | None => Returns (snd res)
                      end
                  end);
               Returns ({| s := Some k; chanSyncRet := chanSyncRet c;
                           ChanAsynRet := ChanAsynRet c;
                           pendingAsynCall := pendingAsynCall c + 1 |}, h1))
              = Returns ({| s := Some k; chanSyncRet := chanSyncRet c;
                            ChanAsynRet := ChanAsynRet c;
                            pendingAsynCall := pendingAsynCall c + 1 |}, h1) /\
              h_log h1 = h_log h /\ h_calls h1 = h_calls h /\
              ((exists k0 sv0 f0,
                   Some k = Some k0 /\ h_servers h !! k0 = Some sv0 /\
                   functions sv0 !! id = Some f0 /\
                   h_chans h1 = h_chans h /\
                   h_servers h1
                   = <[k0 := {| functions := functions sv0;
                                ChanCall := mkChan (ch_buf (ChanCall sv0)
                                                    ++ [ {| ci_f := f0; ci_args := args;
                                                            ci_chanRet := Some (ChanAsynRet c);
                                                            ci_cb := VCallback sh cb |} ])
                                                   (ch_cap (ChanCall sv0)) false |}]>
                       (h_servers h)) \/
               (exists err,
                   h_servers h1 = h_servers h /\
                   h_chans h1
                   = <[ChanAsynRet c := mkChan (ch_buf ch
                                                ++ [ {| ri_ret := VNil; ri_err := Some err;
                                                        ri_cb := VCallback sh cb |} ])
                                               (ch_cap ch) false]> (h_chans h)))).
  { intros [|]; cbn [obind snd fst].
    - unfold Client_call. rewrite Hs, Hsv. unfold chan_send.
      destruct (ch_closed (ChanCall sv)) eqn:Hclosed.
      + cbn [obind snd fst].
        destruct (Herr "send on closed channel"%string) as (h1 & E & Hl & Hc & Hs1 & Hcs).
        rewrite E. cbn [obind]. exists h1. split; [reflexivity|].
        split; [exact Hl|]. split; [exact Hc|]. right. eexists. split; eassumption.
      + destruct (len (ch_buf (ChanCall sv)) <? ch_cap (ChanCall sv)).
        * cbn [obind snd fst]. eexists. split; [reflexivity|].
          cbn [heap_set_server h_log h_calls h_chans h_servers].
          split; [reflexivity|]. split; [reflexivity|]. left.
          exists k, sv, f. auto.
        * cbn [obind snd fst].
          destruct (Herr "chanrpc channel full"%string) as (h1 & E & Hl & Hc & Hs1 & Hcs).
          rewrite E. cbn [obind]. exists h1. split; [reflexivity|].
          split; [exact Hl|]. split; [exact Hc|]. right. eexists. split; eassumption.
    - destruct (Herr ("function id " ++ id ++ ": return type mismatch")%string)
        as (h1 & E & Hl & Hc & Hs1 & Hcs).
      rewrite E. cbn [obind]. exists h1. split; [reflexivity|].
      split; [exact Hl|]. split; [exact Hc|]. right. eexists. split; eassumption. }
  rewrite Hn.
  destruct f as [ | n | str | l | sh' name | sh' name ];
    try exact (Hrest false).
  - cbn [obind snd fst].
    destruct (Herr ("function id " ++ id ++ ": function not registered")%string)
      as (h1 & E & Hl & Hc & Hs1 & Hcs).
    rewrite E. cbn [obind]. exists h1. split; [reflexivity|].
    split; [exact Hl|]. split; [exact Hc|]. right. eexists. split; eassumption.
  - exact (Hrest (shape_eqb sh sh')).
Qed.

Lemma Server_Close_loop_replies (r : nat) (cis : list CallInfo) :
  forall (h : heap) (ch : chan RetInfo),
    h_chans h !! r = Some ch -> ch_closed ch = false ->
    Forall (fun ci => ci_chanRet ci = Some r \/ ci_chanRet ci = None) cis ->
    len (ch_buf ch) + len cis <= ch_cap ch ->
    exists h',
      Server_Close_loop h cis = Returns h' /\
      h_servers h' = h_servers h /\ h_log h' = h_log h /\ h_calls h' = h_calls h /\
      h_chans h' !! r
      = Some (mkChan (ch_buf ch ++ closed_replies cis) (ch_cap ch) false).
Proof.
  induction cis as [|ci cis IH]; intros h ch Hch Ho Hall Hroom.
  - exists h. cbn [Server_Close_loop closed_replies flat_map]. rewrite app_nil_r.
    repeat split. rewrite Hch. destruct ch as [b n cl]. cbn in Ho. subst cl. reflexivity.
  - inversion Hall as [|? ? Hci Hrest]; subst.
    assert (Hlen : len (ci :: cis) = 1 + len cis) by (unfold len; cbn [length]; lia).
    pose proof (len_nonneg cis) as Hnn.
    cbn [Server_Close_loop closed_replies flat_map]. unfold Server_ret.
    destruct Hci as [Hci|Hci]; rewrite Hci.
    + rewrite Hch, (chan_send_room ch _ Ho) by lia. cbn [obind snd ri_ret ri_err].
      destruct (IH (heap_set_chan h r
                      (mkChan (ch_buf ch ++ [closed_reply ci]) (ch_cap ch) false))
                   (mkChan (ch_buf ch ++ [closed_reply ci]) (ch_cap ch) false))
        as (h' & E & Hs & Hl & Hc & Hr).
      * cbn [heap_set_chan h_chans]. apply lookup_insert_eq.
      * reflexivity.
      * exact Hrest.
      * cbn [ch_buf ch_cap]. rewrite len_app. unfold len at 2. cbn [length]. lia.
      * exists h'. split; [exact E|]. cbn [heap_set_chan h_servers h_log h_calls] in *.
        repeat (split; [assumption|]).
        rewrite Hr. cbn [ch_buf ch_cap]. rewrite <- app_assoc. reflexivity.
    + cbn [obind snd]. cbn [app].
      destruct (IH h ch Hch Ho Hrest ltac:(lia)) as (h' & E & Hs & Hl & Hc & Hr).
      exists h'. auto.
Qed.

(** [Server.Close] answers what is waiting and refuses what comes later.
    The calls found in the queue are taken out, oldest first, and each one
    that has a reply slot gets the error "chanrpc server closed" (with its
    callback) on its reply channel; calls sent by [Go] have no slot and are
    dropped.  Afterwards a client's call fails with "send on closed channel"
    whether it would wait or not, [Go] does nothing, and a second [Close]
    panics.  (The pending calls reply to one open channel [r] with room for
    them.) *)
Theorem Server_Close_replies (h : heap) (k r : nat) (sv : Server) (ch : chan RetInfo) :
  h_servers h !! k = Some sv -> ch_closed (ChanCall sv) = false ->
  h_chans h !! r = Some ch -> ch_closed ch = false ->
  Forall (fun ci => ci_chanRet ci = Some r \/ ci_chanRet ci = None)
         (ch_buf (ChanCall sv)) ->
  len (ch_buf ch) + len (ch_buf (ChanCall sv)) <= ch_cap ch ->
  exists h',
    Server_Close h k = Returns h' /\
    h_servers h' !! k
    = Some {| functions := functions sv;
              ChanCall := mkChan [] (ch_cap (ChanCall sv)) true |} /\
    h_chans h' !! r
    = Some (mkChan (ch_buf ch ++ closed_replies (ch_buf (ChanCall sv)))
                   (ch_cap ch) false) /\
    h_log h' = h_log h /\ h_calls h' = h_calls h /\
    (forall c ci block,
        s c = Some k ->
        Client_call h' c ci block = Returns (Some "send on closed channel"%string, h')) /\
    (forall id args, Server_Go h' k id args = Returns h') /\
    Server_Close h' k = Panics "close of closed channel".
Proof.
  intros Hsv Ho Hch Hro Hall Hroom.
  set (sv' := {| functions := functions sv;
                 ChanCall := mkChan [] (ch_cap (ChanCall sv)) true |}).
  destruct (Server_Close_loop_replies r (ch_buf (ChanCall sv))
              (heap_set_server h k sv') ch Hch Hro Hall Hroom)
    as (h' & E & Hs & Hl & Hc & Hr).
  cbn [heap_set_server h_servers h_log h_calls] in Hs, Hl, Hc.
  assert (Hsv' : h_servers h' !! k = Some sv').
  { rewrite Hs. apply lookup_insert_eq. }
  exists h'. split.
  { unfold Server_Close, close_chan. rewrite Hsv, Ho. cbn [obind ch_buf ch_cap]. exact E. }
  split; [exact Hsv'|]. split; [exact Hr|]. split; [exact Hl|]. split; [exact Hc|].
  split; [|split].
  - intros c ci block Hc0. unfold Client_call. rewrite Hc0, Hsv'.
    rewrite chan_send_closed by reflexivity. reflexivity.
  - intros id args. unfold Server_Go. rewrite Hsv'.
    destruct (functions sv' !! id) as [[]|]; try reflexivity;
      rewrite chan_send_closed by reflexivity; reflexivity.
  - unfold Server_Close, close_chan. rewrite Hsv'. reflexivity.
Qed.

Lemma execCb_invocation (h : heap) (ri : RetInfo) (call : cb_call) :
  invocation ri = Some call ->
  exists h',
    execCb run_cb LenStackBuf runtime_Stack h ri = Returns h' /\
    h_calls h' = h_calls h ++ [call] /\
    h_chans h' = h_chans h /\ h_servers h' = h_servers h.
Proof.
  unfold invocation, execCb. intros Hinv.
  destruct (ri_cb ri) as [ | | | | | [ | | ] name ]; try discriminate.
  - injection Hinv as <-.
    destruct (run_cb name VNil (ri_err ri)); eexists; (split; [reflexivity|]);
      cbn [log_Error record_call h_calls h_chans h_servers]; auto.
  - injection Hinv as <-.
    destruct (run_cb name (ri_ret ri) (ri_err ri)); eexists; (split; [reflexivity|]);
      cbn [log_Error record_call h_calls h_chans h_servers]; auto.
  - destruct (ri_ret ri) as [ | | | l | | ] eqn:Hret; try discriminate;
      injection Hinv as <-; cbn [assert_slice];
      match goal with
      | |- context [run_cb ?n ?v ?e] => destruct (run_cb n v e)
      end; eexists; (split; [reflexivity|]);
      cbn [log_Error record_call h_calls h_chans h_servers]; auto.
Qed.

Lemma Client_Close_loop_drains (ris : list RetInfo) :
  forall (calls : list cb_call) (m : nat) (h : heap) (c : Client) (cap : Z) (closed : bool),
    h_chans h !! ChanAsynRet c = Some (mkChan ris cap closed) ->
    Forall2 (fun ri call => invocation ri = Some call) ris calls ->
    pendingAsynCall c = len ris + Z.of_nat m ->
    exists h',
      Client_Close_loop run_cb LenStackBuf runtime_Stack (length ris + m) h c
      = Client_Close_loop run_cb LenStackBuf runtime_Stack m h'
          {| s := s c; chanSyncRet := chanSyncRet c; ChanAsynRet := ChanAsynRet c;
             pendingAsynCall := Z.of_nat m |} /\
      h_calls h' = h_calls h ++ calls /\
      h_servers h' = h_servers h /\
      h_chans h' !! ChanAsynRet c = Some (mkChan [] cap closed).
Proof.
  induction ris as [|ri ris IH]; intros calls m h c cap closed Hch Hall Hp.
  - inversion Hall; subst. exists h. rewrite app_nil_r. cbn [length Nat.add].
    change (len []) with 0 in Hp. cbn in Hp.
    split; [|auto]. f_equal. destruct c as [a b d p]. cbn in *. subst p. reflexivity.
  - inversion Hall as [|? call ? calls' Hinv Hrest]; subst.
    assert (Hlen : len (ri :: ris) = 1 + len ris) by (unfold len; cbn [length]; lia).
    pose proof (len_nonneg ris) as Hnn.
    cbn [length Nat.add Client_Close_loop].
    destruct (Z.gtb_spec (pendingAsynCall c) 0) as [_|]; [|lia].
    unfold Skeleton_Run_ret. rewrite Hch. cbn [chan_recv ch_buf ch_cap ch_closed].
    unfold Client_Cb.
    destruct (execCb_invocation (heap_set_chan h (ChanAsynRet c) (mkChan ris cap closed))
                ri call Hinv) as (h1 & E1 & Hc1 & Hch1 & Hs1).
    rewrite E1. cbn [obind fst snd].
    cbn [heap_set_chan h_calls h_chans h_servers] in Hc1, Hch1, Hs1.
    destruct (IH calls' m h1
                {| s := s c; chanSyncRet := chanSyncRet c; ChanAsynRet := ChanAsynRet c;
                   pendingAsynCall := pendingAsynCall c - 1 |} cap closed)
      as (h' & E & Hc & Hs & Hr).
    + cbn [ChanAsynRet]. rewrite Hch1. apply lookup_insert_eq.
    + exact Hrest.
    + cbn [pendingAsynCall]. lia.
    + cbn [s chanSyncRet ChanAsynRet] in E, Hr.
      exists h'. split; [exact E|]. split; [|split].
      * rewrite Hc, Hc1, <- app_assoc. reflexivity.
      * rewrite Hs, Hs1. reflexivity.
      * exact Hr.
Qed.

(** [Client.Close] runs the callbacks of all pending calls.  When the
    results of all pending calls are in the reply queue, [Close] takes them
    out and invokes their callbacks, once each and in the order of the
    results, and leaves the client idle with an empty queue.  While a result
    is still to come, [Close] waits for it. *)
Theorem Client_Close_drains (h : heap) (c : Client) (ch : chan RetInfo)
    (calls : list cb_call) :
  h_chans h !! ChanAsynRet c = Some ch ->
  Forall2 (fun ri call => invocation ri = Some call) (ch_buf ch) calls ->
  (len (ch_buf ch) = pendingAsynCall c ->
   exists c' h',
     Client_Close run_cb LenStackBuf runtime_Stack h c = Returns (c', h') /\
     Client_Idle c' = true /\
     h_calls h' = h_calls h ++ calls /\
     h_servers h' = h_servers h /\
     h_chans h' !! ChanAsynRet c = Some (mkChan [] (ch_cap ch) (ch_closed ch))) /\
  (len (ch_buf ch) < pendingAsynCall c -> ch_closed ch = false ->
   Client_Close run_cb LenStackBuf runtime_Stack h c = Blocks).
Proof.
  intros Hch Hall. destruct ch as [ris cap closed]. cbn [ch_buf ch_cap ch_closed] in *.
  pose proof (len_nonneg ris) as Hnn.
  split.
  - intros Hp.
    destruct (Client_Close_loop_drains ris calls 0 h c cap closed Hch Hall ltac:(cbn; lia))
      as (h' & E & Hc & Hs & Hr).
    unfold Client_Close. rewrite <- Hp. unfold len. rewrite Nat2Z.id.
    rewrite Nat.add_0_r in E. rewrite E. cbn [Client_Close_loop].
    eexists. exists h'. split; [reflexivity|]. auto.
  - intros Hp ->.
    set (m := Z.to_nat (pendingAsynCall c - len ris)).
    destruct (Client_Close_loop_drains ris calls m h c cap false Hch Hall ltac:(lia))
      as (h' & E & Hc & Hs & Hr).
    unfold Client_Close.
    replace (Z.to_nat (pendingAsynCall c)) with (length ris + m)%nat
      by (unfold len in *; lia).
    rewrite E. destruct m as [|m'] eqn:Hm; [lia|].
    cbn [Client_Close_loop pendingAsynCall].
    destruct (Z.gtb_spec (Z.of_nat (S m')) 0) as [_|]; [|lia].
    unfold Skeleton_Run_ret. cbn [ChanAsynRet]. rewrite Hr. reflexivity.
Qed.

End chanrpc_calls_properties.

(** The echo server: a call of "echo" comes back with its argument, a call
    of "boom" with the panic value as the error. *)
Lemma Call1_round_trip_witness :
  Client_Call1 (fun h' => Skeleton_Run_call sample_run_func 4096 sample_stack h' 0%nat)
               echo_heap echo_client "echo" [VInt 7]
  = Returns (VInt 7, None, echo_heap) /\
  Client_Call1 (fun h' => Skeleton_Run_call sample_run_func 4096 sample_stack h' 0%nat)
               echo_heap echo_client "boom" []
  = Returns (VNil, Some "boom"%string,
             log_Error echo_heap "boom: goroutine 1 [running]:").
Proof.
  split.
  - apply (Call1_round_trip sample_run_func 4096 sample_stack echo_heap echo_client 0%nat
             {| functions := {[ "echo"%string := VFunc Shape1 "echo";
                                "boom"%string := VFunc Shape1 "boom" ]};
                ChanCall := mkChan [] 1 false |} "echo" "echo" [VInt 7]);
      try reflexivity; vm_compute; reflexivity.
  - apply (Call1_round_trip sample_run_func 4096 sample_stack echo_heap echo_client 0%nat
             {| functions := {[ "echo"%string := VFunc Shape1 "echo";
                                "boom"%string := VFunc Shape1 "boom" ]};
                ChanCall := mkChan [] 1 false |} "boom" "boom" []);
      try reflexivity; vm_compute; reflexivity.
Defined.

Lemma AsynCall_round_trip_witness :
  exists c1 h1 h2,
    Client_AsynCall sample_run_cb 4096 sample_stack echo_heap echo_client "echo"
                    ([VInt 7] ++ [VCallback Shape1 "got"]) = Returns (c1, h1) /\
    pendingAsynCall c1 = pendingAsynCall echo_client + 1 /\
    Skeleton_Run_call sample_run_func 4096 sample_stack h1 0%nat = Returns h2 /\
    Skeleton_Run_ret sample_run_cb 4096 sample_stack h2 c1
    = Returns (echo_client,
               let h3 := record_call echo_heap {| cbc_name := "got"; cbc_ret := VInt 7;
                                                  cbc_err := None |} in
               match sample_run_cb "got" (VInt 7) None with
               | None => h3
               | Some r => log_Error h3 (panic_message 4096 sample_stack r)
               end).
Proof.
  apply (AsynCall_round_trip sample_run_func sample_run_cb 4096 sample_stack
           echo_heap echo_client 0%nat
           {| functions := {[ "echo"%string := VFunc Shape1 "echo";
                              "boom"%string := VFunc Shape1 "boom" ]};
              ChanCall := mkChan [] 1 false |} "echo" "echo" "got" [VInt 7]
           (mkChan [] 2 false) (VInt 7));
    try reflexivity; try (cbn; lia); vm_compute; reflexivity.
Defined.

(** A call of a function the server does not have: the error is queued for
    the callback. *)
Lemma AsynCall_never_waits_witness :
  exists h1,
    Client_AsynCall sample_run_cb 4096 sample_stack echo_heap echo_client "nope"
                    ([VInt 7] ++ [VCallback Shape1 "got"])
    = Returns ({| s := Some 0%nat; chanSyncRet := 1%nat; ChanAsynRet := 0%nat;
                  pendingAsynCall := 1 |}, h1) /\
    h_calls h1 = [] /\
    h_chans h1 !! 0%nat
    = Some (mkChan [ {| ri_ret := VNil;
                        ri_err := Some "function id nope: function not registered"%string;
                        ri_cb := VCallback Shape1 "got" |} ] 2 false).
Proof.
  destruct (AsynCall_never_waits sample_run_cb 4096 sample_stack echo_heap echo_client
              "nope" [VInt 7] Shape1 "got" (mkChan [] 2 false))
    as (h1 & E & _ & Hcalls & _).
  - reflexivity.
  - reflexivity.
  - unfold len; cbn; lia.
  - intros k Hk. injection Hk as <-. eexists. reflexivity.
  - exists h1. split; [exact E|]. split; [exact Hcalls|].
    vm_compute in E. injection E as <-. reflexivity.
Defined.

(** Two calls are waiting, one sent by [Go] and one by [AsynCall]: only the
    second is answered. *)
Lemma Server_Close_replies_witness :
  exists h',
    Server_Close waiting_heap 0%nat = Returns h' /\
    h_chans h' !! 0%nat
    = Some (mkChan [ {| ri_ret := VNil; ri_err := Some "chanrpc server closed"%string;
                        ri_cb := VCallback Shape1 "got" |} ] 2 false) /\
    Client_call h' waiting_client
                {| ci_f := VFunc Shape1 "echo"; ci_args := []; ci_chanRet := Some 0%nat;
                   ci_cb := VNil |} true
    = Returns (Some "send on closed channel"%string, h') /\
    Server_Go h' 0%nat "echo" [] = Returns h' /\
    Server_Close h' 0%nat = Panics "close of closed channel".
Proof.
  destruct (Server_Close_replies waiting_heap 0%nat 0%nat
              {| functions := {[ "echo"%string := VFunc Shape1 "echo" ]};
                 ChanCall :=
                   mkChan [ {| ci_f := VFunc Shape1 "echo"; ci_args := [VInt 1];
                               ci_chanRet := None; ci_cb := VNil |};
                            {| ci_f := VFunc Shape1 "echo"; ci_args := [VInt 2];
                               ci_chanRet := Some 0%nat;
                               ci_cb := VCallback Shape1 "got" |} ] 2 false |}
              (mkChan [] 2 false))
    as (h' & E & _ & Hr & _ & _ & Hcall & Hgo & Hclose).
  - reflexivity.
  - reflexivity.
  - reflexivity.
  - reflexivity.
  - cbn [ChanCall ch_buf]. repeat constructor; (left; reflexivity) || (right; reflexivity).
  - unfold len; cbn; lia.
  - exists h'. split; [exact E|]. split; [exact Hr|].
    split; [apply Hcall; reflexivity|]. split; [apply Hgo | exact Hclose].
Defined.

Lemma Client_Close_drains_witness :
  exists c' h',
    Client_Close sample_run_cb 4096 sample_stack answered_heap answered_client
    = Returns (c', h') /\
    Client_Idle c' = true /\
    h_calls h'
    = [ {| cbc_name := "first"; cbc_ret := VInt 1; cbc_err := None |};
        {| cbc_name := "second"; cbc_ret := VNil;
           cbc_err := Some "chanrpc server closed"%string |} ].
Proof.
  destruct (Client_Close_drains sample_run_cb 4096 sample_stack answered_heap
              answered_client
              (mkChan [ {| ri_ret := VInt 1; ri_err := None;
                           ri_cb := VCallback Shape1 "first" |};
                        {| ri_ret := VNil; ri_err := Some "chanrpc server closed"%string;
                           ri_cb := VCallback Shape0 "second" |} ] 2 false)
              [ {| cbc_name := "first"; cbc_ret := VInt 1; cbc_err := None |};
                {| cbc_name := "second"; cbc_ret := VNil;
                   cbc_err := Some "chanrpc server closed"%string |} ])
    as [Hall _].
  - reflexivity.
  - cbn [ch_buf]. repeat constructor.
  - destruct (Hall ltac:(vm_compute; reflexivity)) as (c' & h' & E & Hidle & Hcalls & _).
    exists c', h'. auto.
Defined.

End chanrpc_facts.

(* ===================================================================== *)
(** * network: the TCP server                                             *)
(* ===================================================================== *)

Module server_facts.

Lemma TCPConn_inv_Write_returns (n : Z) (c : TCPConn) (b : option (list byte)) :
  TCPConn_inv n c -> exists c', TCPConn_Write c b = Returns c'.
Proof.
  intros (Hcap & Hlen & Hopen). destruct b as [b|]; cbn [TCPConn_Write];
    [|eexists; reflexivity].
  destruct (closeFlag c) eqn:Hcf; [eexists; reflexivity|].
  unfold TCPConn_doWrite.
  destruct (Z.eqb_spec (len (ch_buf (writeChan c))) (ch_cap (writeChan c))) as [|Hne].
  - unfold TCPConn_doDestroy, close_chan. rewrite Hcf, (Hopen eq_refl). cbn [negb obind].
    eexists; reflexivity.
  - unfold chan_send. rewrite (Hopen eq_refl).
    destruct (Z.ltb_spec (len (ch_buf (writeChan c))) (ch_cap (writeChan c))); [|lia].
    eexists; reflexivity.
Qed.

Lemma TCPConn_inv_Close_returns (n : Z) (c : TCPConn) :
  TCPConn_inv n c -> exists c', TCPConn_Close c = Returns c'.
Proof.
  intros (Hcap & Hlen & Hopen). unfold TCPConn_Close.
  destruct (closeFlag c) eqn:Hcf; [eexists; reflexivity|].
  unfold TCPConn_doWrite.
  destruct (Z.eqb_spec (len (ch_buf (writeChan c))) (ch_cap (writeChan c))) as [|Hne].
  - unfold TCPConn_doDestroy, close_chan. rewrite Hcf, (Hopen eq_refl). cbn [negb obind].
    eexists; reflexivity.
  - unfold chan_send. rewrite (Hopen eq_refl).
    destruct (Z.ltb_spec (len (ch_buf (writeChan c))) (ch_cap (writeChan c))); [|lia].
    cbn [obind]. eexists; reflexivity.
Qed.

Lemma TCPServer_init_inv (maxConnNum pendingWriteNum l mn mx : Z) (le : bool) :
  TCPServer_inv (TCPServer_init maxConnNum pendingWriteNum l mn mx le).
Proof.
  unfold TCPServer_inv, TCPServer_init.
  cbn [MaxConnNum PendingWriteNum srv_conns srv_wgConns srv_tcp srv_accepted].
  rewrite size_empty, dom_empty_L.
  split; [destruct (Z.leb_spec maxConnNum 0); lia|].
  split; [destruct (Z.leb_spec pendingWriteNum 0); lia|].
  split; [destruct (Z.leb_spec maxConnNum 0); lia|].
  split; [reflexivity|]. split; [reflexivity|]. split.
  - intros conn Hin. destruct (not_elem_of_empty conn Hin).
  - intros conn c Hc. rewrite lookup_empty in Hc. discriminate.
Qed.

Lemma TCPServer_act_inv (sv : TCPServer) (x : srv_action) :
  TCPServer_inv sv ->
  exists sv', TCPServer_act sv x = Returns sv' /\ TCPServer_inv sv' /\
              MaxConnNum sv' = MaxConnNum sv /\ PendingWriteNum sv' = PendingWriteNum sv.
Proof.
  intros Hinv. pose proof Hinv as (Hmax & Hpend & Hsize & Hwg & Hdom & Hfresh & Htcp).
  destruct x as [a|conn a|conn]; cbn [TCPServer_act].
  - destruct (srv_returned sv); [exists sv; auto|].
    destruct a as [nc|err|err]; cbn [TCPServer_run_turn].
    + destruct (Z.geb_spec (Z.of_nat (size (srv_conns sv))) (MaxConnNum sv)) as [Hfull|Hroom].
      * eexists. split; [reflexivity|]. split; [|split; reflexivity].
        unfold TCPServer_inv.
        cbn [MaxConnNum PendingWriteNum srv_conns srv_wgConns srv_tcp srv_accepted].
        repeat (split; [assumption|]). split; [|assumption].
        intros conn Hin. specialize (Hfresh conn Hin). lia.
      * unfold newTCPConn, make_chan.
        destruct (Z.ltb_spec (PendingWriteNum sv) 0); [lia|]. cbn [obind].
        eexists. split; [reflexivity|]. split; [|split; reflexivity].
        assert (Hnew : srv_accepted sv ∉ srv_conns sv).
        { intros Hin. specialize (Hfresh _ Hin). lia. }
        unfold TCPServer_inv.
        cbn [MaxConnNum PendingWriteNum srv_conns srv_wgConns srv_tcp srv_accepted].
        rewrite size_union by (apply disjoint_singleton_l, Hnew). rewrite size_singleton.
        split; [assumption|]. split; [assumption|]. split; [lia|]. split; [lia|].
        split; [rewrite dom_insert_L, Hdom; reflexivity|]. split.
        -- intros conn Hin. apply elem_of_union in Hin as [Hin|Hin].
           ++ apply elem_of_singleton in Hin. lia.
           ++ specialize (Hfresh conn Hin). lia.
        -- intros conn c Hc. destruct (decide (conn = srv_accepted sv)) as [->|Hne].
           ++ rewrite lookup_insert_eq in Hc. injection Hc as <-.
              unfold TCPConn_inv, len.
              cbn [writeChan ch_cap ch_buf ch_closed closeFlag length]. auto with zarith.
           ++ rewrite lookup_insert_ne in Hc by congruence. eapply Htcp, Hc.
    + eexists. split; [reflexivity|]. split; [|split; reflexivity].
      unfold TCPServer_inv.
      cbn [MaxConnNum PendingWriteNum srv_conns srv_wgConns srv_tcp srv_accepted].
      exact Hinv.
    + eexists. split; [reflexivity|]. split; [|split; reflexivity].
      unfold TCPServer_inv.
      cbn [MaxConnNum PendingWriteNum srv_conns srv_wgConns srv_tcp srv_accepted].
      exact Hinv.
  - unfold TCPServer_conn_act.
    destruct (srv_tcp sv !! conn) as [c|] eqn:Hc; [|exists sv; auto].
    assert (Hset : forall c', TCPConn_inv (PendingWriteNum sv) c' ->
                              TCPServer_inv (srv_set_tcp sv conn c')).
    { intros c' Hc'. unfold TCPServer_inv, srv_set_tcp.
      cbn [MaxConnNum PendingWriteNum srv_conns srv_wgConns srv_tcp srv_accepted].
      repeat (split; [assumption|]). split; [|split; [assumption|]].
      - rewrite dom_insert_L, Hdom.
        apply subseteq_union_1_L, singleton_subseteq_l.
        rewrite <- Hdom. apply elem_of_dom. eauto.
      - intros conn' c0 Hc0. destruct (decide (conn' = conn)) as [->|Hne].
        + rewrite lookup_insert_eq in Hc0. injection Hc0 as <-. exact Hc'.
        + rewrite lookup_insert_ne in Hc0 by congruence. eapply Htcp, Hc0. }
    destruct a as [b|].
    + destruct (TCPConn_inv_Write_returns _ c (Some b) (Htcp _ _ Hc)) as [c' Hw].
      rewrite Hw. cbn [obind]. eexists. split; [reflexivity|].
      split; [|split; reflexivity].
      apply Hset. eapply TCPConn_Write_inv; [eapply Htcp, Hc | exact Hw].
    + destruct (TCPConn_writer_step c false) as [c'|] eqn:Hstep; [|exists sv; auto].
      eexists. split; [reflexivity|]. split; [|split; reflexivity].
      apply Hset. eapply TCPConn_step_inv; [eapply Htcp, Hc|].
      eapply TCP_step_writer, Hstep.
  - unfold TCPServer_agent_exit.
    destruct (srv_tcp sv !! conn) as [c|] eqn:Hc; [|exists sv; auto].
    destruct (TCPConn_inv_Close_returns _ c (Htcp _ _ Hc)) as [c' Hcl].
    rewrite Hcl. cbn [obind]. eexists. split; [reflexivity|].
    split; [|split; reflexivity].
    assert (Hin : conn ∈ srv_conns sv) by (rewrite <- Hdom; apply elem_of_dom; eauto).
    unfold TCPServer_inv.
    cbn [MaxConnNum PendingWriteNum srv_conns srv_wgConns srv_tcp srv_accepted].
    assert (Hsz : size (srv_conns sv ∖ {[conn]}) = (size (srv_conns sv) - 1)%nat).
    { rewrite size_difference by (apply singleton_subseteq_l, Hin).
      rewrite size_singleton. reflexivity. }
    assert (Hpos : (0 < size (srv_conns sv))%nat).
    { destruct (size (srv_conns sv)) eqn:E; [|lia].
      apply size_empty_iff in E. rewrite E in Hin. destruct (not_elem_of_empty conn Hin). }
    rewrite Hsz.
    split; [assumption|]. split; [assumption|]. split; [lia|]. split; [lia|].
    split; [rewrite dom_delete_L, Hdom; reflexivity|]. split.
    + intros conn' Hin'. apply Hfresh. apply elem_of_difference in Hin' as [Hin' _].
      exact Hin'.
    + intros conn' c0 Hc0. destruct (decide (conn' = conn)) as [->|Hne].
      * rewrite lookup_delete_eq in Hc0. discriminate.
      * rewrite lookup_delete_ne in Hc0 by congruence. eapply Htcp, Hc0.
Qed.

Lemma TCPServer_acts_inv (xs : list srv_action) :
  forall sv, TCPServer_inv sv ->
    exists sv', TCPServer_acts sv xs = Returns sv' /\ TCPServer_inv sv' /\
                MaxConnNum sv' = MaxConnNum sv /\ PendingWriteNum sv' = PendingWriteNum sv.
Proof.
  induction xs as [|x xs IH]; intros sv Hinv; cbn [TCPServer_acts].
  - exists sv. auto.
  - destruct (TCPServer_act_inv sv x Hinv) as (sv1 & E1 & Hinv1 & Hm1 & Hp1).
    rewrite E1. cbn [obind].
    destruct (IH sv1 Hinv1) as (sv' & E & Hinv' & Hm & Hp).
    exists sv'. split; [exact E|]. split; [exact Hinv'|]. split; congruence.
Qed.


Lemma retry_delay_first : retry_delay 1 = 5 * Millisecond.
Proof. reflexivity. Qed.

Lemma retry_delay_range (n : nat) : (1 <= n)%nat -> 0 < retry_delay n <= time.Second.
Proof.
  unfold retry_delay, Millisecond, time.Second. intros Hn.
  destruct n as [|n].
  - lia.
  - replace (Z.of_nat (S n) - 1) with (Z.of_nat n) by lia.
    assert (0 < 2 ^ Z.of_nat n) by (apply Z.pow_pos_nonneg; lia). lia.
Qed.

Lemma retry_delay_next (n : nat) :
  (1 <= n)%nat ->
  (if int64 (retry_delay n * 2) >? time.Second then time.Second
   else int64 (retry_delay n * 2)) = retry_delay (S n).
Proof.
  intros Hn. pose proof (retry_delay_range n Hn) as Hr.
  unfold time.Second in *.
  rewrite timer_facts.int64_small by lia.
  unfold retry_delay, Millisecond, time.Second in *.
  replace (Z.of_nat (S n) - 1) with (Z.succ (Z.of_nat n - 1)) by lia.
  rewrite Z.pow_succ_r by lia.
  assert (0 < 2 ^ (Z.of_nat n - 1)) by (apply Z.pow_pos_nonneg; lia).
  destruct (Z.gtb_spec (Z.min (5 * 1000000 * 2 ^ (Z.of_nat n - 1)) 1000000000 * 2)
                       1000000000); lia.
Qed.

Lemma accept_retries (errs : list string) :
  forall (n : nat) (sv : TCPServer),
    srv_returned sv = false ->
    srv_tempDelay sv = match n with O => 0 | S _ => retry_delay n end ->
    exists sv',
      TCPServer_acts sv (map (fun e => SrvAccept (TemporaryError e)) errs) = Returns sv' /\
      srv_returned sv' = false /\
      srv_tempDelay sv' = match (n + length errs)%nat with
                          | O => 0
                          | S _ => retry_delay (n + length errs)
                          end /\
      srv_trace sv' = srv_trace sv ++ retries (S n) errs /\
      srv_conns sv' = srv_conns sv /\ srv_tcp sv' = srv_tcp sv /\
      srv_accepted sv' = srv_accepted sv /\ MaxConnNum sv' = MaxConnNum sv /\
      PendingWriteNum sv' = PendingWriteNum sv.
Proof.
  induction errs as [|e errs IH]; intros n sv Hrun Hdelay.
  - exists sv. cbn [map TCPServer_acts length retries]. rewrite Nat.add_0_r, app_nil_r.
    auto 10.
  - cbn [map TCPServer_acts TCPServer_act]. rewrite Hrun. cbn [TCPServer_run_turn obind].
    assert (Hd : (let d1 := if srv_tempDelay sv =? 0 then 5 * Millisecond
                            else int64 (srv_tempDelay sv * 2) in
                  if d1 >? time.Second then time.Second else d1) = retry_delay (S n)).
    { cbn zeta. rewrite Hdelay. destruct n as [|n].
      - reflexivity.
      - pose proof (retry_delay_range (S n) ltac:(lia)) as Hr.
        destruct (Z.eqb_spec (retry_delay (S n)) 0) as [E0|_]; [lia|].
        apply retry_delay_next. lia. }
    cbn zeta in Hd. rewrite Hd.
    match goal with
    | |- context [TCPServer_acts ?sv1 _] =>
        destruct (IH (S n) sv1 eq_refl eq_refl)
          as (sv' & E & Hrun' & Hdelay' & Htrace & Hconns & Htcp & Hacc & Hm & Hp)
    end.
    cbn [srv_trace srv_conns srv_tcp srv_accepted MaxConnNum PendingWriteNum] in *.
    exists sv'. split; [exact E|]. split; [exact Hrun'|].
    replace (n + length (e :: errs))%nat with (S n + length errs)%nat
      by (cbn [length]; lia).
    split; [exact Hdelay'|]. split.
    + rewrite Htrace. cbn [retries]. rewrite <- app_assoc. reflexivity.
    + auto 10.
Qed.

(** The accept loop backs off and recovers.  After temporary errors of
    [Accept] in a row, from a loop that had no delay, the delay is 5 ms
    doubled with each error after the first and capped at one second; the
    loop has slept that long after each error, has touched no connection and
    has not returned; and the next connection that is accepted sets the
    delay back to zero. *)
Theorem accept_backoff (sv : TCPServer) (errs : list string) :
  srv_returned sv = false -> srv_tempDelay sv = 0 -> errs <> [] ->
  exists sv',
    TCPServer_acts sv (map (fun e => SrvAccept (TemporaryError e)) errs) = Returns sv' /\
    srv_returned sv' = false /\
    srv_tempDelay sv' = Z.min (5 * Millisecond * 2 ^ (Z.of_nat (length errs) - 1))
                              time.Second /\
    srv_trace sv' = srv_trace sv ++ retries 1 errs /\
    srv_conns sv' = srv_conns sv /\ srv_tcp sv' = srv_tcp sv /\
    (forall nc sv'', TCPServer_run_turn sv' (Accepted nc) = Returns sv'' ->
                     srv_tempDelay sv'' = 0).
Proof.
  intros Hrun Hdelay Hne.
  destruct (accept_retries errs 0 sv Hrun Hdelay)
    as (sv' & E & Hrun' & Hdelay' & Htrace & Hconns & Htcp & _).
  exists sv'. split; [exact E|]. split; [exact Hrun'|]. split.
  - rewrite Hdelay'. cbn [Nat.add]. destruct errs as [|e errs]; [congruence|].
    reflexivity.
  - split; [exact Htrace|]. split; [exact Hconns|]. split; [exact Htcp|].
    intros nc sv'' Hturn. cbn [TCPServer_run_turn] in Hturn.
    destruct (Z.of_nat (size (srv_conns sv')) >=? MaxConnNum sv').
    + injection Hturn as <-. reflexivity.
    + destruct (newTCPConn nc (PendingWriteNum sv') (srv_msgParser sv')); cbn [obind] in Hturn;
        try discriminate.
      injection Hturn as <-. reflexivity.
Qed.

(** Three temporary errors on a fresh server: 5 ms, 10 ms, 20 ms. *)
Lemma accept_backoff_witness :
  exists sv',
    TCPServer_acts (TCPServer_init 2 1 2 1 4096 false)
                   [SrvAccept (TemporaryError "a"); SrvAccept (TemporaryError "b");
                    SrvAccept (TemporaryError "c")] = Returns sv' /\
    srv_tempDelay sv' = 20000000 /\
    srv_trace sv' = [SrvAcceptError "a" 5000000; SrvSleep 5000000;
                     SrvAcceptError "b" 10000000; SrvSleep 10000000;
                     SrvAcceptError "c" 20000000; SrvSleep 20000000].
Proof.
  destruct (accept_backoff (TCPServer_init 2 1 2 1 4096 false) ["a"; "b"; "c"]%string)
    as (sv' & E & _ & Hd & Ht & _).
  - reflexivity.
  - reflexivity.
  - discriminate.
  - exists sv'. split; [exact E|]. split; [exact Hd | exact Ht].
Defined.

End server_facts.

(* ===================================================================== *)
(** * g: tasks and callbacks                                              *)
(* ===================================================================== *)

Module g_facts.
Import g.

Section g_properties.

Variable run_f : string -> option string.
Variable run_cb : string -> option string.
Variable LenStackBuf : Z.
Variable runtime_Stack : string.

Lemma len_cons {A : Type} (x : A) (l : list A) : len (x :: l) = 1 + len l.
Proof. unfold len. cbn [length]. lia. Qed.

Lemma len_snoc {A : Type} (l : list A) (x : A) : len (l ++ [x]) = len l + 1.
Proof. unfold len. rewrite length_app. cbn [length]. lia. Qed.

Lemma task_end_room (w : world) (cb panicked : option string) :
  ch_closed (ChanCb (w_g w)) = false ->
  len (ch_buf (ChanCb (w_g w))) < ch_cap (ChanCb (w_g w)) ->
  task_end LenStackBuf runtime_Stack w cb panicked
  = Returns {| w_g := {| ChanCb := mkChan (ch_buf (ChanCb (w_g w)) ++ [cb])
                                          (ch_cap (ChanCb (w_g w))) false;
                         pendingGo := pendingGo (w_g w) |};
               w_started := w_started w; linearGo := linearGo w;
               w_waiting := w_waiting w;
               w_log := w_log w ++ logged LenStackBuf runtime_Stack panicked;
               w_ran := w_ran w; w_linear_ran := w_linear_ran w;
               w_called := w_called w |}.
Proof.
  intros Ho Hr. unfold task_end, chan_send. rewrite Ho.
  destruct (Z.ltb_spec (len (ch_buf (ChanCb (w_g w)))) (ch_cap (ChanCb (w_g w))));
    [reflexivity | lia].
Qed.

(** One action, on a channel with room for the callbacks of all the calls
    made and still to be made. *)
Lemma act_inv (w : world) (a : action) (more : Z) :
  world_inv w -> 0 <= more ->
  pendingGo (w_g w) + go_calls [a] + more <= ch_cap (ChanCb (w_g w)) ->
  exists w',
    act run_f run_cb LenStackBuf runtime_Stack w a = Returns w' /\
    world_inv w' /\
    pendingGo (w_g w') + more <= ch_cap (ChanCb (w_g w')) /\
    w_linear_ran w' ++ map lg_f (linearGo w')
    = (w_linear_ran w ++ map lg_f (linearGo w)) ++ linear_calls [a].
Proof.
  intros (Hp & Hq & Ho) Hmore Hcap.
  pose proof (len_nonneg (ch_buf (ChanCb (w_g w)))) as Hn1.
  pose proof (len_nonneg (w_started w)) as Hn2.
  destruct a as [f cb|i|f cb| |]; cbn [act go_calls linear_calls] in *.
  - eexists. split; [reflexivity|]. unfold world_inv, Go_Go.
    cbn [w_g ChanCb pendingGo w_started linearGo w_waiting w_linear_ran].
    rewrite len_snoc, app_nil_r. repeat split; try assumption; lia.
  - unfold Go_task. destruct (w_started w !! i) as [e|] eqn:Hi.
    + assert (Hlt : (i < length (w_started w))%nat) by (eapply lookup_lt_Some; eauto).
      rewrite task_end_room;
        cbn [w_g ChanCb pendingGo w_started linearGo w_waiting w_linear_ran];
        [|assumption|unfold len in *; lia].
      eexists. split; [reflexivity|]. unfold world_inv.
      cbn [w_g ChanCb pendingGo w_started linearGo w_waiting w_linear_ran ch_buf ch_cap
           ch_closed].
      rewrite len_snoc, app_nil_r. unfold len in *. rewrite length_delete by eauto.
      repeat split; try assumption; lia.
    + exists w. rewrite app_nil_r. repeat split; try assumption; lia.
  - eexists. split; [reflexivity|]. unfold world_inv, LinearContext_Go.
    cbn [w_g ChanCb pendingGo w_started linearGo w_waiting w_linear_ran].
    rewrite length_app, map_app. cbn [length map].
    repeat split; try assumption; try lia.
    rewrite app_assoc. reflexivity.
  - destruct (w_waiting w) as [|n] eqn:Hw.
    + exists w. rewrite app_nil_r. unfold world_inv. rewrite Hw.
      repeat split; try assumption; lia.
    + unfold LinearContext_task. destruct (linearGo w) as [|e rest] eqn:Hl;
        [cbn [length] in Hq; lia|].
      rewrite task_end_room;
        cbn [w_g ChanCb pendingGo w_started linearGo w_waiting w_linear_ran];
        [|assumption|lia].
      eexists. split; [reflexivity|]. unfold world_inv.
      cbn [w_g ChanCb pendingGo w_started linearGo w_waiting w_linear_ran ch_buf ch_cap
           ch_closed].
      rewrite len_snoc, app_nil_r, Hw. cbn [length map pred] in *.
      rewrite <- app_assoc. cbn [app].
      repeat split; try assumption; lia.
  - destruct (ch_buf (ChanCb (w_g w))) as [|cb rest] eqn:Hb.
    + exists w. rewrite app_nil_r. unfold world_inv. rewrite Hb.
      repeat split; try assumption; lia.
    + unfold Go_recv_Cb, chan_recv. rewrite Hb.
      eexists. split; [reflexivity|]. unfold world_inv, Go_Cb.
      cbn [w_g ChanCb pendingGo w_started linearGo w_waiting w_linear_ran ch_buf ch_cap
           ch_closed].
      rewrite len_cons in Hp. rewrite app_nil_r.
      repeat split; try assumption; lia.
Qed.

Lemma go_calls_nonneg (xs : list action) : 0 <= go_calls xs.
Proof.
  induction xs as [|[ | | | | ] xs IH]; cbn [go_calls]; lia.
Qed.

Lemma go_calls_cons (a : action) (xs : list action) :
  go_calls (a :: xs) = go_calls [a] + go_calls xs.
Proof. destruct a; cbn [go_calls]; lia. Qed.

Lemma linear_calls_cons (a : action) (xs : list action) :
  linear_calls (a :: xs) = linear_calls [a] ++ linear_calls xs.
Proof. destruct a; reflexivity. Qed.

Lemma acts_inv (xs : list action) :
  forall w,
    world_inv w ->
    pendingGo (w_g w) + go_calls xs <= ch_cap (ChanCb (w_g w)) ->
    exists w',
      acts run_f run_cb LenStackBuf runtime_Stack w xs = Returns w' /\
      world_inv w' /\
      w_linear_ran w' ++ map lg_f (linearGo w')
      = (w_linear_ran w ++ map lg_f (linearGo w)) ++ linear_calls xs.
Proof.
  induction xs as [|a xs IH]; intros w Hinv Hcap.
  - exists w. cbn [acts linear_calls]. rewrite app_nil_r. auto.
  - rewrite go_calls_cons in Hcap. pose proof (go_calls_nonneg xs) as Hnn.
    destruct (act_inv w a (go_calls xs) Hinv Hnn ltac:(lia)) as (w1 & E1 & Hinv1 & Hcap1 & Ho1).
    destruct (IH w1 Hinv1 Hcap1) as (w' & E & Hinv' & Ho).
    exists w'. cbn [acts]. rewrite E1. cbn [obind].
    split; [exact E|]. split; [exact Hinv'|].
    rewrite Ho, Ho1, (linear_calls_cons a xs), <- !app_assoc. reflexivity.
Qed.

Lemma New_inv (l : Z) (w0 : world) :
  New l = Returns w0 ->
  world_inv w0 /\ pendingGo (w_g w0) = 0 /\ ch_cap (ChanCb (w_g w0)) = l /\
  w_linear_ran w0 = [] /\ linearGo w0 = [].
Proof.
  unfold New, make_chan. destruct (Z.ltb_spec l 0); [discriminate|].
  cbn [obind]. intros [= <-]. unfold world_inv.
  cbn [w_g ChanCb pendingGo w_started linearGo w_waiting w_linear_ran ch_buf ch_cap
       ch_closed length].
  change (len []) with 0. repeat split; lia.
Qed.

(** A [LinearContext] runs its functions in the order of the calls.
    However the calls of [Go], the runs of the tasks and the callbacks
    interleave, and whichever waiting task gets hold of the execution lock,
    the functions the context has run, followed by those still in its queue,
    are the functions given to [LinearContext.Go], in the order of the
    calls; and no task finds the queue empty.  (The callback channel has room
    for one callback for each call of [Go].) *)
Theorem LinearContext_in_order (l : Z) (xs : list action) (w0 : world) :
  New l = Returns w0 -> go_calls xs <= l ->
  exists w,
    acts run_f run_cb LenStackBuf runtime_Stack w0 xs = Returns w /\
    w_linear_ran w ++ map lg_f (linearGo w) = linear_calls xs /\
    length (linearGo w) = w_waiting w.
Proof.
  intros Hnew Hcap.
  destruct (New_inv l w0 Hnew) as (Hinv & Hp & Hc & Hran & Hq).
  destruct (acts_inv xs w0 Hinv ltac:(lia)) as (w & E & (Hp' & Hq' & Ho') & Hord).
  exists w. split; [exact E|]. split; [|exact Hq'].
  rewrite Hord, Hran, Hq. reflexivity.
Qed.

Lemma Go_Close_loop_drains (q : list (option string)) :
  forall (m : nat) (w : world) (cap : Z),
    ChanCb (w_g w) = mkChan q cap false ->
    pendingGo (w_g w) = len q + Z.of_nat m ->
    exists w',
      Go_Close_loop run_cb LenStackBuf runtime_Stack (length q + m) w
      = Go_Close_loop run_cb LenStackBuf runtime_Stack m w' /\
      ChanCb (w_g w') = mkChan [] cap false /\
      pendingGo (w_g w') = Z.of_nat m /\
      w_called w' = w_called w ++ callbacks q /\
      w_started w' = w_started w /\ w_waiting w' = w_waiting w.
Proof.
  induction q as [|cb q IH]; intros m w cap Hch Hp.
  - exists w. cbn [length Nat.add callbacks flat_map]. rewrite app_nil_r.
    change (len []) with 0 in Hp. split; [reflexivity|]. split; [exact Hch|].
    split; [lia|]. auto.
  - rewrite len_cons in Hp. pose proof (len_nonneg q) as Hnn.
    cbn [length Nat.add Go_Close_loop].
    destruct (Z.gtb_spec (pendingGo (w_g w)) 0) as [_|]; [|lia].
    unfold Go_recv_Cb, chan_recv. rewrite Hch. cbn [ch_buf ch_cap ch_closed obind].
    match goal with
    | |- context [Go_Close_loop _ _ _ _ ?w1] =>
        destruct (IH m w1 cap) as (w' & E & Hch' & Hp' & Hcalled & Hst & Hwt)
    end.
    + reflexivity.
    + cbn [Go_Cb w_g pendingGo]. lia.
    + exists w'. split; [exact E|]. split; [exact Hch'|]. split; [exact Hp'|].
      cbn [Go_Cb w_called w_started w_waiting] in Hcalled, Hst, Hwt.
      split; [|auto]. rewrite Hcalled. cbn [callbacks flat_map].
      rewrite <- app_assoc. reflexivity.
Qed.

(** The counter of a [Go] tells what is outstanding, and [Close] settles
    it.  Between the actions the counter equals the number of callbacks in
    the channel plus the number of tasks that have not finished, so [Idle]
    holds exactly when every function started has finished and its callback
    has been taken.  Once all tasks have finished, [Close] calls the
    callbacks left in the channel, in order, and leaves the [Go] idle; while
    a task has yet to finish, [Close] waits. *)
Theorem Go_Close_settles (l : Z) (xs : list action) (w0 : world) :
  New l = Returns w0 -> go_calls xs <= l ->
  exists w,
    acts run_f run_cb LenStackBuf runtime_Stack w0 xs = Returns w /\
    pendingGo (w_g w)
    = len (ch_buf (ChanCb (w_g w))) + len (w_started w) + Z.of_nat (w_waiting w) /\
    (w_started w = [] -> w_waiting w = O ->
     exists w',
       Go_Close run_cb LenStackBuf runtime_Stack w = Returns w' /\
       Go_Idle w' = true /\ ch_buf (ChanCb (w_g w')) = [] /\
       w_called w' = w_called w ++ callbacks (ch_buf (ChanCb (w_g w)))) /\
    (0 < len (w_started w) + Z.of_nat (w_waiting w) ->
     Go_Close run_cb LenStackBuf runtime_Stack w = Blocks).
Proof.
  intros Hnew Hcap.
  destruct (New_inv l w0 Hnew) as (Hinv & Hp & Hc & Hran & Hq).
  destruct (acts_inv xs w0 Hinv ltac:(lia)) as (w & E & (Hp' & Hq' & Ho') & _).
  exists w. split; [exact E|]. split; [exact Hp'|].
  assert (Hch : ChanCb (w_g w)
                = mkChan (ch_buf (ChanCb (w_g w))) (ch_cap (ChanCb (w_g w))) false).
  { destruct (ChanCb (w_g w)) as [b c cl]. cbn in *. subst cl. reflexivity. }
  pose proof (len_nonneg (ch_buf (ChanCb (w_g w)))) as Hn1.
  pose proof (len_nonneg (w_started w)) as Hn2.
  split.
  - intros Hs Hw. rewrite Hs, Hw in Hp'. change (len []) with 0 in Hp'.
    destruct (Go_Close_loop_drains (ch_buf (ChanCb (w_g w))) 0 w _ Hch ltac:(cbn; lia))
      as (w' & E' & Hch' & Hp0 & Hcalled & _).
    exists w'. unfold Go_Close. rewrite Hp'.
    replace (Z.to_nat (len (ch_buf (ChanCb (w_g w))) + 0 + Z.of_nat 0))
      with (length (ch_buf (ChanCb (w_g w))) + 0)%nat by (unfold len; lia).
    rewrite E'. cbn [Go_Close_loop]. split; [reflexivity|].
    unfold Go_Idle. rewrite Hp0, Hch'. auto.
  - intros Hout.
    set (m := Z.to_nat (len (w_started w) + Z.of_nat (w_waiting w))).
    destruct (Go_Close_loop_drains (ch_buf (ChanCb (w_g w))) m w _ Hch ltac:(lia))
      as (w' & E' & Hch' & Hp0 & _).
    unfold Go_Close.
    replace (Z.to_nat (pendingGo (w_g w)))
      with (length (ch_buf (ChanCb (w_g w))) + m)%nat by (unfold len in *; lia).
    rewrite E'. destruct m as [|m'] eqn:Hm; [lia|].
    cbn [Go_Close_loop]. rewrite Hp0.
    destruct (Z.gtb_spec (Z.of_nat (S m')) 0) as [_|]; [|lia].
    unfold Go_recv_Cb, chan_recv. rewrite Hch'. reflexivity.
Qed.

End g_properties.

(** Three calls on a context; the second function panics.  The tasks run
    between and after the calls: the functions run in the order of the calls,
    and the panic is logged without losing a callback. *)
Lemma LinearContext_in_order_witness :
  exists w,
    acts panics_on_bad quiet_cb 0 "" {| w_g := {| ChanCb := mkChan [] 3 false;
                                                  pendingGo := 0 |};
                                        w_started := []; linearGo := []; w_waiting := 0;
                                        w_log := []; w_ran := []; w_linear_ran := [];
                                        w_called := [] |}
         [DoLinearGo "a" (Some "A"); DoLinearGo "bad" (Some "B"); DoLinearTask;
          DoLinearGo "c" None; DoLinearTask; DoLinearTask] = Returns w /\
    w_linear_ran w ++ map lg_f (linearGo w) = ["a"; "bad"; "c"]%string /\
    length (linearGo w) = w_waiting w.
Proof.
  apply (LinearContext_in_order panics_on_bad quiet_cb 0 "" 3
           [DoLinearGo "a" (Some "A"); DoLinearGo "bad" (Some "B"); DoLinearTask;
            DoLinearGo "c" None; DoLinearTask; DoLinearTask]).
  - reflexivity.
  - vm_compute. discriminate.
Defined.

Lemma Go_Close_settles_witness :
  exists w,
    acts panics_on_bad quiet_cb 0 "" {| w_g := {| ChanCb := mkChan [] 2 false;
                                                  pendingGo := 0 |};
                                        w_started := []; linearGo := []; w_waiting := 0;
                                        w_log := []; w_ran := []; w_linear_ran := [];
                                        w_called := [] |}
         [DoGo "a" (Some "A"); DoGo "bad" (Some "B"); DoTask 1; DoTask 0] = Returns w /\
    exists w',
      Go_Close quiet_cb 0 "" w = Returns w' /\
      Go_Idle w' = true /\ w_called w' = ["B"; "A"]%string /\ w_log w' = ["bad"%string].
Proof.
  destruct (Go_Close_settles panics_on_bad quiet_cb 0 "" 2
              [DoGo "a" (Some "A"); DoGo "bad" (Some "B"); DoTask 1; DoTask 0] _ eq_refl)
    as (w & E & _ & Hclose & _).
  - vm_compute. discriminate.
  - exists w. split; [exact E|].
    vm_compute in E. injection E as <-.
    destruct (Hclose eq_refl eq_refl) as (w' & E' & Hidle & _ & Hcalled).
    exists w'. split; [exact E'|]. split; [exact Hidle|].
    vm_compute in E'. injection E' as <-. split; reflexivity.
Defined.

End g_facts.

(* ===================================================================== *)
(** * timer: what a term of a cron field means                            *)
(* ===================================================================== *)

Module cron_facts.
Import time timer.

Lemma shl64_one (i : Z) : 0 <= i < 64 -> shl64 1 (uint64 i) = 2 ^ i.
Proof.
  intros Hi. unfold shl64, uint64. rewrite (Z.mod_small i) by lia.
  destruct (Z.ltb_spec i 64) as [_|]; [|lia].
  rewrite Z.shiftl_1_l.
  assert (Hpow : 0 < 2 ^ i < 2 ^ 64)
    by (split; [apply Z.pow_pos_nonneg; lia | apply Z.pow_lt_mono_r; lia]).
  change (2 ^ 64) with 18446744073709551616 in Hpow.
  apply Z.mod_small. lia.
Qed.

Lemma shl64_ones_testbit (s k : Z) :
  0 <= s < 64 -> 0 <= k < 64 ->
  Z.testbit (shl64 MaxUint64 (uint64 s)) k = (s <=? k).
Proof.
  intros Hs Hk. unfold shl64, uint64. rewrite (Z.mod_small s) by lia.
  destruct (Z.ltb_spec s 64) as [_|]; [|lia].
  change 18446744073709551616 with (2 ^ 64).
  rewrite Z.mod_pow2_bits_low by lia.
  rewrite Z.shiftl_spec by lia.
  change MaxUint64 with (Z.ones 64).
  destruct (Z.leb_spec s k).
  - apply Z.ones_spec_low. lia.
  - apply Z.testbit_neg_r. lia.
Qed.

Lemma not64_testbit (x k : Z) :
  0 <= k < 64 -> Z.testbit (not64 x) k = negb (Z.testbit x k).
Proof.
  intros Hk. unfold not64. rewrite Z.lxor_spec.
  change MaxUint64 with (Z.ones 64). rewrite Z.ones_spec_low by lia.
  destruct (Z.testbit x k); reflexivity.
Qed.

(** The mask of a range without an increment: the bits from [start] to
    [end_]. *)
Lemma range_mask_testbit (start end_ k : Z) :
  0 <= start -> start <= end_ -> end_ <= 63 -> 0 <= k < 64 ->
  Z.testbit (Z.land (not64 (shl64 MaxUint64 (uint64 (end_ + 1))))
                    (shl64 MaxUint64 (uint64 start))) k
  = (start <=? k) && (k <=? end_).
Proof.
  intros Hs Hse He Hk. rewrite Z.land_spec, not64_testbit by lia.
  rewrite (shl64_ones_testbit start k) by lia.
  destruct (Z.eq_dec end_ 63) as [->|Hne].
  - change (shl64 MaxUint64 (uint64 (63 + 1))) with 0. rewrite Z.bits_0.
    destruct (Z.leb_spec start k), (Z.leb_spec k 63); try reflexivity; lia.
  - rewrite (shl64_ones_testbit (end_ + 1) k) by lia.
    destruct (Z.leb_spec start k), (Z.leb_spec (end_ + 1) k), (Z.leb_spec k end_);
      try reflexivity; lia.
Qed.

Lemma step_mod (i incr k : Z) :
  0 < incr ->
  ((i <=? k) && ((k - i) mod incr =? 0))
  = (k =? i) || ((i + incr <=? k) && ((k - (i + incr)) mod incr =? 0)).
Proof.
  intros Hincr.
  replace (k - (i + incr)) with (k - i + (-1) * incr) by lia.
  rewrite Z.mod_add by lia.
  destruct (Z.leb_spec i k), (Z.eqb_spec k i), (Z.leb_spec (i + incr) k);
    cbn [andb orb]; try lia; try reflexivity.
  - subst k. rewrite Z.sub_diag. reflexivity.
  - rewrite Z.mod_small by lia. destruct (Z.eqb_spec (k - i) 0); [lia | reflexivity].
Qed.

(** The loop sets the bits [i], [i + incr], ... up to [end_]. *)
Lemma field_loop_bits (end_ incr : Z) (fuel : nat) :
  end_ <= 63 -> 0 < incr <= 4611686018427387904 ->
  forall i cf, 0 <= i -> Z.max 0 (end_ - i + 1) < Z.of_nat fuel ->
  exists m,
    field_loop fuel i end_ incr cf = Some m /\
    forall k, 0 <= k < 64 ->
      Z.testbit m k
      = Z.testbit cf k || ((i <=? k) && (k <=? end_) && ((k - i) mod incr =? 0)).
Proof.
  intros He Hincr. induction fuel as [|fuel IH]; intros i cf Hi Hfuel.
  - lia.
  - destruct (Z.le_gt_cases i end_) as [Hle|Hgt].
    + rewrite timer_facts.field_loop_next by exact Hle.
      rewrite timer_facts.int64_small by lia.
      destruct (IH (i + incr) (Z.lor cf (shl64 1 (uint64 i))) ltac:(lia) ltac:(lia))
        as (m & E & Hbits).
      exists m. split; [exact E|]. intros k Hk. rewrite (Hbits k Hk).
      rewrite shl64_one by lia. rewrite Z.lor_spec, Z.pow2_bits_eqb by lia.
      pose proof (step_mod i incr k ltac:(lia)) as Hstep.
      rewrite (Z.eqb_sym i k).
      destruct (Z.testbit cf k); cbn [orb]; [reflexivity|].
      destruct (Z.leb_spec k end_) as [Hke|Hke].
      * rewrite !andb_true_r. rewrite Hstep. reflexivity.
      * rewrite !andb_false_r, !andb_false_l, orb_false_r.
        destruct (Z.eqb_spec k i); [lia | reflexivity].
    + rewrite timer_facts.field_loop_done by lia. exists cf. split; [reflexivity|].
      intros k Hk.
      destruct (Z.leb_spec i k), (Z.leb_spec k end_); cbn [andb];
        try (rewrite orb_false_r; reflexivity); lia.
Qed.

Lemma Atoi_not_star (a : string) (v : Z) :
  Atoi a = Some v -> String.eqb a "*" = false.
Proof.
  intros Ha. destruct (String.eqb_spec a "*") as [->|]; [discriminate | reflexivity].
Qed.

(** What a term [a-b/c] of a cron field means.  For a term whose bounds lie
    within the field ([min <= a <= b <= max]) and whose increment is
    positive, the parser adds to the mask the bits [a], [a + c], [a + 2c],
    ... up to [b], and leaves the other bits as they were. *)
Theorem parseCronTerm_range_bits (field range cs a b : string)
    (min max start end_ incr cf : Z) :
  Split field "/" = [range; cs] -> Split range "-" = [a; b] ->
  Atoi a = Some start -> Atoi b = Some end_ -> Atoi cs = Some incr ->
  0 <= min -> max <= 63 -> min <= start -> start <= end_ -> end_ <= max ->
  0 < incr <= 4611686018427387904 ->
  exists m,
    parseCronTerm field min max cf = inr m /\
    forall k, 0 <= k < 64 ->
      Z.testbit m k
      = Z.testbit cf k
        || ((start <=? k) && (k <=? end_) && ((k - start) mod incr =? 0)).
Proof.
  intros Hf Hr Ha Hb Hc Hmin Hmax Hs Hse He Hincr.
  unfold parseCronTerm. rewrite Hf. cbn [hd nth]. rewrite Hr. cbn [hd nth].
  change (len [range; cs]) with 2. change (len [a; b]) with 2.
  cbn [Z.ltb Z.compare Pos.compare Pos.compare_cont Z.eqb Pos.eqb negb].
  rewrite (Atoi_not_star a start Ha), Ha, Hb, Hc.
  destruct (Z.gtb_spec start end_); [lia|].
  destruct (Z.ltb_spec start min); [lia|].
  destruct (Z.gtb_spec end_ max); [lia|].
  destruct (Z.leb_spec incr 0); [lia|].
  destruct (Z.eqb_spec incr 1) as [->|Hne].
  - eexists. split; [reflexivity|]. intros k Hk.
    rewrite Z.lor_spec, range_mask_testbit by lia.
    rewrite Z.mod_1_r. cbn [Z.eqb]. rewrite andb_true_r. reflexivity.
  - destruct (field_loop_bits end_ incr 256 ltac:(lia) Hincr start cf ltac:(lia) ltac:(lia))
      as (m & E & Hbits).
    rewrite E. exists m. split; [reflexivity | exact Hbits].
Qed.

(** Every fifth minute from 10 to 30. *)
Lemma parseCronTerm_range_bits_witness :
  exists m,
    parseCronTerm "10-30/5" 0 59 0 = inr m /\
    forall k, 0 <= k < 64 ->
      Z.testbit m k
      = Z.testbit 0 k || ((10 <=? k) && (k <=? 30) && ((k - 10) mod 5 =? 0)).
Proof.
  apply (parseCronTerm_range_bits "10-30/5" "10-30" "5" "10" "30" 0 59 10 30 5 0);
    try reflexivity; lia.
Defined.

End cron_facts.

(* ===================================================================== *)
(** * timer: a callback is called at most once, and not after Stop        *)
(* ===================================================================== *)

Module dispatcher_facts.
Import dispatcher.

Lemma settled_snoc (tr : list timer_event) (ev : timer_event) :
  settled tr ->
  (forall e cb, In e tr -> ev <> EvCall (timer_of e) cb) ->
  settled (tr ++ [ev]).
Proof.
  induction tr as [|e rest IH]; intros Hs Hnew; cbn [app settled].
  - split; [intros cb []|exact I].
  - destruct Hs as [Hrest Hs]. split.
    + intros cb Hin. apply in_app_or in Hin as [Hin|[Hin|[]]].
      * exact (Hrest cb Hin).
      * apply (Hnew e cb); [left; reflexivity | exact Hin].
    + apply IH; [exact Hs|]. intros e' cb Hin. apply Hnew. right. exact Hin.
Qed.

Section dispatcher_properties.

Variable run_cb : string -> option string.
Variable LenStackBuf : Z.
Variable runtime_Stack : string.
Variable orig : nat -> option string.

(** A step that replaces the timer [t], keeping or dropping its callback,
    and records at most one event, which is on [t]. *)
Lemma update_inv (disp : Dispatcher) (t : nat) (tm tm' : Timer) (ch' : chan nat)
    (log' : list string) (evs : list timer_event) :
  dispatcher_inv orig disp ->
  d_timers disp !! t = Some tm ->
  ch_closed ch' = false ->
  Forall (fun t0 => (t0 < length (d_timers disp))%nat) (ch_buf ch') ->
  (evs = [] /\ t_cb tm' = t_cb tm) \/
  (evs = [EvStop t] /\ t_cb tm' = None) \/
  (exists cb, evs = [EvCall t cb] /\ t_cb tm = Some cb /\ t_cb tm' = None) ->
  dispatcher_inv orig {| ChanTimer := ch'; d_timers := <[t := tm']> (d_timers disp);
                         d_log := log'; d_trace := d_trace disp ++ evs |}.
Proof.
  intros (Hopen & Hbuf & Hdone & Hset & Hcb & Hcalls) Ht Hopen' Hbuf' Hevs.
  assert (Hlt : (t < length (d_timers disp))%nat) by (eapply lookup_lt_Some; eauto).
  assert (Hnone : t_cb tm = None -> t_cb tm' = None).
  { intros Hn. destruct Hevs as [[_ E]|[[_ E]|(cb & _ & E & _)]]; congruence. }
  assert (Hold : forall ev, In ev (d_trace disp) ->
                   exists tm0, <[t := tm']> (d_timers disp) !! timer_of ev = Some tm0 /\
                               t_cb tm0 = None).
  { intros ev Hin. rewrite Forall_forall in Hdone.
    destruct (Hdone ev ltac:(apply list_elem_of_In; exact Hin)) as (tm0 & Hl & Hc).
    destruct (decide (timer_of ev = t)) as [E|E].
    - rewrite E in *. exists tm'. rewrite list_lookup_insert_eq by exact Hlt.
      split; [reflexivity|]. apply Hnone. congruence.
    - exists tm0. rewrite list_lookup_insert_ne by congruence. auto. }
  assert (Hnew : forall ev, In ev evs ->
                   timer_of ev = t /\ t_cb tm' = None).
  { intros ev Hin. destruct Hevs as [[-> _]|[[-> E]|(cb & -> & _ & E)]].
    - destruct Hin.
    - destruct Hin as [<-|[]]. auto.
    - destruct Hin as [<-|[]]. auto. }
  unfold dispatcher_inv. cbn [ChanTimer d_timers d_trace].
  split; [exact Hopen'|]. split.
  { rewrite length_insert. exact Hbuf'. }
  split.
  { apply Forall_forall. intros ev Hin. apply list_elem_of_In, in_app_or in Hin as [Hin|Hin].
    - apply Hold, Hin.
    - destruct (Hnew ev Hin) as [-> Hc]. exists tm'.
      rewrite list_lookup_insert_eq by exact Hlt. auto. }
  split.
  { destruct Hevs as [[-> _]|[[-> _]|(cb & -> & Hsome & _)]].
    - rewrite app_nil_r. exact Hset.
    - apply settled_snoc; [exact Hset|]. intros e cb _. discriminate.
    - apply settled_snoc; [exact Hset|]. intros e cb' Hin Heq. injection Heq as Ht' _.
      rewrite Forall_forall in Hdone.
      destruct (Hdone e ltac:(apply list_elem_of_In; exact Hin)) as (tm0 & Hl & Hc).
      rewrite <- Ht' in Hl. congruence. }
  split.
  { intros t0 tm0 Hl. destruct (decide (t0 = t)) as [->|E].
    - rewrite list_lookup_insert_eq in Hl by exact Hlt. injection Hl as <-.
      destruct (Hcb t tm Ht) as [Hn|Ho].
      + left. apply Hnone, Hn.
      + destruct Hevs as [[_ E]|[[_ E]|(cb & _ & _ & E)]]; [right; congruence | auto | auto].
    - rewrite list_lookup_insert_ne in Hl by congruence. eapply Hcb, Hl. }
  intros t0 cb Hin. apply in_app_or in Hin as [Hin|Hin].
  - apply Hcalls, Hin.
  - destruct Hevs as [[-> _]|[[-> _]|(cb' & -> & Hsome & _)]].
    + destruct Hin.
    + destruct Hin as [Hin|[]]. discriminate.
    + destruct Hin as [Hin|[]]. injection Hin as <- <-.
      destruct (Hcb t tm Ht) as [Hn|Ho]; congruence.
Qed.

Lemma insert_same_inv (disp : Dispatcher) :
  dispatcher_inv orig disp ->
  forall ch', ch_closed ch' = false ->
    Forall (fun t0 => (t0 < length (d_timers disp))%nat) (ch_buf ch') ->
    dispatcher_inv orig {| ChanTimer := ch'; d_timers := d_timers disp;
                           d_log := d_log disp; d_trace := d_trace disp |}.
Proof.
  intros (Hopen & Hbuf & Hdone & Hset & Hcb & Hcalls) ch' Ho Hb.
  unfold dispatcher_inv. cbn [ChanTimer d_timers d_trace]. auto 10.
Qed.

Lemma timer_act_inv (disp : Dispatcher) (a : timer_action) :
  dispatcher_inv orig disp ->
  (forall d cb, a = DoAfterFunc d cb -> orig (length (d_timers disp)) = cb) ->
  exists disp',
    timer_act run_cb LenStackBuf runtime_Stack disp a = Returns disp' /\
    dispatcher_inv orig disp' /\
    length (d_timers disp')
    = (length (d_timers disp)
       + match a with DoAfterFunc _ _ => 1 | _ => 0 end)%nat.
Proof.
  intros Hinv Horig. pose proof Hinv as (Hopen & Hbuf & Hdone & Hset & Hcb & Hcalls).
  destruct a as [d cb|t|t|]; cbn [timer_act].
  - eexists. split; [reflexivity|]. cbn [AfterFunc fst d_timers].
    split; [|rewrite length_app; reflexivity].
    unfold dispatcher_inv. cbn [ChanTimer d_timers d_trace].
    split; [exact Hopen|]. split.
    { eapply Forall_impl; [exact Hbuf|]. intros t0 Ht0. cbn beta in *.
      rewrite length_app. lia. }
    split.
    { eapply Forall_impl; [exact Hdone|]. intros ev (tm0 & Hl & Hc). exists tm0.
      split; [apply lookup_app_l_Some, Hl | exact Hc]. }
    split; [exact Hset|]. split; [|exact Hcalls].
    intros t0 tm0 Hl. apply lookup_app_Some in Hl as [Hl|[Hge Hl]].
    + eapply Hcb, Hl.
    + destruct (t0 - length (d_timers disp))%nat as [|n] eqn:E; cbn in Hl; [|discriminate].
      injection Hl as <-. cbn [t_cb]. right.
      replace t0 with (length (d_timers disp)) by lia. symmetry. eapply Horig. reflexivity.
  - unfold fire. destruct (d_timers disp !! t) as [tm|] eqn:Ht;
      [|exists disp; rewrite Nat.add_0_r; auto].
    assert (Hlt : (t < length (d_timers disp))%nat) by (eapply lookup_lt_Some; eauto).
    assert (Hsend :
              exists disp',
                match chan_send (ChanTimer disp) t with
                | Sent ch' =>
                    Returns {| ChanTimer := ch';
                               d_timers := <[t := {| t_t := Fired; t_cb := t_cb tm |}]>
                                             (d_timers disp);
                               d_log := d_log disp; d_trace := d_trace disp |}
                | WouldBlock =>
                    Returns (set_timer disp t {| t_t := Parked; t_cb := t_cb tm |})
                | SendPanics => Panics "send on closed channel"
                end = Returns disp' /\
                dispatcher_inv orig disp' /\
                length (d_timers disp') = (length (d_timers disp) + 0)%nat).
    { unfold chan_send. rewrite Hopen.
      destruct (len (ch_buf (ChanTimer disp)) <? ch_cap (ChanTimer disp)).
      - eexists. split; [reflexivity|]. cbn [d_timers]. rewrite length_insert.
        split; [|lia].
        rewrite <- (app_nil_r (d_trace disp)).
        eapply update_inv; eauto.
        cbn [ch_buf]. apply Forall_app. split; [exact Hbuf|]. repeat constructor. exact Hlt.
      - eexists. split; [reflexivity|]. unfold set_timer. cbn [d_timers].
        rewrite length_insert. split; [|lia].
        rewrite <- (app_nil_r (d_trace disp)).
        eapply update_inv; eauto. }
    destruct (t_t tm); try exact Hsend; exists disp; rewrite Nat.add_0_r; auto.
  - destruct (d_timers disp !! t) as [tm|] eqn:Ht;
      [|exists disp; rewrite Nat.add_0_r; auto].
    unfold Timer_Stop. rewrite Ht. eexists. split; [reflexivity|]. cbn [d_timers].
    rewrite length_insert. split; [|lia].
    eapply update_inv; eauto.
  - unfold dispatch, chan_recv. destruct (ch_buf (ChanTimer disp)) as [|t rest] eqn:Hb.
    + rewrite Hopen. exists disp. rewrite Nat.add_0_r. auto.
    + inversion Hbuf as [|? ? Hlt Hrest]; subst.
      destruct (lookup_lt_is_Some_2 _ _ Hlt) as [tm Ht].
      unfold Timer_Cb. cbn [d_timers ChanTimer d_log d_trace]. rewrite Ht.
      destruct (t_cb tm) as [cb|] eqn:Hc.
      * eexists. split; [reflexivity|]. cbn [d_timers]. rewrite length_insert.
        split; [|lia].
        eapply update_inv; eauto. right. right. exists cb. auto.
      * eexists. split; [reflexivity|]. cbn [d_timers]. split; [|lia].
        apply insert_same_inv; auto.
Qed.

Lemma timer_acts_inv (xs : list timer_action) :
  forall disp,
    dispatcher_inv orig disp ->
    (forall t, given xs t = orig (length (d_timers disp) + t)) ->
    exists disp',
      timer_acts run_cb LenStackBuf runtime_Stack disp xs = Returns disp' /\
      dispatcher_inv orig disp'.
Proof.
  induction xs as [|a xs IH]; intros disp Hinv Hgiven.
  - exists disp. auto.
  - destruct (timer_act_inv disp a Hinv) as (d1 & E1 & Hinv1 & Hlen).
    { intros d cb ->. specialize (Hgiven 0%nat). cbn [given] in Hgiven.
      rewrite Nat.add_0_r in Hgiven. auto. }
    destruct (IH d1 Hinv1) as (disp' & E & Hinv').
    { intros t. rewrite Hlen. destruct a as [d cb| | |].
      - specialize (Hgiven (S t)). cbn [given] in Hgiven. rewrite Hgiven.
        f_equal. lia.
      - rewrite Nat.add_0_r. apply Hgiven.
      - rewrite Nat.add_0_r. apply Hgiven.
      - rewrite Nat.add_0_r. apply Hgiven. }
    exists disp'. cbn [timer_acts]. rewrite E1. cbn [obind]. auto.
Qed.

End dispatcher_properties.

(** A timer's callback is called at most once, and never after [Stop].
    Whatever timers are made, however their clocks fire, whenever the owner
    stops timers and takes timers from the channel, and also when the
    channel is full or a timer is stopped after it has fired: no step
    panics, no callback of a timer is called after that timer was stopped or
    its callback was called, and a callback that is called is the one its
    timer was made with. *)
Theorem Timer_callback_once (run_cb : string -> option string) (LenStackBuf : Z)
    (runtime_Stack : string) (l : Z) (xs : list timer_action) (d0 : Dispatcher) :
  NewDispatcher l = Returns d0 ->
  exists disp,
    timer_acts run_cb LenStackBuf runtime_Stack d0 xs = Returns disp /\
    settled (d_trace disp) /\
    (forall t cb, In (EvCall t cb) (d_trace disp) -> given xs t = Some cb).
Proof.
  unfold NewDispatcher, make_chan. destruct (Z.ltb_spec l 0); [discriminate|].
  cbn [obind]. intros [= <-].
  destruct (timer_acts_inv run_cb LenStackBuf runtime_Stack (given xs) xs
              {| ChanTimer := mkChan [] l false; d_timers := []; d_log := [];
                 d_trace := [] |})
    as (disp & E & (_ & _ & _ & Hset & _ & Hcalls)).
  - unfold dispatcher_inv. cbn [ChanTimer d_timers d_trace ch_buf ch_closed settled].
    split; [reflexivity|]. split; [constructor|]. split; [constructor|].
    split; [exact I|]. split.
    + intros t tm Hl. rewrite lookup_nil in Hl. discriminate.
    + intros t cb [].
  - intros t. reflexivity.
  - exists disp. auto.
Qed.

(** Two timers fire; the first is stopped before the owner takes it from
    the channel: only the callback of the second is called. *)
Lemma Timer_callback_once_witness :
  exists disp,
    timer_acts silent_cb 0 "" {| ChanTimer := mkChan [] 2 false; d_timers := []; d_log := [];
                           d_trace := [] |}
         [DoAfterFunc 5 (Some "a"); DoAfterFunc 5 (Some "b"); DoFire 0; DoFire 1;
          DoStop 0; DoDispatch; DoDispatch; DoDispatch] = Returns disp /\
    d_trace disp = [EvStop 0; EvCall 1 "b"] /\
    settled (d_trace disp).
Proof.
  destruct (Timer_callback_once silent_cb 0 "" 2
              [DoAfterFunc 5 (Some "a"); DoAfterFunc 5 (Some "b"); DoFire 0; DoFire 1;
               DoStop 0; DoDispatch; DoDispatch; DoDispatch] _ eq_refl)
    as (disp & E & Hset & _).
  exists disp. split; [exact E|]. split; [|exact Hset].
  vm_compute in E. injection E as <-. reflexivity.
Defined.

End dispatcher_facts.

(* ===================================================================== *)
(** * module: what Destroy waits for                                      *)
(* ===================================================================== *)

Module module_facts.

Section module_progress.

Variable OnDestroy_panic : string -> option string.
Variable LenStackBuf : Z.
Variable runtime_Stack : string.

Lemma Register_closeSig (names : list string) (r : registry) :
  Forall (fun m => closeSig m = mkChan [] 1 false) (mods r) ->
  Forall (fun m => closeSig m = mkChan [] 1 false) (mods (fold_left Register names r)).
Proof.
  revert r. induction names as [|x names IH]; intros r Hall; cbn [fold_left].
  - exact Hall.
  - apply IH. unfold Register. cbn [mods]. apply Forall_app. split; [exact Hall|].
    constructor; [reflexivity | constructor].
Qed.

Lemma started_closeSig_inv (names : list string) (pc : Destroy_pc) :
  closeSig_inv (started_registry names, pc).
Proof.
  intros j m Hj. cbn [fst snd] in *.
  unfold started_registry, Init in Hj. cbn [mods] in Hj.
  rewrite list_lookup_fmap in Hj.
  destruct (mods (fold_left Register names empty_registry) !! j) as [m0|] eqn:E;
    cbn in Hj; [|discriminate].
  injection Hj as <-.
  pose proof (Register_closeSig names empty_registry ltac:(constructor)) as Hall.
  rewrite Forall_forall in Hall.
  specialize (Hall m0 ltac:(eapply list_elem_of_lookup_2; exact E)).
  unfold closeSig_ok. cbn [closeSig]. rewrite Hall. cbn. auto.
Qed.

Lemma signalled_loop (i : Z) (j : nat) :
  signalled (AtDestroy i) j -> signalled (Destroy_loop (i - 1)) j.
Proof.
  unfold Destroy_loop. destruct (Z.geb_spec (i - 1) 0); cbn [signalled]; [lia | auto].
Qed.

Lemma closeSig_step (st st' : registry * Destroy_pc) :
  closeSig_inv st ->
  sys_step OnDestroy_panic LenStackBuf runtime_Stack st st' ->
  closeSig_inv st'.
Proof.
  intros Hinv Hstep. destruct Hstep as [r pc r' pc' H | r pc r' H].
  - destruct pc as [i|i|i|]; cbn [Destroy_step] in H; try discriminate.
    + destruct (mods r !! Z.to_nat i) as [m|] eqn:Hm; [|discriminate].
      destruct (chan_send (closeSig m) true) as [ch| |] eqn:Hsend; try discriminate.
      injection H as <- <-. intros j m' Hj. cbn [fst snd set_module mods] in *.
      destruct (decide (j = Z.to_nat i)) as [->|Hne].
      * assert (Hlt : (Z.to_nat i < length (mods r))%nat) by (eapply lookup_lt_Some; eauto).
        rewrite list_lookup_insert_eq in Hj by exact Hlt. injection Hj as <-.
        destruct (Hinv _ _ Hm) as (Ho & Hc & Hb). cbn [fst snd] in *.
        unfold chan_send in Hsend. rewrite Ho in Hsend.
        destruct (len (ch_buf (closeSig m)) <? ch_cap (closeSig m)); [|discriminate].
        injection Hsend as <-. unfold closeSig_ok. cbn [closeSig ch_closed ch_cap ch_buf].
        split; [reflexivity|]. split; [exact Hc|].
        destruct Hb as [Hb|Hb]; cbn [signalled] in *.
        -- destruct (Z.le_gt_cases 0 i).
           ++ right. lia.
           ++ right. lia.
        -- right. lia.
      * rewrite list_lookup_insert_ne in Hj by congruence.
        destruct (Hinv _ _ Hj) as (Ho & Hc & Hb). cbn [fst snd] in *.
        unfold closeSig_ok. split; [exact Ho|]. split; [exact Hc|].
        destruct Hb as [Hb|Hb]; [left; exact Hb|]. right. cbn [signalled] in *. lia.
    + destruct (mods r !! Z.to_nat i) as [m|] eqn:Hm; [|discriminate].
      destruct (wg m =? 0); [|discriminate].
      injection H as <- <-. intros j m' Hj. cbn [fst snd set_module mods] in *.
      assert (Hj' : mods r !! j = Some m').
      { destruct (decide (j = Z.to_nat i)) as [->|Hne].
        - assert (Hlt : (Z.to_nat i < length (mods r))%nat)
            by (eapply lookup_lt_Some; eauto).
          rewrite list_lookup_insert_eq in Hj by exact Hlt. congruence.
        - rewrite list_lookup_insert_ne in Hj by congruence. exact Hj. }
      destruct (Hinv _ _ Hj') as (Ho & Hc & Hb). cbn [fst snd] in *.
      unfold closeSig_ok. auto.
    + destruct (mods r !! Z.to_nat i) as [m|] eqn:Hm; [|discriminate].
      injection H as <- <-. intros j m' Hj. cbn [fst snd] in *.
      assert (Hj' : mods r !! j = Some m').
      { unfold destroy in Hj. destruct (OnDestroy_panic (mi m)); exact Hj. }
      destruct (Hinv _ _ Hj') as (Ho & Hc & Hb). cbn [fst snd] in *.
      unfold closeSig_ok. split; [exact Ho|]. split; [exact Hc|].
      destruct Hb as [Hb|Hb]; [left; exact Hb|]. right. apply signalled_loop, Hb.
  - destruct H as [r i m b rest Hm Hrun Hbuf | r i m Hm Hrun];
      intros j m' Hj; cbn [fst snd set_module mods] in *.
    + destruct (decide (j = i)) as [->|Hne].
      * assert (Hlt : (i < length (mods r))%nat) by (eapply lookup_lt_Some; eauto).
        rewrite list_lookup_insert_eq in Hj by exact Hlt. injection Hj as <-.
        destruct (Hinv _ _ Hm) as (Ho & Hc & Hb). cbn [fst snd] in *.
        unfold closeSig_ok. cbn [closeSig ch_closed ch_cap ch_buf].
        split; [exact Ho|]. split; [exact Hc|].
        destruct Hb as [Hb|Hb]; [congruence | right; exact Hb].
      * rewrite list_lookup_insert_ne in Hj by congruence. apply (Hinv _ _ Hj).
    + destruct (decide (j = i)) as [->|Hne].
      * assert (Hlt : (i < length (mods r))%nat) by (eapply lookup_lt_Some; eauto).
        rewrite list_lookup_insert_eq in Hj by exact Hlt. injection Hj as <-.
        apply (Hinv _ _ Hm).
      * rewrite list_lookup_insert_ne in Hj by congruence. apply (Hinv _ _ Hj).
Qed.

Lemma closeSig_reaches (st0 st : registry * Destroy_pc) :
  closeSig_inv st0 ->
  sys_reaches OnDestroy_panic LenStackBuf runtime_Stack st0 st ->
  closeSig_inv st.
Proof.
  intros H0 Hr. induction Hr as [|st st' _ IH Hstep]; [exact H0|].
  eapply closeSig_step; eauto.
Qed.

(** [Destroy] waits for nothing but the run tasks.  After the modules were
    registered and started, in every state that the task running [Destroy]
    and the run tasks can reach, [Destroy] can take its next step, with one
    exception: at the wait for a module whose [Run] has not returned yet.
    In particular the send of the close signal never waits, and once the
    [Run] of the module has returned the wait is over. *)
Theorem Destroy_waits_only_for_Run (names : list string) (r : registry)
    (pc : Destroy_pc) :
  sys_reaches OnDestroy_panic LenStackBuf runtime_Stack
    (started_registry names, Destroy_start (started_registry names)) (r, pc) ->
  match pc with
  | AtSend i | AtDestroy i =>
      exists st', Destroy_step OnDestroy_panic LenStackBuf runtime_Stack r pc = Some st'
  | AtWait i =>
      exists m,
        mods r !! Z.to_nat i = Some m /\
        (task m = Returned ->
         exists st', Destroy_step OnDestroy_panic LenStackBuf runtime_Stack r pc = Some st') /\
        (task m = Running ->
         Destroy_step OnDestroy_panic LenStackBuf runtime_Stack r pc = None)
  | Finished => True
  end.
Proof.
  intros Hreach.
  pose proof (sys_reaches_inv _ _ _ _ _ _ (started_registry_inv names) Hreach)
    as (Hlen & Hmods & Hpc & _).
  pose proof (closeSig_reaches _ _ (started_closeSig_inv names _) Hreach) as Hsig.
  cbn [fst snd] in *.
  assert (Hlook : forall i, 0 <= i < Z.of_nat (length names) ->
                            exists m, mods r !! Z.to_nat i = Some m).
  { intros i Hi. apply lookup_lt_is_Some_2. lia. }
  destruct pc as [i|i|i|]; cbn [pc_ok] in Hpc; [| | |exact I].
  - destruct Hpc as [Hi _]. destruct (Hlook i Hi) as [m Hm].
    cbn [Destroy_step]. rewrite Hm.
    destruct (Hsig _ _ Hm) as (Ho & Hc & Hb). cbn [fst snd signalled] in *.
    destruct Hb as [Hb|Hb]; [|lia].
    unfold chan_send. rewrite Ho, Hb, Hc. cbn. eexists. reflexivity.
  - destruct Hpc as [Hi _]. destruct (Hlook i Hi) as [m Hm].
    exists m. split; [exact Hm|]. cbn [Destroy_step]. rewrite Hm.
    destruct (Hmods _ _ Hm) as [[Hrun Hwg]|(Hret & Hwg & _)]; rewrite Hwg.
    + split; [intros Ht; congruence | reflexivity].
    + split; [intros _; eexists; reflexivity | intros Ht; congruence].
  - destruct Hpc as [Hi _]. destruct (Hlook i Hi) as [m Hm].
    cbn [Destroy_step]. rewrite Hm. eexists. reflexivity.
Qed.

End module_progress.

(** Two modules; the close signal of the second has been sent and its run
    task has not returned: [Destroy] waits; once it has returned, [Destroy]
    goes on. *)
Lemma Destroy_waits_only_for_Run_witness :
  exists r m,
    Destroy_step sample_OnDestroy_panic 0 "" sample_registry (AtSend 1) = Some (r, AtWait 1) /\
    mods r !! 1%nat = Some m /\
    (task m = Running ->
     Destroy_step sample_OnDestroy_panic 0 "" r (AtWait 1) = None).
Proof.
  destruct (Destroy_step sample_OnDestroy_panic 0 "" sample_registry (AtSend 1))
    as [[r pc]|] eqn:E; [|discriminate].
  assert (Hpc : pc = AtWait 1) by (vm_compute in E; congruence).
  subst pc.
  assert (Hreach : sys_reaches sample_OnDestroy_panic 0 ""
                     (started_registry ["game"; "gate"]%string,
                      Destroy_start (started_registry ["game"; "gate"]%string))
                     (r, AtWait 1)).
  { eapply sys_reach_step; [apply sys_reach_refl|]. apply sys_destroy. exact E. }
  destruct (Destroy_waits_only_for_Run sample_OnDestroy_panic 0 ""
              ["game"; "gate"]%string r (AtWait 1) Hreach) as (m & Hm & _ & Hwait).
  exists r, m. split; [reflexivity|]. split; [exact Hm | exact Hwait].
Defined.

End module_facts.

(* ===================================================================== *)
(** * network: the TCP client                                             *)
(* ===================================================================== *)

Module tcp_client_facts.
Import tcp_client.

Lemma live_tasks_insert (tasks : list connect_pc) :
  forall (k : nat) (pc pc' : connect_pc),
    tasks !! k = Some pc ->
    live_tasks (<[k := pc']> tasks) = live_tasks tasks - live pc + live pc'.
Proof.
  induction tasks as [|t tasks IH]; intros k pc pc' Hk.
  - rewrite lookup_nil in Hk. discriminate.
  - destruct k as [|k]; cbn [lookup list_lookup] in Hk.
    + injection Hk as ->. cbn [insert list_insert live_tasks fold_right]. lia.
    + change (<[S k := pc']> (t :: tasks)) with (t :: <[k := pc']> tasks).
      cbn [live_tasks fold_right]. fold (live_tasks (<[k := pc']> tasks)).
      fold (live_tasks tasks). rewrite (IH k pc pc' Hk). lia.
Qed.

Lemma live_tasks_repeat (n : nat) : live_tasks (repeat Dialing n) = Z.of_nat n.
Proof.
  induction n as [|n IH]; cbn [repeat live_tasks fold_right live]; [reflexivity|].
  fold (live_tasks (repeat Dialing n)). rewrite IH. lia.
Qed.

Lemma live_tasks_close (set : gset nat) (tasks : list connect_pc) :
  live_tasks (map (close_transport set) tasks) = live_tasks tasks.
Proof.
  induction tasks as [|t tasks IH]; cbn [map live_tasks fold_right]; [reflexivity|].
  fold (live_tasks (map (close_transport set) tasks)). fold (live_tasks tasks).
  rewrite IH. f_equal. destruct t as [| | id c |]; cbn [close_transport live];
    try reflexivity. destruct (decide (id ∈ set)); reflexivity.
Qed.

Lemma agents_run_app (tr evs : list cli_event) :
  agents_run (tr ++ evs) = agents_run tr ++ agents_run evs.
Proof. unfold agents_run. apply flat_map_app. Qed.

Lemma TCPClient_Start_inv (connNum connectInterval pendingWriteNum : Z) (auto : bool)
    (l mn mx : Z) (le : bool) :
  TCPClient_inv (Start connNum connectInterval pendingWriteNum auto l mn mx le).
Proof.
  unfold TCPClient_inv, Start.
  cbn [cli_PendingWriteNum cli_conns cli_closeFlag cli_wg cli_tasks].
  split; [destruct (Z.leb_spec pendingWriteNum 0); lia|].
  split; [split; discriminate|]. split.
  - rewrite live_tasks_repeat. destruct (Z.leb_spec connNum 0); lia.
  - intros k id c Hk. apply list_elem_of_lookup_2, list_elem_of_In, repeat_spec in Hk.
    discriminate.
Qed.

Lemma TCPClient_Close_inv (cl : TCPClient) :
  TCPClient_inv cl -> TCPClient_inv (Close cl).
Proof.
  intros (Hp & Hnil & Hwg & Htcp). unfold TCPClient_inv, Close.
  cbn [cli_PendingWriteNum cli_conns cli_closeFlag cli_wg cli_tasks].
  split; [exact Hp|]. split; [split; reflexivity|].
  destruct (cli_conns cl) as [set|]; [|auto].
  split; [rewrite live_tasks_close; exact Hwg|].
  intros k id c Hk. rewrite list_lookup_fmap in Hk.
  destruct (cli_tasks cl !! k) as [pc|] eqn:E; cbn in Hk; [|discriminate].
  injection Hk as Hk. destruct pc as [| | id0 c0 |]; cbn [close_transport] in Hk;
    try discriminate.
  destruct (decide (id0 ∈ set)); injection Hk as <- <-.
  - exact (Htcp _ _ _ E).
  - exact (Htcp _ _ _ E).
Qed.

(** A step that puts task [k] at [pc'] and keeps the set [nil] if it is. *)
Lemma cli_update_inv (cl : TCPClient) (k : nat) (pc pc' : connect_pc)
    (conns' : option (gset nat)) (wg' : Z) (dials' : nat) (evs : list cli_event) :
  TCPClient_inv cl ->
  cli_tasks cl !! k = Some pc ->
  (conns' = None <-> cli_conns cl = None) ->
  wg' = cli_wg cl - live pc + live pc' ->
  (forall id c, pc' = Serving id c -> TCPConn_inv (cli_PendingWriteNum cl) c) ->
  TCPClient_inv (update cl conns' wg' (<[k := pc']> (cli_tasks cl)) dials' evs).
Proof.
  intros (Hp & Hnil & Hwg & Htcp) Hk Hconns -> Hnew. unfold TCPClient_inv, update.
  cbn [cli_PendingWriteNum cli_conns cli_closeFlag cli_wg cli_tasks].
  split; [exact Hp|]. split; [rewrite Hconns; exact Hnil|]. split.
  - rewrite (live_tasks_insert _ k pc pc' Hk), Hwg. reflexivity.
  - intros k0 id c Hk0. destruct (decide (k0 = k)) as [->|Hne].
    + rewrite list_lookup_insert_eq in Hk0 by (eapply lookup_lt_Some; eauto).
      injection Hk0 as E. eapply Hnew. exact E.
    + rewrite list_lookup_insert_ne in Hk0 by congruence. eapply Htcp, Hk0.
Qed.

Ltac flags :=
  intros;
  cbn [update task_returns cli_closeFlag cli_conns cli_trace];
  rewrite ?agents_run_app; cbn [agents_run flat_map app]; rewrite ?app_nil_r;
  auto.

Lemma cli_act_inv (cl : TCPClient) (x : cli_action) :
  TCPClient_inv cl ->
  exists cl',
    cli_act cl x = Returns cl' /\ TCPClient_inv cl' /\
    (cli_closeFlag cl = true ->
     cli_closeFlag cl' = true /\ cli_conns cl' = None /\
     agents_run (cli_trace cl') = agents_run (cli_trace cl)).
Proof.
  intros Hinv. pose proof Hinv as (Hp & Hnil & Hwg & Htcp).
  assert (Hstay : exists cl',
             Returns cl = Returns cl' /\ TCPClient_inv cl' /\
             (cli_closeFlag cl = true ->
              cli_closeFlag cl' = true /\ cli_conns cl' = None /\
              agents_run (cli_trace cl') = agents_run (cli_trace cl))).
  { exists cl. split; [reflexivity|]. split; [exact Hinv|]. intros Hcf.
    split; [exact Hcf|]. split; [apply Hnil, Hcf | reflexivity]. }
  destruct x as [k res|k|k a|k|]; cbn [cli_act].
  - unfold connect_dial.
    destruct (cli_tasks cl !! k) as [[| | |]|] eqn:Hk; try exact Hstay.
    destruct res as [nc|err].
    + eexists. split; [reflexivity|]. split.
      * eapply cli_update_inv; [exact Hinv | exact Hk | reflexivity | cbn [live]; lia | discriminate].
      * intros Hcf. split; [exact Hcf|]. split; [apply Hnil, Hcf | flags].
    + destruct (cli_closeFlag cl) eqn:Hcf.
      * eexists. split; [reflexivity|]. split.
        -- eapply cli_update_inv; [exact Hinv | exact Hk | reflexivity | cbn [live]; lia | discriminate].
        -- intros _. split; [exact Hcf|]. split; [exact (proj2 Hnil eq_refl) | flags].
      * eexists. split; [reflexivity|]. split; [exact Hinv | discriminate].
  - unfold connect_enter.
    destruct (cli_tasks cl !! k) as [[|id nc| |]|] eqn:Hk; try exact Hstay.
    destruct (cli_closeFlag cl) eqn:Hcf.
    + eexists. split; [reflexivity|]. split.
      * eapply cli_update_inv; [exact Hinv | exact Hk | reflexivity | cbn [live]; lia | discriminate].
      * intros _. split; [exact Hcf|]. split; [exact (proj2 Hnil eq_refl) | flags].
    + destruct (cli_conns cl) as [set|] eqn:Hset.
      * unfold newTCPConn, make_chan.
        destruct (Z.ltb_spec (cli_PendingWriteNum cl) 0); [lia|]. cbn [obind].
        eexists. split; [reflexivity|]. split; [|discriminate].
        eapply cli_update_inv; [exact Hinv | exact Hk | | | ].
        -- rewrite Hset. split; discriminate.
        -- cbn [live]; lia.
        -- intros id0 c0 E. injection E as <- <-. unfold TCPConn_inv, len.
           cbn [writeChan ch_cap ch_buf ch_closed closeFlag length].
           auto with zarith.
      * pose proof (proj1 Hnil eq_refl). discriminate.
  - unfold connect_serve.
    destruct (cli_tasks cl !! k) as [[| |id c|]|] eqn:Hk; try exact Hstay.
    destruct a as [b|].
    + destruct (server_facts.TCPConn_inv_Write_returns _ c (Some b) (Htcp _ _ _ Hk))
        as [c' Hw].
      rewrite Hw. cbn [obind]. eexists. split; [reflexivity|]. split.
      * eapply cli_update_inv; [exact Hinv | exact Hk | reflexivity | cbn [live]; lia|].
        intros id0 c0 E. injection E as <- <-.
        eapply TCPConn_Write_inv; [eapply Htcp, Hk | exact Hw].
      * intros Hcf. split; [exact Hcf|]. split; [apply Hnil, Hcf | flags].
    + destruct (TCPConn_writer_step c false) as [c'|] eqn:Hstep; [|exact Hstay].
      eexists. split; [reflexivity|]. split.
      * eapply cli_update_inv; [exact Hinv | exact Hk | reflexivity | cbn [live]; lia|].
        intros id0 c0 E. injection E as <- <-.
        eapply TCPConn_step_inv; [eapply Htcp, Hk|]. eapply TCP_step_writer, Hstep.
      * intros Hcf. split; [exact Hcf|]. split; [apply Hnil, Hcf | flags].
  - unfold connect_leave.
    destruct (cli_tasks cl !! k) as [[| |id c|]|] eqn:Hk; try exact Hstay.
    destruct (server_facts.TCPConn_inv_Close_returns _ c (Htcp _ _ _ Hk)) as [c' Hc].
    rewrite Hc. cbn [obind].
    assert (Hconns : match cli_conns cl with
                     | Some set => Some (set ∖ {[id]})
                     | None => None
                     end = None <-> cli_conns cl = None).
    { destruct (cli_conns cl); split; congruence. }
    destruct (AutoReconnect cl).
    + eexists. split; [reflexivity|]. split.
      * eapply cli_update_inv; [exact Hinv | exact Hk | exact Hconns | cbn [live]; lia | discriminate].
      * intros Hcf. split; [exact Hcf|]. split; [apply Hconns, Hnil, Hcf | flags].
    + eexists. split; [reflexivity|]. split.
      * eapply cli_update_inv; [exact Hinv | exact Hk | exact Hconns | cbn [live]; lia | discriminate].
      * intros Hcf. split; [exact Hcf|]. split; [apply Hconns, Hnil, Hcf | flags].
  - eexists. split; [reflexivity|]. split; [apply TCPClient_Close_inv, Hinv|].
    intros Hcf. unfold Close. cbn [cli_closeFlag cli_conns cli_trace].
    split; [reflexivity|]. split; [reflexivity|].
    rewrite (proj2 Hnil Hcf), app_nil_r. reflexivity.
Qed.

Lemma cli_acts_inv (xs : list cli_action) :
  forall cl,
    TCPClient_inv cl ->
    exists cl',
      cli_acts cl xs = Returns cl' /\ TCPClient_inv cl' /\
      (cli_closeFlag cl = true ->
       cli_closeFlag cl' = true /\ cli_conns cl' = None /\
       agents_run (cli_trace cl') = agents_run (cli_trace cl)).
Proof.
  induction xs as [|x xs IH]; intros cl Hinv.
  - exists cl. split; [reflexivity|]. split; [exact Hinv|]. intros Hcf.
    split; [exact Hcf|]. split; [apply Hinv, Hcf | reflexivity].
  - destruct (cli_act_inv cl x Hinv) as (cl1 & E1 & Hinv1 & Hf1).
    destruct (IH cl1 Hinv1) as (cl' & E & Hinv' & Hf).
    exists cl'. cbn [cli_acts]. rewrite E1. cbn [obind].
    split; [exact E|]. split; [exact Hinv'|]. intros Hcf.
    destruct (Hf1 Hcf) as (Hcf1 & _ & Ha1). destruct (Hf Hcf1) as (Hcf' & Hn' & Ha').
    split; [exact Hcf'|]. split; [exact Hn'|]. congruence.
Qed.


End tcp_client_facts.
